(** * CODE2TEST: structured-data extraction, multi-file response parsing
      and sandboxed materialization

    A shallow embedding of the parsing and storage functions of
    [code2test.py] and [code2testt.py], and the properties their
    specification states about them.

    Conventions of the embedding.
    - A Python [str] is a list of characters; a character is a code point
      below 256 (Rocq's [ascii]).  The classes [\s], [\w] and [.] and the
      methods [str.strip], [str.isspace] and [str.lower] follow CPython's
      Unicode tables on that range.
    - [os.path] is [posixpath] ([os.sep] is a slash).
    - Python's [re] is embedded as a small backtracking matcher over the
      constructs the source's patterns use; every pattern of the source is
      written as a term of that syntax.
    - [json.loads] is a library function: the Extractor is stated over an
      arbitrary decoder, and [json_loads_py] is a decoder used to evaluate
      the code on concrete texts.
    - The operating system is an interface ([OS]); [PosixFS] is an instance
      with directories, files and symbolic links. *)

From Stdlib Require Import List Ascii String Bool Arith Lia ZArith DecimalString.
Import ListNotations.

Set Implicit Arguments.
Set Warnings "-comment-terminator-in-string".

(** ** Python strings *)

Module PyStr.

Definition str := list ascii.

Definition chr (n : nat) : ascii := ascii_of_nat n.
Definition code (c : ascii) : nat := nat_of_ascii c.

(** String literals.  [L] takes the characters as they are; [Lq] reads an
    apostrophe as a quotation mark, so that JSON texts can be written
    down. *)
Definition L (s : string) : str := list_ascii_of_string s.

Definition Lq (s : string) : str :=
  map (fun c => if Ascii.eqb c (chr 39) then chr 34 else c) (L s).

Definition str_eqb (a b : str) : bool :=
  if list_eq_dec ascii_dec a b then true else false.

(** [Py_UNICODE_ISSPACE] below 256: TAB LF VT FF CR, FS GS RS US, SPACE,
    NEL (0x85) and NBSP (0xA0). *)
Definition isspace_char (c : ascii) : bool :=
  let n := code c in
  ((9 <=? n) && (n <=? 13)) || ((28 <=? n) && (n <=? 32))
  || (n =? 133) || (n =? 160).

(** [\w] of a [str] pattern below 256: [str.isalnum] or an underscore. *)
Definition isword_char (c : ascii) : bool :=
  let n := code c in
  ((48 <=? n) && (n <=? 57)) || ((65 <=? n) && (n <=? 90))
  || ((97 <=? n) && (n <=? 122)) || (n =? 95)
  || (n =? 170) || (n =? 178) || (n =? 179) || (n =? 181) || (n =? 185)
  || (n =? 186) || ((188 <=? n) && (n <=? 190))
  || ((192 <=? n) && (n <=? 214)) || ((216 <=? n) && (n <=? 246))
  || (248 <=? n).

(** [str.lower] below 256. *)
Definition lower_char (c : ascii) : ascii :=
  let n := code c in
  if ((65 <=? n) && (n <=? 90))
     || ((192 <=? n) && (n <=? 222) && negb (n =? 215))
  then chr (n + 32) else c.

Definition lower (s : str) : str := map lower_char s.

Fixpoint lstrip (s : str) : str :=
  match s with
  | c :: s' => if isspace_char c then lstrip s' else s
  | [] => []
  end.

Definition rstrip (s : str) : str := rev (lstrip (rev s)).

(** [s.strip()] *)
Definition strip (s : str) : str := rstrip (lstrip s).

(** [s.isspace()]: at least one character, all of them whitespace. *)
Definition isspace (s : str) : bool :=
  match s with [] => false | _ => forallb isspace_char s end.

(** [s.startswith(p)] *)
Fixpoint startswith (p s : str) : bool :=
  match p, s with
  | [], _ => true
  | a :: p', b :: s' => Ascii.eqb a b && startswith p' s'
  | _ :: _, [] => false
  end.

(** [s.endswith(p)] *)
Definition endswith (p s : str) : bool := startswith (rev p) (rev s).

(** [s.split(sep)] for a one-character separator. *)
Fixpoint split (sep : ascii) (s : str) : list str :=
  match s with
  | [] => [[]]
  | c :: s' =>
      if Ascii.eqb c sep then [] :: split sep s'
      else match split sep s' with
           | w :: ws => (c :: w) :: ws
           | [] => [[c]]
           end
  end.

(** [sep.join(parts)] *)
Fixpoint join (sep : str) (parts : list str) : str :=
  match parts with
  | [] => []
  | [p] => p
  | p :: ps => p ++ sep ++ join sep ps
  end.

(** [s.replace(a, b)] for one-character [a] and [b]. *)
Definition replace (a b : ascii) (s : str) : str :=
  map (fun c => if Ascii.eqb c a then b else c) s.

(** [x in parts] *)
Definition mem (x : str) (parts : list str) : bool := existsb (str_eqb x) parts.

Definition nl : ascii := chr 10.
Definition backtick : ascii := chr 96.

End PyStr.
Import PyStr.

(** ** Python dictionaries

    A [dict] keeps its keys in insertion order; assigning to a key that is
    present replaces the value in place. *)

Module PyDict.

Section Dict.
Variable V : Type.

Definition dict := list (str * V).

Fixpoint set (k : str) (v : V) (d : dict) : dict :=
  match d with
  | [] => [(k, v)]
  | (k', v') :: d' => if str_eqb k' k then (k, v) :: d' else (k', v') :: set k v d'
  end.

Fixpoint get (k : str) (d : dict) : option V :=
  match d with
  | [] => None
  | (k', v') :: d' => if str_eqb k' k then Some v' else get k d'
  end.

Definition keys (d : dict) : list str := map fst d.

(** [d.update(e)] *)
Definition update (d e : dict) : dict := fold_left (fun acc kv => set (fst kv) (snd kv) acc) e d.

End Dict.

End PyDict.

(** ** Python regular expressions

    The constructs of the source's patterns: literals, the classes [\s],
    [\w], [.] and [[\s\S]], greedy and lazy stars over a class, an optional
    group, one capturing group, and the anchors.  Matching is by
    backtracking with a success continuation, in the priority order of
    [re]: a greedy star tries the longest run first, a lazy one the
    shortest, an optional group tries its body first. *)

Module Re.

Inductive regex : Type :=
| Lit (s : str)                          (* the characters of [s] *)
| Cls (p : ascii -> bool)                (* one character of a class *)
| Star (greedy : bool) (p : ascii -> bool) (* [C*] or [C*?] over a class *)
| Opt (r : regex)                        (* [(?:r)?] *)
| Group (r : regex)                      (* [(r)], group 1 *)
| Seq (r1 r2 : regex)
| Bol                                    (* [^] *)
| Eol.                                   (* [$], no MULTILINE *)

Declare Scope re_scope.
Delimit Scope re_scope with re.
Bind Scope re_scope with regex.
Infix "+++" := Seq (at level 60, right associativity) : re_scope.

(** Classes. *)
Definition cls_space : ascii -> bool := isspace_char.
Definition cls_word : ascii -> bool := isword_char.
Definition cls_any : ascii -> bool := fun _ => true.               (* [[\s\S]] *)
Definition cls_dot : ascii -> bool := fun c => negb (Ascii.eqb c nl). (* [.] *)

(** A matcher state: the absolute position, the text from there on, and the
    span of group 1 when it has matched. *)
Record mstate : Type := MState {
  m_pos : nat;
  m_rest : str;
  m_grp : option (nat * nat)
}.

Section Matcher.
Variable A : Type.

Fixpoint lit_k (s : str) (pos : nat) (rest : str) (g : option (nat * nat))
         (k : mstate -> option A) : option A :=
  match s with
  | [] => k (MState pos rest g)
  | c :: s' =>
      match rest with
      | x :: rest' => if Ascii.eqb x c then lit_k s' (S pos) rest' g k else None
      | [] => None
      end
  end.

Fixpoint star_greedy (p : ascii -> bool) (pos : nat) (rest : str) (g : option (nat * nat))
         (k : mstate -> option A) : option A :=
  match rest with
  | x :: rest' =>
      if p x then
        match star_greedy p (S pos) rest' g k with
        | Some r => Some r
        | None => k (MState pos rest g)
        end
      else k (MState pos rest g)
  | [] => k (MState pos rest g)
  end.

Fixpoint star_lazy (p : ascii -> bool) (pos : nat) (rest : str) (g : option (nat * nat))
         (k : mstate -> option A) : option A :=
  match k (MState pos rest g) with
  | Some r => Some r
  | None =>
      match rest with
      | x :: rest' => if p x then star_lazy p (S pos) rest' g k else None
      | [] => None
      end
  end.

Fixpoint run (r : regex) (st : mstate) (k : mstate -> option A) : option A :=
  match r with
  | Lit s => lit_k s (m_pos st) (m_rest st) (m_grp st) k
  | Cls p =>
      match m_rest st with
      | x :: rest' => if p x then k (MState (S (m_pos st)) rest' (m_grp st)) else None
      | [] => None
      end
  | Star true p => star_greedy p (m_pos st) (m_rest st) (m_grp st) k
  | Star false p => star_lazy p (m_pos st) (m_rest st) (m_grp st) k
  | Opt r1 =>
      match run r1 st k with
      | Some res => Some res
      | None => k st
      end
  | Group r1 =>
      run r1 st (fun st' => k (MState (m_pos st') (m_rest st') (Some (m_pos st, m_pos st'))))
  | Seq r1 r2 => run r1 st (fun st' => run r2 st' k)
  | Bol => if m_pos st =? 0 then k st else None
  | Eol =>
      match m_rest st with
      | [] => k st
      | [c] => if Ascii.eqb c nl then k st else None
      | _ => None
      end
  end.

End Matcher.

(** A match object: where the match ends and the span of group 1. *)
Record match_obj : Type := MatchObj {
  mo_start : nat;
  mo_end : nat;
  mo_grp : option (nat * nat)
}.

Definition accept (start : nat) (st : mstate) : option match_obj :=
  Some (MatchObj start (m_pos st) (m_grp st)).

(** [pattern.match(s)]: a match that starts at position 0. *)
Definition re_match (r : regex) (s : str) : option match_obj :=
  run r (MState 0 s None) (accept 0).

(** [pattern.search(s)]: the match at the leftmost position that has one. *)
Fixpoint search_from (r : regex) (pos : nat) (rest : str) : option match_obj :=
  match run r (MState pos rest None) (accept pos) with
  | Some m => Some m
  | None =>
      match rest with
      | _ :: rest' => search_from r (S pos) rest'
      | [] => None
      end
  end.

Definition re_search (r : regex) (s : str) : option match_obj := search_from r 0 s.

Definition slice (s : str) (a b : nat) : str := firstn (b - a) (skipn a s).

(** [m.group(1)] of a match in [s]. *)
Definition group1 (s : str) (m : match_obj) : str :=
  match mo_grp m with
  | Some (a, b) => slice s a b
  | None => []
  end.

(** [re.sub(r, "\1", s)] for a pattern that starts with [^]: only a match
    at position 0 is possible, and it is replaced by its group 1. *)
Definition re_sub_group1 (r : regex) (s : str) : str :=
  match re_match r s with
  | Some m => group1 s m ++ skipn (mo_end m) s
  | None => s
  end.

End Re.

(** ** JSON values and [json.loads] *)

Module Json.

(** The value [json.loads] returns.  A string holds code points (an escape
    [\uXXXX] can denote any); an integer is unbounded; a float is kept as
    the literal that denotes it; an object is a [dict]. *)
Inductive json : Type :=
| JNull                                   (* [None] *)
| JBool (b : bool)
| JInt (z : Z)
| JFloat (literal : str)
| JStr (s : list N)
| JArr (items : list json)
| JObj (members : list (list N * json)).

(** How a call of [json.loads] ends. *)
Inductive loads_result : Type :=
| LoadsOk (v : json)
| JSONDecodeError (msg : str)
| LoadsRaised (msg : str).   (* another exception, such as [RecursionError] *)

Definition key_eqb (a b : list N) : bool :=
  if list_eq_dec N.eq_dec a b then true else false.

(** [d[k] = v] on the members of an object. *)
Fixpoint obj_set (k : list N) (v : json) (d : list (list N * json)) : list (list N * json) :=
  match d with
  | [] => [(k, v)]
  | (k', v') :: d' => if key_eqb k' k then (k, v) :: d' else (k', v') :: obj_set k v d'
  end.

Definition obj_of_pairs (pairs : list (list N * json)) : list (list N * json) :=
  fold_left (fun d kv => obj_set (fst kv) (snd kv) d) pairs [].

Inductive perr : Type := PDecode (msg : string) | PDepth.

Definition pres (A : Type) : Type := (A * str + perr)%type.

Definition is_json_ws (c : ascii) : bool :=
  let n := code c in (n =? 32) || (n =? 9) || (n =? 10) || (n =? 13).

Fixpoint skip_ws (s : str) : str :=
  match s with
  | c :: s' => if is_json_ws c then skip_ws s' else s
  | [] => []
  end.

Definition is_digit (c : ascii) : bool := (48 <=? code c) && (code c <=? 57).

Fixpoint span_digits (s : str) : str * str :=
  match s with
  | c :: s' => if is_digit c then let (d, r) := span_digits s' in (c :: d, r) else ([], s)
  | [] => ([], [])
  end.

Definition Z_of_digits (d : str) : Z :=
  fold_left (fun acc c => (acc * 10 + Z.of_nat (code c - 48))%Z) d 0%Z.

(** A number: an optional minus sign, then a zero or a nonzero digit with
    further digits; then optionally a fraction (a point and digits), and
    optionally an exponent (e or E, a sign, digits). *)
Definition scan_number (s : str) : option (json * str) :=
  let (neg, s1) := match s with
                   | c :: t => if code c =? 45 then (true, t) else (false, s)
                   | [] => (false, s)
                   end in
  let int_part :=
    match s1 with
    | c :: t =>
        if code c =? 48 then Some ([c], t)
        else if is_digit c then let (d, r) := span_digits t in Some (c :: d, r)
        else None
    | [] => None
    end in
  match int_part with
  | None => None
  | Some (ip, r1) =>
      let (frac, r2) :=
        match r1 with
        | c :: t =>
            if code c =? 46 then
              let (d, r) := span_digits t in
              match d with [] => ([], r1) | _ => (c :: d, r) end
            else ([], r1)
        | [] => ([], r1)
        end in
      let (ex, r3) :=
        match r2 with
        | c :: t =>
            if (code c =? 101) || (code c =? 69) then
              let (sgn, t') := match t with
                               | x :: t1 => if (code x =? 43) || (code x =? 45)
                                            then ([x], t1) else ([], t)
                               | [] => ([], t)
                               end in
              let (d, r) := span_digits t' in
              match d with [] => ([], r2) | _ => (c :: sgn ++ d, r) end
            else ([], r2)
        | [] => ([], r2)
        end in
      let sign := if neg then [chr 45] else [] in
      match frac, ex with
      | [], [] => Some (JInt (if neg then - Z_of_digits ip else Z_of_digits ip)%Z, r3)
      | _, _ => Some (JFloat (sign ++ ip ++ frac ++ ex), r3)
      end
  end.

Definition hex_val (c : ascii) : option N :=
  let n := code c in
  if (48 <=? n) && (n <=? 57) then Some (N.of_nat (n - 48))
  else if (97 <=? n) && (n <=? 102) then Some (N.of_nat (n - 87))
  else if (65 <=? n) && (n <=? 70) then Some (N.of_nat (n - 55))
  else None.

Definition hex4 (a b c d : ascii) : option N :=
  match hex_val a, hex_val b, hex_val c, hex_val d with
  | Some x, Some y, Some z, Some w => Some (((x * 16 + y) * 16 + z) * 16 + w)%N
  | _, _, _, _ => None
  end.

Definition is_high_surrogate (u : N) : bool := ((55296 <=? u) && (u <=? 56319))%N.
Definition is_low_surrogate (u : N) : bool := ((56320 <=? u) && (u <=? 57343))%N.

Definition simple_escape (e : ascii) : option N :=
  let n := code e in
  if n =? 34 then Some 34%N            (* quotation mark *)
  else if n =? 92 then Some 92%N       (* reverse solidus *)
  else if n =? 47 then Some 47%N       (* solidus *)
  else if n =? 98 then Some 8%N        (* b: backspace *)
  else if n =? 102 then Some 12%N      (* f: form feed *)
  else if n =? 110 then Some 10%N      (* n: line feed *)
  else if n =? 114 then Some 13%N      (* r: carriage return *)
  else if n =? 116 then Some 9%N       (* t: tab *)
  else None.

(** The body of a string literal, after its opening quote ([strict]
    decoding: a control character is an error). *)
Fixpoint scan_string (s : str) (acc : list N) : pres (list N) :=
  match s with
  | [] => inr (PDecode "Unterminated string starting at")
  | c :: t =>
      if code c =? 34 then inl (rev acc, t)
      else if code c =? 92 then
        match t with
        | [] => inr (PDecode "Unterminated string starting at")
        | e :: t1 =>
            if code e =? 117 then
              match t1 with
              | h1 :: h2 :: h3 :: h4 :: t2 =>
                  match hex4 h1 h2 h3 h4 with
                  | None => inr (PDecode "Invalid \uXXXX escape")
                  | Some u =>
                      match t2 with
                      | b :: x :: l1 :: l2 :: l3 :: l4 :: (_ :: _) as t3 =>
                          if is_high_surrogate u && (code b =? 92) && (code x =? 117) then
                            match hex4 l1 l2 l3 l4 with
                            | None => inr (PDecode "Invalid \uXXXX escape")
                            | Some u2 =>
                                if is_low_surrogate u2
                                then scan_string t3
                                       ((65536 + (u - 55296) * 1024 + (u2 - 56320))%N :: acc)
                                else scan_string t2 (u :: acc)
                            end
                          else scan_string t2 (u :: acc)
                      | _ => scan_string t2 (u :: acc)
                      end
                  end
              | _ => inr (PDecode "Invalid \uXXXX escape")
              end
            else
              match simple_escape e with
              | Some n => scan_string t1 (n :: acc)
              | None => inr (PDecode "Invalid \escape")
              end
        end
      else if code c <? 32 then inr (PDecode "Invalid control character at")
      else scan_string t (N.of_nat (code c) :: acc)
  end.

Inductive mode : Type :=
| MValue
| MItems (acc : list json)
| MMembers (acc : list (list N * json)).

(** The scanner: a value, the rest of an array from its next item, or the
    rest of an object from its next key.  [fuel] bounds the recursion. *)
Fixpoint scan (fuel : nat) (m : mode) (s : str) : pres json :=
  match fuel with
  | O => inr PDepth
  | S f =>
      match m with
      | MValue =>
          match s with
          | [] => inr (PDecode "Expecting value")
          | c :: t =>
              if code c =? 34 then
                match scan_string t [] with
                | inl (k, r) => inl (JStr k, r)
                | inr e => inr e
                end
              else if code c =? 123 then
                match skip_ws t with
                | x :: r => if code x =? 125 then inl (JObj [], r)
                            else scan f (MMembers []) (x :: r)
                | [] => scan f (MMembers []) []
                end
              else if code c =? 91 then
                match skip_ws t with
                | x :: r => if code x =? 93 then inl (JArr [], r)
                            else scan f (MItems []) (x :: r)
                | [] => scan f (MItems []) []
                end
              else if startswith (L "null") s then inl (JNull, skipn 4 s)
              else if startswith (L "true") s then inl (JBool true, skipn 4 s)
              else if startswith (L "false") s then inl (JBool false, skipn 5 s)
              else if startswith (L "NaN") s then inl (JFloat (L "NaN"), skipn 3 s)
              else if startswith (L "Infinity") s then inl (JFloat (L "Infinity"), skipn 8 s)
              else if startswith (L "-Infinity") s then inl (JFloat (L "-Infinity"), skipn 9 s)
              else match scan_number s with
                   | Some vr => inl vr
                   | None => inr (PDecode "Expecting value")
                   end
          end
      | MItems acc =>
          match scan f MValue s with
          | inr e => inr e
          | inl (v, r) =>
              match skip_ws r with
              | x :: r' =>
                  if code x =? 93 then inl (JArr (rev (v :: acc)), r')
                  else if code x =? 44 then scan f (MItems (v :: acc)) (skip_ws r')
                  else inr (PDecode "Expecting ',' delimiter")
              | [] => inr (PDecode "Expecting ',' delimiter")
              end
          end
      | MMembers acc =>
          match s with
          | q :: t =>
              if code q =? 34 then
                match scan_string t [] with
                | inr e => inr e
                | inl (key, r) =>
                    match skip_ws r with
                    | x :: r1 =>
                        if code x =? 58 then
                          match scan f MValue (skip_ws r1) with
                          | inr e => inr e
                          | inl (v, r2) =>
                              match skip_ws r2 with
                              | y :: r3 =>
                                  if code y =? 125
                                  then inl (JObj (obj_of_pairs (rev ((key, v) :: acc))), r3)
                                  else if code y =? 44
                                  then scan f (MMembers ((key, v) :: acc)) (skip_ws r3)
                                  else inr (PDecode "Expecting ',' delimiter")
                              | [] => inr (PDecode "Expecting ',' delimiter")
                              end
                          end
                        else inr (PDecode "Expecting ':' delimiter")
                    | [] => inr (PDecode "Expecting ':' delimiter")
                    end
                end
              else inr (PDecode "Expecting property name enclosed in double quotes")
          | [] => inr (PDecode "Expecting property name enclosed in double quotes")
          end
      end
  end.

(** [json.loads(s)]: one value between optional whitespace, and nothing
    else.  The fuel is more than any text of that length consumes. *)
Definition json_loads_py (s : str) : loads_result :=
  match scan (2 * List.length s + 2) MValue (skip_ws s) with
  | inl (v, r) =>
      match skip_ws r with
      | [] => LoadsOk v
      | _ :: _ => JSONDecodeError (L "Extra data")
      end
  | inr (PDecode msg) => JSONDecodeError (L msg)
  | inr PDepth => LoadsRaised (L "RecursionError")
  end.

Definition jstr (s : string) : json := JStr (map (fun c => N.of_nat (code c)) (L s)).
Definition jkey (s : string) : list N := map (fun c => N.of_nat (code c)) (L s).

End Json.
Import Json.

(** ** Output of the scripts: the lines they print *)

Inductive line : Type :=
| Stdout (s : str)
| Stderr (s : str).

(** ** The Structured-Data Extractor ([parse_analysis_response]) *)

Module Extractor.
Import Re.

(** "```json\s*([\s\S]*?)\s*```" *)
Definition json_block_pattern : regex :=
  (Lit (L "```json") +++ Star true cls_space +++ Group (Star false cls_any)
   +++ Star true cls_space +++ Lit (L "```"))%re.

(** "(\{[\s\S]*\})" *)
Definition json_pattern : regex :=
  Group (Lit (L "{") +++ Star true cls_any +++ Lit (L "}"))%re.

(** "^```(?:json)?\s*([\s\S]*)\s*```$" *)
Definition outer_fence_pattern : regex :=
  (Bol +++ Lit (L "```") +++ Opt (Lit (L "json")) +++ Star true cls_space
   +++ Group (Star true cls_any) +++ Star true cls_space +++ Lit (L "```") +++ Eol)%re.

(** [response_text[:500] + "..." if len(response_text) > 500 else response_text] *)
Definition raw_excerpt (response_text : str) : str :=
  if 500 <? List.length response_text
  then firstn 500 response_text ++ L "..."
  else response_text.

(** How a block of statements ends: it returns from the function, it runs
    to its end, or it raises an exception that is not caught in it.  Each
    carries the lines printed. *)
Inductive flow : Type :=
| Return (v : json) (out : list line)
| Pass (out : list line)
| Raise (msg : str) (out : list line).

(** Sequencing: the second block runs when the first runs to its end. *)
Definition andthen (a : flow) (b : unit -> flow) : flow :=
  match a with
  | Return v out => Return v out
  | Raise msg out => Raise msg out
  | Pass out =>
      match b tt with
      | Return v out' => Return v (out ++ out')
      | Pass out' => Pass (out ++ out')
      | Raise msg out' => Raise msg (out ++ out')
      end
  end.

Notation "a ;; b" := (andthen a (fun _ => b)) (at level 61, right associativity).

Section Cascade.

(** [json.loads] *)
Variable json_loads : str -> loads_result.

(** [try: plan = json.loads(text); print(success); return plan
    except json.JSONDecodeError as e: on_error(e)] *)
Definition try_loads (text : str) (success : str) (on_error : str -> list line) : flow :=
  match json_loads text with
  | LoadsOk v => Return v [Stdout success]
  | JSONDecodeError msg => Pass (on_error msg)
  | LoadsRaised msg => Raise msg []
  end.

Definition first_attempt (response_text : str) : flow :=
  try_loads (strip response_text)
    (L "Successfully parsed analysis plan directly (JSON).") (fun _ => []).

Definition second_attempt (response_text : str) : flow :=
  match re_search json_block_pattern response_text with
  | Some m =>
      let json_content := strip (group1 response_text m) in
      try_loads json_content
        (L "Successfully parsed analysis plan from markdown code block.") (fun _ => [])
  | None => Pass []
  end.

Definition third_attempt (response_text : str) : flow :=
  match re_search json_pattern response_text with
  | Some m =>
      let possible_json := group1 response_text m in
      try_loads possible_json
        (L "Successfully parsed analysis plan from extracted JSON object.") (fun _ => [])
  | None => Pass []
  end.

Definition final_attempt (response_text : str) : flow :=
  if startswith (L "```") (strip response_text) && endswith (L "```") (strip response_text)
  then
    let cleaned_text := re_sub_group1 outer_fence_pattern (strip response_text) in
    try_loads cleaned_text
      (L "Successfully parsed analysis plan after removing outer markdown markers.")
      (fun e => [Stdout (L "All JSON parsing attempts failed: " ++ e)])
  else Pass [].

Definition raw_report (response_text : str) : list line :=
  [Stdout (L "--- Raw Response Text (Agent 1) ---");
   Stdout (raw_excerpt response_text);
   Stdout (L "------------------------------------")].

(** The body of the outer [try]. *)
Definition attempts (response_text : str) : flow :=
  first_attempt response_text ;;
  second_attempt response_text ;;
  third_attempt response_text ;;
  final_attempt response_text ;;
  Return JNull
    (Stdout (L "Warning: Could not parse any valid JSON from the response.")
     :: raw_report response_text).

(** [try: body except Exception as e: print(...); return None] *)
Definition parse_analysis_response (response_text : str) : flow :=
  Pass [Stdout (L "--- Parsing Analysis Response ---")] ;;
  match attempts response_text with
  | Raise e out =>
      Return JNull
        (out ++ Stderr (L "Error parsing analysis response: " ++ e)
             :: raw_report response_text)
  | other => other
  end.

End Cascade.

(** The value a call returns, and the lines it prints. *)
Definition returned (f : flow) : option json :=
  match f with Return v _ => Some v | _ => None end.

Definition printed (f : flow) : list line :=
  match f with Return _ out | Pass out | Raise _ out => out end.

End Extractor.

(** ** The Extractor, strategy by strategy

    The four strategies of section 4.1, each as the text that the code
    hands to the decoder, written with plain string operations (no
    patterns), and the cascade over them.  The fence of strategy 4 is
    removed as the code removes it. *)

Module ExtractorSpec.

(** The first position from which [P] holds of the rest of the text. *)
Fixpoint find_first (P : str -> bool) (s : str) : option nat :=
  if P s then Some 0
  else match s with
       | [] => None
       | _ :: s' => option_map S (find_first P s')
       end.

(** [hay.find(needle)] *)
Definition find (needle hay : str) : option nat := find_first (startswith needle) hay.

(** The position of the last occurrence of a character. *)
Fixpoint rfind_char (c : ascii) (s : str) : option nat :=
  match s with
  | [] => None
  | x :: s' =>
      match rfind_char c s' with
      | Some i => Some (S i)
      | None => if Ascii.eqb x c then Some 0 else None
      end
  end.

(** Strategy 1: the trimmed whole text. *)
Definition whole_text (text : str) : option str := Some (strip text).

(** Strategy 2: the interior of the first fenced block tagged [json]: what
    stands between the first opening tag and the next fence token, trimmed. *)
Definition tagged_fence_interior (text : str) : option str :=
  match find (L "```json") text with
  | Some i =>
      let after := skipn (i + 7) text in
      match find (L "```") after with
      | Some j => Some (strip (firstn j after))
      | None => None
      end
  | None => None
  end.

(** Strategy 3: from the first opening brace to the last closing brace. *)
Definition brace_span (text : str) : option str :=
  match find (L "{") text with
  | Some a =>
      match rfind_char (chr 125) (skipn (S a) text) with
      | Some b => Some (firstn (b + 2) (skipn a text))
      | None => None
      end
  | None => None
  end.

(** The fence removed from a text that starts and ends with the fence
    token, as the code removes it: the token at the head, a [json] tag
    right after it (no other tag) and the whitespace that follows, and the
    token at the end.  A text too short to hold two tokens is left as it
    is. *)
Definition strip_outer_fence (t : str) : str :=
  if 6 <=? List.length t then
    let inner := firstn (List.length t - 6) (skipn 3 t) in
    lstrip (if startswith (L "json") inner then skipn 4 inner else inner)
  else t.

(** Strategy 4: the trimmed text with its fence removed by
    [strip_outer_fence], when it starts and ends with the fence token. *)
Definition unfenced_text (text : str) : option str :=
  let t := strip text in
  if startswith (L "```") t && endswith (L "```") t
  then Some (strip_outer_fence t) else None.

Definition strategies (text : str) : list (option str) :=
  [whole_text text; tagged_fence_interior text; brace_span text; unfenced_text text].

(** The cascade: the candidates are decoded in order; the first value
    decoded is the result; a candidate that is absent or does not decode
    passes the turn; [None] when none is left, and when the decoder raises
    anything but a decoding error. *)
Fixpoint cascade (json_loads : str -> loads_result) (candidates : list (option str)) : json :=
  match candidates with
  | [] => JNull
  | None :: rest => cascade json_loads rest
  | Some c :: rest =>
      match json_loads c with
      | LoadsOk v => v
      | JSONDecodeError _ => cascade json_loads rest
      | LoadsRaised _ => JNull
      end
  end.



(** The lines that report a failure: the warning, and the message of the
    decoder's exception behind a fixed prefix. *)
Definition failure_line (l : line) : Prop :=
  l = Stdout (L "Warning: Could not parse any valid JSON from the response.")
  \/ (exists e, l = Stdout (L "All JSON parsing attempts failed: " ++ e))
  \/ (exists e, l = Stderr (L "Error parsing analysis response: " ++ e)).

(** A value in a fence tagged [json], and in a fence with no tag. *)
Definition wrap_tagged (s : str) : str := L "```json" ++ [nl] ++ s ++ [nl] ++ L "```".
Definition wrap_untagged (s : str) : str := L "```" ++ [nl] ++ s ++ [nl] ++ L "```".

End ExtractorSpec.
(** ** The Multi-File Response Parser ([code2test.py]) *)

Module Parser.
Import Re.

(** [os.sep] *)
Definition os_sep : ascii := "/"%char.

(** "^--- File:\s*(.*?)\s*(?:---)?$", in [parse_generation_response] *)
Definition file_delimiter_pattern : regex :=
  (Bol +++ Lit (L "--- File:") +++ Star true cls_space +++ Group (Star false cls_dot)
   +++ Star true cls_space +++ Opt (Lit (L "---")) +++ Eol)%re.

(** "^--- File:\s*(.*?)\s*(?:---)?(?:\s*\(NEW\))?$", in
    [parse_validation_response] *)
Definition file_delimiter_pattern_validation : regex :=
  (Bol +++ Lit (L "--- File:") +++ Star true cls_space +++ Group (Star false cls_dot)
   +++ Star true cls_space +++ Opt (Lit (L "---"))
   +++ Opt (Star true cls_space +++ Lit (L "(NEW)")) +++ Eol)%re.

(** "^```(\w*)$" *)
Definition code_block_pattern : regex :=
  (Bol +++ Lit (L "```") +++ Group (Star true cls_word) +++ Eol)%re.

(** "```(?:json)?\s*([\s\S]*?)\s*```", in [parse_validation_response] *)
Definition json_pattern : regex :=
  (Lit (L "```") +++ Opt (Lit (L "json")) +++ Star true cls_space
   +++ Group (Star false cls_any) +++ Star true cls_space +++ Lit (L "```"))%re.

(** The state of the loop of [process_content]. *)
Record cleaning : Type := Cleaning {
  result : list str;
  skip_next_line : bool;
  in_internal_block : bool
}.

Definition process_line (st : cleaning) (line : str) : cleaning :=
  if skip_next_line st then Cleaning (result st) false (in_internal_block st)
  else
    match re_match code_block_pattern (strip line) with
    | Some _ => Cleaning (result st) (skip_next_line st) (negb (in_internal_block st))
    | None => Cleaning (result st ++ [line]) (skip_next_line st) (in_internal_block st)
    end.

(** [process_content], the same nested function in both parsers. *)
Definition process_content (content_list : list str) (is_markdown_file : bool) : str :=
  match content_list with
  | [] => []
  | _ =>
      if is_markdown_file then join [nl] content_list
      else join [nl] (result (fold_left process_line content_list (Cleaning [] false false)))
  end.

(** [current_path.lower().endswith(('.md', '.markdown'))] *)
Definition is_markdown_file (current_path : str) : bool :=
  endswith (L ".md") (lower current_path) || endswith (L ".markdown") (lower current_path).

(** [current_path.replace('/', os.sep).replace('\\', os.sep)] *)
Definition normalized_path (current_path : str) : str :=
  replace "\"%char os_sep (replace "/"%char os_sep current_path).

(** The state of the loop over the lines. *)
Record scanning : Type := Scanning {
  files : PyDict.dict str;
  current_path : option str;
  current_content : list str;
  in_code_block : bool;
  code_block_language : option str
}.

(** Storing the file at hand, if there is one. *)
Definition save_current (st : scanning) : PyDict.dict str :=
  match current_path st with
  | Some p =>
      PyDict.set (normalized_path p)
        (process_content (current_content st) (is_markdown_file p)) (files st)
  | None => files st
  end.

Definition scan_line (delimiter : regex) (st : scanning) (line : str) : scanning :=
  match re_match delimiter line with
  | Some file_match =>
      Scanning (save_current st) (Some (strip (group1 line file_match))) [] false
        (code_block_language st)
  | None =>
      match current_path st with
      | Some _ =>
          match re_match code_block_pattern (strip line) with
          | Some code_match =>
              Scanning (files st) (current_path st) (current_content st ++ [line])
                (negb (in_code_block st)) (Some (group1 (strip line) code_match))
          | None =>
              Scanning (files st) (current_path st) (current_content st ++ [line])
                (in_code_block st) (code_block_language st)
          end
      | None => st
      end
  end.

(** The loop over the lines of a text and the saving of the last file. *)
Definition scan_files (delimiter : regex) (text : str) : PyDict.dict str :=
  save_current
    (fold_left (scan_line delimiter) (split nl (strip text)) (Scanning [] None [] false None)).

Definition decimal (n : nat) : str := L (NilEmpty.string_of_uint (Nat.to_uint n)).

(** [parse_generation_response]: the files and the lines printed. *)
Definition parse_generation_response (response : str) : PyDict.dict str * list line :=
  let files := scan_files file_delimiter_pattern response in
  (files,
   [Stdout (L "--- Parsing Generation Response ---");
    match files with
    | [] => Stdout (L "Warning: No files extracted from response.")
    | _ => Stdout (L "Extracted " ++ decimal (List.length files) ++ L " files from response.")
    end]).

(** How a call of [parse_validation_response] ends. *)
Inductive validation_result : Type :=
| Validated (validation_report : json) (files : PyDict.dict str) (out : list line)
| ValidationRaised (msg : str) (out : list line).

Section Validation.
Variable json_loads : str -> loads_result.

(** [response[json_end_pos:]] when a report block was found and text
    follows it. *)
Definition file_section (response : str) (json_match : option match_obj) : str :=
  match json_match with
  | Some m => if mo_end m <? List.length response then skipn (mo_end m) response else response
  | None => response
  end.

Definition parse_validation_response (response : str) : validation_result :=
  let header := Stdout (L "--- Parsing Validation Response ---") in
  let json_match := re_search json_pattern response in
  let files := scan_files file_delimiter_pattern_validation (file_section response json_match) in
  match json_match with
  | Some m =>
      match json_loads (strip (group1 response m)) with
      | LoadsOk report =>
          Validated report files
            [header; Stdout (L "Successfully parsed validation report (JSON).")]
      | LoadsRaised msg => ValidationRaised msg [header]
      | JSONDecodeError e =>
          let err := Stderr (L "Error: Failed to decode JSON validation report: " ++ e) in
          match re_search Extractor.json_pattern response with
          | Some m' =>
              match json_loads (group1 response m') with
              | LoadsOk report =>
                  Validated report files
                    [header; err;
                     Stdout (L "Successfully parsed validation report using fallback method.")]
              | _ =>
                  Validated JNull files
                    [header; err; Stdout (L "All validation report parsing methods failed.")]
              end
          | None => Validated JNull files [header; err]
          end
      end
  | None =>
      Validated JNull files
        [header;
         Stdout (L "Warning: No JSON validation report found in Agent 3's response.")]
  end.

End Validation.

End Parser.

(** ** The parser of [code2testt.py] *)

Module Code2testt.
Import Re.

(** "^--- File:\s*(.*?)\s*(?:---)?$" *)
Definition file_delimiter_pattern : regex := Parser.file_delimiter_pattern.

(** "^\s*```(?:\w+)?\s*$" *)
Definition markdown_fence_pattern : regex :=
  (Bol +++ Star true cls_space +++ Lit (L "```")
   +++ Opt (Cls cls_word +++ Star true cls_word) +++ Star true cls_space +++ Eol)%re.

Definition is_fence (line : str) : bool :=
  match re_match markdown_fence_pattern line with Some _ => true | None => false end.

(** [clean_content]: a fence at the head and a fence at the end of the
    lines are removed, and the joined text is trimmed. *)
Definition clean_content (content_list : list str) : str :=
  match content_list with
  | [] => []
  | _ =>
      let cleaned_list := content_list in
      let cleaned_list :=
        match cleaned_list with
        | first :: others => if is_fence first then others else cleaned_list
        | [] => cleaned_list
        end in
      let cleaned_list :=
        match cleaned_list with
        | [] => cleaned_list
        | _ => if is_fence (last cleaned_list []) then removelast cleaned_list
               else cleaned_list
        end in
      strip (join [nl] cleaned_list)
  end.

Record scanning : Type := Scanning {
  files : PyDict.dict str;
  current_path : option str;
  current_content : list str
}.

Definition save_current (st : scanning) : PyDict.dict str :=
  match current_path st with
  | Some p => PyDict.set (Parser.normalized_path p) (clean_content (current_content st)) (files st)
  | None => files st
  end.

Definition scan_line (st : scanning) (line : str) : scanning :=
  match re_match file_delimiter_pattern line with
  | Some m => Scanning (save_current st) (Some (strip (group1 line m))) []
  | None =>
      match current_path st with
      | Some _ => Scanning (files st) (current_path st) (current_content st ++ [line])
      | None => st
      end
  end.

(** [parse_ai_response] *)
Definition parse_ai_response (response : str) : PyDict.dict str :=
  save_current (fold_left scan_line (split nl (strip response)) (Scanning [] None [])).

End Code2testt.

(** ** The Parser as the specification words it *)

Module ParserSpec.

(** A fence-marker line: after trimming, the fence token, optionally
    followed by a language tag (word characters), and nothing else. *)
Definition is_fence_line (line : str) : bool :=
  let t := strip line in
  startswith (L "```") t && forallb isword_char (skipn 3 t).

(** The post-processing of a buffer: verbatim for a prose file, without its
    fence-marker lines otherwise. *)
Definition kept_lines (prose : bool) (buffer : list str) : list str :=
  if prose then buffer else filter (fun l => negb (is_fence_line l)) buffer.

(** What [clean_content] keeps: the buffer without a fence-marker line at
    its head and then without one at its end. *)
Definition without_outer_fences (buffer : list str) : list str :=
  let rest := match buffer with
              | first :: others => if is_fence_line first then others else buffer
              | [] => []
              end in
  match rest with
  | [] => []
  | _ => if is_fence_line (last rest []) then removelast rest else rest
  end.

(** The path a boundary-marker line announces, as the parser reads it. *)
Definition marker_path (line : str) : option str :=
  option_map (fun m => strip (Re.group1 line m)) (Re.re_match Parser.file_delimiter_pattern line).

(** A reply as a preamble and blocks: a marker line, the path read from
    it, and the lines buffered for it. *)
Definition block : Type := (str * str * list str)%type.

Definition block_lines (b : block) : list str :=
  match b with (marker, _, body) => marker :: body end.

Definition reply_lines (preamble : list str) (blocks : list block) : list str :=
  preamble ++ flat_map block_lines blocks.

Definition well_formed_block (b : block) : Prop :=
  match b with
  | (marker, path, body) =>
      marker_path marker = Some path /\ Forall (fun l => marker_path l = None) body
  end.

Definition block_key (b : block) : str :=
  match b with (_, path, _) => Parser.normalized_path path end.

(** The entry of a block: its slash-normalized path and its post-processed
    body. *)
Definition block_entry (b : block) : str * str :=
  match b with
  | (_, path, body) =>
      (Parser.normalized_path path,
       join [nl] (kept_lines (Parser.is_markdown_file path) body))
  end.

End ParserSpec.
(** ** [os.path] on POSIX ([posixpath]) *)

Module PosixPath.

Definition sep : ascii := "/"%char.
Definition dot : str := L ".".
Definition dotdot : str := L "..".

(** [os.path.isabs] *)
Definition isabs (s : str) : bool := startswith [sep] s.

(** [os.path.join(a, b)] *)
Definition join (a b : str) : str :=
  if startswith [sep] b then b
  else match a with
       | [] => a ++ b
       | _ => if endswith [sep] a then a ++ b else a ++ [sep] ++ b
       end.

(** One component in the loop of [normpath]. *)
Definition norm_step (initial_slashes : nat) (new_comps : list str) (comp : str) : list str :=
  if str_eqb comp [] || str_eqb comp dot then new_comps
  else if negb (str_eqb comp dotdot)
          || ((initial_slashes =? 0) && match new_comps with [] => true | _ => false end)
          || match new_comps with
             | [] => false
             | _ => str_eqb (last new_comps []) dotdot
             end
       then new_comps ++ [comp]
       else match new_comps with
            | [] => new_comps
            | _ => removelast new_comps
            end.

(** [os.path.normpath] *)
Definition normpath (path : str) : str :=
  match path with
  | [] => dot
  | _ =>
      let initial_slashes :=
        if startswith [sep] path
        then if startswith [sep; sep] path && negb (startswith [sep; sep; sep] path)
             then 2 else 1
        else 0 in
      let comps := split sep path in
      let new_comps := fold_left (norm_step initial_slashes) comps [] in
      let path := PyStr.join [sep] new_comps in
      let path := repeat sep initial_slashes ++ path in
      match path with
      | [] => dot
      | _ => path
      end
  end.

(** [os.path.abspath], with the current directory as [os.getcwd()] gives
    it. *)
Definition abspath (cwd path : str) : str :=
  normpath (if isabs path then path else join cwd path).

(** The text up to and with the last separator, and the text after it. *)
Fixpoint until_last_sep (p : str) : str * str :=
  match p with
  | [] => ([], [])
  | c :: p' =>
      let (head, tail) := until_last_sep p' in
      match head with
      | [] => if Ascii.eqb c sep then ([c], tail) else ([], c :: tail)
      | _ => (c :: head, tail)
      end
  end.

Fixpoint rstrip_sep_rev (r : str) : str :=
  match r with
  | c :: r' => if Ascii.eqb c sep then rstrip_sep_rev r' else r
  | [] => []
  end.

(** [head.rstrip(sep)] unless [head] is empty or separators only. *)
Definition trim_head (head : str) : str :=
  if forallb (fun c => Ascii.eqb c sep) head then head
  else rev (rstrip_sep_rev (rev head)).

(** [os.path.split] *)
Definition split_path (p : str) : str * str :=
  let (head, tail) := until_last_sep p in (trim_head head, tail).

(** [os.path.dirname] *)
Definition dirname (p : str) : str := fst (split_path p).

End PosixPath.

(** ** The operating system, as the scripts use it *)

Module Os.

(** How [shutil.rmtree] and [os.makedirs] end: the scripts catch
    [OSError] around them and nothing else. *)
Inductive os_outcome : Type :=
| Done
| OSError (msg : str)
| OtherError (msg : str).

(** How the writing of a file ends ([open] in mode w, [write], close): the
    scripts catch every [Exception] around it. *)
Inductive write_outcome : Type :=
| Written
| WriteError (msg : str).

(** How [os.getcwd] ends: the working directory, or [OSError]
    ([FileNotFoundError] when that directory is gone). *)
Inductive cwd_outcome : Type :=
| Cwd (path : str)
| CwdError (msg : str).

Record OS (World : Type) : Type := {
  getcwd : World -> cwd_outcome;
  path_exists : World -> str -> bool;          (* os.path.exists *)
  rmtree : World -> str -> World * os_outcome;  (* shutil.rmtree *)
  makedirs : World -> str -> World * os_outcome; (* os.makedirs *)
  write_file : World -> str -> str -> World * write_outcome
}.

(** What a run does, in order: the lines it prints, the calls that can
    change the file system and the calls of [os.getcwd], each with its
    outcome. *)
Inductive event : Type :=
| Printed (l : line)
| Rmtree (path : str) (r : os_outcome)
| Makedirs (path : str) (r : os_outcome)
| OpenWrite (path content : str) (r : write_outcome)
| Getcwd (r : cwd_outcome).

(** How a call of a function of the scripts ends. *)
Inductive ending (A : Type) : Type :=
| Returns (a : A)
| Exits (code : nat)       (* sys.exit(code) *)
| Raises (msg : str).

Arguments Returns {A} a.
Arguments Exits {A} code.
Arguments Raises {A} msg.

Section Monad.
Variable World : Type.

(** A computation: from a world and the events so far to a world, the
    events, and an ending. *)
Definition M (A : Type) : Type := World * list event -> World * list event * ending A.

Definition ret {A : Type} (a : A) : M A := fun s => (s, Returns a).

Definition bind {A B : Type} (m : M A) (f : A -> M B) : M B :=
  fun s =>
    match m s with
    | (s', Returns a) => f a s'
    | (s', Exits code) => (s', Exits code)
    | (s', Raises msg) => (s', Raises msg)
    end.

Definition print (l : line) : M unit :=
  fun s => ((fst s, snd s ++ [Printed l]), Returns tt).

Definition sys_exit {A : Type} (code : nat) : M A := fun s => (s, Exits code).

Definition raise {A : Type} (msg : str) : M A := fun s => (s, Raises msg).

Variable os : OS World.

(** [os.getcwd()] *)
Definition os_getcwd : M str :=
  fun s =>
    let r := getcwd os (fst s) in
    ((fst s, snd s ++ [Getcwd r]),
     match r with
     | Cwd cwd => Returns cwd
     | CwdError e => Raises e
     end).

(** [os.path.abspath(path)]: the working directory is asked for when the
    path is not absolute. *)
Definition os_path_abspath (path : str) : M str :=
  if PosixPath.isabs path then ret (PosixPath.normpath path)
  else bind os_getcwd (fun cwd => ret (PosixPath.normpath (PosixPath.join cwd path))).

Definition os_path_exists (p : str) : M bool :=
  fun s => (s, Returns (path_exists os (fst s) p)).

Definition shutil_rmtree (p : str) : M os_outcome :=
  fun s => let (w', r) := rmtree os (fst s) p in ((w', snd s ++ [Rmtree p r]), Returns r).

Definition os_makedirs (p : str) : M os_outcome :=
  fun s => let (w', r) := makedirs os (fst s) p in ((w', snd s ++ [Makedirs p r]), Returns r).

Definition open_write (p content : str) : M write_outcome :=
  fun s =>
    let (w', r) := write_file os (fst s) p content in
    ((w', snd s ++ [OpenWrite p content r]), Returns r).

(** [for x in xs: acc = body(x, acc)] *)
Fixpoint for_each {A B : Type} (xs : list A) (body : A -> B -> M B) (acc : B) : M B :=
  match xs with
  | [] => ret acc
  | x :: xs' => bind (body x acc) (fun acc' => for_each xs' body acc')
  end.

End Monad.

Arguments ret {World A} a.
Arguments bind {World A B} m f.
Arguments print {World} l.
Arguments sys_exit {World A} code.
Arguments raise {World A} msg.
Arguments for_each {World A B} xs body acc.

Declare Scope os_scope.
Delimit Scope os_scope with os.
Notation "x <- m ;; k" := (bind m (fun x => k))
  (at level 61, m at next level, right associativity) : os_scope.
Notation "m ;; k" := (bind m (fun _ => k))
  (at level 61, right associativity) : os_scope.

End Os.
(** ** The Path-Safe Materializer ([store_test_files]) *)

Module Materializer.
Import PosixPath Os.
Local Open Scope os_scope.

Section Store.
Variable World : Type.
Variable os : OS World.

Let M := Os.M World.

(** The part of the loop body that follows the checks of the path: the
    subdirectory, then the file.  It gives back whether a file was
    written. *)
Definition write_entry (abs_output_dir full_path content : str) : M bool :=
  let file_dir := dirname full_path in
  ready <-
    (if match file_dir with [] => false | _ => true end
        && negb (str_eqb file_dir abs_output_dir)
     then
       present <- os_path_exists os file_dir ;;
       if negb present then
         r <- os_makedirs os file_dir ;;
         match r with
         | Done => print (Stdout (L "Created subdirectory: " ++ file_dir)) ;; ret true
         | OSError e =>
             print (Stderr (L "Error creating subdirectory " ++ file_dir ++ L " for "
                            ++ full_path ++ L ": " ++ e)) ;;
             ret false
         | OtherError e => raise e
         end
       else ret true
     else ret true) ;;
  if ready : bool then
    r <- open_write os full_path content ;;
    match r with
    | Written => print (Stdout (L "Wrote file: " ++ full_path)) ;; ret true
    | WriteError e =>
        print (Stderr (L "Error writing file " ++ full_path ++ L ": " ++ e)) ;; ret false
    end
  else ret false.

(** The body of the loop over [files.items()]. *)
Definition store_entry (abs_output_dir : str) (entry : str * str) : M bool :=
  let (relative_file_path, content) := entry in
  if match relative_file_path with [] => true | _ => false end || isspace relative_file_path
  then
    print (Stderr (L "Warning: Skipping file with invalid relative path provided by AI: '"
                   ++ relative_file_path ++ L "'")) ;;
    ret false
  else
    let normalized_relative_path := normpath relative_file_path in
    if mem dotdot (split sep normalized_relative_path) then
      print (Stderr (L "Warning: Skipping potentially unsafe file path provided by AI: '"
                     ++ relative_file_path ++ L "'")) ;;
      ret false
    else if isabs normalized_relative_path then
      print (Stderr (L "Warning: Skipping absolute file path provided by AI: '"
                     ++ relative_file_path ++ L "'")) ;;
      ret false
    else
      let full_path := join abs_output_dir normalized_relative_path in
      full_path <- os_path_abspath os full_path ;;
      if negb (startswith (abs_output_dir ++ [sep]) full_path)
         && negb (str_eqb full_path abs_output_dir)
      then
        print (Stderr (L "Warning: Skipping file path attempting to write outside output "
                       ++ L "directory: '" ++ relative_file_path ++ L "' resolved to '"
                       ++ full_path ++ L "' (outside '" ++ abs_output_dir ++ L "')")) ;;
        ret false
      else write_entry abs_output_dir full_path content.

(** [shutil.rmtree(output)] under [try ... except OSError]. *)
Definition clear_directory (output : str) : M unit :=
  r <- shutil_rmtree os output ;;
  match r with
  | Done => print (Stdout (L "Cleared existing output directory: " ++ output))
  | OSError e => print (Stderr (L "Error clearing directory " ++ output ++ L ": " ++ e))
  | OtherError e => raise e
  end.

(** [os.makedirs(output)] under [try ... except OSError: ...; sys.exit(1)]. *)
Definition create_directory (output : str) : M unit :=
  r <- os_makedirs os output ;;
  match r with
  | Done => print (Stdout (L "Created output directory: " ++ output))
  | OSError e =>
      print (Stderr (L "Error creating directory " ++ output ++ L ": " ++ e)) ;;
      sys_exit 1
  | OtherError e => raise e
  end.

(** The clearing and the creation of the output directory. *)
Definition prepare_directory (output : str) (clear_output : bool) : M unit :=
  (if clear_output then
     present <- os_path_exists os output ;;
     if present : bool then clear_directory output else ret tt
   else ret tt) ;;
  present <- os_path_exists os output ;;
  if negb present then create_directory output else ret tt.

(** [store_test_files] of [code2test.py]. *)
Definition store_test_files (files : PyDict.dict str) (output_dir : str) (clear_output : bool)
  : M unit :=
  print (Stdout (L "--- Storing Files in " ++ output_dir ++ L " ---")) ;;
  abs_output_dir <- os_path_abspath os output_dir ;;
  prepare_directory abs_output_dir clear_output ;;
  files_written <-
    for_each files
      (fun entry files_written =>
         wrote <- store_entry abs_output_dir entry ;;
         ret (if wrote : bool then S files_written else files_written))
      0 ;;
  print (Stdout (L "--- Finished Storing Files (" ++ Parser.decimal files_written
                 ++ L " written) ---")).

(** [store_test_files] of [code2testt.py]: the output directory is cleared
    and created under the name given, and made absolute for the loop. *)
Definition store_test_files_t (files : PyDict.dict str) (output_dir : str) (clear_output : bool)
  : M unit :=
  prepare_directory output_dir clear_output ;;
  abs_output_dir <- os_path_abspath os output_dir ;;
  for_each files
    (fun entry (_ : unit) => _ <- store_entry abs_output_dir entry ;; ret tt)
    tt.

End Store.

(** A run from a world: the world it leaves, the events, the ending. *)
Definition run {World A : Type} (m : Os.M World A) (w : World) : World * list event * ending A :=
  m (w, []).

Definition final_world {World A : Type} (r : World * list event * ending A) : World :=
  fst (fst r).
Definition trace {World A : Type} (r : World * list event * ending A) : list event :=
  snd (fst r).
Definition end_of {World A : Type} (r : World * list event * ending A) : ending A := snd r.

(** What [os.path.abspath] gives for a path in a world, and the call of
    [os.getcwd] it makes. *)
Definition abspath_at {World : Type} (os : OS World) (w : World) (path : str) : ending str :=
  if isabs path then Returns (normpath path)
  else match getcwd os w with
       | Cwd cwd => Returns (normpath (join cwd path))
       | CwdError e => Raises e
       end.

Definition cwd_events {World : Type} (os : OS World) (w : World) (path : str) : list event :=
  if isabs path then [] else [Getcwd (getcwd os w)].

End Materializer.
(** ** A file system with directories, files and symbolic links

    An instance of [OS], to run the Materializer on.  A world is the
    current directory and the nodes, keyed by their absolute path without
    indirection; the root directory is always there.  A path is resolved as
    the kernel does it, component by component, following symbolic links
    (at most 40 in one resolution). *)

Module PosixFS.
Import PosixPath Os.

Inductive node : Type :=
| Dir
| File (content : str)
| Link (target : str).

Record world : Type := World {
  cwd : str;
  nodes : list (str * node)
}.

Definition root : str := L "/".

Fixpoint assoc (p : str) (l : list (str * node)) : option node :=
  match l with
  | [] => None
  | (q, n) :: l' => if str_eqb q p then Some n else assoc p l'
  end.

Definition lookup (w : world) (p : str) : option node :=
  if str_eqb p root then Some Dir else assoc p (nodes w).

Definition child (dir name : str) : str :=
  if str_eqb dir root then root ++ name else dir ++ [sep] ++ name.

Definition parent (p : str) : str :=
  match dirname p with
  | [] => root
  | d => d
  end.

Inductive errno : Type := EEXIST | ENOENT | ENOTDIR | EISDIR | ELOOP | EINVAL.

Definition strerror (e : errno) : str :=
  match e with
  | EEXIST => L "[Errno 17] File exists"
  | ENOENT => L "[Errno 2] No such file or directory"
  | ENOTDIR => L "[Errno 20] Not a directory"
  | EISDIR => L "[Errno 21] Is a directory"
  | ELOOP => L "[Errno 40] Too many levels of symbolic links"
  | EINVAL => L "Cannot call rmtree on a symbolic link"
  end.

Definition trivial (comp : str) : bool := str_eqb comp [] || str_eqb comp dot.

(** The resolution of the components [comps] from the directory [cur]: the
    path of the node named, which need not exist when it is the last
    component; an error when a component on the way is missing or is a
    file, and when more than [links] links are met.  The last component, when it
    is a link, is followed if [follow] is set.  [steps] bounds the
    recursion. *)
Fixpoint walk (steps links : nat) (w : world) (follow : bool) (cur : str) (comps : list str)
  : str + errno :=
  match steps with
  | O => inr ELOOP
  | S steps' =>
      match comps with
      | [] => inl cur
      | c :: rest =>
          if trivial c then walk steps' links w follow cur rest
          else if str_eqb c dotdot then walk steps' links w follow (parent cur) rest
          else
            let p := child cur c in
            match lookup w p with
            | Some Dir => walk steps' links w follow p rest
            | Some (File _) => if forallb trivial rest then inl p else inr ENOTDIR
            | Some (Link t) =>
                if forallb trivial rest && negb follow then inl p
                else
                  match links with
                  | O => inr ELOOP
                  | S links' =>
                      walk steps' links' w follow (if isabs t then root else cur)
                        (split sep t ++ rest)
                  end
            | None => if forallb trivial rest then inl p else inr ENOENT
            end
      end
  end.

Definition target_length (e : str * node) : nat :=
  match snd e with Link t => S (List.length t) | _ => 0 end.

(** Enough steps for the components of the path and of forty targets. *)
Definition walk_steps (w : world) (p : str) : nat :=
  2 + List.length p + 40 * list_sum (map target_length (nodes w)).

(** The node a path names, links followed ([follow]) or not at the last
    component. *)
Definition resolve (w : world) (follow : bool) (p : str) : str + errno :=
  walk (walk_steps w p) 40 w follow (if isabs p then root else cwd w) (split sep p).

(** [os.path.realpath] of a path that resolves. *)
Definition realpath (w : world) (p : str) : str + errno := resolve w true p.

Definition fs_exists (w : world) (p : str) : bool :=
  match resolve w true p with
  | inl q => match lookup w q with Some _ => true | None => false end
  | inr _ => false
  end.

Fixpoint store (p : str) (n : node) (l : list (str * node)) : list (str * node) :=
  match l with
  | [] => [(p, n)]
  | (q, m) :: l' => if str_eqb q p then (p, n) :: l' else (q, m) :: store p n l'
  end.

(** [os.mkdir] *)
Definition mkdir (w : world) (p : str) : world + errno :=
  match resolve w false p with
  | inl q =>
      match lookup w q with
      | Some _ => inr EEXIST
      | None => inl (World (cwd w) (store q Dir (nodes w)))
      end
  | inr e => inr e
  end.

(** [os.makedirs(name)]: the parents first, then the directory. *)
Fixpoint makedirs_rec (fuel : nat) (w : world) (name : str) : world + errno :=
  match fuel with
  | O => inr ENOENT
  | S fuel' =>
      let (head, tail) := split_path name in
      let (head, tail) := match tail with [] => split_path head | _ => (head, tail) end in
      if match head with [] => false | _ => true end
         && match tail with [] => false | _ => true end
         && negb (fs_exists w head)
      then
        match makedirs_rec fuel' w head with
        | inl w' => if str_eqb tail dot then inl w' else mkdir w' name
        | inr EEXIST => if str_eqb tail dot then inl w else mkdir w name
        | inr e => inr e
        end
      else mkdir w name
  end.

Definition fs_makedirs (w : world) (name : str) : world * os_outcome :=
  match makedirs_rec (S (List.length name)) w name with
  | inl w' => (w', Done)
  | inr e => (w, OSError (strerror e ++ L ": '" ++ name ++ L "'"))
  end.

(** [open(p, 'w')] and [write(content)]. *)
Definition fs_write_file (w : world) (p content : str) : world * write_outcome :=
  match resolve w true p with
  | inl q =>
      match lookup w q with
      | Some Dir => (w, WriteError (strerror EISDIR ++ L ": '" ++ p ++ L "'"))
      | _ => (World (cwd w) (store q (File content) (nodes w)), Written)
      end
  | inr e => (w, WriteError (strerror e ++ L ": '" ++ p ++ L "'"))
  end.

(** [shutil.rmtree] *)
Definition fs_rmtree (w : world) (p : str) : world * os_outcome :=
  match resolve w false p with
  | inl q =>
      match lookup w q with
      | Some Dir =>
          (World (cwd w)
             (filter (fun e => negb (str_eqb (fst e) q || startswith (q ++ [sep]) (fst e)))
                     (nodes w)),
           Done)
      | Some (Link _) => (w, OSError (strerror EINVAL))
      | Some (File _) => (w, OSError (strerror ENOTDIR ++ L ": '" ++ p ++ L "'"))
      | None => (w, OSError (strerror ENOENT ++ L ": '" ++ p ++ L "'"))
      end
  | inr e => (w, OSError (strerror e ++ L ": '" ++ p ++ L "'"))
  end.

(** [os.getcwd]: the working directory, when it is still there. *)
Definition fs_getcwd (w : world) : cwd_outcome :=
  match lookup w (cwd w) with
  | Some Dir => Cwd (cwd w)
  | _ => CwdError (strerror ENOENT)
  end.

Definition posix : OS world :=
  {| getcwd := fs_getcwd;
     path_exists := fs_exists;
     rmtree := fs_rmtree;
     makedirs := fs_makedirs;
     write_file := fs_write_file |}.

End PosixFS.

(** ** The Materializer as the specification words it *)

Module MaterializerSpec.
Import PosixPath Os.

(** A path is inside a root: it is the root, or it begins with the root
    followed by a separator. *)
Definition inside (root p : str) : bool :=
  str_eqb p root || startswith (root ++ [sep]) p.

(** The lines a run prints. *)
Fixpoint printed (tr : list event) : list line :=
  match tr with
  | [] => []
  | Printed l :: tr' => l :: printed tr'
  | _ :: tr' => printed tr'
  end.

(** The paths a run has written a file at. *)
Fixpoint written (tr : list event) : list str :=
  match tr with
  | [] => []
  | OpenWrite p _ Written :: tr' => p :: written tr'
  | _ :: tr' => written tr'
  end.

(** Every file the run opens for writing is inside the root, as a
    string. *)
Definition writes_inside (root : str) (tr : list event) : Prop :=
  forall p c r, In (OpenWrite p c r) tr -> inside root p = true.

(** The line that settles an entry: the file was written, or the entry
    was skipped, with the reason. *)
Definition is_verdict (l : line) : bool :=
  match l with
  | Stdout s => startswith (L "Wrote file: ") s
  | Stderr s =>
      startswith (L "Warning: Skipping ") s
      || startswith (L "Error creating subdirectory ") s
      || startswith (L "Error writing file ") s
  end.

(** The lines of the scripts. *)
Definition header (output_dir : str) : line :=
  Stdout (L "--- Storing Files in " ++ output_dir ++ L " ---").
Definition footer (files_written : nat) : line :=
  Stdout (L "--- Finished Storing Files (" ++ Parser.decimal files_written
          ++ L " written) ---").
Definition invalid_warning (rel : str) : line :=
  Stderr (L "Warning: Skipping file with invalid relative path provided by AI: '"
          ++ rel ++ L "'").
Definition unsafe_warning (rel : str) : line :=
  Stderr (L "Warning: Skipping potentially unsafe file path provided by AI: '"
          ++ rel ++ L "'").
Definition absolute_warning (rel : str) : line :=
  Stderr (L "Warning: Skipping absolute file path provided by AI: '" ++ rel ++ L "'").
Definition outside_warning (rel full root : str) : line :=
  Stderr (L "Warning: Skipping file path attempting to write outside output "
          ++ L "directory: '" ++ rel ++ L "' resolved to '" ++ full
          ++ L "' (outside '" ++ root ++ L "')").
Definition wrote_line (full : str) : line := Stdout (L "Wrote file: " ++ full).
Definition write_error_line (full e : str) : line :=
  Stderr (L "Error writing file " ++ full ++ L ": " ++ e).
Definition subdirectory_error_line (full e : str) : line :=
  Stderr (L "Error creating subdirectory " ++ dirname full ++ L " for " ++ full
          ++ L ": " ++ e).

(** The conditions on the path of an entry, in the order of the checks:
    empty or whitespace; a parent reference left after normalization. *)
Definition blank (rel : str) : bool :=
  match rel with [] => true | _ => false end || isspace rel.
Definition climbs (rel : str) : bool := mem dotdot (split sep (normpath rel)).

(** The final path of an entry under a root: the normalized join of the
    root and the normalized path; when that join is not absolute, the
    working directory comes before it. *)
Definition final_path (root rel full : str) : Prop :=
  let joined := join root (normpath rel) in
  if isabs joined then full = normpath joined
  else exists cwd, full = normpath (join cwd joined).

(** The line that settles an entry, by the condition its path meets: the
    warning of the first check that refuses the path; past the checks,
    for the final path of the entry, the line of the file written, or of
    the error that kept it from being written. *)
Definition settles (root : str) (entry : str * str) (l : line) : Prop :=
  let rel := fst entry in
  if blank rel then l = invalid_warning rel
  else if climbs rel then l = unsafe_warning rel
  else if isabs (normpath rel) then l = absolute_warning rel
  else exists full,
      final_path root rel full
      /\ if inside root full
         then l = wrote_line full
              \/ (exists e, l = write_error_line full e)
              \/ (exists e, l = subdirectory_error_line full e)
         else l = outside_warning rel full root.

End MaterializerSpec.
(** ** [fnmatch.fnmatch] on POSIX

    [fnmatch] translates a shell pattern into a regular expression and
    matches the whole name against it; [os.path.normcase] changes nothing
    on POSIX.  The translation is followed here up to the items of the
    expression: a star, any character, a set of characters, a set that
    nothing is in, a literal character. *)

Module Fnmatch.

(** The text between the brackets of a set, as [translate] joins it: the
    characters of the chunks, and a hyphen that makes a range between two
    chunks. *)
Inductive token : Type :=
| Dash
| Chr (c : ascii).

Inductive item : Type :=
| STAR
| AnyChar
| Never
| Lit (c : ascii)
| Chars (negated : bool) (stuff : list token).

Definition hyphen : ascii := "-"%char.
Definition bang : ascii := "!"%char.
Definition closing_bracket : ascii := "]"%char.

(** [s.find(c)] *)
Fixpoint find_char (c : ascii) (s : str) : option nat :=
  match s with
  | [] => None
  | x :: s' => if Ascii.eqb x c then Some 0 else option_map S (find_char c s')
  end.

Definition char_at (s : str) (j : nat) (c : ascii) : bool :=
  match nth_error s j with
  | Some x => Ascii.eqb x c
  | None => false
  end.

(** The index of the bracket that closes a set, in the text after the
    opening bracket: a [!] and then a [\]] at the head are passed over. *)
Definition closing (s : str) : option nat :=
  let j := if char_at s 0 bang then 1 else 0 in
  let j := if char_at s j closing_bracket then S j else j in
  option_map (Nat.add j) (find_char closing_bracket (skipn j s)).

(** The loop that cuts [stuff] at the hyphens that make ranges: [s] is
    the text from [i], [skip] is [k - i]. *)
Fixpoint chunks_from (fuel : nat) (s : str) (skip : nat) (chunks : list str) : list str :=
  match find_char hyphen (skipn skip s), fuel with
  | Some p, S fuel' =>
      chunks_from fuel' (skipn (skip + p + 1) s) 2 (chunks ++ [firstn (skip + p) s])
  | _, _ =>
      match s with
      | [] => removelast chunks ++ [last chunks [] ++ [hyphen]]
      | _ => chunks ++ [s]
      end
  end.

Definition first_char (s : str) : nat := match s with c :: _ => code c | [] => 0 end.
Definition last_char (s : str) : nat := first_char (rev s).

(** The removal of the empty ranges, from the last pair of chunks to the
    first. *)
Fixpoint squash (chunks : list str) : list str :=
  match chunks with
  | [] => []
  | c :: rest =>
      match squash rest with
      | [] => [c]
      | d :: ds =>
          if first_char d <? last_char c then (removelast c ++ tl d) :: ds
          else c :: d :: ds
      end
  end.

Fixpoint dashed (chunks : list str) : list token :=
  match chunks with
  | [] => []
  | [c] => map Chr c
  | c :: rest => map Chr c ++ Dash :: dashed rest
  end.

(** [stuff], for the text [s] between the brackets. *)
Definition stuff_of (s : str) : list token :=
  match find_char hyphen s with
  | None => map Chr s
  | Some _ =>
      dashed (squash (chunks_from (List.length s) s (if char_at s 0 bang then 2 else 1) []))
  end.

Definition set_item (stuff : list token) : item :=
  match stuff with
  | [] => Never
  | [Chr c] => if Ascii.eqb c bang then AnyChar else Chars false stuff
  | Chr c :: rest => if Ascii.eqb c bang then Chars true rest else Chars false stuff
  | _ => Chars false stuff
  end.

(** The first pass of [translate]: the items, with the stars that follow
    a star left out. *)
Fixpoint items_from (fuel : nat) (pat : str) (res : list item) : list item :=
  match pat, fuel with
  | [], _ => res
  | _, 0 => res
  | c :: rest, S fuel' =>
      if Ascii.eqb c "*"%char then
        match rev res with
        | STAR :: _ => items_from fuel' rest res
        | _ => items_from fuel' rest (res ++ [STAR])
        end
      else if Ascii.eqb c "?"%char then items_from fuel' rest (res ++ [AnyChar])
      else if Ascii.eqb c "["%char then
        match closing rest with
        | None => items_from fuel' rest (res ++ [Lit c])
        | Some j =>
            items_from fuel' (skipn (S j) rest) (res ++ [set_item (stuff_of (firstn j rest))])
        end
      else items_from fuel' rest (res ++ [Lit c])
  end.

Definition translate (pat : str) : list item := items_from (List.length pat) pat [].

Definition token_char (t : token) : ascii :=
  match t with
  | Dash => hyphen
  | Chr c => c
  end.

(** A character is in a set: it is one of its characters, or in one of
    its ranges. *)
Fixpoint in_stuff (fuel : nat) (c : ascii) (stuff : list token) : bool :=
  match fuel with
  | 0 => false
  | S fuel' =>
      match stuff with
      | [] => false
      | lo :: Dash :: hi :: rest =>
          (code (token_char lo) <=? code c) && (code c <=? code (token_char hi))
          || in_stuff fuel' c rest
      | t :: rest => Ascii.eqb c (token_char t) || in_stuff fuel' c rest
      end
  end.

Definition item_matches (it : item) (c : ascii) : bool :=
  match it with
  | STAR => true
  | AnyChar => true
  | Never => false
  | Lit x => Ascii.eqb c x
  | Chars negated stuff => xorb negated (in_stuff (List.length stuff) c stuff)
  end.

(** The items match the whole name.  A star takes the shortest text after
    which the rest matches; the items between two stars take a text of
    their own length, so that binding a star to the first place where they
    match, as the translation does, loses no match. *)
Fixpoint matches (items : list item) : str -> bool :=
  match items with
  | [] => fun name => match name with [] => true | _ => false end
  | STAR :: rest =>
      fix star (name : str) : bool :=
        matches rest name
        || match name with
           | [] => false
           | _ :: name' => star name'
           end
  | it :: rest =>
      fun name =>
        match name with
        | [] => false
        | c :: name' => item_matches it c && matches rest name'
        end
  end.

(** [fnmatch.fnmatch(name, pat)] *)
Definition fnmatch (name pat : str) : bool := matches (translate pat) name.

End Fnmatch.
(** ** The traversal of the application directory

    [should_ignore] and [traverse_directory] of both scripts.
    [fnmatch.fnmatch] and [os.path.isdir] are taken as they answer; the
    directory is a tree as [os.walk] finds it. *)

Module Traversal.
Import PosixPath Os.

Definition IGNORE_PATTERNS : list str :=
  [L "node_modules"; L "package-lock.json"; L ".env"; L ".DS_Store"; L ".git"; L "public";
   L "__pycache__"; L "generate_tests.py"; L "output.txt"; L "postman.json";
   L "seedDatabase.ts"; L ".next"; L "dist"; L "scripts"; L "venv"; L "robot_tests";
   L "*.log"; L "*.xml"; L "*.png"; L "*.zip"; L "*.svg"; L "*.jpg"; L ".sauce";
   L ".storybook"; L "test"; L ".backtracejsrc"; L ".dockerignore"; L ".dockerfile";
   L "Dockerfile"; L "docker-compose.yml"; L "docker-compose.override.yml";
   L "docker-compose.override.yaml"; L ".github"; L "README.md"; L "LICENSE.*";
   L "Jenkinsfile"; L "Makefile"; L "Makefile.*"; L "__tests__"; L "__mocks__"].

(** [os.path.basename]: the text after the last separator. *)
Definition basename (p : str) : str := snd (until_last_sep p).

(** The components of a path that are not empty, as [relpath] takes
    them. *)
Definition components (p : str) : list str :=
  filter (fun x => match x with [] => false | _ => true end) (split sep p).

(** The length of [commonprefix] of two lists of components. *)
Fixpoint common (a b : list str) : nat :=
  match a, b with
  | x :: a', y :: b' => if str_eqb x y then S (common a' b') else 0
  | _, _ => 0
  end.

(** [os.path.join] of all the components of a list. *)
Definition join_all (parts : list str) : str :=
  match parts with
  | [] => []
  | p :: ps => fold_left join ps p
  end.

(** [os.path.relpath(path, start)] *)
Definition relpath (cwd path start : str) : ending str :=
  match path with
  | [] => Raises (L "no path specified")
  | _ =>
      let start_list := components (abspath cwd start) in
      let path_list := components (abspath cwd path) in
      let i := common start_list path_list in
      let rel_list := repeat dotdot (List.length start_list - i) ++ skipn i path_list in
      match rel_list with
      | [] => Returns dot
      | _ => Returns (join_all rel_list)
      end
  end.

(** What [os.walk] finds at a name: a file, with the text that reading it
    gives or the message of the exception; or a directory, with its
    entries in the order of [os.scandir].  A directory without entries to
    give ([None]) is one that [os.walk] lists and does not walk: a
    symbolic link to a directory, or a directory that cannot be
    scanned. *)
Inductive node : Type :=
| File (content : str + str)
| Folder (listing : option (list (str * node))).

Section Traverse.
Variable fnmatch : str -> str -> bool.

(** The exception of Python for the name [part], which is the variable of
    a generator expression and is read outside it. *)
Definition name_error : str := L "name 'part' is not defined".

(** [should_ignore] of [code2test.py] *)
Definition should_ignore (isdir : str -> bool) (path : str) (ignore_patterns : list str)
  : ending bool :=
  let base_name := basename path in
  if existsb (fun pattern => fnmatch base_name pattern) ignore_patterns then Returns true
  else
    let parts := split sep path in
    if existsb (fun part => existsb (fun pattern => fnmatch part pattern) ignore_patterns)
         parts
    then if isdir path then Returns true else Raises name_error
    else Returns false.

(** [should_ignore] of [code2testt.py] *)
Fixpoint should_ignore_t (path : str) (ignore_patterns : list str) : bool :=
  match ignore_patterns with
  | [] => false
  | pattern :: rest =>
      if fnmatch (basename path) pattern then true
      else if existsb (fun part => fnmatch part pattern) (split sep path) then true
      else should_ignore_t path rest
  end.

Section Walk.
(** [should_ignore(path, ignore_patterns)], and what the loop adds to the
    output after the header of a file. *)
Variable ignore : str -> ending bool.
Variable read_text : str -> str + str -> str.
Variables cwd root_dir : str.

(** [dirs[:] = [d for d in dirs if not should_ignore(...)]]: the calls,
    in the order of [dirs]. *)
Fixpoint prune (root : str) (entries : list (str * node)) : ending unit :=
  match entries with
  | [] => Returns tt
  | (d, Folder _) :: entries' =>
      match ignore (join root d) with
      | Returns _ => prune root entries'
      | Exits code => Exits code
      | Raises msg => Raises msg
      end
  | (_, File _) :: entries' => prune root entries'
  end.

(** The loop over [files]. *)
Fixpoint read_files (root : str) (entries : list (str * node)) (formatted_output : str)
  : ending str :=
  match entries with
  | [] => Returns formatted_output
  | (filename, File content) :: entries' =>
      let file_path := join root filename in
      match relpath cwd file_path root_dir with
      | Returns relative_path =>
          match ignore file_path with
          | Returns true => read_files root entries' formatted_output
          | Returns false =>
              read_files root entries'
                (formatted_output ++ L "--- File: " ++ relative_path ++ L " ---" ++ [nl]
                 ++ read_text relative_path content)
          | Exits code => Exits code
          | Raises msg => Raises msg
          end
      | Exits code => Exits code
      | Raises msg => Raises msg
      end
  | (_, Folder _) :: entries' => read_files root entries' formatted_output
  end.

(** The directories kept, each walked in its turn.  The answer of
    [should_ignore] for a directory is asked again here: it is the answer
    of the pruning. *)
Fixpoint walk_dirs (walk : str -> node -> str -> ending str) (root : str)
         (dirs : list (str * node)) (formatted_output : str) : ending str :=
  match dirs with
  | [] => Returns formatted_output
  | (d, File _) :: dirs' => walk_dirs walk root dirs' formatted_output
  | (d, (Folder _) as sub) :: dirs' =>
      match ignore (join root d) with
      | Returns true => walk_dirs walk root dirs' formatted_output
      | Returns false =>
          match walk (join root d) sub formatted_output with
          | Returns formatted_output => walk_dirs walk root dirs' formatted_output
          | Exits code => Exits code
          | Raises msg => Raises msg
          end
      | Exits code => Exits code
      | Raises msg => Raises msg
      end
  end.

(** The loop over [os.walk(root_dir, topdown=True)]: at a directory, the
    pruning of [dirs], the loop over [files], then the directories
    kept. *)
Fixpoint walk (root : str) (n : node) (formatted_output : str) {struct n} : ending str :=
  match n with
  | File _ => Returns formatted_output
  | Folder None => Returns formatted_output
  | Folder (Some entries) =>
      match prune root entries with
      | Returns _ =>
          match read_files root entries formatted_output with
          | Returns formatted_output => walk_dirs walk root entries formatted_output
          | Exits code => Exits code
          | Raises msg => Raises msg
          end
      | Exits code => Exits code
      | Raises msg => Raises msg
      end
  end.

End Walk.

(** [traverse_directory] of [code2testt.py] *)
Definition traverse_directory_t (cwd root_dir : str) (ignore_patterns : list str) (tree : node)
  : ending str :=
  walk (fun path => Returns (should_ignore_t path ignore_patterns))
    (fun _ content =>
       match content with
       | inl text => text ++ [nl; nl]
       | inr e => L "[Error reading file: " ++ e ++ L "]" ++ [nl; nl]
       end)
    cwd root_dir root_dir tree [].

(** [traverse_directory] of [code2test.py]: the lines printed and the
    text returned.  [repr] is the way Python writes a list of strings. *)
Definition traverse_directory (repr : list str -> str) (isdir : str -> bool)
           (cwd root_dir : str) (ignore_patterns : list str) (tree : node)
  : list line * ending str :=
  let start :=
    [Stdout (L "Starting traversal from: " ++ abspath cwd root_dir);
     Stdout (L "Ignoring patterns: " ++ repr ignore_patterns)] in
  let root_dir := abspath cwd root_dir in
  match
    walk (fun path => should_ignore isdir path ignore_patterns)
      (fun relative_path content =>
         match content with
         | inl text => text ++ [nl; nl]
         | inr e => L "[Error reading file " ++ relative_path ++ L ": " ++ e ++ L "]" ++ [nl; nl]
         end)
      cwd root_dir root_dir tree []
  with
  | Returns [] =>
      (start
       ++ [Stdout (L "Warning: No files found or read after applying ignore patterns.")],
       Returns [])
  | e => (start, e)
  end.

End Traverse.

End Traversal.
(** * Properties *)

(** ** The matcher *)

Module ReFacts.
Import Re.

(** The length of the longest run of class [p] at the head of [s]. *)
Fixpoint run_len (p : ascii -> bool) (s : str) : nat :=
  match s with
  | c :: s' => if p c then S (run_len p s') else 0
  | [] => 0
  end.

(** The state [i] characters further on. *)
Definition adv (pos : nat) (rest : str) (g : option (nat * nat)) (i : nat) : mstate :=
  MState (pos + i) (skipn i rest) g.

Lemma adv_0 pos rest g : adv pos rest g 0 = MState pos rest g.
Proof. unfold adv. now rewrite Nat.add_0_r. Qed.

Lemma adv_S pos x rest g i : adv pos (x :: rest) g (S i) = adv (S pos) rest g i.
Proof. unfold adv. simpl. now rewrite Nat.add_succ_r. Qed.

Lemma run_len_le p s : run_len p s <= List.length s.
Proof. induction s as [|c s IH]; simpl; [lia|]. destruct (p c); simpl; lia. Qed.

Lemma run_len_any s : run_len cls_any s = List.length s.
Proof. induction s as [|c s IH]; simpl; auto. Qed.

Lemma run_len_skipn p s i :
  i < run_len p s -> exists c s', skipn i s = c :: s' /\ p c = true.
Proof.
  revert i. induction s as [|x s IH]; intros i H; simpl in *; [lia|].
  destruct (p x) eqn:E; [|lia].
  destruct i as [|i]; simpl; [eauto|]. apply IH. lia.
Qed.

Lemma run_len_split p s i :
  i <= run_len p s ->
  exists w, skipn i s = w ++ skipn (run_len p s) s /\ forallb p w = true.
Proof.
  revert i. induction s as [|x s IH]; intros i H; simpl in *.
  - exists []. now rewrite skipn_nil.
  - destruct (p x) eqn:E.
    + destruct i as [|i]; simpl.
      * destruct (IH 0) as (w & Hw & Hp); [lia|]. simpl in Hw.
        exists (x :: w). simpl. now rewrite E, Hp, <- Hw.
      * apply IH. lia.
    + assert (i = 0) by lia. subst. now exists [].
Qed.

Lemma run_len_app_stop p w c s :
  forallb p w = true -> p c = false -> run_len p (w ++ c :: s) = List.length w.
Proof.
  induction w as [|x w IH]; simpl; intros Hw Hc; [now rewrite Hc|].
  apply andb_true_iff in Hw as [H1 H2]. rewrite H1. f_equal. auto.
Qed.

Lemma run_len_app_nonmember p x c s :
  p c = false -> run_len p (x ++ c :: s) = run_len p x.
Proof.
  intros Hc. induction x as [|y x IH]; simpl; [now rewrite Hc|].
  destruct (p y); auto.
Qed.

Section Stars.
Variable A : Type.
Implicit Types (k : mstate -> option A).

Lemma lit_k_spec s pos rest g k :
  lit_k s pos rest g k =
  if startswith s rest then k (adv pos rest g (List.length s)) else None.
Proof.
  revert pos rest. induction s as [|c s IH]; intros pos rest; simpl.
  - now rewrite adv_0.
  - destruct rest as [|x rest]; [reflexivity|].
    rewrite (Ascii.eqb_sym c x). destruct (Ascii.eqb x c); simpl; [|reflexivity].
    rewrite IH, adv_S. reflexivity.
Qed.

Lemma star_greedy_none p pos rest g k :
  (forall i, i <= run_len p rest -> k (adv pos rest g i) = None) ->
  star_greedy p pos rest g k = None.
Proof.
  revert pos. induction rest as [|x rest IH]; intros pos H; simpl.
  - rewrite <- adv_0. apply H. simpl. lia.
  - simpl in H. destruct (p x).
    + rewrite IH.
      * rewrite <- adv_0. apply H. lia.
      * intros i Hi. rewrite <- (adv_S _ x). apply H. lia.
    + rewrite <- adv_0. apply H. lia.
Qed.

(** A greedy star gives the continuation the longest run it accepts. *)
Lemma star_greedy_last p pos rest g k n r :
  n <= run_len p rest ->
  k (adv pos rest g n) = Some r ->
  (forall i, n < i -> i <= run_len p rest -> k (adv pos rest g i) = None) ->
  star_greedy p pos rest g k = Some r.
Proof.
  revert pos n. induction rest as [|x rest IH]; intros pos n Hn Hk Hlast; simpl in *.
  - assert (n = 0) by lia. subst. now rewrite adv_0 in Hk.
  - destruct (p x).
    + destruct n as [|n].
      * rewrite star_greedy_none.
        -- now rewrite adv_0 in Hk.
        -- intros i Hi. rewrite <- (adv_S _ x). apply Hlast; lia.
      * rewrite (IH (S pos) n); auto.
        -- lia.
        -- now rewrite <- (adv_S _ x).
        -- intros i H1 H2. rewrite <- (adv_S _ x). apply Hlast; lia.
    + assert (n = 0) by lia. subst. now rewrite adv_0 in Hk.
Qed.

(** When the continuation rejects every shorter run, a greedy star gives it
    the longest one. *)
Lemma star_greedy_max p pos rest g k :
  (forall i, i < run_len p rest -> k (adv pos rest g i) = None) ->
  star_greedy p pos rest g k = k (adv pos rest g (run_len p rest)).
Proof.
  revert pos. induction rest as [|x rest IH]; intros pos H; simpl in *.
  - now rewrite adv_0.
  - destruct (p x).
    + rewrite IH.
      * rewrite adv_S. destruct (k (adv (S pos) rest g (run_len p rest))) eqn:E; auto.
        rewrite <- adv_0. apply H. lia.
      * intros i Hi. rewrite <- (adv_S _ x). apply H. lia.
    + now rewrite adv_0.
Qed.

Lemma star_lazy_none p pos rest g k :
  (forall i, i <= run_len p rest -> k (adv pos rest g i) = None) ->
  star_lazy p pos rest g k = None.
Proof.
  revert pos. induction rest as [|x rest IH]; intros pos H; simpl.
  - rewrite <- adv_0, H; [reflexivity | simpl; lia].
  - simpl in H. rewrite <- adv_0, H by lia.
    destruct (p x); [|reflexivity].
    apply IH. intros i Hi. rewrite <- (adv_S _ x). apply H. lia.
Qed.

(** A lazy star gives the continuation the shortest run it accepts. *)
Lemma star_lazy_first p pos rest g k n r :
  n <= run_len p rest ->
  k (adv pos rest g n) = Some r ->
  (forall i, i < n -> k (adv pos rest g i) = None) ->
  star_lazy p pos rest g k = Some r.
Proof.
  revert pos n. induction rest as [|x rest IH]; intros pos n Hn Hk Hfirst; simpl in *.
  - assert (n = 0) by lia. subst. rewrite adv_0 in Hk. now rewrite Hk.
  - destruct n as [|n].
    + rewrite adv_0 in Hk. now rewrite Hk.
    + rewrite <- adv_0, Hfirst by lia.
      destruct (p x); [|lia].
      apply (IH (S pos) n); [lia | now rewrite <- (adv_S _ x) |].
      intros i Hi. rewrite <- (adv_S _ x). apply Hfirst. lia.
Qed.

End Stars.

Lemma search_from_none r pos rest :
  (forall i, i <= List.length rest ->
     run r (adv pos rest None i) (accept (pos + i)) = None) ->
  search_from r pos rest = None.
Proof.
  revert pos. induction rest as [|x rest IH]; intros pos H; simpl.
  - specialize (H 0). rewrite adv_0, Nat.add_0_r in H. rewrite H; [reflexivity | simpl; lia].
  - pose proof (H 0) as H0. rewrite adv_0, Nat.add_0_r in H0. rewrite H0 by (simpl; lia).
    apply IH. intros i Hi. specialize (H (S i)).
    rewrite adv_S, Nat.add_succ_r in H. apply H. simpl. lia.
Qed.

(** A search returns the match at the leftmost position that has one. *)
Lemma search_from_first r pos rest n m :
  n <= List.length rest ->
  run r (adv pos rest None n) (accept (pos + n)) = Some m ->
  (forall i, i < n -> run r (adv pos rest None i) (accept (pos + i)) = None) ->
  search_from r pos rest = Some m.
Proof.
  revert pos n. induction rest as [|x rest IH]; intros pos n Hn Hm Hfirst; simpl in *.
  - assert (n = 0) by lia. subst. rewrite adv_0, Nat.add_0_r in Hm. now rewrite Hm.
  - destruct n as [|n].
    + rewrite adv_0, Nat.add_0_r in Hm. now rewrite Hm.
    + pose proof (Hfirst 0) as H0. rewrite adv_0, Nat.add_0_r in H0. rewrite H0 by lia.
      apply (IH (S pos) n); [lia | |].
      * rewrite adv_S, Nat.add_succ_r in Hm. exact Hm.
      * intros i Hi. specialize (Hfirst (S i)).
        rewrite adv_S, Nat.add_succ_r in Hfirst. apply Hfirst. lia.
Qed.

End ReFacts.

(** ** Strings *)

Module PyStrFacts.

Lemma str_eqb_eq a b : str_eqb a b = true <-> a = b.
Proof. unfold str_eqb. destruct (list_eq_dec ascii_dec a b); split; congruence. Qed.

Lemma str_eqb_refl a : str_eqb a a = true.
Proof. now apply str_eqb_eq. Qed.

Lemma str_eqb_neq a b : str_eqb a b = false <-> a <> b.
Proof. unfold str_eqb. destruct (list_eq_dec ascii_dec a b); split; congruence. Qed.

Lemma startswith_app p s : startswith p (p ++ s) = true.
Proof. induction p as [|a p IH]; simpl; [reflexivity|]. now rewrite Ascii.eqb_refl. Qed.

Lemma startswith_true p s : startswith p s = true -> s = p ++ skipn (List.length p) s.
Proof.
  revert s. induction p as [|a p IH]; intros s H; simpl in *; [reflexivity|].
  destruct s as [|b s]; [discriminate|].
  apply andb_true_iff in H as [H1 H2]. apply Ascii.eqb_eq in H1. subst.
  simpl. f_equal. now apply IH.
Qed.

Lemma startswith_short p s : List.length s < List.length p -> startswith p s = false.
Proof.
  revert s. induction p as [|a p IH]; intros s H; simpl in *; [lia|].
  destruct s as [|b s]; [reflexivity|]. simpl in H.
  rewrite IH by lia. apply andb_false_r.
Qed.

Lemma startswith_cons_inv c p x s :
  startswith (c :: p) (x :: s) = true -> c = x /\ startswith p s = true.
Proof.
  cbn [startswith]. intros H. apply andb_true_iff in H as [H1 H2].
  apply Ascii.eqb_eq in H1. auto.
Qed.

Lemma startswith_cons_false c p x s :
  Ascii.eqb c x = false -> startswith (c :: p) (x :: s) = false.
Proof. intros H. simpl. now rewrite H. Qed.

(** When a prefix test looks no further than the first part of a
    concatenation, the rest does not matter. *)
Lemma startswith_app_l p s t :
  List.length p <= List.length s -> startswith p (s ++ t) = startswith p s.
Proof.
  revert s. induction p as [|a p IH]; intros s H; simpl in *; [reflexivity|].
  destruct s as [|b s]; simpl in *; [lia|]. rewrite IH by lia. reflexivity.
Qed.

Lemma lstrip_run s : lstrip s = skipn (ReFacts.run_len isspace_char s) s.
Proof. induction s as [|c s IH]; simpl; [reflexivity|]. destruct (isspace_char c); auto. Qed.

Lemma lstrip_head c s : lstrip s = c :: skipn 1 (lstrip s) -> isspace_char c = false.
Proof.
  induction s as [|x s IH]; simpl; [discriminate|].
  destruct (isspace_char x) eqn:E; auto. intros H. injection H as ->. auto.
Qed.

Lemma lstrip_nonspace c s : isspace_char c = false -> lstrip (c :: s) = c :: s.
Proof. intros H. simpl. now rewrite H. Qed.

Lemma lstrip_idem s : lstrip (lstrip s) = lstrip s.
Proof.
  induction s as [|c s IH]; simpl; [reflexivity|].
  destruct (isspace_char c) eqn:E; auto. simpl. now rewrite E.
Qed.

Lemma lstrip_spaces_app w s : forallb isspace_char w = true -> lstrip (w ++ s) = lstrip s.
Proof.
  induction w as [|c w IH]; simpl; [reflexivity|]. intros H.
  apply andb_true_iff in H as [H1 H2]. rewrite H1. auto.
Qed.

Lemma lstrip_all_space w : forallb isspace_char w = true -> lstrip w = [].
Proof. intros H. rewrite <- (app_nil_r w), lstrip_spaces_app; auto. Qed.

(** Stripping on the left does not touch what follows a character that
    stays. *)
Lemma lstrip_app s t : lstrip s <> [] -> lstrip (s ++ t) = lstrip s ++ t.
Proof.
  induction s as [|c s IH]; simpl; [congruence|].
  destruct (isspace_char c); auto.
Qed.

Lemma forallb_rev (f : ascii -> bool) (l : str) : forallb f (rev l) = forallb f l.
Proof.
  induction l as [|c l IH]; simpl; [reflexivity|].
  rewrite forallb_app, IH. simpl. rewrite andb_true_r. apply andb_comm.
Qed.

Lemma rstrip_spaces_app s w : forallb isspace_char w = true -> rstrip (s ++ w) = rstrip s.
Proof.
  intros H. unfold rstrip. rewrite rev_app_distr, lstrip_spaces_app; [reflexivity|].
  now rewrite forallb_rev.
Qed.

Lemma rstrip_snoc s c : isspace_char c = false -> rstrip (s ++ [c]) = s ++ [c].
Proof.
  intros H. unfold rstrip. rewrite rev_app_distr. simpl. rewrite H. simpl.
  now rewrite rev_involutive.
Qed.

Lemma rstrip_nil : rstrip [] = [].
Proof. reflexivity. Qed.

Lemma rstrip_cons_nonspace c s : isspace_char c = false -> rstrip (c :: s) = c :: rstrip s.
Proof.
  intros H. unfold rstrip. simpl.
  destruct (lstrip (rev s)) as [|y l] eqn:E.
  - assert (Hs : forallb isspace_char (rev s) = true).
    { clear -E. induction (rev s) as [|z l IH]; simpl in *; auto.
      destruct (isspace_char z); [auto | discriminate]. }
    rewrite lstrip_spaces_app by exact Hs. simpl. now rewrite H.
  - rewrite lstrip_app by (rewrite E; discriminate). rewrite E.
    rewrite rev_app_distr. reflexivity.
Qed.

Lemma strip_spaces_app_l w s : forallb isspace_char w = true -> strip (w ++ s) = strip s.
Proof. intros H. unfold strip. now rewrite lstrip_spaces_app. Qed.

Lemma rstrip_all_space w : forallb isspace_char w = true -> rstrip w = [].
Proof.
  intros H. unfold rstrip. rewrite lstrip_all_space; [reflexivity|]. now rewrite forallb_rev.
Qed.

Lemma lstrip_rstrip_comm s : lstrip (rstrip s) = rstrip (lstrip s).
Proof.
  induction s as [|c s IH]; [reflexivity|].
  destruct (isspace_char c) eqn:E.
  - simpl lstrip at 2. rewrite E. rewrite <- IH.
    destruct (forallb isspace_char s) eqn:Hs.
    + rewrite (rstrip_all_space (c :: s)) by (simpl; now rewrite E).
      rewrite (rstrip_all_space s) by exact Hs. reflexivity.
    + assert (Hr : exists y l, rstrip s = y :: l /\ rstrip (c :: s) = c :: y :: l).
      { unfold rstrip. simpl. destruct (lstrip (rev s)) as [|y l] eqn:El.
        - exfalso. assert (forallb isspace_char (rev s) = true).
          { clear -El. induction (rev s) as [|z l IH]; simpl in *; auto.
            destruct (isspace_char z); [auto | discriminate]. }
          rewrite forallb_rev in H. congruence.
        - rewrite lstrip_app by (rewrite El; discriminate). rewrite El.
          rewrite rev_app_distr. simpl.
          destruct (rev (y :: l)) as [|y' l'] eqn:Er.
          + apply (f_equal (@List.length ascii)) in Er. rewrite length_rev in Er. discriminate.
          + exists y', l'. simpl in Er. rewrite Er. auto. }
      destruct Hr as (y & l & H1 & H2). rewrite H2, H1. simpl. now rewrite E.
  - rewrite (lstrip_nonspace c s E). rewrite rstrip_cons_nonspace by exact E.
    now apply lstrip_nonspace.
Qed.

Lemma strip_spaces_app_r s w : forallb isspace_char w = true -> strip (s ++ w) = strip s.
Proof.
  intros H. unfold strip. rewrite <- !lstrip_rstrip_comm. now rewrite rstrip_spaces_app.
Qed.

Lemma rstrip_idem s : rstrip (rstrip s) = rstrip s.
Proof. unfold rstrip. now rewrite rev_involutive, lstrip_idem. Qed.

Lemma strip_idem s : strip (strip s) = strip s.
Proof.
  unfold strip. now rewrite lstrip_rstrip_comm, lstrip_idem, rstrip_idem.
Qed.

Lemma strip_nonspace_ends a x b :
  isspace_char a = false -> isspace_char b = false ->
  strip (a :: x ++ [b]) = a :: x ++ [b].
Proof.
  intros Ha Hb. unfold strip. rewrite lstrip_nonspace by exact Ha.
  change (a :: x ++ [b]) with ((a :: x) ++ [b]). now apply rstrip_snoc.
Qed.

(** A text is its trimmed form between two runs of whitespace. *)
Lemma lstrip_decompose s :
  exists w, s = w ++ lstrip s /\ forallb isspace_char w = true.
Proof.
  destruct (@ReFacts.run_len_split isspace_char s 0) as (w & Hw & Hp); [lia|].
  exists w. simpl in Hw. now rewrite lstrip_run, <- Hw.
Qed.

Lemma rstrip_decompose s :
  exists w, s = rstrip s ++ w /\ forallb isspace_char w = true.
Proof.
  destruct (lstrip_decompose (rev s)) as (w & Hw & Hp).
  exists (rev w). split; [|now rewrite forallb_rev].
  unfold rstrip. rewrite <- rev_app_distr, <- Hw. now rewrite rev_involutive.
Qed.

Lemma strip_decompose s :
  exists w1 w2, s = w1 ++ strip s ++ w2
                /\ forallb isspace_char w1 = true /\ forallb isspace_char w2 = true.
Proof.
  destruct (lstrip_decompose s) as (w1 & H1 & P1).
  destruct (rstrip_decompose (lstrip s)) as (w2 & H2 & P2).
  exists w1, w2. unfold strip. now rewrite <- H2, <- H1.
Qed.

End PyStrFacts.

(** ** The Extractor: patterns against plain string operations *)

Module ExtractorFacts.
Import Re ReFacts PyStrFacts ExtractorSpec Extractor.

Lemma find_first_cons P x s :
  find_first P (x :: s) = if P (x :: s) then Some 0 else option_map S (find_first P s).
Proof. reflexivity. Qed.

Lemma find_first_some P s n :
  find_first P s = Some n ->
  P (skipn n s) = true /\ n <= List.length s /\ forall i, i < n -> P (skipn i s) = false.
Proof.
  revert n. induction s as [|x s IH]; intros n; simpl.
  - destruct (P []) eqn:E; [|discriminate]. intros [= <-]. simpl. repeat split; auto; lia.
  - destruct (P (x :: s)) eqn:E.
    + intros [= <-]. simpl. repeat split; auto; lia.
    + destruct (find_first P s) as [m|] eqn:F; [|discriminate].
      intros [= <-]. destruct (IH m eq_refl) as (H1 & H2 & H3).
      simpl. repeat split; auto; [lia|].
      intros [|i] Hi; simpl; auto. apply H3. lia.
Qed.

Lemma find_first_none P s :
  find_first P s = None -> forall i, P (skipn i s) = false.
Proof.
  induction s as [|x s IH]; simpl.
  - destruct (P []) eqn:E; [discriminate|]. intros _ i. now rewrite skipn_nil.
  - destruct (P (x :: s)) eqn:E; [discriminate|].
    destruct (find_first P s) eqn:F; [discriminate|].
    intros _ [|i]; simpl; auto.
Qed.

Lemma rfind_char_some c s b :
  rfind_char c s = Some b ->
  startswith [c] (skipn b s) = true /\ b < List.length s /\
  forall j, b < j -> startswith [c] (skipn j s) = false.
Proof.
  revert b. induction s as [|x s IH]; intros b; simpl; [discriminate|].
  destruct (rfind_char c s) as [i|] eqn:F.
  - intros [= <-]. destruct (IH i eq_refl) as (H1 & H2 & H3).
    simpl. repeat split; auto; [lia|].
    intros [|j] Hj; [lia|]. simpl. apply H3. lia.
  - destruct (Ascii.eqb x c) eqn:E; [|discriminate]. intros [= <-].
    simpl. rewrite (Ascii.eqb_sym c x), E. repeat split; auto; [lia|].
    intros [|j] Hj; [lia|]. simpl.
    clear -F. revert j. induction s as [|y s IH]; intros j; simpl in *.
    + now rewrite skipn_nil.
    + destruct (rfind_char c s) eqn:G; [discriminate|].
      destruct (Ascii.eqb y c) eqn:E; [discriminate|].
      destruct j; simpl; [now rewrite (Ascii.eqb_sym c y), E | auto].
Qed.

Lemma rfind_char_none c s :
  rfind_char c s = None -> forall j, startswith [c] (skipn j s) = false.
Proof.
  induction s as [|y s IH]; intros F j; simpl in *.
  - now rewrite skipn_nil.
  - destruct (rfind_char c s) eqn:G; [discriminate|].
    destruct (Ascii.eqb y c) eqn:E; [discriminate|].
    destruct j; simpl; [now rewrite (Ascii.eqb_sym c y), E | auto].
Qed.

Lemma skipn_skipn_add (i j : nat) (s : str) : skipn i (skipn j s) = skipn (j + i) s.
Proof.
  revert s. induction j as [|j IH]; intros s; simpl; [reflexivity|].
  destruct s; simpl; [now rewrite skipn_nil | auto].
Qed.

Lemma adv_adv pos rest g i j :
  adv (m_pos (adv pos rest g i)) (m_rest (adv pos rest g i)) (m_grp (adv pos rest g i)) j
  = adv pos rest g (i + j).
Proof. unfold adv. simpl. rewrite skipn_skipn_add. f_equal. lia. Qed.

(** *** The brace-spanning pattern *)

Definition brace_match (text : str) (i : nat) : option match_obj :=
  if startswith (L "{") (skipn i text) then
    match rfind_char (chr 125) (skipn (S i) text) with
    | Some b => Some (MatchObj i (i + b + 2) (Some (i, i + b + 2)))
    | None => None
    end
  else None.

Lemma json_pattern_run text i :
  run json_pattern (adv 0 text None i) (accept (0 + i)) = brace_match text i.
Proof.
  unfold json_pattern, brace_match. cbn [run adv m_pos m_rest m_grp].
  rewrite lit_k_spec. destruct (startswith (L "{") (skipn i text)) eqn:E; [|reflexivity].
  cbn [adv m_pos m_rest m_grp]. change (List.length (L "{")) with 1.
  rewrite skipn_skipn_add. replace (i + 1) with (S i) by lia.
  set (r := skipn (S i) text).
  destruct (rfind_char (chr 125) r) as [b|] eqn:F.
  - destruct (rfind_char_some _ _ F) as (H1 & H2 & H3).
    apply star_greedy_last with (n := b).
    + rewrite run_len_any. lia.
    + rewrite lit_k_spec. cbn [adv m_pos m_rest m_grp].
      replace (startswith (L "}") (skipn b r)) with true by (symmetry; exact H1).
      unfold accept. change (List.length (L "}")) with 1. cbn [m_pos m_grp].
      replace (0 + i) with i by lia.
      replace (i + 1 + b + 1) with (i + b + 2) by lia. reflexivity.
    + intros j Hj _. rewrite lit_k_spec. cbn [adv m_pos m_rest m_grp].
      replace (startswith (L "}") (skipn j r)) with false
        by (symmetry; exact (H3 j Hj)).
      reflexivity.
  - apply star_greedy_none. intros j _. rewrite lit_k_spec. cbn [adv m_pos m_rest m_grp].
    replace (startswith (L "}") (skipn j r)) with false
      by (symmetry; exact (rfind_char_none _ _ F j)).
    reflexivity.
Qed.

Lemma rfind_char_skipn_none c s j : rfind_char c s = None -> rfind_char c (skipn j s) = None.
Proof.
  revert j. induction s as [|y s IH]; intros j F; simpl in *.
  - now rewrite skipn_nil.
  - destruct (rfind_char c s) eqn:G; [discriminate|].
    destruct (Ascii.eqb y c) eqn:E; [discriminate|].
    destruct j; simpl; [now rewrite G, E | auto].
Qed.

Lemma slice_firstn (s : str) a n : slice s a (a + n) = firstn n (skipn a s).
Proof. unfold slice. f_equal. lia. Qed.

(** Strategy 3 of the source finds the text from the first opening brace to
    the last closing brace. *)
Lemma json_pattern_search text :
  option_map (group1 text) (re_search json_pattern text) = brace_span text.
Proof.
  unfold re_search, brace_span, find.
  destruct (find_first (startswith (L "{")) text) as [a|] eqn:F.
  - destruct (find_first_some _ _ F) as (H1 & H2 & H3).
    destruct (rfind_char (chr 125) (skipn (S a) text)) as [b|] eqn:G.
    + rewrite (@search_from_first json_pattern 0 text a
                 (MatchObj a (a + b + 2) (Some (a, a + b + 2)))); auto.
      * simpl. unfold group1. simpl. rewrite <- Nat.add_assoc. now rewrite slice_firstn.
      * rewrite json_pattern_run. unfold brace_match. now rewrite H1, G.
      * intros i Hi. rewrite json_pattern_run. unfold brace_match. now rewrite H3.
    + rewrite search_from_none; [reflexivity|].
      intros i _. rewrite json_pattern_run. unfold brace_match.
      destruct (startswith (L "{") (skipn i text)) eqn:E; [|reflexivity].
      destruct (Nat.lt_ge_cases i a) as [Hlt|Hge]; [rewrite H3 in E; auto; discriminate|].
      replace (S i) with (S a + (i - a)) by lia.
      rewrite <- skipn_skipn_add. now rewrite rfind_char_skipn_none.
  - rewrite search_from_none; [reflexivity|].
    intros i _. rewrite json_pattern_run. unfold brace_match.
    now rewrite (find_first_none _ _ F).
Qed.

(** *** The tagged-fence pattern *)

(** From here on there is whitespace and then the fence token. *)
Definition closes (s : str) : bool := startswith (L "```") (lstrip s).

Lemma backtick_not_space : isspace_char backtick = false.
Proof. reflexivity. Qed.

Lemma fence_not_at_space c s :
  isspace_char c = true -> startswith (L "```") (c :: s) = false.
Proof.
  intros H. apply startswith_cons_false.
  destruct (Ascii.eqb "`" c) eqn:E; [|reflexivity].
  apply Ascii.eqb_eq in E. subst. discriminate.
Qed.

Lemma close_run (A : Type) pos r g (K : mstate -> option A) :
  star_greedy cls_space pos r g
    (fun st => lit_k (L "```") (m_pos st) (m_rest st) (m_grp st) K)
  = if closes r then K (adv pos r g (run_len isspace_char r + 3)) else None.
Proof.
  rewrite star_greedy_max.
  - rewrite lit_k_spec. cbn [adv m_pos m_rest m_grp]. unfold closes.
    rewrite lstrip_run. destruct (startswith _ _); [|reflexivity].
    change (List.length (L "```")) with 3. unfold adv. cbn [m_pos m_rest m_grp].
    rewrite skipn_skipn_add, <- Nat.add_assoc. reflexivity.
  - intros i Hi. destruct (run_len_skipn _ _ Hi) as (c & s' & Hs & Hc).
    rewrite lit_k_spec. cbn [adv m_pos m_rest m_grp]. rewrite Hs.
    now rewrite fence_not_at_space.
Qed.

Lemma find_fence_spaces w s :
  forallb isspace_char w = true ->
  find (L "```") (w ++ s) = option_map (fun j => List.length w + j) (find (L "```") s).
Proof.
  unfold find. induction w as [|c w IH]; intros H; simpl app.
  - destruct (find_first _ s); reflexivity.
  - simpl in H. apply andb_true_iff in H as [H1 H2].
    cbn [find_first]. rewrite fence_not_at_space by exact H1.
    rewrite IH by exact H2. destruct (find_first _ s); reflexivity.
Qed.

Lemma closes_spaces w s : forallb isspace_char w = true -> closes (w ++ s) = closes s.
Proof. intros H. unfold closes. now rewrite lstrip_spaces_app. Qed.

Lemma find_closes_spaces w s :
  forallb isspace_char w = true ->
  find_first closes s = None -> find_first closes (w ++ s) = None.
Proof.
  induction w as [|c w IH]; intros H F; simpl app; [exact F|].
  simpl in H. apply andb_true_iff in H as [H1 H2].
  cbn [find_first]. change (c :: w ++ s) with ((c :: w) ++ s).
  rewrite closes_spaces by (simpl; now rewrite H1, H2).
  pose proof (find_first_none _ _ F 0) as H0. simpl in H0. rewrite H0.
  now rewrite IH.
Qed.

(** The shortest text after which the fence closes ends where the
    whitespace before the first fence token starts. *)
Lemma closes_vs_find s :
  match find_first closes s, find (L "```") s with
  | Some e, Some j => e <= j /\ forallb isspace_char (firstn (j - e) (skipn e s)) = true
  | None, None => True
  | _, _ => False
  end.
Proof.
  induction s as [|x s IH].
  - reflexivity.
  - destruct (closes (x :: s)) eqn:C.
    + assert (F0 : find_first closes (x :: s) = Some 0)
        by (cbn [find_first]; now rewrite C).
      rewrite F0.
      destruct (@run_len_split isspace_char (x :: s) 0) as (w & Hw & Hp); [lia|].
      simpl skipn at 1 in Hw. rewrite <- lstrip_run in Hw.
      assert (Hj : find (L "```") (x :: s) = Some (List.length w)).
      { rewrite Hw at 1. rewrite find_fence_spaces by exact Hp.
        unfold closes in C. unfold find.
        destruct (lstrip (x :: s)) as [|y l] eqn:El; [discriminate|].
        cbn [find_first]. rewrite C. cbn [option_map]. f_equal. lia. }
      rewrite Hj. split; [lia|]. rewrite Nat.sub_0_r. simpl skipn.
      rewrite Hw at 1. rewrite firstn_app, firstn_all, Nat.sub_diag. simpl.
      now rewrite app_nil_r.
    + assert (Hx : startswith (L "```") (x :: s) = false).
      { destruct (startswith (L "```") (x :: s)) eqn:Hs; [|reflexivity].
        unfold closes in C.
        assert (Hb : x = backtick).
        { change (L "```") with (backtick :: L "``") in Hs.
          now apply startswith_cons_inv in Hs as [<- _]. }
        subst x. rewrite lstrip_nonspace in C by reflexivity. congruence. }
      unfold find in *. cbn [find_first]. rewrite C, Hx.
      destruct (find_first closes s) as [e|], (find_first (startswith (L "```")) s) as [j|];
        cbn [option_map]; auto.
      destruct IH as [H1 H2]. split; [lia | exact H2].
Qed.

Lemma find_fence_none_closes s :
  find (L "```") s = None -> find_first closes s = None.
Proof.
  intros H. pose proof (closes_vs_find s) as R. rewrite H in R.
  destruct (find_first closes s); [contradiction | reflexivity].
Qed.

Lemma find_fence_some_closes s j :
  find (L "```") s = Some j ->
  exists e, find_first closes s = Some e /\ strip (firstn e s) = strip (firstn j s).
Proof.
  intros H. pose proof (closes_vs_find s) as R. rewrite H in R.
  destruct (find_first closes s) as [e|]; [|contradiction].
  exists e. split; [reflexivity|]. destruct R as [H1 H2].
  replace j with (e + (j - e)) at 1 by lia.
  rewrite <- (firstn_skipn e s) at 2.
  rewrite firstn_app.
  destruct (Nat.le_gt_cases e (List.length s)) as [Hle|Hgt].
  - rewrite length_firstn, Nat.min_l by exact Hle.
    replace (e + (j - e) - e) with (j - e) by lia.
    rewrite firstn_firstn, Nat.min_r by lia.
    now rewrite strip_spaces_app_r.
  - rewrite !firstn_all2 by (rewrite ?length_firstn; lia).
    rewrite skipn_all2 by lia. rewrite firstn_nil. now rewrite app_nil_r.
Qed.

(** The match of the tagged-fence pattern that starts at position [i]. *)
Definition json_block_match (text : str) (i : nat) : option match_obj :=
  if startswith (L "```json") (skipn i text) then
    let after := skipn (i + 7) text in
    let n := run_len isspace_char after in
    let r := skipn n after in
    match find_first closes r with
    | Some e =>
        Some (MatchObj i (i + 7 + n + e + (run_len isspace_char (skipn e r) + 3))
                (Some (i + 7 + n, i + 7 + n + e)))
    | None => None
    end
  else None.

Lemma json_block_run text i :
  run json_block_pattern (adv 0 text None i) (accept (0 + i)) = json_block_match text i.
Proof.
  unfold json_block_pattern, json_block_match. cbn [run adv m_pos m_rest m_grp].
  rewrite lit_k_spec. destruct (startswith (L "```json") (skipn i text)); [|reflexivity].
  cbn [adv m_pos m_rest m_grp]. change (List.length (L "```json")) with 7.
  rewrite skipn_skipn_add. rewrite Nat.add_0_l.
  set (after := skipn (i + 7) text). set (n := run_len isspace_char after).
  set (K1 := fun st : mstate => star_lazy _ _ _ _ _).
  assert (HK : forall q r g,
    K1 (MState q r g) =
    match find_first closes r with
    | Some e => Some (MatchObj i (q + e + (run_len isspace_char (skipn e r) + 3))
                        (Some (q, q + e)))
    | None => None
    end).
  { intros q r g. unfold K1. cbn [m_pos m_rest m_grp].
    destruct (find_first closes r) as [e|] eqn:F.
    - destruct (find_first_some _ _ F) as (H1 & H2 & H3).
      apply star_lazy_first with (n := e).
      + now rewrite run_len_any.
      + cbn [adv m_pos m_rest m_grp]. rewrite close_run, H1. reflexivity.
      + intros j Hj. cbn [adv m_pos m_rest m_grp]. now rewrite close_run, H3.
    - apply star_lazy_none. intros j _. cbn [adv m_pos m_rest m_grp].
      now rewrite close_run, (find_first_none _ _ F). }
  destruct (find_first closes (skipn n after)) as [e|] eqn:F.
  - apply star_greedy_last with (n := n); [unfold cls_space; fold n; lia | |].
    + unfold adv. rewrite HK, F. reflexivity.
    + intros j H1 H2. unfold cls_space in H2. fold n in H2. lia.
  - apply star_greedy_none. intros j Hj. unfold adv. rewrite HK.
    destruct (@run_len_split isspace_char after j Hj) as (w & Hw & Hp).
    fold n in Hw. rewrite Hw. now rewrite find_closes_spaces.
Qed.

(** Strategy 2 of the source decodes the trimmed interior of the first
    fenced block tagged [json]. *)
Lemma json_block_search text :
  option_map (fun m => strip (group1 text m)) (re_search json_block_pattern text)
  = tagged_fence_interior text.
Proof.
  unfold re_search, tagged_fence_interior.
  destruct (find (L "```json") text) as [i|] eqn:F; unfold find in F.
  - destruct (find_first_some _ _ F) as (H1 & H2 & H3).
    set (after := skipn (i + 7) text).
    destruct (@run_len_split isspace_char after 0) as (w & Hw & Hp); [lia|].
    simpl skipn at 1 in Hw.
    destruct (find (L "```") after) as [j|] eqn:G.
    + rewrite Hw, find_fence_spaces in G by exact Hp.
      destruct (find (L "```") (skipn (run_len isspace_char after) after)) as [j'|] eqn:G';
        [|discriminate].
      injection G as <-.
      destruct (find_fence_some_closes _ G') as (e & He & Hs).
      rewrite (@search_from_first json_block_pattern 0 text i
        (MatchObj i (i + 7 + run_len isspace_char after + e
                     + (run_len isspace_char
                          (skipn e (skipn (run_len isspace_char after) after)) + 3))
           (Some (i + 7 + run_len isspace_char after,
                  i + 7 + run_len isspace_char after + e)))); auto.
      * cbn [option_map]. unfold group1. cbn [mo_grp]. rewrite slice_firstn.
        f_equal. rewrite <- skipn_skipn_add. fold after. rewrite Hs.
        rewrite Hw at 3. rewrite firstn_app.
        rewrite (@firstn_all2 _ (List.length w + j') w) by lia.
        replace (List.length w + j' - List.length w) with j' by lia.
        now rewrite strip_spaces_app_l.
      * rewrite json_block_run. unfold json_block_match. rewrite H1. fold after.
        cbv zeta. now rewrite He.
      * intros k Hk. rewrite json_block_run. unfold json_block_match. now rewrite H3.
    + rewrite search_from_none; [reflexivity|].
      intros k _. rewrite json_block_run. unfold json_block_match.
      destruct (startswith (L "```json") (skipn k text)) eqn:E; [|reflexivity].
      destruct (Nat.lt_ge_cases k i) as [Hlt|Hge]; [rewrite H3 in E; auto; discriminate|].
      cbv zeta.
      set (after' := skipn (k + 7) text).
      assert (Ha : after' = skipn (k - i) after).
      { unfold after', after. rewrite skipn_skipn_add. f_equal. lia. }
      assert (Hn : find (L "```") after' = None).
      { unfold find in *. destruct (find_first (startswith (L "```")) after') as [j|] eqn:Fj;
          [|reflexivity].
        destruct (find_first_some _ _ Fj) as (Hj & _).
        rewrite Ha, skipn_skipn_add in Hj.
        now rewrite (find_first_none _ _ G) in Hj. }
      destruct (@run_len_split isspace_char after' 0) as (w' & Hw' & Hp'); [lia|].
      simpl skipn at 1 in Hw'. rewrite Hw', find_fence_spaces in Hn by exact Hp'.
      destruct (find (L "```") (skipn (run_len isspace_char after') after')) eqn:G';
        [discriminate|].
      now rewrite (find_fence_none_closes _ G').
  - rewrite search_from_none; [reflexivity|].
    intros k _. rewrite json_block_run. unfold json_block_match.
    now rewrite (find_first_none _ _ F).
Qed.

(** *** The outer-fence pattern *)

Definition fence_tail : regex :=
  (Star true cls_space +++ Group (Star true cls_any) +++ Star true cls_space
   +++ Lit (L "```") +++ Eol)%re.

Lemma skipn_app_le (x y : str) n : n <= List.length x -> skipn n (x ++ y) = skipn n x ++ y.
Proof.
  intros H. rewrite skipn_app. replace (n - List.length x) with 0 by lia. reflexivity.
Qed.

(** On a text that ends with the fence token, the group of the pattern's
    tail takes everything between the leading whitespace and that token. *)
Lemma fence_tail_run pos x g :
  run fence_tail (MState pos (x ++ L "```") g) (accept 0)
  = Some (MatchObj 0 (pos + List.length x + 3)
            (Some (pos + run_len isspace_char x, pos + List.length x))).
Proof.
  unfold fence_tail. cbn [run m_pos m_rest m_grp].
  set (n := run_len isspace_char x).
  assert (Hn : n <= List.length x) by apply run_len_le.
  apply star_greedy_last with (n := n).
  - unfold cls_space. change (L "```") with (backtick :: L "``").
    rewrite run_len_app_nonmember by reflexivity. fold n. lia.
  - cbn [adv m_pos m_rest m_grp]. rewrite skipn_app_le by exact Hn.
    set (y := skipn n x).
    assert (Hy : List.length y = List.length x - n) by (unfold y; now rewrite length_skipn).
    apply star_greedy_last with (n := List.length y).
    + rewrite run_len_any, length_app. lia.
    + cbn [adv m_pos m_rest m_grp]. rewrite skipn_app, skipn_all, Nat.sub_diag.
      transitivity (Some (MatchObj 0 (S (S (S (pos + n + List.length y))))
                            (Some (pos + n, pos + n + List.length y))));
        [reflexivity|].
      replace (pos + n + List.length y) with (pos + List.length x) by lia.
      replace (S (S (S (pos + List.length x)))) with (pos + List.length x + 3) by lia.
      reflexivity.
    + intros j H1 H2. rewrite run_len_any, length_app in H2.
      change (List.length (L "```")) with 3 in H2.
      cbn [adv m_pos m_rest m_grp]. rewrite skipn_app, skipn_all2 by lia.
      assert (Hj : j - List.length y = 1 \/ j - List.length y = 2 \/ j - List.length y = 3)
        by lia.
      destruct Hj as [-> | [-> | ->]]; reflexivity.
  - intros j H1 H2. unfold cls_space in H2. change (L "```") with (backtick :: L "``") in H2.
    rewrite run_len_app_nonmember in H2 by reflexivity. fold n in H2. lia.
Qed.

Lemma startswith_json_app mid :
  startswith (L "json") (mid ++ L "```") = startswith (L "json") mid.
Proof.
  destruct mid as [|a [|b [|c [|d mid]]]]; reflexivity.
Qed.

Lemma fence_decompose t :
  startswith (L "```") t = true -> endswith (L "```") t = true -> 6 <= List.length t ->
  exists mid, t = L "```" ++ mid ++ L "```".
Proof.
  intros Hs He Hl. apply startswith_true in Hs.
  change (List.length (L "```")) with 3 in Hs.
  set (body := skipn 3 t) in *. exists (rev (skipn 3 (rev body))).
  rewrite Hs at 1. f_equal.
  assert (Hb : 3 <= List.length body) by (unfold body; rewrite length_skipn; lia).
  unfold endswith in He. rewrite Hs, rev_app_distr in He.
  rewrite startswith_app_l in He by (rewrite !length_rev; exact Hb).
  apply startswith_true in He. change (List.length (rev (L "```"))) with 3 in He.
  rewrite <- (rev_involutive body) at 1. rewrite He at 1.
  rewrite rev_app_distr. reflexivity.
Qed.

Lemma fence_short t :
  startswith (L "```") t = true -> endswith (L "```") t = true -> List.length t < 6 ->
  t = L "```" \/ t = L "````" \/ t = L "`````".
Proof.
  intros Hs He Hl. apply startswith_true in Hs.
  change (List.length (L "```")) with 3 in Hs. rewrite Hs in He, Hl. rewrite Hs.
  destruct (skipn 3 t) as [|a [|b [|c l]]]; [auto | | | simpl in Hl; lia].
  - right; left. unfold endswith in He.
    change (rev (L "```" ++ [a])) with (a :: L "```") in He.
    change (rev (L "```")) with (backtick :: L "``") in He.
    now apply startswith_cons_inv in He as [<- _].
  - right; right. unfold endswith in He.
    change (rev (L "```" ++ [a; b])) with (b :: a :: L "```") in He.
    change (rev (L "```")) with (backtick :: backtick :: L "`") in He.
    apply startswith_cons_inv in He as [<- He].
    now apply startswith_cons_inv in He as [<- _].
Qed.

(** Strategy 4 of the source removes the outermost fence. *)
Lemma outer_fence_sub t :
  startswith (L "```") t = true -> endswith (L "```") t = true ->
  re_sub_group1 outer_fence_pattern t = strip_outer_fence t.
Proof.
  intros Hs He. destruct (Nat.lt_ge_cases (List.length t) 6) as [Hl|Hl].
  - destruct (fence_short t Hs He Hl) as [-> | [-> | ->]]; reflexivity.
  - destruct (fence_decompose t Hs He Hl) as (mid & ->).
    unfold strip_outer_fence.
    replace (6 <=? List.length (L "```" ++ mid ++ L "```")) with true
      by (symmetry; apply Nat.leb_le; exact Hl).
    replace (List.length (L "```" ++ mid ++ L "```") - 6) with (List.length mid)
      by (rewrite !length_app; change (List.length (L "```")) with 3; lia).
    change (skipn 3 (L "```" ++ mid ++ L "```")) with (mid ++ L "```").
    rewrite firstn_app, firstn_all, Nat.sub_diag. cbn [firstn]. rewrite app_nil_r.
    unfold re_sub_group1, re_match.
    change outer_fence_pattern
      with (Bol +++ Lit (L "```") +++ Opt (Lit (L "json")) +++ fence_tail)%re.
    cbn [run m_pos m_rest m_grp Nat.eqb].
    rewrite lit_k_spec, startswith_app. cbn [adv m_pos m_rest m_grp].
    change (List.length (L "```")) with 3.
    change (skipn 3 (L "```" ++ mid ++ L "```")) with (mid ++ L "```").
    rewrite lit_k_spec, startswith_json_app.
    destruct (startswith (L "json") mid) eqn:Ej.
    + apply startswith_true in Ej. change (List.length (L "json")) with 4 in Ej.
      set (mid' := skipn 4 mid) in *. rewrite Ej.
      unfold adv. change (List.length (L "json")) with 4.
      change (skipn 4 ((L "json" ++ mid') ++ L "```")) with (mid' ++ L "```").
      rewrite fence_tail_run. unfold group1. cbn [mo_grp mo_end].
      rewrite skipn_all2
        by (rewrite !length_app; change (List.length (L "```")) with 3;
            change (List.length (L "json")) with 4; lia).
      rewrite app_nil_r. unfold slice.
      replace (0 + 3 + 4 + List.length mid' - (0 + 3 + 4 + run_len isspace_char mid'))
        with (List.length mid' - run_len isspace_char mid')
        by (pose proof (run_len_le isspace_char mid'); lia).
      rewrite <- skipn_skipn_add.
      change (skipn (0 + 3 + 4) (L "```" ++ (L "json" ++ mid') ++ L "```"))
        with (mid' ++ L "```").
      rewrite skipn_app_le by apply run_len_le.
      rewrite firstn_app, length_skipn.
      rewrite firstn_all2 by (rewrite length_skipn; lia).
      rewrite Nat.sub_diag. cbn [firstn]. rewrite app_nil_r.
      now rewrite lstrip_run.
    + unfold adv. change (skipn 3 (L "```" ++ mid ++ L "```")) with (mid ++ L "```").
      rewrite fence_tail_run. unfold group1. cbn [mo_grp mo_end].
      rewrite skipn_all2
        by (rewrite !length_app; change (List.length (L "```")) with 3; lia).
      rewrite app_nil_r. unfold slice.
      replace (0 + 3 + List.length mid - (0 + 3 + run_len isspace_char mid))
        with (List.length mid - run_len isspace_char mid)
        by (pose proof (run_len_le isspace_char mid); lia).
      rewrite <- skipn_skipn_add.
      change (skipn (0 + 3) (L "```" ++ mid ++ L "```")) with (mid ++ L "```").
      rewrite skipn_app_le by apply run_len_le.
      rewrite firstn_app, length_skipn.
      rewrite firstn_all2 by (rewrite length_skipn; lia).
      rewrite Nat.sub_diag. cbn [firstn]. rewrite app_nil_r.
      now rewrite lstrip_run.
Qed.

(** *** Texts in a fence *)

Lemma find_first_intro P s n :
  P (skipn n s) = true -> n <= List.length s ->
  (forall i, i < n -> P (skipn i s) = false) ->
  find_first P s = Some n.
Proof.
  revert n. induction s as [|x s IH]; intros n Hn Hl Hf.
  - simpl in Hl. assert (n = 0) by lia. subst. simpl in *. now rewrite Hn.
  - destruct n as [|n].
    + simpl in *. now rewrite Hn.
    + cbn [find_first]. pose proof (Hf 0) as H0. simpl in H0. rewrite H0 by lia.
      rewrite (IH n); auto.
      * simpl in Hl. lia.
      * intros i Hi. apply (Hf (S i)). lia.
Qed.

Lemma find_first_none_intro P s :
  (forall i, P (skipn i s) = false) -> find_first P s = None.
Proof.
  induction s as [|x s IH]; intros H.
  - pose proof (H 0) as H0. simpl in *. now rewrite H0.
  - cbn [find_first]. pose proof (H 0) as H0. simpl in H0. rewrite H0.
    rewrite IH; [reflexivity|]. intros i. apply (H (S i)).
Qed.

Lemma startswith_fence_seam u t :
  startswith (L "```") (u ++ nl :: t) = startswith (L "```") u.
Proof.
  destruct u as [|a [|b [|c u]]]; reflexivity.
Qed.

(** In a text without the fence token, followed by a newline and the
    token, the token stands nowhere but at the end. *)
Lemma fence_only_at_end s i :
  find (L "```") s = None ->
  startswith (L "```") (skipn i (s ++ nl :: L "```")) = true -> i = List.length s + 1.
Proof.
  unfold find. revert i. induction s as [|a s IH]; intros i F H.
  - destruct i as [|[|[|[|[|i]]]]]; try discriminate; reflexivity.
  - cbn [find_first] in F.
    destruct (startswith (L "```") (a :: s)) eqn:E; [discriminate|].
    destruct (find_first (startswith (L "```")) s) eqn:G; [discriminate|].
    destruct i as [|i].
    + cbn [skipn] in H. rewrite (startswith_fence_seam (a :: s)) in H. congruence.
    + simpl skipn in H. simpl. f_equal. now apply IH.
Qed.

Lemma startswith_prefix p q s :
  startswith (p ++ q) s = true -> startswith p s = true.
Proof.
  revert s. induction p as [|a p IH]; intros s H; [reflexivity|].
  destruct s as [|b s]; [discriminate|].
  cbn [app startswith] in *. apply andb_true_iff in H as [H1 H2].
  rewrite H1. simpl. now apply IH.
Qed.

Lemma tagged_interior_of_wrap s :
  find (L "```") s = None -> tagged_fence_interior (wrap_tagged s) = Some (strip s).
Proof.
  intros F. unfold tagged_fence_interior, wrap_tagged.
  change (find (L "```json") (L "```json" ++ [nl] ++ s ++ [nl] ++ L "```")) with (Some 0).
  cbv beta iota zeta.
  change (skipn (0 + 7) (L "```json" ++ [nl] ++ s ++ [nl] ++ L "```"))
    with (nl :: s ++ nl :: L "```").
  assert (Hj : find (L "```") (nl :: s ++ nl :: L "```") = Some (List.length s + 2)).
  { apply find_first_intro.
    - replace (List.length s + 2) with (S (List.length s + 1)) by lia.
      cbn [skipn]. rewrite skipn_app, skipn_all2 by lia.
      replace (List.length s + 1 - List.length s) with 1 by lia. reflexivity.
    - simpl. rewrite length_app. simpl. lia.
    - intros [|i] Hi; [reflexivity|]. cbn [skipn].
      destruct (startswith (L "```") (skipn i (s ++ nl :: L "```"))) eqn:E; [|reflexivity].
      apply fence_only_at_end in E; [lia | exact F]. }
  rewrite Hj. f_equal.
  replace (List.length s + 2) with (S (List.length s + 1)) by lia.
  cbn [firstn]. rewrite firstn_app, firstn_all2 by lia.
  replace (List.length s + 1 - List.length s) with 1 by lia. cbn [firstn].
  change (nl :: s ++ [nl]) with ([nl] ++ s ++ [nl]).
  rewrite strip_spaces_app_l by reflexivity. now rewrite strip_spaces_app_r by reflexivity.
Qed.

Lemma no_tag_in_untagged_wrap s :
  find (L "```") s = None -> tagged_fence_interior (wrap_untagged s) = None.
Proof.
  intros F. unfold tagged_fence_interior, wrap_untagged.
  replace (find (L "```json") (L "```" ++ [nl] ++ s ++ [nl] ++ L "```")) with (@None nat);
    [reflexivity|].
  symmetry. apply find_first_none_intro. intros i.
  destruct i as [|[|[|[|i]]]]; try reflexivity.
  change (skipn (S (S (S (S i)))) (L "```" ++ [nl] ++ s ++ [nl] ++ L "```"))
    with (skipn i (s ++ nl :: L "```")).
  destruct (startswith (L "```json") (skipn i (s ++ nl :: L "```"))) eqn:E; [|reflexivity].
  pose proof (startswith_prefix (L "```") (L "json") _ E) as E3.
  apply fence_only_at_end in E3; [|exact F]. subst i.
  rewrite skipn_app, skipn_all2 in E by lia.
  replace (List.length s + 1 - List.length s) with 1 in E by lia. discriminate.
Qed.

Definition lacks (c : ascii) (s : str) : bool := forallb (fun x => negb (Ascii.eqb x c)) s.

Lemma find_char_after c A rest :
  lacks c A = true -> startswith [c] rest = true -> find [c] (A ++ rest) = Some (List.length A).
Proof.
  unfold find, lacks. induction A as [|a A IH]; intros HA Hr.
  - simpl app. destruct rest; [discriminate|]. cbn [find_first]. now rewrite Hr.
  - simpl in HA. apply andb_true_iff in HA as [H1 H2].
    simpl app. rewrite find_first_cons.
    apply negb_true_iff in H1. rewrite (Ascii.eqb_sym a c) in H1.
    rewrite startswith_cons_false by exact H1.
    now rewrite IH.
Qed.

Lemma rfind_char_lacks c B : lacks c B = true -> rfind_char c B = None.
Proof.
  unfold lacks. induction B as [|b B IH]; intros H; [reflexivity|].
  simpl in H. apply andb_true_iff in H as [H1 H2]. simpl. rewrite IH by exact H2.
  apply negb_true_iff in H1. now rewrite H1.
Qed.

Lemma rfind_char_last c x B :
  lacks c B = true -> rfind_char c (x ++ c :: B) = Some (List.length x).
Proof.
  intros H. induction x as [|a x IH]; simpl.
  - now rewrite rfind_char_lacks, Ascii.eqb_refl.
  - now rewrite IH.
Qed.

(** Between a text without opening brace and a text without closing brace,
    a text that starts with the one and ends with the other is the brace
    span. *)
Lemma brace_span_frame A core B :
  lacks "{" A = true -> lacks "}" B = true ->
  startswith (L "{") core = true -> endswith (L "}") core = true ->
  brace_span (A ++ core ++ B) = Some core.
Proof.
  intros HA HB Hs He. unfold brace_span.
  change (find (L "{")) with (find ["{"%char]).
  rewrite (@find_char_after "{"%char A (core ++ B)); auto.
  2:{ destruct core; [discriminate|]. exact Hs. }
  apply startswith_true in Hs. change (List.length (L "{")) with 1 in Hs.
  unfold endswith in He. apply startswith_true in He.
  change (List.length (rev (L "}"))) with 1 in He.
  assert (Hc : exists y, core = "{"%char :: y ++ ["}"%char]).
  { apply (f_equal (@rev ascii)) in He. rewrite rev_involutive, rev_app_distr in He.
    change (rev (rev (L "}"))) with ["}"%char] in He.
    destruct (rev (skipn 1 (rev core))) as [|z y] eqn:Ey.
    - simpl in He. rewrite He in Hs. discriminate.
    - exists y. rewrite He in Hs |- *. simpl in Hs. injection Hs as ->. reflexivity. }
  destruct Hc as (y & ->).
  replace (skipn (S (List.length A)) (A ++ ("{"%char :: y ++ ["}"%char]) ++ B))
    with (y ++ "}"%char :: B).
  2:{ rewrite skipn_app, skipn_all2 by lia.
      replace (S (List.length A) - List.length A) with 1 by lia.
      simpl. now rewrite <- app_assoc. }
  change (chr 125) with "}"%char. rewrite rfind_char_last by exact HB.
  f_equal. rewrite skipn_app, skipn_all, Nat.sub_diag. cbn [skipn app].
  replace (List.length y + 2) with (S (List.length (y ++ ["}"%char])))
    by (rewrite length_app; simpl; lia).
  cbn [firstn]. f_equal. rewrite firstn_app, firstn_all, Nat.sub_diag.
  cbn [firstn]. now rewrite app_nil_r.
Qed.

Lemma space_lacks c w :
  isspace_char c = false -> forallb isspace_char w = true -> lacks c w = true.
Proof.
  intros Hc. unfold lacks. induction w as [|x w IH]; intros H; [reflexivity|].
  simpl in *. apply andb_true_iff in H as [H1 H2]. rewrite IH by exact H2.
  rewrite andb_true_r. apply negb_true_iff.
  destruct (Ascii.eqb x c) eqn:E; [|reflexivity].
  apply Ascii.eqb_eq in E. subst. congruence.
Qed.

Lemma lacks_app c a b : lacks c (a ++ b) = lacks c a && lacks c b.
Proof. apply forallb_app. Qed.

Lemma brace_span_of_wrap s :
  startswith (L "{") (strip s) = true -> endswith (L "}") (strip s) = true ->
  brace_span (wrap_untagged s) = Some (strip s).
Proof.
  intros Hs He. destruct (strip_decompose s) as (w1 & w2 & Hd & P1 & P2).
  unfold wrap_untagged. rewrite Hd at 1.
  replace (L "```" ++ [nl] ++ (w1 ++ strip s ++ w2) ++ [nl] ++ L "```")
    with ((L "```" ++ [nl] ++ w1) ++ strip s ++ (w2 ++ [nl] ++ L "```"))
    by (now rewrite <- !app_assoc).
  apply brace_span_frame; auto.
  - rewrite !lacks_app. rewrite (space_lacks "{"%char w1) by (auto; reflexivity). reflexivity.
  - rewrite !lacks_app. rewrite (space_lacks "}"%char w2) by (auto; reflexivity). reflexivity.
Qed.

Lemma strip_wrap_tagged s : strip (wrap_tagged s) = wrap_tagged s.
Proof.
  unfold wrap_tagged.
  replace (L "```json" ++ [nl] ++ s ++ [nl] ++ L "```")
    with (backtick :: (L "``json" ++ [nl] ++ s ++ [nl] ++ L "``") ++ [backtick])
    by (simpl; now rewrite <- !app_assoc).
  now apply strip_nonspace_ends.
Qed.

Lemma strip_wrap_untagged s : strip (wrap_untagged s) = wrap_untagged s.
Proof.
  unfold wrap_untagged.
  replace (L "```" ++ [nl] ++ s ++ [nl] ++ L "```")
    with (backtick :: (L "``" ++ [nl] ++ s ++ [nl] ++ L "``") ++ [backtick])
    by (simpl; now rewrite <- !app_assoc).
  now apply strip_nonspace_ends.
Qed.

End ExtractorFacts.
(** ** The Extractor: texts in a fence, with or without tag *)

Module WrapFacts.
Import Re ReFacts PyStrFacts ExtractorSpec Extractor ExtractorFacts.

(** A pattern without newline does not match across a newline. *)
Lemma startswith_seam p a b :
  lacks nl p = true -> p <> [] -> startswith p (a ++ nl :: b) = startswith p a.
Proof.
  revert a. induction p as [|c p IH]; intros a Hp Hn; [congruence|].
  cbn [lacks forallb] in Hp. apply andb_true_iff in Hp as [Hc Hp].
  apply negb_true_iff in Hc.
  destruct a as [|x a]; cbn [app startswith].
  - now rewrite Hc.
  - destruct p as [|d p]; [reflexivity|]. rewrite IH; auto. discriminate.
Qed.

Lemma find_seam p a b :
  lacks nl p = true -> p <> [] ->
  find p (a ++ nl :: b)
  = match find p a with
    | Some i => Some i
    | None => option_map (fun j => List.length a + 1 + j) (find p b)
    end.
Proof.
  intros Hp Hn. unfold find. induction a as [|x a IH].
  - pose proof (@startswith_seam p [] b Hp Hn) as E. cbn [app] in E |- *.
    rewrite find_first_cons, E.
    destruct p; [congruence|]. cbn [startswith find_first].
    destruct (find_first _ b); reflexivity.
  - change ((x :: a) ++ nl :: b) with (x :: (a ++ nl :: b)).
    rewrite !find_first_cons.
    change (x :: a ++ nl :: b) with ((x :: a) ++ nl :: b).
    rewrite startswith_seam by assumption.
    destruct (startswith p (x :: a)); [reflexivity|].
    rewrite IH. destruct (find_first (startswith p) a); [reflexivity|].
    destruct (find_first (startswith p) b); reflexivity.
Qed.

(** The text up to its first fence token; the text itself when it has
    none. *)
Definition before_fence (s : str) : str :=
  match find (L "```") s with
  | Some j => firstn j s
  | None => s
  end.

Lemma tagged_interior_wrap_tagged s :
  tagged_fence_interior (wrap_tagged s) = Some (strip (before_fence s)).
Proof.
  unfold tagged_fence_interior, wrap_tagged, before_fence.
  change (find (L "```json") (L "```json" ++ [nl] ++ s ++ [nl] ++ L "```")) with (Some 0).
  cbv beta iota zeta.
  change (skipn (0 + 7) (L "```json" ++ [nl] ++ s ++ [nl] ++ L "```"))
    with ([] ++ nl :: (s ++ nl :: L "```")).
  rewrite (@find_seam (L "```") [] (s ++ nl :: L "```")) by (reflexivity || discriminate).
  change (find (L "```") []) with (@None nat).
  rewrite (@find_seam (L "```") s (L "```")) by (reflexivity || discriminate).
  destruct (find (L "```") s) as [j|] eqn:F; cbn [option_map].
  - unfold find in F. destruct (find_first_some _ _ F) as (_ & Hj & _).
    f_equal. cbn [List.length Nat.add app firstn].
    rewrite firstn_app. replace (j - List.length s) with 0 by lia.
    cbn [firstn]. rewrite app_nil_r.
    change (nl :: firstn j s) with ([nl] ++ firstn j s).
    now rewrite strip_spaces_app_l by reflexivity.
  - change (find (L "```") (L "```")) with (Some 0). cbn [option_map].
    f_equal. cbn [List.length Nat.add app firstn].
    replace (List.length s + 1 + 0) with (List.length s + 1) by lia.
    rewrite firstn_app, firstn_all2 by lia.
    replace (List.length s + 1 - List.length s) with 1 by lia. cbn [firstn].
    change (nl :: s ++ [nl]) with ([nl] ++ s ++ [nl]).
    rewrite strip_spaces_app_l by reflexivity. now rewrite strip_spaces_app_r by reflexivity.
Qed.

Lemma tagged_interior_wrap_untagged s :
  find (L "```json") s = None -> tagged_fence_interior (wrap_untagged s) = None.
Proof.
  intros F. unfold tagged_fence_interior, wrap_untagged.
  change (L "```" ++ [nl] ++ s ++ [nl] ++ L "```") with (L "```" ++ nl :: (s ++ nl :: L "```")).
  rewrite (@find_seam (L "```json") (L "```") (s ++ nl :: L "```"))
    by (reflexivity || discriminate).
  change (find (L "```json") (L "```")) with (@None nat).
  rewrite (@find_seam (L "```json") s (L "```")) by (reflexivity || discriminate).
  rewrite F. reflexivity.
Qed.

(** In a fence without tag the first block tagged json, if there is one,
    opens inside the text; the fence that closes the wrapper may close
    it. *)
Lemma tagged_interior_wrap_untagged_any s :
  tagged_fence_interior (wrap_untagged s) = tagged_fence_interior (s ++ nl :: L "```").
Proof.
  unfold tagged_fence_interior, wrap_untagged.
  change (L "```" ++ [nl] ++ s ++ [nl] ++ L "```") with (L "```" ++ nl :: (s ++ nl :: L "```")).
  rewrite (@find_seam (L "```json") (L "```") (s ++ nl :: L "```"))
    by (reflexivity || discriminate).
  change (find (L "```json") (L "```")) with (@None nat).
  destruct (find (L "```json") (s ++ nl :: L "```")) as [i|]; cbn [option_map]; [|reflexivity].
  change (List.length (L "```") + 1 + i + 7) with (4 + (i + 7)).
  reflexivity.
Qed.

Lemma tagged_interior_closed_none s :
  find (L "```json") s = None -> tagged_fence_interior (s ++ nl :: L "```") = None.
Proof.
  intros F. rewrite <- tagged_interior_wrap_untagged_any.
  now apply tagged_interior_wrap_untagged.
Qed.

(** *** The brace span of a text between texts without braces *)

Lemma find_char_lacks c A t :
  lacks c A = true ->
  find [c] (A ++ t) = option_map (fun i => List.length A + i) (find [c] t).
Proof.
  unfold find, lacks. induction A as [|a A IH]; intros HA.
  - cbn [app List.length Nat.add]. destruct (find_first _ t); reflexivity.
  - simpl in HA. apply andb_true_iff in HA as [H1 H2].
    simpl app. rewrite find_first_cons.
    apply negb_true_iff in H1. rewrite (Ascii.eqb_sym a c) in H1.
    rewrite startswith_cons_false by exact H1.
    rewrite IH by exact H2. destruct (find_first _ t); reflexivity.
Qed.

Lemma find_char_app c s Q :
  lacks c Q = true -> find [c] (s ++ Q) = find [c] s.
Proof.
  unfold find. intros HQ. induction s as [|x s IH].
  - cbn [app]. pose proof (@find_char_lacks c Q [] HQ) as H. rewrite app_nil_r in H.
    unfold find in H. rewrite H. reflexivity.
  - change ((x :: s) ++ Q) with (x :: (s ++ Q)). rewrite !find_first_cons, IH.
    reflexivity.
Qed.

Lemma rfind_char_app c x Q :
  lacks c Q = true -> rfind_char c (x ++ Q) = rfind_char c x.
Proof.
  intros HQ. induction x as [|a x IH]; cbn [app rfind_char].
  - now apply rfind_char_lacks.
  - now rewrite IH.
Qed.

Lemma brace_span_between P s Q :
  lacks "{" P = true -> lacks "{" Q = true -> lacks "}" Q = true ->
  brace_span (P ++ s ++ Q) = brace_span s.
Proof.
  intros HP HQ1 HQ2. unfold brace_span.
  change (find (L "{")) with (find ["{"%char]).
  rewrite find_char_lacks by exact HP. rewrite find_char_app by exact HQ1.
  destruct (find ["{"%char] s) as [a|] eqn:F; cbn [option_map]; [|reflexivity].
  unfold find in F. destruct (find_first_some _ _ F) as (Ha & Hl & _).
  assert (Hlt : a < List.length s).
  { destruct (skipn a s) eqn:E; [discriminate|].
    assert (List.length (skipn a s) = List.length s - a) by apply length_skipn.
    rewrite E in H. simpl in H. lia. }
  replace (skipn (S (List.length P + a)) (P ++ s ++ Q)) with (skipn (S a) s ++ Q).
  2:{ symmetry. rewrite skipn_app, (@skipn_all2 _ (S (List.length P + a)) P) by lia.
      replace (S (List.length P + a) - List.length P) with (S a) by lia.
      cbn [app]. rewrite skipn_app. replace (S a - List.length s) with 0 by lia.
      reflexivity. }
  change (chr 125) with "}"%char. rewrite rfind_char_app by exact HQ2.
  destruct (rfind_char "}" (skipn (S a) s)) as [b|] eqn:G; [|reflexivity].
  destruct (rfind_char_some _ _ G) as (_ & Hb & _). rewrite length_skipn in Hb.
  f_equal.
  replace (skipn (List.length P + a) (P ++ s ++ Q)) with (skipn a s ++ Q).
  2:{ symmetry. rewrite skipn_app, (@skipn_all2 _ (List.length P + a) P) by lia.
      replace (List.length P + a - List.length P) with a by lia.
      cbn [app]. rewrite skipn_app. replace (a - List.length s) with 0 by lia.
      reflexivity. }
  rewrite firstn_app. rewrite length_skipn.
  replace (b + 2 - (List.length s - a)) with 0 by lia. cbn [firstn]. now rewrite app_nil_r.
Qed.

Lemma brace_span_wrap_untagged s : brace_span (wrap_untagged s) = brace_span s.
Proof.
  unfold wrap_untagged.
  change (L "```" ++ [nl] ++ s ++ [nl] ++ L "```") with ((L "```" ++ [nl]) ++ s ++ ([nl] ++ L "```")).
  now apply brace_span_between.
Qed.

Lemma brace_span_wrap_tagged s : brace_span (wrap_tagged s) = brace_span s.
Proof.
  unfold wrap_tagged.
  change (L "```json" ++ [nl] ++ s ++ [nl] ++ L "```")
    with ((L "```json" ++ [nl]) ++ s ++ ([nl] ++ L "```")).
  now apply brace_span_between.
Qed.

(** *** Strategy 4 on a text in a fence *)

Lemma endswith_app_r (p s : str) : endswith p (s ++ p) = true.
Proof. unfold endswith. rewrite rev_app_distr. apply startswith_app. Qed.

Lemma strip_outer_fence_frame X :
  strip_outer_fence (L "```" ++ X ++ L "```")
  = lstrip (if startswith (L "json") X then skipn 4 X else X).
Proof.
  unfold strip_outer_fence.
  assert (Hl : List.length (L "```" ++ X ++ L "```") = List.length X + 6).
  { rewrite !length_app. change (List.length (L "```")) with 3. lia. }
  rewrite Hl. replace (6 <=? List.length X + 6) with true by (symmetry; apply Nat.leb_le; lia).
  replace (List.length X + 6 - 6) with (List.length X) by lia.
  change (skipn 3 (L "```" ++ X ++ L "```")) with (X ++ L "```").
  rewrite firstn_app, firstn_all, Nat.sub_diag. cbn [firstn]. now rewrite app_nil_r.
Qed.

Lemma unfenced_frame X :
  unfenced_text (L "```" ++ X ++ L "```")
  = Some (lstrip (if startswith (L "json") X then skipn 4 X else X)).
Proof.
  unfold unfenced_text.
  assert (Hs : strip (L "```" ++ X ++ L "```") = L "```" ++ X ++ L "```").
  { replace (L "```" ++ X ++ L "```") with (backtick :: (L "``" ++ X ++ L "``") ++ [backtick])
      by (simpl; now rewrite <- !app_assoc).
    now apply strip_nonspace_ends. }
  rewrite Hs, startswith_app.
  replace (endswith (L "```") (L "```" ++ X ++ L "```")) with true
    by (symmetry; rewrite app_assoc; apply endswith_app_r).
  cbn [andb]. now rewrite strip_outer_fence_frame.
Qed.

Lemma unfenced_wrap_untagged s :
  unfenced_text (wrap_untagged s) = Some (lstrip (s ++ [nl])).
Proof.
  unfold wrap_untagged.
  replace (L "```" ++ [nl] ++ s ++ [nl] ++ L "```") with (L "```" ++ (nl :: s ++ [nl]) ++ L "```")
    by (cbn [app]; now rewrite <- app_assoc).
  rewrite unfenced_frame. reflexivity.
Qed.

Lemma unfenced_wrap_tagged s :
  unfenced_text (wrap_tagged s) = Some (lstrip (s ++ [nl])).
Proof.
  unfold wrap_tagged.
  replace (L "```json" ++ [nl] ++ s ++ [nl] ++ L "```")
    with (L "```" ++ (L "json" ++ nl :: s ++ [nl]) ++ L "```")
    by (cbn [app L list_ascii_of_string]; now rewrite <- app_assoc).
  rewrite unfenced_frame. reflexivity.
Qed.

End WrapFacts.
(** ** The Parser: fence lines and the scan of the lines *)

Module ParserFacts.
Import Re ReFacts PyStrFacts Parser ParserSpec.

Lemma lstrip_head_nonspace s c r : lstrip s = c :: r -> isspace_char c = false.
Proof.
  induction s as [|x s IH]; simpl; [discriminate|].
  destruct (isspace_char x) eqn:E; auto. intros [= <- _]. exact E.
Qed.

Lemma strip_last_nonspace l x c : strip l = x ++ [c] -> isspace_char c = false.
Proof.
  unfold strip, rstrip. intros H.
  apply (f_equal (@rev ascii)) in H. rewrite rev_involutive, rev_app_distr in H.
  simpl in H. now apply lstrip_head_nonspace in H.
Qed.

Lemma word_not_space c : isword_char c = true -> isspace_char c = false.
Proof.
  destruct c as [b0 b1 b2 b3 b4 b5 b6 b7].
  destruct b0, b1, b2, b3, b4, b5, b6, b7; vm_compute; congruence.
Qed.

Lemma run_len_all p s : forallb p s = true -> skipn (run_len p s) s = [].
Proof.
  induction s as [|c s IH]; simpl; [reflexivity|]. intros H.
  apply andb_true_iff in H as [H1 H2]. rewrite H1. simpl. auto.
Qed.

Lemma run_len_stop p s c r : skipn (run_len p s) s = c :: r -> p c = false.
Proof.
  induction s as [|x s IH]; simpl; [discriminate|].
  destruct (p x) eqn:E; simpl; auto. intros [= <- _]. exact E.
Qed.

Lemma run_len_rest_forallb p s :
  forallb p s = match skipn (run_len p s) s with [] => true | _ => false end.
Proof.
  induction s as [|x s IH]; simpl; [reflexivity|].
  destruct (p x) eqn:E; simpl; auto.
Qed.

(** [$] after the word characters of a tag. *)
Definition at_end (s : str) : bool :=
  match s with
  | [] => true
  | [c] => Ascii.eqb c nl
  | _ => false
  end.

Lemma code_block_run t :
  re_match code_block_pattern t =
  if startswith (L "```") t then
    let r := skipn 3 t in
    let n := run_len isword_char r in
    if at_end (skipn n r) then Some (MatchObj 0 (3 + n) (Some (3, 3 + n))) else None
  else None.
Proof.
  unfold re_match, code_block_pattern. cbn [run m_pos m_rest m_grp Nat.eqb].
  rewrite lit_k_spec. destruct (startswith (L "```") t); [|reflexivity].
  unfold adv. cbn [m_pos m_rest m_grp]. change (List.length (L "```")) with 3.
  cbv zeta. set (r := skipn 3 t).
  rewrite star_greedy_max.
  - unfold adv. cbn [m_pos m_rest m_grp]. unfold cls_word.
    destruct (skipn (run_len isword_char r) r) as [|c [|d q]]; reflexivity.
  - intros i Hi. destruct (run_len_skipn _ _ Hi) as (c & s' & Hs & Hc).
    unfold adv. cbn [m_pos m_rest m_grp]. rewrite Hs.
    destruct s'; [|reflexivity].
    destruct (Ascii.eqb c nl) eqn:E; [|reflexivity].
    apply Ascii.eqb_eq in E. subst. discriminate.
Qed.

(** The source's test on a buffered line, [code_block_pattern] against the
    trimmed line, is the test for a fence-marker line. *)
Lemma code_block_is_fence_line line :
  match re_match code_block_pattern (strip line) with Some _ => true | None => false end
  = is_fence_line line.
Proof.
  rewrite code_block_run. unfold is_fence_line. cbv zeta.
  destruct (startswith (L "```") (strip line)) eqn:Hs; [|reflexivity].
  cbn [andb]. rewrite (run_len_rest_forallb isword_char (skipn 3 (strip line))).
  destruct (skipn (run_len isword_char (skipn 3 (strip line))) (skipn 3 (strip line)))
    as [|c [|d q]] eqn:Hr; try reflexivity.
  cbn [at_end]. destruct (Ascii.eqb c nl) eqn:E; [|reflexivity].
  exfalso. apply Ascii.eqb_eq in E. subst c.
  assert (Hl : exists x, strip line = x ++ [nl]).
  { apply startswith_true in Hs. change (List.length (L "```")) with 3 in Hs.
    rewrite <- (firstn_skipn (run_len isword_char (skipn 3 (strip line)))
                  (skipn 3 (strip line))) in Hs.
    rewrite Hr in Hs. rewrite Hs.
    eexists. rewrite app_assoc. reflexivity. }
  destruct Hl as (x & Hx). apply strip_last_nonspace in Hx. discriminate.
Qed.

Lemma process_lines_filter content acc b :
  fold_left process_line content (Cleaning acc false b)
  = Cleaning (acc ++ filter (fun l => negb (is_fence_line l)) content) false
      (in_internal_block (fold_left process_line content (Cleaning acc false b))).
Proof.
  revert acc b. induction content as [|line content IH]; intros acc b; simpl.
  - now rewrite app_nil_r.
  - unfold process_line at 2 4. cbn [skip_next_line result in_internal_block].
    rewrite <- code_block_is_fence_line.
    destruct (re_match code_block_pattern (strip line)); cbn [negb].
    + apply IH.
    + rewrite IH. now rewrite <- app_assoc.
Qed.

(** [process_content] joins the lines that the post-processing keeps. *)
Lemma process_content_spec content md :
  process_content content md = join [nl] (kept_lines md content).
Proof.
  unfold process_content, kept_lines. destruct content as [|l content].
  - now destruct md.
  - destruct md; [reflexivity|]. now rewrite process_lines_filter.
Qed.

(** *** The scan of the lines *)

Local Notation "'scan'" := (scan_line file_delimiter_pattern).

Lemma scan_no_marker_idle st line :
  marker_path line = None -> current_path st = None -> scan st line = st.
Proof.
  unfold marker_path, scan_line. intros H Hp.
  destruct (re_match file_delimiter_pattern line); [discriminate|]. now rewrite Hp.
Qed.

Lemma scan_no_marker_buffer st line p :
  marker_path line = None -> current_path st = Some p ->
  files (scan st line) = files st
  /\ current_path (scan st line) = Some p
  /\ current_content (scan st line) = current_content st ++ [line].
Proof.
  unfold marker_path, scan_line. intros H Hp.
  destruct (re_match file_delimiter_pattern line); [discriminate|]. rewrite Hp.
  destruct (re_match code_block_pattern (strip line)); cbn; auto.
Qed.

Lemma scan_marker st line p :
  marker_path line = Some p ->
  files (scan st line) = save_current st
  /\ current_path (scan st line) = Some p
  /\ current_content (scan st line) = [].
Proof.
  unfold marker_path, scan_line. intros H.
  destruct (re_match file_delimiter_pattern line); [|discriminate].
  injection H as <-. cbn. auto.
Qed.

Lemma scan_preamble pre st :
  Forall (fun l => marker_path l = None) pre -> current_path st = None ->
  fold_left scan pre st = st.
Proof.
  intros H. revert st. induction H as [|l pre Hl _ IH]; intros st Hp; simpl; [reflexivity|].
  rewrite scan_no_marker_idle by assumption. now apply IH.
Qed.

Lemma scan_body body st p :
  Forall (fun l => marker_path l = None) body -> current_path st = Some p ->
  files (fold_left scan body st) = files st
  /\ current_path (fold_left scan body st) = Some p
  /\ current_content (fold_left scan body st) = current_content st ++ body.
Proof.
  intros H. revert st. induction H as [|l body Hl _ IH]; intros st Hp; simpl.
  - now rewrite app_nil_r.
  - destruct (@scan_no_marker_buffer st l p Hl Hp) as (H1 & H2 & H3).
    destruct (IH _ H2) as (G1 & G2 & G3).
    rewrite G1, G2, G3, H1, H3, <- app_assoc. auto.
Qed.

(** Every block is stored as on an assignment to the dictionary: at its
    slash-normalized path, with its post-processed body. *)
Lemma scan_blocks blocks st :
  Forall well_formed_block blocks ->
  save_current (fold_left scan (flat_map block_lines blocks) st)
  = fold_left (fun d e => PyDict.set (fst e) (snd e) d) (map block_entry blocks)
      (save_current st).
Proof.
  intros H. revert st. induction H as [|[[m p] body] blocks [Hm Hb] _ IH]; intros st.
  - reflexivity.
  - cbn [flat_map block_lines map]. rewrite <- app_comm_cons.
    cbn [fold_left]. rewrite fold_left_app, IH. f_equal.
    destruct (@scan_marker st m p Hm) as (H1 & H2 & H3).
    destruct (@scan_body body _ p Hb H2) as (G1 & G2 & G3).
    unfold save_current at 1. rewrite G1, G2, G3, H1, H3. cbn [app block_entry fst snd].
    now rewrite process_content_spec.
Qed.

Lemma set_fresh (V : Type) k (v : V) d :
  ~ In k (PyDict.keys d) -> PyDict.set k v d = d ++ [(k, v)].
Proof.
  induction d as [|[k' v'] d IH]; intros H; simpl; [reflexivity|].
  simpl in H. destruct (str_eqb k' k) eqn:E.
  - apply str_eqb_eq in E. tauto.
  - rewrite IH by tauto. reflexivity.
Qed.

Lemma assign_distinct (V : Type) (entries d : PyDict.dict V) :
  NoDup (PyDict.keys d ++ PyDict.keys entries) ->
  fold_left (fun d e => PyDict.set (fst e) (snd e) d) entries d = d ++ entries.
Proof.
  revert d. induction entries as [|[k v] entries IH]; intros d H; simpl.
  - now rewrite app_nil_r.
  - simpl in H. pose proof (NoDup_remove_2 _ _ _ H) as Hk.
    rewrite set_fresh by (intros Hin; apply Hk; apply in_or_app; now left).
    rewrite IH.
    + now rewrite <- app_assoc.
    + unfold PyDict.keys in *. rewrite map_app. simpl. rewrite <- app_assoc. exact H.
Qed.

(** Every text is a preamble and blocks. *)
Lemma lines_decompose lines :
  exists preamble blocks,
    lines = reply_lines preamble blocks
    /\ Forall (fun l => marker_path l = None) preamble
    /\ Forall well_formed_block blocks.
Proof.
  induction lines as [|l lines (pre & blocks & -> & Hp & Hb)].
  - exists [], []. repeat split; constructor.
  - destruct (marker_path l) as [p|] eqn:E.
    + exists [], ((l, p, pre) :: blocks). repeat split; auto.
      constructor; [split; assumption | assumption].
    + exists (l :: pre), blocks. repeat split; auto.
Qed.

Lemma block_entry_key blocks : map fst (map block_entry blocks) = map block_key blocks.
Proof.
  induction blocks as [|[[m p] body] blocks IH]; simpl; [reflexivity|]. now rewrite IH.
Qed.

(** *** The fence pattern of [code2testt.py] *)

Definition matched (o : option match_obj) : bool :=
  match o with Some _ => true | None => false end.

Lemma run_len_full p s : forallb p s = true -> run_len p s = List.length s.
Proof.
  induction s as [|c s IH]; simpl; [reflexivity|]. intros H.
  apply andb_true_iff in H as [H1 H2]. rewrite H1. f_equal. auto.
Qed.

Lemma spaces_to_end pos q g :
  star_greedy cls_space pos q g (fun st => run Eol st (accept 0))
  = if forallb isspace_char q then Some (MatchObj 0 (pos + List.length q) g) else None.
Proof.
  destruct (forallb isspace_char q) eqn:E.
  - apply star_greedy_last with (n := List.length q).
    + unfold cls_space. rewrite run_len_full by exact E. lia.
    + unfold adv. cbn [run m_rest]. now rewrite skipn_all.
    + intros i H1 H2. pose proof (run_len_le cls_space q). lia.
  - apply star_greedy_none. intros i Hi.
    destruct (@run_len_split cls_space q i Hi) as (w & Hw & Hp).
    pose proof (run_len_rest_forallb isspace_char q) as Hr. rewrite E in Hr.
    unfold cls_space in *.
    destruct (skipn (run_len isspace_char q) q) as [|c r] eqn:Hs; [discriminate|].
    pose proof (run_len_stop _ _ Hs) as Hc.
    unfold adv. cbn [run m_rest]. rewrite Hw.
    destruct w as [|x [|y w]]; simpl.
    + destruct r; [|reflexivity].
      destruct (Ascii.eqb c nl) eqn:En; [|reflexivity].
      apply Ascii.eqb_eq in En. subst. discriminate.
    + reflexivity.
    + reflexivity.
Qed.

Definition tag_tail : regex :=
  (Opt (Cls cls_word +++ Star true cls_word) +++ Star true cls_space +++ Eol)%re.

Lemma tag_tail_run pos r g :
  matched (run tag_tail (MState pos r g) (accept 0))
  = forallb isspace_char (skipn (run_len isword_char r) r).
Proof.
  unfold tag_tail. cbn [run m_pos m_rest m_grp].
  destruct r as [|c r].
  - reflexivity.
  - unfold cls_word at 1. cbn [run_len]. destruct (isword_char c) eqn:Ec.
    + cbn [skipn]. rewrite star_greedy_max.
      * unfold adv. cbn [m_pos m_rest m_grp]. rewrite spaces_to_end.
        unfold cls_word.
        destruct (forallb isspace_char (skipn (run_len isword_char r) r)); [reflexivity|].
        rewrite spaces_to_end. cbn [forallb]. now rewrite (word_not_space _ Ec).
      * intros i Hi. destruct (run_len_skipn _ _ Hi) as (x & s' & Hs & Hx).
        unfold adv. cbn [m_pos m_rest m_grp]. rewrite spaces_to_end, Hs.
        cbn [forallb]. now rewrite (word_not_space _ Hx).
    + cbn [skipn]. rewrite spaces_to_end.
      destruct (forallb isspace_char (c :: r)); reflexivity.
Qed.

Lemma md_fence_run line :
  Code2testt.is_fence line
  = startswith (L "```") (lstrip line)
    && forallb isspace_char
         (skipn (run_len isword_char (skipn 3 (lstrip line))) (skipn 3 (lstrip line))).
Proof.
  unfold Code2testt.is_fence, re_match, Code2testt.markdown_fence_pattern.
  change (Bol +++ Star true cls_space +++ Lit (L "```")
          +++ Opt (Cls cls_word +++ Star true cls_word) +++ Star true cls_space +++ Eol)%re
    with (Bol +++ Star true cls_space +++ Lit (L "```") +++ tag_tail)%re.
  cbn [run m_pos m_rest m_grp Nat.eqb].
  rewrite star_greedy_max.
  - unfold adv. cbn [m_pos m_rest m_grp]. rewrite lit_k_spec.
    unfold cls_space. rewrite <- lstrip_run.
    destruct (startswith (L "```") (lstrip line)); [|reflexivity].
    unfold adv. cbn [m_pos m_rest m_grp andb]. change (List.length (L "```")) with 3.
    apply tag_tail_run.
  - intros i Hi. destruct (run_len_skipn _ _ Hi) as (c & s' & Hs & Hc).
    unfold adv. cbn [m_pos m_rest m_grp]. rewrite lit_k_spec.
    cbn [adv m_pos m_rest m_grp]. rewrite Hs.
    now rewrite ExtractorFacts.fence_not_at_space.
Qed.

Lemma rstrip_prefix_head c r :
  forallb isspace_char (c :: r) = false -> exists r', rstrip (c :: r) = c :: r'.
Proof.
  intros H. destruct (rstrip_decompose (c :: r)) as (w & Hw & Hp).
  destruct (rstrip (c :: r)) as [|x r'] eqn:E.
  - simpl in Hw. subst w. congruence.
  - simpl in Hw. injection Hw as -> _. eauto.
Qed.

Lemma tag_then_spaces r :
  forallb isspace_char (skipn (run_len isword_char r) r) = forallb isword_char (rstrip r).
Proof.
  induction r as [|c r IH]; [reflexivity|].
  cbn [run_len]. destruct (isword_char c) eqn:Ec.
  - cbn [skipn]. rewrite rstrip_cons_nonspace by (now apply word_not_space).
    cbn [forallb]. now rewrite Ec.
  - cbn [skipn]. destruct (forallb isspace_char (c :: r)) eqn:E.
    + now rewrite rstrip_all_space.
    + destruct (rstrip_prefix_head _ _ E) as (r' & ->). cbn [forallb]. now rewrite Ec.
Qed.

(** The two fence patterns accept the same lines. *)
Lemma md_fence_is_fence_line line : Code2testt.is_fence line = is_fence_line line.
Proof.
  rewrite md_fence_run. unfold is_fence_line, strip. cbv zeta.
  destruct (startswith (L "```") (lstrip line)) eqn:Hs.
  - apply startswith_true in Hs. change (List.length (L "```")) with 3 in Hs.
    set (r := skipn 3 (lstrip line)) in *. rewrite Hs.
    change (L "```" ++ r) with (backtick :: backtick :: backtick :: r).
    rewrite !rstrip_cons_nonspace by reflexivity.
    cbn [andb]. change (startswith (L "```") (backtick :: backtick :: backtick :: rstrip r))
      with true. cbn [andb skipn]. apply tag_then_spaces.
  - cbn [andb].
    destruct (startswith (L "```") (rstrip (lstrip line))) eqn:Hr; [|reflexivity].
    exfalso. destruct (rstrip_decompose (lstrip line)) as (w & Hw & _).
    apply startswith_true in Hr. rewrite Hr, <- app_assoc in Hw.
    rewrite Hw, startswith_app in Hs. discriminate.
Qed.

(** [clean_content] drops a fence-marker line at the head of the buffer and
    then one at its end, and trims the joined text. *)
Lemma clean_content_spec content :
  Code2testt.clean_content content = strip (join [nl] (without_outer_fences content)).
Proof.
  unfold Code2testt.clean_content, without_outer_fences.
  destruct content as [|first others]; [reflexivity|].
  rewrite md_fence_is_fence_line.
  destruct (is_fence_line first).
  - destruct others as [|l others]; [reflexivity|].
    now rewrite md_fence_is_fence_line.
  - now rewrite md_fence_is_fence_line.
Qed.

End ParserFacts.
(** ** The Materializer: events and their projections *)

Module MaterializerFacts.
Import PosixPath Os Materializer MaterializerSpec PyStrFacts.

(* An event is none of those listed. *)
Ltac split_in H :=
  cbn [In] in H;
  repeat (destruct H as [H|H]; [try discriminate H|]);
  try contradiction.

Lemma printed_app a b : printed (a ++ b) = printed a ++ printed b.
Proof.
  induction a as [|[l|p r|p r|p c r|r] a IH]; simpl; auto. now rewrite IH.
Qed.

Lemma written_app a b : written (a ++ b) = written a ++ written b.
Proof.
  induction a as [|[l|p r|p r|p c [|e]|r] a IH]; simpl; auto. now rewrite IH.
Qed.

Lemma written_none ev : (forall p c r, ~ In (OpenWrite p c r) ev) -> written ev = [].
Proof.
  induction ev as [|[l|p r|p r|p c [|e]|r] ev IH]; intros H; simpl; auto;
    try (apply IH; intros p' c' r' Hin; apply (H p' c' r'); now right).
  exfalso. apply (H p c Written). now left.
Qed.

(** The flags of the entries settled so far, folded as the loop folds them. *)
Definition folded (A : Type) (g : bool -> A -> A) (flags : list bool) (acc : A) : A :=
  fold_left (fun a b => g b a) flags acc.

Definition count_true (flags : list bool) : nat := List.length (filter (fun b => b) flags).

Lemma folded_count flags : forall n,
  folded (fun (wrote : bool) n => if wrote then S n else n) flags n = n + count_true flags.
Proof.
  unfold folded, count_true.
  induction flags as [|[|] flags IH]; intros n; cbn [fold_left filter List.length].
  - lia.
  - rewrite IH. lia.
  - apply IH.
Qed.

Lemma writes_inside_app root a b :
  writes_inside root a -> writes_inside root b -> writes_inside root (a ++ b).
Proof.
  intros Ha Hb p c r Hin. apply in_app_or in Hin as [H|H]; eauto.
Qed.

Lemma writes_inside_nil root : writes_inside root [].
Proof. intros p c r []. Qed.

Lemma no_write_inside root ev :
  (forall p c r, ~ In (OpenWrite p c r) ev) -> writes_inside root ev.
Proof. intros H p c r Hin. exfalso. eapply H; eauto. Qed.

Section AnyOS.
Variable World : Type.

Lemma bind_returns (A B : Type) (m : Os.M World A) (f : A -> Os.M World B) s s' a :
  m s = (s', Returns a) -> bind m f s = f a s'.
Proof. intros H. unfold bind. now rewrite H. Qed.

Lemma bind_exits (A B : Type) (m : Os.M World A) (f : A -> Os.M World B) s s' code :
  m s = (s', Exits code) -> bind m f s = (s', Exits code).
Proof. intros H. unfold bind. now rewrite H. Qed.

Lemma bind_raises (A B : Type) (m : Os.M World A) (f : A -> Os.M World B) s s' msg :
  m s = (s', Raises msg) -> bind m f s = (s', Raises msg).
Proof. intros H. unfold bind. now rewrite H. Qed.

End AnyOS.

End MaterializerFacts.
(** ** [normpath] on rooted paths *)

Module PathFacts.
Import PosixPath PyStrFacts.

(** A component of a path as a directory holds it: not empty, neither of
    the two special names, and without a separator. *)
Definition nosep (c : str) : bool := forallb (fun x => negb (Ascii.eqb x sep)) c.

Definition proper (c : str) : bool :=
  negb (str_eqb c []) && negb (str_eqb c dot) && negb (str_eqb c dotdot) && nosep c.

Lemma split_nonempty s : split sep s <> [].
Proof.
  destruct s as [|c s]; simpl; [discriminate|].
  destruct (Ascii.eqb c sep); [discriminate|]. destruct (split sep s); discriminate.
Qed.

Lemma split_nosep s : nosep s = true -> split sep s = [s].
Proof.
  induction s as [|c s IH]; simpl; intros H; [reflexivity|].
  apply andb_true_iff in H as [Hc Hs]. apply negb_true_iff in Hc. rewrite Hc.
  now rewrite (IH Hs).
Qed.

Lemma split_app_sep a b : split sep (a ++ sep :: b) = split sep a ++ split sep b.
Proof.
  induction a as [|c a IH]; simpl.
  - reflexivity.
  - rewrite IH. destruct (Ascii.eqb c sep); [reflexivity|].
    destruct (split sep a) eqn:E; [now apply split_nonempty in E|]. reflexivity.
Qed.

Lemma split_parts_nosep s : Forall (fun c => nosep c = true) (split sep s).
Proof.
  induction s as [|c s IH]; simpl.
  - constructor; [reflexivity | constructor].
  - destruct (Ascii.eqb c sep) eqn:E.
    + constructor; [reflexivity | exact IH].
    + destruct (split sep s) as [|w ws]; [repeat constructor; simpl; now rewrite E|].
      inversion IH; subst. constructor; [simpl; now rewrite E, H1 | assumption].
Qed.

Lemma split_join comps :
  comps <> [] -> Forall (fun c => nosep c = true) comps ->
  split sep (PyStr.join [sep] comps) = comps.
Proof.
  induction comps as [|c comps IH]; intros Hne H; [congruence|].
  inversion H; subst. destruct comps as [|d comps].
  - simpl. now apply split_nosep.
  - change (PyStr.join [sep] (c :: d :: comps)) with (c ++ sep :: PyStr.join [sep] (d :: comps)).
    rewrite split_app_sep, split_nosep by assumption.
    rewrite IH by (assumption || discriminate). reflexivity.
Qed.

Lemma join_app a b :
  a <> [] -> b <> [] ->
  PyStr.join [sep] (a ++ b) = PyStr.join [sep] a ++ sep :: PyStr.join [sep] b.
Proof.
  induction a as [|c a IH]; intros Ha Hb; [congruence|].
  destruct a as [|d a].
  - simpl. destruct b; [congruence|]. reflexivity.
  - change ((c :: d :: a) ++ b) with (c :: (d :: a) ++ b).
    change (PyStr.join [sep] (c :: (d :: a) ++ b))
      with (c ++ sep :: PyStr.join [sep] ((d :: a) ++ b)).
    rewrite IH by (assumption || discriminate).
    change (PyStr.join [sep] (c :: d :: a)) with (c ++ sep :: PyStr.join [sep] (d :: a)).
    now rewrite <- app_assoc.
Qed.


Lemma proper_nonempty c : proper c = true -> c <> [].
Proof. intros H E; subst. discriminate. Qed.

Lemma proper_parts c :
  proper c = true ->
  str_eqb c [] = false /\ str_eqb c dot = false /\ str_eqb c dotdot = false
  /\ nosep c = true.
Proof.
  unfold proper. intros H.
  repeat (apply andb_true_iff in H as [H ?]).
  repeat split; try now apply negb_true_iff. assumption.
Qed.

Lemma norm_step_proper i acc c : proper c = true -> norm_step i acc c = acc ++ [c].
Proof.
  intros H. apply proper_parts in H as (H0 & H1 & H2 & _).
  unfold norm_step. now rewrite H0, H1, H2.
Qed.

Lemma fold_proper i cs : forall acc,
  Forall (fun c => proper c = true) cs -> fold_left (norm_step i) cs acc = acc ++ cs.
Proof.
  induction cs as [|c cs IH]; intros acc H; simpl.
  - now rewrite app_nil_r.
  - inversion H; subst. rewrite norm_step_proper, IH by assumption.
    now rewrite <- app_assoc.
Qed.

Lemma fold_app (A B : Type) (f : A -> B -> A) l1 l2 a :
  fold_left f (l1 ++ l2) a = fold_left f l2 (fold_left f l1 a).
Proof. apply fold_left_app. Qed.

(** Components kept by [normpath] are never empty and never the single
    dot; below a root, never the double dot either. *)
Definition kept (c : str) : bool :=
  negb (str_eqb c []) && negb (str_eqb c dot) && nosep c.

Lemma kept_proper c : kept c = true -> str_eqb c dotdot = false -> proper c = true.
Proof.
  unfold kept, proper. intros H E.
  repeat (apply andb_true_iff in H as [H ?]). rewrite H, H1, E, H0. reflexivity.
Qed.

Lemma proper_kept c : proper c = true -> kept c = true.
Proof.
  intros H. apply proper_parts in H as (H0 & H1 & _ & H3). unfold kept.
  now rewrite H0, H1, H3.
Qed.

Lemma Forall_removelast (A : Type) (P : A -> Prop) l : Forall P l -> Forall P (removelast l).
Proof.
  induction l as [|a l IH]; intros H; [constructor|].
  inversion H; subst. simpl. destruct l; [constructor|]. constructor; auto.
Qed.

Lemma norm_step_kept i acc c :
  nosep c = true -> Forall (fun c => kept c = true) acc ->
  Forall (fun c => kept c = true) (norm_step i acc c).
Proof.
  intros Hc Hacc. unfold norm_step.
  destruct (str_eqb c []) eqn:E0; [assumption|].
  destruct (str_eqb c dot) eqn:E1; [assumption|]. cbn [orb].
  match goal with |- Forall _ (if ?b then _ else _) => destruct b end.
  - apply Forall_app. split; [assumption|]. constructor; [|constructor].
    unfold kept. now rewrite E0, E1, Hc.
  - destruct acc; [assumption|]. now apply Forall_removelast.
Qed.

Lemma norm_step_rooted i acc c :
  i <> 0 -> nosep c = true -> Forall (fun c => proper c = true) acc ->
  Forall (fun c => proper c = true) (norm_step i acc c).
Proof.
  intros Hi Hc Hacc. unfold norm_step.
  destruct (str_eqb c []) eqn:E0; [assumption|].
  destruct (str_eqb c dot) eqn:E1; [assumption|]. cbn [orb].
  destruct (str_eqb c dotdot) eqn:E2; cbn [negb orb].
  - replace (i =? 0) with false by (symmetry; now apply Nat.eqb_neq). cbn [andb orb].
    destruct acc as [|a acc]; [constructor|].
    assert (Hl : str_eqb (last (a :: acc) []) dotdot = false).
    { assert (Hin : In (last (a :: acc) []) (a :: acc)).
      { destruct (@exists_last _ (a :: acc)) as (l' & x & E); [discriminate|].
        rewrite E, last_last. apply in_or_app; right; now left. }
      rewrite Forall_forall in Hacc. apply Hacc in Hin.
      now apply proper_parts in Hin as (_ & _ & ? & _). }
    rewrite Hl. now apply Forall_removelast.
  - apply Forall_app. split; [assumption|]. constructor; [|constructor].
    unfold proper. now rewrite E0, E1, E2, Hc.
Qed.

Lemma fold_rooted i cs : forall acc,
  i <> 0 -> Forall (fun c => nosep c = true) cs -> Forall (fun c => proper c = true) acc ->
  Forall (fun c => proper c = true) (fold_left (norm_step i) cs acc).
Proof.
  induction cs as [|c cs IH]; intros acc Hi Hcs Hacc; simpl; [assumption|].
  inversion Hcs; subst. apply IH; auto. now apply norm_step_rooted.
Qed.

Lemma fold_kept i cs : forall acc,
  Forall (fun c => nosep c = true) cs -> Forall (fun c => kept c = true) acc ->
  Forall (fun c => kept c = true) (fold_left (norm_step i) cs acc).
Proof.
  induction cs as [|c cs IH]; intros acc Hcs Hacc; simpl; [assumption|].
  inversion Hcs; subst. apply IH; auto. now apply norm_step_kept.
Qed.


(** The separators [normpath] keeps at the head of a path. *)
Definition initial_slashes (path : str) : nat :=
  if startswith [sep] path
  then if startswith [sep; sep] path && negb (startswith [sep; sep; sep] path)
       then 2 else 1
  else 0.

Lemma normpath_unfold path :
  path <> [] ->
  normpath path
  = let r := repeat sep (initial_slashes path)
              ++ PyStr.join [sep] (fold_left (norm_step (initial_slashes path))
                                     (split sep path) []) in
    match r with
    | [] => dot
    | _ => r
    end.
Proof. destruct path; [congruence|]. reflexivity. Qed.

(** A rooted normal path: one or two separators, then proper components
    with one separator between them. *)
Definition rooted (slashes : nat) (comps : list str) : str :=
  repeat sep slashes ++ PyStr.join [sep] comps.

Lemma normpath_abs p :
  isabs p = true ->
  exists i cs,
    (i = 1 \/ i = 2) /\ Forall (fun c => proper c = true) cs /\ normpath p = rooted i cs.
Proof.
  intros Habs. assert (Hne : p <> []) by (intros ->; discriminate).
  rewrite (normpath_unfold Hne).
  assert (Hi : initial_slashes p = 1 \/ initial_slashes p = 2).
  { unfold initial_slashes. unfold isabs in Habs. rewrite Habs.
    destruct (startswith [sep; sep] p && negb (startswith [sep; sep; sep] p)); auto. }
  exists (initial_slashes p), (fold_left (norm_step (initial_slashes p)) (split sep p) []).
  split; [exact Hi|]. split.
  - apply fold_rooted; [lia | apply split_parts_nosep | constructor].
  - unfold rooted. destruct Hi as [-> | ->]; reflexivity.
Qed.

Lemma join_nil_inv comps :
  Forall (fun c => kept c = true) comps -> PyStr.join [sep] comps = [] -> comps = [].
Proof.
  intros H E. destruct comps as [|c comps]; [reflexivity|].
  inversion H; subst. destruct c as [|x c]; [discriminate|].
  destruct comps; discriminate.
Qed.

Lemma kept_nosep comps :
  Forall (fun c => kept c = true) comps -> Forall (fun c => nosep c = true) comps.
Proof.
  apply Forall_impl. intros c H. unfold kept in H.
  now apply andb_true_iff in H as [_ ?].
Qed.

Lemma proper_nosep comps :
  Forall (fun c => proper c = true) comps -> Forall (fun c => nosep c = true) comps.
Proof.
  apply Forall_impl. intros c H. now apply proper_parts in H as (_ & _ & _ & ?).
Qed.

Lemma repeat_sep_isabs i s : i <> 0 -> isabs (repeat sep i ++ s) = true.
Proof. destruct i; [congruence|]. reflexivity. Qed.

(** What [normpath] gives when the result is relative and without a
    parent reference: the dot, or proper components. *)
Lemma normpath_rel rel :
  isabs (normpath rel) = false ->
  mem dotdot (split sep (normpath rel)) = false ->
  normpath rel = dot
  \/ exists ds, ds <> [] /\ Forall (fun c => proper c = true) ds
                /\ normpath rel = PyStr.join [sep] ds.
Proof.
  destruct rel as [|x rel]; [now left|]. set (p := x :: rel).
  assert (Hne : p <> []) by discriminate.
  rewrite (normpath_unfold Hne).
  set (i := initial_slashes p). set (ds := fold_left (norm_step i) (split sep p) []).
  assert (Hk : Forall (fun c => kept c = true) ds)
    by (apply fold_kept; [apply split_parts_nosep | constructor]).
  destruct i as [|i].
  - cbn [repeat app]. destruct (PyStr.join [sep] ds) eqn:E.
    + now left.
    + rewrite <- E. intros _ Hm. right. exists ds.
      assert (Hds : ds <> []) by (intros ->; discriminate).
      split; [exact Hds|]. split; [|reflexivity].
      rewrite split_join in Hm by (auto using kept_nosep).
      rewrite Forall_forall in Hk |- *. intros c Hc. apply kept_proper; [auto|].
      destruct (str_eqb c dotdot) eqn:Ec; [|reflexivity].
      apply str_eqb_eq in Ec; subst c.
      unfold mem in Hm. assert (existsb (str_eqb dotdot) ds = true); [|congruence].
      apply existsb_exists. exists dotdot. split; [exact Hc | apply str_eqb_refl].
  - intros Habs. exfalso.
    assert (H : isabs (repeat sep (S i) ++ PyStr.join [sep] ds) = true)
      by (apply repeat_sep_isabs; lia).
    destruct (repeat sep (S i) ++ PyStr.join [sep] ds) eqn:E; [discriminate|].
    congruence.
Qed.

Lemma split_repeat_sep i s : split sep (repeat sep i ++ s) = repeat [] i ++ split sep s.
Proof. induction i; simpl; [reflexivity | now rewrite IHi]. Qed.

Lemma fold_skip_empty i n cs :
  fold_left (norm_step i) (repeat [] n ++ cs) [] = fold_left (norm_step i) cs [].
Proof. induction n; simpl; auto. Qed.

Lemma head_not_sep cs s :
  cs <> [] -> Forall (fun c => proper c = true) cs ->
  startswith [sep] (PyStr.join [sep] cs ++ s) = false.
Proof.
  intros Hne H. destruct cs as [|c cs]; [congruence|]. inversion H; subst.
  apply proper_parts in H2 as (H0 & _ & _ & Hs).
  destruct c as [|x c]; [discriminate|]. simpl in Hs.
  apply andb_true_iff in Hs as [Hx _]. apply negb_true_iff in Hx.
  destruct cs; cbn [PyStr.join app startswith]; rewrite Ascii.eqb_sym, Hx; reflexivity.
Qed.

Lemma initial_slashes_rooted i cs s :
  (i = 1 \/ i = 2) -> cs <> [] -> Forall (fun c => proper c = true) cs ->
  initial_slashes (rooted i cs ++ s) = i.
Proof.
  intros Hi Hne H. pose proof (head_not_sep s Hne H) as Hh.
  unfold rooted. rewrite <- app_assoc.
  destruct (PyStr.join [sep] cs ++ s) as [|y t] eqn:E.
  - destruct cs as [|c cs]; [congruence|]. inversion H; subst.
    apply proper_nonempty in H2. destruct c; [congruence|].
    destruct cs; discriminate.
  - simpl in Hh. rewrite andb_true_r in Hh.
    destruct Hi as [-> | ->]; unfold initial_slashes; simpl; rewrite ?Hh; reflexivity.
Qed.

(** Below a rooted normal path, proper components are kept as they are. *)
Lemma normpath_below i cs ds :
  (i = 1 \/ i = 2) -> cs <> [] -> Forall (fun c => proper c = true) cs ->
  ds <> [] -> Forall (fun c => proper c = true) ds ->
  normpath (rooted i cs ++ sep :: PyStr.join [sep] ds)
  = rooted i cs ++ sep :: PyStr.join [sep] ds.
Proof.
  intros Hi Hcs Pcs Hds Pds.
  assert (Hne : rooted i cs ++ sep :: PyStr.join [sep] ds <> [])
    by (destruct (rooted i cs); discriminate).
  rewrite (normpath_unfold Hne), (initial_slashes_rooted _ Hi Hcs Pcs).
  unfold rooted at 1. rewrite <- app_assoc, split_repeat_sep, fold_skip_empty.
  rewrite split_app_sep, !split_join by (auto using proper_nosep).
  rewrite fold_proper by (apply Forall_app; now split).
  cbn [app]. rewrite join_app by assumption. fold (rooted i cs).
  unfold rooted. rewrite <- app_assoc.
  destruct Hi as [-> | ->]; reflexivity.
Qed.

Lemma normpath_below_dot i cs :
  (i = 1 \/ i = 2) -> cs <> [] -> Forall (fun c => proper c = true) cs ->
  normpath (rooted i cs ++ sep :: dot) = rooted i cs.
Proof.
  intros Hi Hcs Pcs.
  assert (Hne : rooted i cs ++ sep :: dot <> []) by (destruct (rooted i cs); discriminate).
  rewrite (normpath_unfold Hne), (initial_slashes_rooted _ Hi Hcs Pcs).
  unfold rooted at 1. rewrite <- app_assoc, split_repeat_sep, fold_skip_empty.
  rewrite split_app_sep, split_join by (auto using proper_nosep).
  rewrite fold_app, (@fold_proper i cs [] Pcs). cbn [app].
  change (split sep dot) with [dot]. cbn [fold_left].
  unfold norm_step. change (str_eqb dot dot) with true. rewrite orb_true_r.
  unfold rooted. destruct Hi as [-> | ->]; reflexivity.
Qed.

Lemma rooted_cons i cs : (i = 1 \/ i = 2) -> exists t, rooted i cs = sep :: t.
Proof. intros [-> | ->]; eexists; reflexivity. Qed.

Lemma rooted_last i cs :
  cs <> [] -> Forall (fun c => proper c = true) cs ->
  exists t x, rooted i cs = t ++ [x] /\ Ascii.eqb x sep = false.
Proof.
  intros Hne H. destruct (@exists_last _ cs Hne) as (cs' & c & ->).
  apply Forall_app in H as [_ H]. inversion H; subst.
  apply proper_parts in H2 as (H0 & _ & _ & Hs).
  assert (Hc : c <> []) by (intros ->; discriminate).
  destruct (@exists_last _ c Hc) as (c' & x & ->).
  unfold nosep in Hs. rewrite forallb_app in Hs. apply andb_true_iff in Hs as [_ Hx].
  cbn in Hx. rewrite andb_true_r in Hx. apply negb_true_iff in Hx.
  destruct cs' as [|d cs'].
  - exists (repeat sep i ++ c'), x. unfold rooted. cbn [app PyStr.join].
    rewrite app_assoc. split; [reflexivity | exact Hx].
  - exists (repeat sep i ++ PyStr.join [sep] (d :: cs') ++ sep :: c'), x.
    unfold rooted. rewrite join_app by discriminate. cbn [PyStr.join].
    rewrite <- !app_assoc. split; [reflexivity | exact Hx].
Qed.

Lemma rooted_endswith i cs :
  cs <> [] -> Forall (fun c => proper c = true) cs -> endswith [sep] (rooted i cs) = false.
Proof.
  intros Hne H. destruct (@rooted_last i cs Hne H) as (t & x & -> & Hx).
  unfold endswith. rewrite rev_app_distr. cbn [rev app startswith].
  now rewrite Ascii.eqb_sym, Hx.
Qed.

Lemma join_below a b :
  a <> [] -> endswith [sep] a = false -> startswith [sep] b = false ->
  join a b = a ++ sep :: b.
Proof.
  intros Ha He Hb. unfold join. rewrite Hb, He. destruct a; [congruence | reflexivity].
Qed.

Lemma join_slash a b :
  endswith [sep] a = true -> startswith [sep] b = false -> join a b = a ++ b.
Proof. intros He Hb. unfold join. rewrite Hb, He. destruct a; reflexivity. Qed.

Lemma join_isabs cwd path : isabs cwd = true -> isabs (join cwd path) = true.
Proof.
  intros H. unfold join. destruct (startswith [sep] path) eqn:E; [exact E|].
  destruct cwd as [|x cwd]; [discriminate|].
  destruct (endswith [sep] (x :: cwd)); exact H.
Qed.

Lemma abspath_rooted cwd path :
  isabs cwd = true ->
  exists i cs,
    (i = 1 \/ i = 2) /\ Forall (fun c => proper c = true) cs /\ abspath cwd path = rooted i cs.
Proof.
  intros H. unfold abspath. apply normpath_abs.
  destruct (isabs path) eqn:E; [exact E | now apply join_isabs].
Qed.

Lemma normpath_rooted i ds :
  (i = 1 \/ i = 2) -> ds <> [] -> Forall (fun c => proper c = true) ds ->
  normpath (rooted i ds) = rooted i ds.
Proof.
  intros Hi Hds Pds.
  assert (Hne : rooted i ds <> []) by (destruct Hi as [-> | ->]; discriminate).
  assert (Ei : initial_slashes (rooted i ds) = i).
  { rewrite <- (app_nil_r (rooted i ds)). now apply initial_slashes_rooted. }
  rewrite (@normpath_unfold _ Hne), Ei.
  unfold rooted at 1. rewrite split_repeat_sep, fold_skip_empty.
  rewrite split_join by (auto using proper_nosep).
  rewrite fold_proper by assumption. cbn [app].
  unfold rooted. destruct Hi as [-> | ->]; reflexivity.
Qed.

End PathFacts.
(** ** The Materializer: the events of a run, case by case *)

Module MaterializerShapes.
Import PosixPath Os Materializer MaterializerSpec MaterializerFacts PyStrFacts.

(** The events of the writing of a file. *)
Definition write_part (full content : str) (ev : list event) (e : ending bool) : Prop :=
  (ev = [OpenWrite full content Written; Printed (wrote_line full)] /\ e = Returns true)
  \/ (exists err,
        ev = [OpenWrite full content (WriteError err); Printed (write_error_line full err)]
        /\ e = Returns false).

(** The events of an entry that passed the checks: the file is written or
    not, after the creation of its directory if there was one to create;
    or the directory is not created. *)
Definition write_shape (full content : str) (ev : list event) (e : ending bool) : Prop :=
  write_part full content ev e
  \/ (exists ev',
        ev = Makedirs (dirname full) Done
             :: Printed (Stdout (L "Created subdirectory: " ++ dirname full)) :: ev'
        /\ write_part full content ev' e)
  \/ (exists err,
        ev = [Makedirs (dirname full) (OSError err);
              Printed (subdirectory_error_line full err)]
        /\ e = Returns false)
  \/ (exists err, ev = [Makedirs (dirname full) (OtherError err)] /\ e = Raises err).

(** The events of an entry once its final path is known. *)
Definition checked_shape (root rel content full : str) (ev : list event) (e : ending bool)
  : Prop :=
  (inside root full = false
   /\ ev = [Printed (outside_warning rel full root)] /\ e = Returns false)
  \/ (inside root full = true /\ write_shape full content ev e).

(** The events of an entry, by the checks of its path. *)
Definition entry_shape (root rel content : str) (ev : list event) (e : ending bool) : Prop :=
  (blank rel = true /\ ev = [Printed (invalid_warning rel)] /\ e = Returns false)
  \/ (blank rel = false /\ climbs rel = true
      /\ ev = [Printed (unsafe_warning rel)] /\ e = Returns false)
  \/ (blank rel = false /\ climbs rel = false /\ isabs (normpath rel) = true
      /\ ev = [Printed (absolute_warning rel)] /\ e = Returns false)
  \/ (blank rel = false /\ climbs rel = false /\ isabs (normpath rel) = false
      /\ let joined := join root (normpath rel) in
         (isabs joined = true /\ checked_shape root rel content (normpath joined) ev e)
         \/ (isabs joined = false
             /\ exists cwd ev',
                 ev = Getcwd (Cwd cwd) :: ev'
                 /\ checked_shape root rel content (normpath (join cwd joined)) ev' e)
         \/ (isabs joined = false
             /\ exists msg, ev = [Getcwd (CwdError msg)] /\ e = Raises msg)).

(** The events of the loop: those of the entries, one after the other,
    with the flag of each (a file was written or not), until an entry
    raises. *)
Inductive loop_shape (root : str) : list (str * str) -> list event -> ending (list bool) -> Prop :=
| loop_done : loop_shape root [] [] (Returns [])
| loop_next rel content files ev b evs flags :
    entry_shape root rel content ev (Returns b) ->
    loop_shape root files evs (Returns flags) ->
    loop_shape root ((rel, content) :: files) (ev ++ evs) (Returns (b :: flags))
| loop_later rel content files ev b evs msg :
    entry_shape root rel content ev (Returns b) ->
    loop_shape root files evs (Raises msg) ->
    loop_shape root ((rel, content) :: files) (ev ++ evs) (Raises msg)
| loop_raised rel content files ev msg :
    entry_shape root rel content ev (Raises msg) ->
    loop_shape root ((rel, content) :: files) ev (Raises msg).

(** The events of the clearing of the output directory. *)
Definition clear_part (out : str) (ev : list event) : Prop :=
  ev = [Rmtree out Done; Printed (Stdout (L "Cleared existing output directory: " ++ out))]
  \/ exists err,
       ev = [Rmtree out (OSError err);
             Printed (Stderr (L "Error clearing directory " ++ out ++ L ": " ++ err))].

(** The events of the creation of the output directory, when it is not
    there. *)
Definition create_part (out : str) (ev : list event) (e : ending unit) : Prop :=
  (ev = [] /\ e = Returns tt)
  \/ (ev = [Makedirs out Done; Printed (Stdout (L "Created output directory: " ++ out))]
      /\ e = Returns tt)
  \/ (exists err,
        ev = [Makedirs out (OSError err);
              Printed (Stderr (L "Error creating directory " ++ out ++ L ": " ++ err))]
        /\ e = Exits 1)
  \/ (exists err, ev = [Makedirs out (OtherError err)] /\ e = Raises err).

Section AnyOS.
Variable World : Type.
Variable os : OS World.

(** The events of the preparation of the output directory, in a world. *)
Definition prepare_shape (out : str) (clear : bool) (w : World)
           (ev : list event) (e : ending unit) : Prop :=
  (clear && path_exists os w out = false /\ create_part out ev e)
  \/ (clear && path_exists os w out = true
      /\ ((exists err, ev = [Rmtree out (OtherError err)] /\ e = Raises err)
          \/ exists c m, ev = c ++ m /\ clear_part out c /\ create_part out m e)).

Ltac shape_done :=
  do 3 eexists; split; [rewrite <- ?app_assoc; cbn [app]; reflexivity|].

Lemma os_path_abspath_run path w tr :
  os_path_abspath os path (w, tr) = ((w, tr ++ cwd_events os w path), abspath_at os w path).
Proof.
  unfold os_path_abspath, cwd_events, abspath_at. destruct (isabs path).
  - unfold ret. now rewrite app_nil_r.
  - unfold bind, os_getcwd, ret. cbn [fst snd]. destruct (getcwd os w); reflexivity.
Qed.

Lemma bind_abspath (B : Type) path (f : str -> Os.M World B) w tr :
  bind (os_path_abspath os path) f (w, tr)
  = match abspath_at os w path with
    | Returns a => f a (w, tr ++ cwd_events os w path)
    | Exits code => ((w, tr ++ cwd_events os w path), Exits code)
    | Raises msg => ((w, tr ++ cwd_events os w path), Raises msg)
    end.
Proof.
  unfold bind at 1. rewrite os_path_abspath_run.
  destruct (abspath_at os w path); reflexivity.
Qed.

Lemma write_entry_shape root full content w tr :
  exists w' ev e,
    write_entry os root full content (w, tr) = (w', tr ++ ev, e)
    /\ write_shape full content ev e.
Proof.
  unfold write_entry, write_shape, write_part, wrote_line, write_error_line,
    subdirectory_error_line.
  cbv beta iota zeta delta
    [bind print ret raise os_path_exists os_makedirs open_write fst snd].
  destruct (match dirname full with [] => false | _ => true end
            && negb (str_eqb (dirname full) root)).
  - destruct (path_exists os w (dirname full)); cbn [negb].
    + destruct (write_file os w full content) as [w' [|err]]; shape_done; eauto 6.
    + destruct (makedirs os w (dirname full)) as [w1 [|err|err]].
      * destruct (write_file os w1 full content) as [w' [|err]]; shape_done;
          right; left; eexists; (split; [reflexivity|]); eauto.
      * shape_done. right; right; left. eauto.
      * shape_done. right; right; right. eauto.
  - destruct (write_file os w full content) as [w' [|err]]; shape_done; eauto 6.
Qed.

Lemma inside_check root full :
  negb (startswith (root ++ [sep]) full) && negb (str_eqb full root) = negb (inside root full).
Proof.
  unfold inside. destruct (startswith (root ++ [sep]) full), (str_eqb full root); reflexivity.
Qed.

Lemma checked_entry_shape root rel content full w tr :
  exists w' ev e,
    (if negb (startswith (root ++ [sep]) full) && negb (str_eqb full root)
     then bind (print (Stderr (L "Warning: Skipping file path attempting to write outside output "
                               ++ L "directory: '" ++ rel ++ L "' resolved to '"
                               ++ full ++ L "' (outside '" ++ root ++ L "')")))
               (fun _ => ret false)
     else write_entry os root full content) (w, tr)
    = (w', tr ++ ev, e)
    /\ checked_shape root rel content full ev e.
Proof.
  unfold checked_shape. rewrite inside_check.
  destruct (inside root full) eqn:Hin; cbn [negb].
  - destruct (write_entry_shape root full content w tr) as (w' & ev & e & Heq & Hs).
    exists w', ev, e. auto.
  - unfold bind, print, ret. cbn [fst snd]. shape_done. left. auto.
Qed.

Lemma store_entry_shape root rel content w tr :
  exists w' ev e,
    store_entry os root (rel, content) (w, tr) = (w', tr ++ ev, e)
    /\ entry_shape root rel content ev e.
Proof.
  unfold store_entry, entry_shape. fold (blank rel). fold (climbs rel).
  destruct (blank rel).
  { unfold bind, print, ret. cbn [fst snd]. shape_done. left. auto. }
  destruct (climbs rel).
  { unfold bind, print, ret. cbn [fst snd]. shape_done. right; left. auto. }
  destruct (isabs (normpath rel)).
  { unfold bind, print, ret. cbn [fst snd]. shape_done. right; right; left. auto. }
  cbv zeta. set (joined := join root (normpath rel)).
  unfold bind at 1. rewrite os_path_abspath_run. unfold cwd_events, abspath_at.
  destruct (isabs joined) eqn:Hj.
  - rewrite app_nil_r.
    destruct (checked_entry_shape root rel content (normpath joined) w tr)
      as (w' & ev & e & Heq & Hs).
    exists w', ev, e. split; [exact Heq|]. right; right; right. auto 8.
  - destruct (getcwd os w) as [cwd|msg].
    + destruct (checked_entry_shape root rel content (normpath (join cwd joined)) w
                  (tr ++ [Getcwd (Cwd cwd)])) as (w' & ev & e & Heq & Hs).
      exists w', (Getcwd (Cwd cwd) :: ev), e. split.
      * rewrite Heq, <- app_assoc. reflexivity.
      * right; right; right. repeat (split; [reflexivity|]). right; left.
        split; [reflexivity|]. eauto.
    + exists w, [Getcwd (CwdError msg)], (Raises msg). split; [reflexivity|].
      right; right; right. repeat (split; [reflexivity|]). right; right. eauto.
Qed.

(** An entry does not end the process. *)
Lemma entry_no_exit root rel content ev code :
  ~ entry_shape root rel content ev (Exits code).
Proof.
  assert (W : forall full ev, ~ write_shape full content ev (Exits code)).
  { intros full ev0 [[(_ & H) | (? & _ & H)]
                    | [(? & _ & [(_ & H) | (? & _ & H)]) | [(? & _ & H) | (? & _ & H)]]];
      discriminate. }
  assert (C : forall full ev, ~ checked_shape root rel content full ev (Exits code)).
  { intros full ev0 [(_ & _ & H) | (_ & H)]; [discriminate | now apply W in H]. }
  intros [(_ & _ & H) | [(_ & _ & _ & H) | [(_ & _ & _ & _ & H) | (_ & _ & _ & H)]]];
    try discriminate.
  destruct H as [(_ & H) | [(_ & ? & ? & _ & H) | (_ & ? & _ & H)]];
    [now apply C in H | now apply C in H | discriminate].
Qed.

(** The ending of the loop, from the flags of the entries. *)
Definition loop_end (A : Type) (g : bool -> A -> A) (acc : A) (e : ending (list bool))
  : ending A :=
  match e with
  | Returns flags => Returns (folded g flags acc)
  | Exits code => Exits code
  | Raises msg => Raises msg
  end.

Lemma for_each_shape (A : Type) (g : bool -> A -> A) root files :
  forall acc w tr, exists w' ev e,
    for_each files
      (fun entry acc => bind (store_entry os root entry) (fun wrote => ret (g wrote acc)))
      acc (w, tr)
    = (w', tr ++ ev, loop_end g acc e)
    /\ loop_shape root files ev e.
Proof.
  induction files as [|[rel content] files IH]; intros acc w tr.
  - exists w, [], (Returns []). rewrite app_nil_r. split; [reflexivity | constructor].
  - cbn [for_each]. unfold bind at 1 2.
    destruct (store_entry_shape root rel content w tr) as (w1 & ev1 & e1 & Heq & H1).
    rewrite Heq. destruct e1 as [b|code|msg].
    + unfold ret at 1.
      destruct (IH (g b acc) w1 (tr ++ ev1)) as (w2 & ev2 & e2 & -> & H2).
      destruct e2 as [flags|code|msg].
      * exists w2, (ev1 ++ ev2), (Returns (b :: flags)). rewrite app_assoc.
        split; [reflexivity | now constructor].
      * exfalso. clear -H2. remember (Exits code) as e eqn:E.
        induction H2; discriminate.
      * exists w2, (ev1 ++ ev2), (Raises msg). rewrite app_assoc.
        split; [reflexivity | now apply loop_later with (b := b)].
    + now apply entry_no_exit in H1.
    + exists w1, ev1, (Raises msg). split; [reflexivity | now constructor].
Qed.

Lemma prepare_directory_shape out clear w tr :
  exists w' ev e,
    prepare_directory os out clear (w, tr) = (w', tr ++ ev, e)
    /\ prepare_shape out clear w ev e.
Proof.
  unfold prepare_directory, clear_directory, create_directory, prepare_shape, clear_part,
    create_part.
  cbv beta iota zeta delta
    [bind print ret raise sys_exit os_path_exists os_makedirs shutil_rmtree fst snd].
  destruct clear; cbn [andb].
  - destruct (path_exists os w out) eqn:Hex.
    + destruct (rmtree os w out) as [w1 [|err|err]].
      * destruct (path_exists os w1 out); cbn [negb].
        -- shape_done. right. split; [reflexivity|]. right.
           exists [Rmtree out Done;
                   Printed (Stdout (L "Cleared existing output directory: " ++ out))], [].
           auto 7.
        -- destruct (makedirs os w1 out) as [w2 [|e|e]]; shape_done;
             (right; split; [reflexivity|]; right;
              exists [Rmtree out Done;
                      Printed (Stdout (L "Cleared existing output directory: " ++ out))];
              eexists; split; [reflexivity|]; split; [now left|]; eauto 7).
      * destruct (path_exists os w1 out); cbn [negb].
        -- shape_done. right. split; [reflexivity|]. right.
           exists [Rmtree out (OSError err);
                   Printed (Stderr (L "Error clearing directory " ++ out ++ L ": " ++ err))],
             [].
           eauto 7.
        -- destruct (makedirs os w1 out) as [w2 [|e|e]]; shape_done;
             (right; split; [reflexivity|]; right;
              exists [Rmtree out (OSError err);
                      Printed (Stderr (L "Error clearing directory " ++ out ++ L ": "
                                       ++ err))];
              eexists; split; [reflexivity|]; split; [eauto|]; eauto 7).
      * shape_done. right. split; [reflexivity|]. left. eauto.
    + rewrite Hex. cbn [negb].
      destruct (makedirs os w out) as [w2 [|e|e]]; shape_done;
        (left; split; [reflexivity|]; eauto 7).
  - destruct (path_exists os w out); cbn [negb].
    + exists w, [], (Returns tt). rewrite app_nil_r. split; [reflexivity|]. left. auto.
    + destruct (makedirs os w out) as [w2 [|e|e]]; shape_done;
        (left; split; [reflexivity|]; eauto 7).
Qed.

(** *** A run, in its parts *)

(** A run of [store_test_files] of [code2test.py]: the header; the output
    directory made absolute, which raises when [os.getcwd] does; the
    preparation of the directory; the entries; the footer with the number
    of files written. *)
Definition run_shape (files : PyDict.dict str) (output_dir : str) (clear : bool) (w : World)
           (tr : list event) (e : ending unit) : Prop :=
  let start := Printed (header output_dir) :: cwd_events os w output_dir in
  match abspath_at os w output_dir with
  | Raises msg => tr = start /\ e = Raises msg
  | Exits _ => False
  | Returns root =>
      exists ev1 e1,
        prepare_shape root clear w ev1 e1
        /\ match e1 with
           | Exits code => tr = start ++ ev1 /\ e = Exits code
           | Raises msg => tr = start ++ ev1 /\ e = Raises msg
           | Returns _ =>
               exists ev2 e2,
                 loop_shape root files ev2 e2
                 /\ match e2 with
                    | Returns flags =>
                        tr = start ++ ev1 ++ ev2 ++ [Printed (footer (count_true flags))]
                        /\ e = Returns tt
                    | Raises msg => tr = start ++ ev1 ++ ev2 /\ e = Raises msg
                    | Exits _ => False
                    end
           end
  end.

Lemma loop_no_exit root files ev code : ~ loop_shape root files ev (Exits code).
Proof. intros H. remember (Exits code) as e eqn:E. induction H; discriminate. Qed.

Lemma store_test_files_shape files output_dir clear w :
  run_shape files output_dir clear w
    (trace (run (store_test_files os files output_dir clear) w))
    (end_of (run (store_test_files os files output_dir clear) w)).
Proof.
  unfold run, store_test_files, run_shape.
  rewrite (@bind_returns _ _ _ _ _ (w, []) (w, [Printed (header output_dir)]) tt)
    by reflexivity.
  rewrite bind_abspath.
  change ([Printed (header output_dir)] ++ cwd_events os w output_dir)
    with (Printed (header output_dir) :: cwd_events os w output_dir).
  set (start := Printed (header output_dir) :: cwd_events os w output_dir).
  destruct (abspath_at os w output_dir) as [root|code|msg] eqn:Ha.
  - destruct (prepare_directory_shape root clear w start) as (w1 & ev1 & e1 & Hp & H1).
    exists ev1, e1. split; [exact H1|].
    destruct e1 as [[]|code|msg].
    + rewrite (@bind_returns _ _ _ _ _ _ _ _ Hp).
      destruct (for_each_shape (fun (wrote : bool) n => if wrote then S n else n)
                  root files 0 w1 (start ++ ev1)) as (w2 & ev2 & e2 & Hl & H2).
      exists ev2, e2. split; [exact H2|].
      destruct e2 as [flags|code|msg]; cbn [loop_end] in Hl.
      * rewrite (@bind_returns _ _ _ _ _ _ _ _ Hl). unfold print, trace, end_of.
        cbn [fst snd]. rewrite folded_count. cbn [Nat.add].
        rewrite <- !app_assoc. auto.
      * now apply loop_no_exit in H2.
      * rewrite (@bind_raises _ _ _ _ _ _ _ _ Hl). unfold trace, end_of. cbn [fst snd].
        rewrite <- !app_assoc. auto.
    + rewrite (@bind_exits _ _ _ _ _ _ _ _ Hp). unfold trace, end_of. cbn [fst snd]. auto.
    + rewrite (@bind_raises _ _ _ _ _ _ _ _ Hp). unfold trace, end_of. cbn [fst snd]. auto.
  - unfold abspath_at in Ha. destruct (isabs output_dir); [discriminate|].
    destruct (getcwd os w); discriminate.
  - unfold trace, end_of. cbn [fst snd]. auto.
Qed.

(** A run of [store_test_files] of [code2testt.py]: the preparation of the
    directory under the name given; the directory made absolute in the
    world the preparation leaves; the entries. *)
Definition run_shape_t (files : PyDict.dict str) (output_dir : str) (clear : bool) (w : World)
           (tr : list event) (e : ending unit) : Prop :=
  let w1 := final_world (run (prepare_directory os output_dir clear) w) in
  exists ev1 e1,
    prepare_shape output_dir clear w ev1 e1
    /\ match e1 with
       | Exits code => tr = ev1 /\ e = Exits code
       | Raises msg => tr = ev1 /\ e = Raises msg
       | Returns _ =>
           match abspath_at os w1 output_dir with
           | Raises msg => tr = ev1 ++ cwd_events os w1 output_dir /\ e = Raises msg
           | Exits _ => False
           | Returns root =>
               exists ev2 e2,
                 loop_shape root files ev2 e2
                 /\ tr = ev1 ++ cwd_events os w1 output_dir ++ ev2
                 /\ match e2 with
                    | Returns _ => e = Returns tt
                    | Raises msg => e = Raises msg
                    | Exits _ => False
                    end
           end
       end.

Lemma store_test_files_t_shape files output_dir clear w :
  run_shape_t files output_dir clear w
    (trace (run (store_test_files_t os files output_dir clear) w))
    (end_of (run (store_test_files_t os files output_dir clear) w)).
Proof.
  unfold run_shape_t, run, store_test_files_t.
  destruct (prepare_directory_shape output_dir clear w []) as (w1 & ev1 & e1 & Hp & H1).
  cbn [app] in Hp. unfold final_world. rewrite Hp. cbn [fst].
  exists ev1, e1. split; [exact H1|].
  destruct e1 as [[]|code|msg].
  - rewrite (@bind_returns _ _ _ _ _ _ _ _ Hp).
    rewrite bind_abspath.
    destruct (abspath_at os w1 output_dir) as [root|code|msg] eqn:Ha.
    + destruct (for_each_shape (fun (_ : bool) (_ : unit) => tt)
                  root files tt w1 (ev1 ++ cwd_events os w1 output_dir))
        as (w2 & ev2 & e2 & Hl & H2).
      exists ev2, e2. split; [exact H2|].
      assert (Hl' :
        for_each files
          (fun entry (_ : unit) => bind (store_entry os root entry) (fun _ => ret tt))
          tt (w1, ev1 ++ cwd_events os w1 output_dir)
        = (w2, (ev1 ++ cwd_events os w1 output_dir) ++ ev2,
           loop_end (fun (_ : bool) (_ : unit) => tt) tt e2)) by exact Hl.
      rewrite Hl'. unfold trace, end_of. cbn [fst snd]. rewrite <- app_assoc.
      split; [reflexivity|].
      destruct e2 as [flags|code|msg]; cbn [loop_end].
      * now destruct (folded _ flags tt).
      * now apply loop_no_exit in H2.
      * reflexivity.
    + unfold abspath_at in Ha. destruct (isabs output_dir); [discriminate|].
      destruct (getcwd os w1); discriminate.
    + unfold trace, end_of. cbn [fst snd]. auto.
  - rewrite (@bind_exits _ _ _ _ _ _ _ _ Hp). unfold trace, end_of. cbn [fst snd]. auto.
  - rewrite (@bind_raises _ _ _ _ _ _ _ _ Hp). unfold trace, end_of. cbn [fst snd]. auto.
Qed.

End AnyOS.
(** *** What the shapes give *)

(** A property of the events that holds for no event and for two runs of
    events one after the other. *)
Definition additive (Q : list event -> Prop) : Prop :=
  Q [] /\ forall a b, Q a -> Q b -> Q (a ++ b).

Lemma loop_additive (Q : list event -> Prop) root files ev e :
  additive Q ->
  (forall rel content ev e,
      In (rel, content) files -> entry_shape root rel content ev e -> Q ev) ->
  loop_shape root files ev e -> Q ev.
Proof.
  intros [Q0 Qapp] Hentry H. induction H.
  - exact Q0.
  - apply Qapp; [eapply Hentry; [now left | eassumption]|].
    apply IHloop_shape. intros r c ev0 e0 Hin. apply Hentry. now right.
  - apply Qapp; [eapply Hentry; [now left | eassumption]|].
    apply IHloop_shape. intros r c ev0 e0 Hin. apply Hentry. now right.
  - eapply Hentry; [now left | eassumption].
Qed.

Ltac write_cases H :=
  destruct H as [[(-> & ->) | (? & -> & ->)]
                | [(? & -> & [(-> & ->) | (? & -> & ->)])
                  | [(? & -> & ->) | (? & -> & ->)]]].

Ltac checked_cases H :=
  destruct H as [(? & -> & ->) | (? & H)]; [|write_cases H].

Ltac entry_cases H :=
  destruct H as [(? & -> & ->) | [(? & ? & -> & ->) | [(? & ? & ? & -> & ->)
    | (? & ? & ? & H)]]];
  [ | | |
    destruct H as [(? & H) | [(? & ? & ? & -> & H) | (? & ? & -> & ->)]];
    [ checked_cases H | checked_cases H | ] ].

(** The line that settles an entry that does not raise, and the file it
    writes. *)
Lemma entry_verdict root rel content ev b :
  entry_shape root rel content ev (Returns b) ->
  exists l,
    filter is_verdict (printed ev) = [l]
    /\ settles root (rel, content) l
    /\ List.length (written ev) = (if b then 1 else 0).
Proof.
  intros H. unfold settles, final_path. cbn [fst].
  remember (Returns b) as e eqn:E.
  entry_cases H;
    repeat match goal with
           | E : Returns _ = Returns _ |- _ => injection E as <-
           | E : Raises _ = Returns _ |- _ => discriminate E
           | E : blank _ = _ |- _ => rewrite E; clear E
           | E : climbs _ = _ |- _ => rewrite E; clear E
           | E : isabs _ = _ |- _ => rewrite E; clear E
           end;
    try (eexists; split; [reflexivity | split; [reflexivity | reflexivity]]);
    try (eexists; split; [reflexivity | split; [|reflexivity]];
         eexists; split; [reflexivity || (eexists; reflexivity)|];
         match goal with E : inside _ _ = _ |- _ => rewrite E end;
         eauto 6).
Qed.

Lemma loop_verdicts root files ev flags :
  loop_shape root files ev (Returns flags) ->
  Forall2 (settles root) files (filter is_verdict (printed ev))
  /\ count_true flags = List.length (written ev).
Proof.
  intros H. remember (Returns flags) as e eqn:E. revert flags E.
  induction H; intros flags0 E; try discriminate.
  - injection E as <-. split; [constructor | reflexivity].
  - injection E as <-.
    destruct (entry_verdict H) as (l & Hl & Hs & Hw).
    destruct (IHloop_shape flags eq_refl) as (IH1 & IH2).
    split.
    + rewrite printed_app, filter_app, Hl. now constructor.
    + rewrite written_app, length_app, Hw, <- IH2. unfold count_true. now destruct b.
Qed.

(** The lines that say a file was written. *)
Definition is_wrote (l : line) : bool :=
  match l with
  | Stdout s => startswith (L "Wrote file: ") s
  | Stderr _ => false
  end.

Definition wrote_as_written (ev : list event) : Prop :=
  filter is_wrote (printed ev) = map wrote_line (written ev).

Lemma wrote_as_written_additive : additive wrote_as_written.
Proof.
  split; [reflexivity|]. unfold wrote_as_written. intros a b Ha Hb.
  now rewrite printed_app, filter_app, written_app, map_app, Ha, Hb.
Qed.

Lemma entry_wrote_as_written root rel content ev e :
  entry_shape root rel content ev e -> wrote_as_written ev.
Proof. intros H. entry_cases H; reflexivity. Qed.

Lemma entry_writes_inside root rel content ev e :
  entry_shape root rel content ev e -> writes_inside root ev.
Proof.
  intros H. entry_cases H; intros p c r Hin; split_in Hin;
    inversion Hin; subst; assumption.
Qed.

Lemma writes_inside_additive root : additive (writes_inside root).
Proof. split; [apply writes_inside_nil | apply writes_inside_app]. Qed.

Ltac create_cases H :=
  destruct H as [(-> & ->) | [(-> & ->) | [(? & -> & ->) | (? & -> & ->)]]].

Ltac prepare_cases H :=
  destruct H as [(? & H) | (? & [(? & -> & ->) | (? & ? & -> & [-> | (? & ->)] & H)])];
  [ create_cases H | | create_cases H | create_cases H ].

Section Prepared.
Variable World : Type.
Variable os : OS World.

Lemma prepare_opens_nothing out clear w ev e :
  prepare_shape os out clear w ev e -> forall p c r, ~ In (OpenWrite p c r) ev.
Proof. intros H. prepare_cases H; intros p c r Hin; split_in Hin. Qed.

Lemma prepare_settles_nothing out clear w ev e :
  prepare_shape os out clear w ev e -> filter is_verdict (printed ev) = [].
Proof. intros H. prepare_cases H; reflexivity. Qed.

Lemma prepare_wrote_as_written out clear w ev e :
  prepare_shape os out clear w ev e -> wrote_as_written ev.
Proof. intros H. prepare_cases H; reflexivity. Qed.

(** The directory is created when the preparation returns, and the
    process exits with status 1 exactly when its creation fails with
    [OSError]. *)
Lemma prepare_exit out clear w ev e :
  prepare_shape os out clear w ev e ->
  match e with
  | Returns _ => forall err, ~ In (Makedirs out (OSError err)) ev
  | Exits code => code = 1 /\ exists err, In (Makedirs out (OSError err)) ev
  | Raises msg =>
      In (Makedirs out (OtherError msg)) ev \/ In (Rmtree out (OtherError msg)) ev
  end.
Proof.
  intros H. prepare_cases H;
    try (intros err Hin; split_in Hin);
    try (split; [reflexivity|]; eexists; apply in_or_app; right; now left);
    try (split; [reflexivity|]; eexists; now left);
    try (left; apply in_or_app; right; now left);
    try (left; now left); try (right; now left).
Qed.

Lemma cwd_events_plain (w : World) path :
  printed (cwd_events os w path) = [] /\ written (cwd_events os w path) = []
  /\ forall p c r, ~ In (OpenWrite p c r) (cwd_events os w path).
Proof.
  unfold cwd_events. destruct (isabs path); repeat split; try reflexivity;
    intros p c r Hin; split_in Hin.
Qed.

End Prepared.

End MaterializerShapes.
(** ** The traversal: paths below the directory walked *)

Module TraversalFacts.
Import PosixPath Os Traversal PyStrFacts PathFacts.

(** *** The base name is the last component *)

Lemma until_last_sep_spec p :
  p = fst (until_last_sep p) ++ snd (until_last_sep p)
  /\ nosep (snd (until_last_sep p)) = true
  /\ (fst (until_last_sep p) = []
      \/ exists h, fst (until_last_sep p) = h ++ [sep]).
Proof.
  induction p as [|c p (IH1 & IH2 & IH3)]; [cbn; auto|].
  cbn [until_last_sep]. destruct (until_last_sep p) as [head tail]. cbn [fst snd] in *.
  destruct head as [|y head].
  - destruct (Ascii.eqb c sep) eqn:Ec; cbn [fst snd].
    + apply Ascii.eqb_eq in Ec. subst c. split; [now rewrite IH1|].
      split; [assumption|]. right. now exists [].
    + split; [now rewrite IH1|]. split; [|now left].
      unfold nosep in *. cbn [forallb]. now rewrite Ec, IH2.
  - cbn [fst snd]. split; [now rewrite IH1 at 1|]. split; [assumption|].
    right. destruct IH3 as [IH3 | (h & IH3)]; [discriminate|].
    exists (c :: h). now rewrite IH3.
Qed.

Lemma until_last_sep_split p :
  snd (until_last_sep p) = last (split sep p) [].
Proof.
  destruct (until_last_sep_spec p) as (E & Hn & [Hh | (h & Hh)]).
  - rewrite Hh in E. cbn [app] in E. rewrite E at 2. now rewrite split_nosep.
  - rewrite Hh, <- app_assoc in E. cbn [app] in E. rewrite E at 2.
    rewrite split_app_sep, (@split_nosep _ Hn). now rewrite last_last.
Qed.

Lemma basename_last p : basename p = last (split sep p) [].
Proof. apply until_last_sep_split. Qed.

Lemma basename_in_parts p : In (basename p) (split sep p).
Proof.
  rewrite basename_last. destruct (@exists_last _ (split sep p) (@split_nonempty p))
    as (l & x & E).
  rewrite E, last_last. apply in_or_app. right. now left.
Qed.


(** *** Paths below a directory *)

(** The path of the names [ns], joined one after the other to [root]. *)
Definition under (root : str) (ns : list str) : str := fold_left join ns root.

(** The components of a directory that the paths below it keep: all of
    them, but for the empty one after a separator at the end. *)
Definition stem (root : str) : list str :=
  match last (split sep root) [] with
  | [] => removelast (split sep root)
  | _ => split sep root
  end.

Lemma proper_head d : proper d = true -> startswith [sep] d = false.
Proof.
  intros H. apply proper_parts in H as (H0 & _ & _ & Hs).
  destruct d as [|x d]; [reflexivity|]. unfold nosep in Hs. cbn [forallb] in Hs.
  apply andb_true_iff in Hs as [Hx _]. apply negb_true_iff in Hx.
  cbn [startswith]. now rewrite Ascii.eqb_sym, Hx.
Qed.

Lemma endswith_snoc s x : endswith [sep] (s ++ [x]) = Ascii.eqb sep x.
Proof.
  unfold endswith. rewrite rev_app_distr. cbn [rev app startswith]. apply andb_true_r.
Qed.

Lemma endswith_sep_inv s : endswith [sep] s = true -> exists s', s = s' ++ [sep].
Proof.
  intros H. destruct s as [|c s]; [discriminate|].
  destruct (@exists_last _ (c :: s)) as (s' & x & E); [discriminate|].
  rewrite E in *. rewrite endswith_snoc in H. apply Ascii.eqb_eq in H. subst x. eauto.
Qed.

Lemma join_cases p d :
  proper d = true ->
  join p d = match p with
             | [] => d
             | _ => if endswith [sep] p then p ++ d else p ++ sep :: d
             end.
Proof.
  intros H. unfold join. rewrite (@proper_head _ H). destruct p; reflexivity.
Qed.

Lemma last_split_nonempty p :
  p <> [] -> endswith [sep] p = false -> last (split sep p) [] <> [].
Proof.
  intros Hp He E. rewrite <- until_last_sep_split in E.
  destruct (until_last_sep_spec p) as (Ep & _ & [Hh | (h & Hh)]).
  - rewrite Hh, E in Ep. now apply Hp.
  - rewrite Hh, E, app_nil_r in Ep. rewrite Ep, endswith_snoc, Ascii.eqb_refl in He.
    discriminate.
Qed.

Lemma split_join_name root d :
  proper d = true -> split sep (join root d) = stem root ++ [d].
Proof.
  intros H. pose proof (@proper_parts _ H) as (_ & _ & _ & Hs).
  rewrite (@join_cases _ _ H). unfold stem. destruct root as [|c root].
  - cbn. now apply split_nosep.
  - destruct (endswith [sep] (c :: root)) eqn:E.
    + apply endswith_sep_inv in E as (r & ->).
      rewrite <- app_assoc. cbn [app]. rewrite !split_app_sep, (@split_nosep _ Hs).
      change (split sep []) with [@nil ascii]. rewrite last_last, removelast_last.
      reflexivity.
    + rewrite split_app_sep, (@split_nosep _ Hs).
      pose proof (@last_split_nonempty (c :: root)) as Hl.
      destruct (last (split sep (c :: root)) []); [exfalso; apply Hl; auto; discriminate|].
      reflexivity.
Qed.

Lemma stem_join root d : proper d = true -> stem (join root d) = stem root ++ [d].
Proof.
  intros H. unfold stem at 1. rewrite (@split_join_name _ _ H), last_last.
  pose proof (@proper_nonempty _ H). destruct d; [congruence | reflexivity].
Qed.

Lemma stem_under root ns :
  Forall (fun c => proper c = true) ns -> stem (under root ns) = stem root ++ ns.
Proof.
  revert root. induction ns as [|d ns IH]; intros root H; cbn [under fold_left].
  - now rewrite app_nil_r.
  - inversion H; subst. fold (under (join root d) ns).
    rewrite IH, stem_join by assumption. now rewrite <- app_assoc.
Qed.

Lemma split_under root ns d :
  Forall (fun c => proper c = true) ns -> proper d = true ->
  split sep (under root (ns ++ [d])) = stem root ++ ns ++ [d].
Proof.
  intros H Hd. unfold under. rewrite fold_left_app. cbn [fold_left].
  fold (under root ns). rewrite split_join_name, stem_under by assumption.
  now rewrite <- app_assoc.
Qed.

(** The text that [abspath] normalizes. *)
Definition absolute (cwd p : str) : str := if isabs p then p else join cwd p.

(** The separator that [join] puts after its first argument. *)
Definition glue (a : str) : str := if endswith [sep] a then [] else [sep].

Lemma join_rel a b :
  a <> [] -> startswith [sep] b = false -> join a b = a ++ glue a ++ b.
Proof.
  intros Ha Hb. unfold join, glue. rewrite Hb. destruct a; [congruence|].
  destruct (endswith [sep] (a :: a0)); reflexivity.
Qed.

Lemma glue_app pre a : a <> [] -> glue (pre ++ a) = glue a.
Proof.
  intros Ha. destruct (@exists_last _ a Ha) as (a' & y & ->).
  unfold glue. now rewrite app_assoc, !endswith_snoc.
Qed.

Lemma glue_app2 p q a : a <> [] -> glue (p ++ q ++ a) = glue a.
Proof. intros Ha. rewrite app_assoc. now apply glue_app. Qed.

Lemma join_assoc cwd r d :
  isabs cwd = true -> isabs r = false -> proper d = true ->
  join cwd (join r d) = join (join cwd r) d.
Proof.
  intros Hc Hr Hd. pose proof (@proper_head _ Hd) as Hh.
  assert (Hcwd : cwd <> []) by (intros ->; discriminate).
  destruct r as [|x r].
  - replace (join [] d) with d by (unfold join; now rewrite Hh).
    rewrite (@join_rel cwd d Hcwd Hh), (@join_rel cwd [] Hcwd eq_refl), app_nil_r.
    rewrite join_rel; [| destruct cwd; [congruence | discriminate] | exact Hh].
    unfold glue. destruct (endswith [sep] cwd) eqn:Ec.
    + rewrite !app_nil_r, Ec. reflexivity.
    + rewrite endswith_snoc, Ascii.eqb_refl. now rewrite <- app_assoc.
  - assert (Hxr : x :: r <> []) by discriminate.
    rewrite (@join_rel (x :: r) d Hxr Hh).
    rewrite (@join_rel cwd ((x :: r) ++ glue (x :: r) ++ d) Hcwd) by exact Hr.
    rewrite (@join_rel cwd (x :: r) Hcwd Hr).
    rewrite join_rel; [| destruct cwd; [congruence | discriminate] | exact Hh].
    rewrite (@glue_app2 cwd (glue cwd) (x :: r) Hxr).
    now rewrite <- !app_assoc.
Qed.

Lemma isabs_join r d : proper d = true -> isabs (join r d) = isabs r.
Proof.
  intros Hd. rewrite (@join_cases r _ Hd). destruct r as [|x r].
  - now apply proper_head.
  - destruct (endswith [sep] (x :: r)); reflexivity.
Qed.

Lemma absolute_join cwd r d :
  isabs cwd = true -> proper d = true ->
  absolute cwd (join r d) = join (absolute cwd r) d.
Proof.
  intros Hc Hd. unfold absolute. rewrite (@isabs_join r _ Hd).
  destruct (isabs r) eqn:Er; [reflexivity | now apply join_assoc].
Qed.

Lemma absolute_under cwd root ns :
  isabs cwd = true -> Forall (fun c => proper c = true) ns ->
  absolute cwd (under root ns) = under (absolute cwd root) ns.
Proof.
  intros Hc. revert root. induction ns as [|d ns IH]; intros root H; [reflexivity|].
  inversion H; subst. cbn [under fold_left]. fold (under (join root d) ns).
  rewrite IH by assumption. now rewrite absolute_join.
Qed.

Lemma absolute_isabs cwd p : isabs cwd = true -> isabs (absolute cwd p) = true.
Proof.
  intros Hc. unfold absolute. destruct (isabs p) eqn:E; [exact E|].
  unfold join. unfold isabs in E. rewrite E. destruct cwd as [|c cwd]; [discriminate|].
  destruct (endswith [sep] (c :: cwd)); exact Hc.
Qed.

(** *** [normpath] and [relpath] below a directory *)

(** The components that [normpath] keeps. *)
Definition comps (q : str) : list str :=
  fold_left (norm_step (initial_slashes q)) (split sep q) [].

Lemma initial_slashes_abs q :
  isabs q = true -> initial_slashes q = 1 \/ initial_slashes q = 2.
Proof.
  intros H. unfold initial_slashes. unfold isabs in H. rewrite H.
  destruct (startswith [sep; sep] q && negb (startswith [sep; sep; sep] q)); auto.
Qed.

Lemma comps_proper q : isabs q = true -> Forall (fun c => proper c = true) (comps q).
Proof.
  intros H. apply fold_rooted; [|apply split_parts_nosep|constructor].
  destruct (@initial_slashes_abs q H) as [-> | ->]; discriminate.
Qed.

Lemma normpath_form q : isabs q = true -> normpath q = rooted (initial_slashes q) (comps q).
Proof.
  intros H. assert (Hne : q <> []) by (intros ->; discriminate).
  rewrite (@normpath_unfold q Hne). fold (comps q).
  fold (rooted (initial_slashes q) (comps q)).
  destruct (@initial_slashes_abs q H) as [-> | ->]; reflexivity.
Qed.

Lemma isabs_cons q : isabs q = true -> exists q', q = sep :: q'.
Proof.
  destruct q as [|a q]; [discriminate|]. unfold isabs. cbn [startswith].
  rewrite andb_true_r. intros H. apply Ascii.eqb_eq in H. subst a. eauto.
Qed.

Lemma initial_slashes_join q d :
  isabs q = true -> proper d = true -> initial_slashes (join q d) = initial_slashes q.
Proof.
  intros Hq Hd. pose proof (@proper_head _ Hd) as Hh.
  assert (Hne : q <> []) by (intros ->; discriminate).
  rewrite (@join_rel q d Hne Hh).
  destruct d as [|y d]; [discriminate|]. cbn [startswith] in Hh. rewrite andb_true_r in Hh.
  destruct (@isabs_cons q Hq) as (q' & ->).
  destruct q' as [|b [|c q']].
  - replace (glue [sep]) with (@nil ascii) by reflexivity.
    unfold initial_slashes. cbn [app startswith]. rewrite ?Ascii.eqb_refl, ?Hh.
    reflexivity.
  - unfold glue. change [sep; b] with ([sep] ++ [b]). rewrite (endswith_snoc [sep] b).
    destruct (Ascii.eqb sep b) eqn:Eb.
    + apply Ascii.eqb_eq in Eb. subst b. unfold initial_slashes.
      cbn [app startswith]. rewrite ?Ascii.eqb_refl, ?Hh. reflexivity.
    + unfold initial_slashes. cbn [app startswith]. rewrite ?Ascii.eqb_refl, ?Eb.
      reflexivity.
  - unfold initial_slashes. reflexivity.
Qed.

Lemma fold_stem i q :
  fold_left (norm_step i) (stem q) [] = fold_left (norm_step i) (split sep q) [].
Proof.
  unfold stem. destruct (@exists_last _ (split sep q) (@split_nonempty q)) as (l & x & E).
  rewrite E, last_last. destruct x; [|reflexivity].
  rewrite removelast_last, fold_left_app. reflexivity.
Qed.

Lemma comps_join q d :
  isabs q = true -> proper d = true -> comps (join q d) = comps q ++ [d].
Proof.
  intros Hq Hd. unfold comps. rewrite (@initial_slashes_join q d Hq Hd).
  rewrite (@split_join_name q d Hd), fold_left_app, fold_stem. cbn [fold_left].
  now apply norm_step_proper.
Qed.

Lemma join_isabs_name q d : isabs q = true -> proper d = true -> isabs (join q d) = true.
Proof. intros Hq Hd. now rewrite (@isabs_join q d Hd). Qed.

Lemma normpath_under q ns :
  isabs q = true -> Forall (fun c => proper c = true) ns ->
  normpath (under q ns) = rooted (initial_slashes q) (comps q ++ ns).
Proof.
  revert q. induction ns as [|d ns IH]; intros q Hq H.
  - rewrite app_nil_r. now apply normpath_form.
  - inversion H; subst. cbn [under fold_left]. fold (under (join q d) ns).
    rewrite IH by (auto using join_isabs_name).
    rewrite initial_slashes_join, comps_join by assumption.
    now rewrite <- app_assoc.
Qed.

Lemma abspath_under cwd root ns :
  isabs cwd = true -> Forall (fun c => proper c = true) ns ->
  abspath cwd (under root ns)
  = rooted (initial_slashes (absolute cwd root)) (comps (absolute cwd root) ++ ns).
Proof.
  intros Hc H. unfold abspath. fold (absolute cwd (under root ns)).
  rewrite absolute_under by assumption.
  apply normpath_under; [now apply absolute_isabs | assumption].
Qed.

Lemma components_rooted i cs :
  Forall (fun c => proper c = true) cs -> components (rooted i cs) = cs.
Proof.
  intros H. unfold components, rooted. rewrite split_repeat_sep, filter_app.
  match goal with
  | |- context [filter ?f (repeat [] i)] =>
      replace (filter f (repeat [] i)) with (@nil str) by (induction i; auto)
  end.
  cbn [app]. destruct cs as [|c cs]; [reflexivity|].
  rewrite split_join by (discriminate || auto using proper_nosep).
  apply forallb_filter_id. apply forallb_forall. intros x Hx.
  rewrite Forall_forall in H. apply H in Hx. apply proper_nonempty in Hx.
  destruct x; congruence.
Qed.

Lemma common_prefix cs ns : common cs (cs ++ ns) = List.length cs.
Proof.
  induction cs as [|c cs IH]; [destruct ns; reflexivity|].
  cbn [common app List.length]. now rewrite str_eqb_refl, IH.
Qed.

Lemma under_joined n ns :
  Forall (fun c => proper c = true) (n :: ns) -> under n ns = PyStr.join [sep] (n :: ns).
Proof.
  induction ns as [|d ns IH] using rev_ind; intros H; [reflexivity|].
  rewrite app_comm_cons in H. apply Forall_app in H as [H Hd]. inversion Hd; subst.
  unfold under. rewrite fold_left_app. cbn [fold_left]. fold (under n ns).
  rewrite (IH H). change (PyStr.join [sep] (n :: ns)) with (rooted 0 (n :: ns)).
  assert (Hne : n :: ns <> []) by discriminate.
  rewrite join_below;
    [ | destruct n; [inversion H; subst; discriminate | cbn; destruct ns; discriminate]
      | now apply rooted_endswith | now apply proper_head ].
  unfold rooted. cbn [repeat app]. rewrite app_comm_cons, join_app by discriminate.
  reflexivity.
Qed.

Lemma under_nonempty root ns :
  ns <> [] -> Forall (fun c => proper c = true) ns -> under root ns <> [].
Proof.
  intros Hne H. destruct (@exists_last _ ns Hne) as (ns' & d & ->).
  apply Forall_app in H as [_ Hd]. inversion Hd; subst.
  unfold under. rewrite fold_left_app. cbn [fold_left].
  intros E. pose proof (@split_join_name (fold_left join ns' root) d H1) as Hs.
  rewrite E in Hs. cbn in Hs.
  destruct (stem (fold_left join ns' root)) as [|a l]; cbn in Hs.
  - injection Hs as Hs. subst d. discriminate.
  - destruct l; discriminate.
Qed.

(** The path relative to the directory walked is the names, joined. *)
Lemma relpath_under cwd root ns :
  isabs cwd = true -> ns <> [] -> Forall (fun c => proper c = true) ns ->
  relpath cwd (under root ns) root = Returns (PyStr.join [sep] ns).
Proof.
  intros Hc Hne H. unfold relpath.
  destruct (under root ns) eqn:E; [now apply under_nonempty in E|]. rewrite <- E.
  rewrite abspath_under by assumption.
  replace (abspath cwd root)
    with (rooted (initial_slashes (absolute cwd root)) (comps (absolute cwd root)))
    by (symmetry; apply normpath_form; now apply absolute_isabs).
  pose proof (@comps_proper (absolute cwd root) (@absolute_isabs cwd root Hc)) as Hp.
  rewrite !components_rooted by (try apply Forall_app; auto).
  rewrite common_prefix, Nat.sub_diag, skipn_app, skipn_all, Nat.sub_diag.
  cbn [repeat app skipn]. destruct ns as [|n ns]; [congruence|].
  cbn [join_all]. fold (under n ns). now rewrite under_joined.
Qed.

(** *** [should_ignore] *)

Section Ignore.
Variable fnmatch : str -> str -> bool.

(** Some component of the path matches some pattern. *)
Definition any_part_matches (path : str) (patterns : list str) : bool :=
  existsb (fun part => existsb (fun pattern => fnmatch part pattern) patterns)
    (split sep path).

Lemma existsb_orb (A : Type) (f g : A -> bool) l :
  existsb (fun x => f x || g x) l = existsb f l || existsb g l.
Proof.
  induction l as [|a l IH]; [reflexivity|]. cbn [existsb]. rewrite IH.
  destruct (f a), (g a), (existsb f l), (existsb g l); reflexivity.
Qed.

Lemma existsb_in (A : Type) (f : A -> bool) l x : In x l -> f x = true -> existsb f l = true.
Proof. intros Hin Hf. apply existsb_exists. eauto. Qed.

Lemma should_ignore_t_parts path patterns :
  should_ignore_t fnmatch path patterns = any_part_matches path patterns.
Proof.
  unfold any_part_matches. induction patterns as [|pattern rest IH].
  - cbn [should_ignore_t existsb]. induction (split sep path); [reflexivity | assumption].
  - cbn [should_ignore_t existsb]. rewrite existsb_orb, IH.
    destruct (fnmatch (basename path) pattern) eqn:Eb.
    + rewrite (existsb_in (fun part => fnmatch part pattern) _ _ (basename_in_parts path) Eb).
      reflexivity.
    + destruct (existsb (fun part => fnmatch part pattern) (split sep path)); reflexivity.
Qed.

Lemma basename_matches_part path patterns :
  existsb (fun pattern => fnmatch (basename path) pattern) patterns = true ->
  any_part_matches path patterns = true.
Proof.
  intros H. unfold any_part_matches.
  exact (existsb_in (fun part => existsb (fun pattern => fnmatch part pattern) patterns)
           _ _ (basename_in_parts path) H).
Qed.

Lemma should_ignore_cases isdir path patterns :
  should_ignore fnmatch isdir path patterns
  = if negb (isdir path)
       && negb (existsb (fun pattern => fnmatch (basename path) pattern) patterns)
       && should_ignore_t fnmatch path patterns
    then Raises name_error
    else Returns (should_ignore_t fnmatch path patterns).
Proof.
  rewrite should_ignore_t_parts. unfold should_ignore. fold (any_part_matches path patterns).
  destruct (existsb (fun pattern => fnmatch (basename path) pattern) patterns) eqn:Eb.
  - rewrite (basename_matches_part _ _ Eb), andb_false_r. reflexivity.
  - destruct (any_part_matches path patterns), (isdir path); reflexivity.
Qed.

End Ignore.

End TraversalFacts.
(** ** The traversal: the files of a directory tree *)

Module TraversalSpec.
Import PosixPath Os Traversal PathFacts TraversalFacts.

(** The names of a listing are names that a directory can hold: not
    empty, not [.] or [..], without a separator. *)
Fixpoint named (well_named : node -> bool) (entries : list (str * node)) : bool :=
  match entries with
  | [] => true
  | (name, sub) :: entries' => proper name && well_named sub && named well_named entries'
  end.

Fixpoint well_named (n : node) : bool :=
  match n with
  | File _ => true
  | Folder None => true
  | Folder (Some entries) => named well_named entries
  end.

(** The files of a directory, each with its names from the directory
    down, in the order of the walk: the files of the directory, then the
    files below each of its directories. *)
Fixpoint files_here (entries : list (str * node)) : list (list str * (str + str)) :=
  match entries with
  | [] => []
  | (f, File content) :: entries' => ([f], content) :: files_here entries'
  | (_, Folder _) :: entries' => files_here entries'
  end.

Fixpoint files_below (listed : node -> list (list str * (str + str)))
         (entries : list (str * node)) : list (list str * (str + str)) :=
  match entries with
  | [] => []
  | (d, (Folder _) as sub) :: entries' =>
      map (fun x => (d :: fst x, snd x)) (listed sub) ++ files_below listed entries'
  | (_, File _) :: entries' => files_below listed entries'
  end.

Fixpoint listed (n : node) : list (list str * (str + str)) :=
  match n with
  | Folder (Some entries) => files_here entries ++ files_below listed entries
  | _ => []
  end.

(** What the output holds for a file: the header with the path relative
    to the directory walked, and the text. *)
Definition block (read_text : str -> str + str -> str) (file : list str * (str + str)) : str :=
  L "--- File: " ++ PyStr.join [sep] (fst file) ++ L " ---" ++ [nl]
  ++ read_text (PyStr.join [sep] (fst file)) (snd file).

Definition read_text_t (_ : str) (content : str + str) : str :=
  match content with
  | inl text => text ++ [nl; nl]
  | inr e => L "[Error reading file: " ++ e ++ L "]" ++ [nl; nl]
  end.

Definition read_text (relative_path : str) (content : str + str) : str :=
  match content with
  | inl text => text ++ [nl; nl]
  | inr e => L "[Error reading file " ++ relative_path ++ L ": " ++ e ++ L "]" ++ [nl; nl]
  end.

Section Matching.
Variable fnmatch : str -> str -> bool.
Variable patterns : list str.

(** The name matches one of the patterns. *)
Definition matches_pattern (name : str) : bool :=
  existsb (fun pattern => fnmatch name pattern) patterns.

(** No name of the file, from the directory walked down, matches a
    pattern. *)
Definition unmatched (file : list str * (str + str)) : bool :=
  negb (existsb matches_pattern (fst file)).

End Matching.

(** [os.path.isdir] answers as the listing has it. *)
Definition answers (isdir : str -> bool) (root : str) (entries : list (str * node)) : bool :=
  forallb (fun e => Bool.eqb (isdir (join root (fst e)))
                      match snd e with Folder _ => true | File _ => false end)
    entries.

(** The names of the files of a listing. *)
Definition file_names (entries : list (str * node)) : list str :=
  map (fun x => PyStr.join [sep] (fst x)) (files_here entries).

End TraversalSpec.

Module TraversalTree.
Import PosixPath Os Traversal PyStrFacts PathFacts TraversalFacts TraversalSpec.

Section NodeInduction.
Variable P : node -> Prop.
Hypothesis HFile : forall content, P (File content).
Hypothesis HNone : P (Folder None).
Hypothesis HSome :
  forall entries, Forall (fun e => P (snd e)) entries -> P (Folder (Some entries)).

Fixpoint node_induction (n : node) : P n :=
  match n with
  | File content => HFile content
  | Folder None => HNone
  | Folder (Some entries) =>
      HSome
        ((fix all (es : list (str * node)) : Forall (fun e => P (snd e)) es :=
            match es with
            | [] => Forall_nil _
            | (name, sub) :: es' =>
                @Forall_cons _ (fun e => P (snd e)) (name, sub) es' (node_induction sub)
                  (all es')
            end) entries)
  end.
End NodeInduction.

Section Walk.
Variable fnmatch : str -> str -> bool.
Variable patterns : list str.
Variable ignore : str -> ending bool.
Variable text_of : str -> str + str -> str.
Variables cwd root_dir : str.

Local Notation "'pm'" := (matches_pattern fnmatch patterns).
Local Notation "'kept'" := (unmatched fnmatch patterns).

Definition prefixed (prefix : list str) (file : list str * (str + str))
  : list str * (str + str) :=
  (prefix ++ fst file, snd file).

Hypothesis Hcwd : isabs cwd = true.

Lemma under_snoc root ns d : under root (ns ++ [d]) = join (under root ns) d.
Proof. unfold under. now rewrite fold_left_app. Qed.

Section Clean.
Hypothesis Hig :
  forall ns d,
    Forall (fun c => proper c = true) ns -> proper d = true ->
    existsb pm (stem root_dir ++ ns) = false ->
    ignore (under root_dir (ns ++ [d])) = Returns (pm d).

Lemma named_cons name sub entries :
  named well_named ((name, sub) :: entries) = true ->
  proper name = true /\ well_named sub = true /\ named well_named entries = true.
Proof.
  cbn [named]. intros H. apply andb_true_iff in H as [H H3].
  apply andb_true_iff in H as [H1 H2]. auto.
Qed.

Lemma prune_clean prefix entries :
  Forall (fun c => proper c = true) prefix ->
  existsb pm (stem root_dir ++ prefix) = false ->
  named well_named entries = true ->
  prune ignore (under root_dir prefix) entries = Returns tt.
Proof.
  intros Hp Hc. induction entries as [|[name sub] entries IH]; intros Hn; [reflexivity|].
  apply named_cons in Hn as (H1 & H2 & H3). cbn [prune]. destruct sub as [c|l].
  - now apply IH.
  - rewrite <- under_snoc, Hig by assumption. now apply IH.
Qed.

Lemma read_files_clean prefix entries :
  Forall (fun c => proper c = true) prefix ->
  existsb pm (stem root_dir ++ prefix) = false ->
  named well_named entries = true ->
  forall out,
    read_files ignore text_of cwd root_dir (under root_dir prefix) entries out
    = Returns (out ++ List.concat (map (block text_of)
                                (map (prefixed prefix) (filter kept (files_here entries))))).
Proof.
  intros Hp Hc. induction entries as [|[name sub] entries IH]; intros Hn out.
  - cbn. now rewrite app_nil_r.
  - apply named_cons in Hn as (H1 & H2 & H3). cbn [read_files files_here].
    destruct sub as [c|l]; [|now apply IH].
    rewrite <- under_snoc.
    rewrite relpath_under;
      [ | assumption | now destruct prefix | apply Forall_app; split; auto ].
    rewrite Hig by assumption. cbn [filter].
    assert (Hk : kept ([name], c) = negb (pm name))
      by (unfold unmatched; cbn [fst existsb]; now rewrite orb_false_r).
    rewrite Hk. destruct (pm name); cbn [negb].
    + now apply IH.
    + rewrite IH by assumption. cbn [map List.concat]. unfold block at 2, prefixed at 2.
      cbn [fst snd]. rewrite <- !app_assoc. reflexivity.
Qed.

Lemma kept_below_ignored d (files : list (list str * (str + str))) :
  pm d = true -> filter kept (map (fun x => (d :: fst x, snd x)) files) = [].
Proof.
  intros H. induction files as [|x files IH]; [reflexivity|].
  cbn [map filter].
  assert (Hk : kept (d :: fst x, snd x) = false)
    by (unfold unmatched; cbn [fst existsb]; now rewrite H).
  now rewrite Hk.
Qed.

Lemma kept_below_kept d (files : list (list str * (str + str))) :
  pm d = false ->
  filter kept (map (fun x => (d :: fst x, snd x)) files)
  = map (fun x => (d :: fst x, snd x)) (filter kept files).
Proof.
  intros H. induction files as [|x files IH]; [reflexivity|].
  cbn [map filter].
  assert (Hk : kept (d :: fst x, snd x) = kept x)
    by (unfold unmatched; cbn [fst existsb]; now rewrite H).
  rewrite Hk. destruct (kept x); cbn [map]; now rewrite IH.
Qed.

Lemma prefixed_below prefix d (files : list (list str * (str + str))) :
  map (prefixed prefix) (map (fun x => (d :: fst x, snd x)) files)
  = map (prefixed (prefix ++ [d])) files.
Proof.
  rewrite map_map. apply map_ext. intros x. unfold prefixed. cbn [fst snd].
  now rewrite <- app_assoc.
Qed.

Lemma walk_clean n :
  well_named n = true ->
  forall prefix out,
    Forall (fun c => proper c = true) prefix ->
    existsb pm (stem root_dir ++ prefix) = false ->
    walk ignore text_of cwd root_dir (under root_dir prefix) n out
    = Returns (out ++ List.concat (map (block text_of)
                                (map (prefixed prefix) (filter kept (listed n))))).
Proof.
  induction n as [c| |entries IH] using node_induction; intros Hn prefix out Hp Hc.
  - cbn. now rewrite app_nil_r.
  - cbn. now rewrite app_nil_r.
  - cbn [walk listed]. cbn [well_named] in Hn.
    rewrite prune_clean, read_files_clean by assumption.
    rewrite filter_app, !map_app, concat_app, app_assoc.
    generalize (out ++ List.concat (map (block text_of)
                                 (map (prefixed prefix) (filter kept (files_here entries))))).
    clear out. induction entries as [|[name sub] entries IHe]; intros out.
    + cbn. now rewrite app_nil_r.
    + apply named_cons in Hn as (H1 & H2 & H3). inversion IH as [|? ? IHsub IHrest]; subst.
      cbn [snd] in IHsub. cbn [walk_dirs files_below]. destruct sub as [c|l].
      * now apply IHe.
      * rewrite <- under_snoc, Hig by assumption. rewrite filter_app, !map_app, concat_app.
        destruct (pm name) eqn:E.
        -- rewrite kept_below_ignored by assumption. cbn [map List.concat app].
           now apply IHe.
        -- rewrite IHsub;
             [ | assumption | apply Forall_app; split; auto
               | rewrite app_assoc, existsb_app, Hc; cbn; now rewrite E ].
           rewrite IHe by assumption.
           rewrite kept_below_kept, prefixed_below by assumption.
           now rewrite <- app_assoc.
Qed.

End Clean.

Section AllIgnored.
Hypothesis Hig :
  forall ns d,
    Forall (fun c => proper c = true) ns -> proper d = true ->
    ignore (under root_dir (ns ++ [d])) = Returns true.

Lemma walk_all_ignored n :
  well_named n = true ->
  forall prefix out,
    Forall (fun c => proper c = true) prefix ->
    walk ignore text_of cwd root_dir (under root_dir prefix) n out = Returns out.
Proof.
  destruct n as [c|[entries|]]; intros Hn prefix out Hp; try reflexivity.
  cbn [walk]. cbn [well_named] in Hn.
  assert (H1 : prune ignore (under root_dir prefix) entries = Returns tt).
  { induction entries as [|[name sub] entries IH]; [reflexivity|].
    apply named_cons in Hn as (H1 & H2 & H3). cbn [prune]. destruct sub; auto.
    rewrite <- under_snoc, Hig by assumption. auto. }
  assert (H2 : read_files ignore text_of cwd root_dir (under root_dir prefix) entries out
               = Returns out).
  { induction entries as [|[name sub] entries IH]; [reflexivity|].
    apply named_cons in Hn as (Hn1 & Hn2 & Hn3). cbn [prune] in H1. cbn [read_files].
    destruct sub as [c|l].
    - rewrite <- under_snoc.
      rewrite relpath_under;
        [ | assumption | now destruct prefix | apply Forall_app; split; auto ].
      rewrite Hig by assumption. auto.
    - rewrite <- under_snoc, Hig in H1 by assumption. auto. }
  rewrite H1, H2. clear H1 H2.
  induction entries as [|[name sub] entries IH]; [reflexivity|].
  apply named_cons in Hn as (Hn1 & Hn2 & Hn3). cbn [walk_dirs]. destruct sub as [c|l]; auto.
  rewrite <- under_snoc, Hig by assumption. auto.
Qed.

End AllIgnored.

End Walk.

Section Listed.
Variable fnmatch : str -> str -> bool.
Variable patterns : list str.

Local Notation "'pm'" := (matches_pattern fnmatch patterns).

Lemma listed_names n :
  well_named n = true ->
  Forall (fun file => exists ns d, fst file = ns ++ [d]
                                   /\ Forall (fun c => proper c = true) ns
                                   /\ proper d = true)
    (listed n).
Proof.
  induction n as [c| |entries IH] using node_induction; intros Hn; try constructor.
  cbn [listed]. cbn [well_named] in Hn. apply Forall_app. split.
  - induction entries as [|[name sub] entries IHe]; [constructor|].
    apply named_cons in Hn as (H1 & H2 & H3). inversion IH; subst.
    cbn [files_here]. destruct sub; auto. constructor; auto.
    exists [], name. auto.
  - induction entries as [|[name sub] entries IHe]; [constructor|].
    apply named_cons in Hn as (H1 & H2 & H3). inversion IH as [|? ? IHsub IHrest]; subst.
    cbn [snd] in IHsub. cbn [files_below]. destruct sub as [c|l]; auto.
    apply Forall_app. split; auto.
    apply Forall_map. eapply Forall_impl; [|apply IHsub; assumption].
    intros file (ns & d & E & Hns & Hd). cbn [fst]. exists (name :: ns), d.
    rewrite E. auto.
Qed.

Lemma filter_none (A : Type) (f : A -> bool) l :
  (forall x, In x l -> f x = false) -> filter f l = [].
Proof.
  induction l as [|a l IH]; intros H; [reflexivity|]. cbn [filter].
  rewrite (H a (or_introl eq_refl)). apply IH. intros x Hx. apply H. now right.
Qed.

Lemma ignored_t_under root_dir ns d :
  Forall (fun c => proper c = true) ns -> proper d = true ->
  should_ignore_t fnmatch (under root_dir (ns ++ [d])) patterns
  = existsb pm (stem root_dir ++ ns ++ [d]).
Proof.
  intros Hns Hd. rewrite should_ignore_t_parts. unfold any_part_matches.
  now rewrite split_under.
Qed.

Lemma basename_under root_dir ns d :
  Forall (fun c => proper c = true) ns -> proper d = true ->
  basename (under root_dir (ns ++ [d])) = d.
Proof.
  intros Hns Hd. rewrite basename_last, split_under by assumption.
  now rewrite !app_assoc, last_last.
Qed.

Lemma stem_incl root_dir x : In x (stem root_dir) -> In x (split sep root_dir).
Proof.
  unfold stem. destruct (last (split sep root_dir) []); [|auto].
  destruct (@exists_last _ (split sep root_dir) (@split_nonempty root_dir)) as (l & y & E).
  rewrite E, removelast_last. intros H. apply in_or_app. now left.
Qed.

Lemma stem_full p : last (split sep p) [] <> [] -> stem p = split sep p.
Proof. unfold stem. destruct (last (split sep p) []); congruence. Qed.

Lemma stem_clean root_dir :
  should_ignore_t fnmatch root_dir patterns = false -> existsb pm (stem root_dir) = false.
Proof.
  rewrite should_ignore_t_parts. unfold any_part_matches. intros H.
  destruct (existsb pm (stem root_dir)) eqn:E; [|reflexivity].
  apply existsb_exists in E as (x & Hx & Hp). apply stem_incl in Hx.
  rewrite <- H. symmetry. apply existsb_exists. eauto.
Qed.

Lemma stem_abspath cwd root_dir :
  isabs cwd = true ->
  existsb pm (stem (abspath cwd root_dir)) = should_ignore_t fnmatch (abspath cwd root_dir) patterns.
Proof.
  intros Hc. rewrite should_ignore_t_parts. unfold any_part_matches.
  destruct (@abspath_rooted cwd root_dir Hc) as (i & cs & Hi & Pcs & ->).
  destruct cs as [|c cs].
  - destruct Hi as [-> | ->].
    + change (stem (rooted 1 [])) with [@nil ascii].
      change (split sep (rooted 1 [])) with [@nil ascii; []].
      change (pm [] || false = pm [] || (pm [] || false)).
      destruct (pm []); reflexivity.
    + change (stem (rooted 2 [])) with [@nil ascii; []].
      change (split sep (rooted 2 [])) with [@nil ascii; []; []].
      change (pm [] || (pm [] || false) = pm [] || (pm [] || (pm [] || false))).
      destruct (pm []); reflexivity.
  - rewrite stem_full; [reflexivity|].
    apply last_split_nonempty.
    + destruct Hi as [-> | ->]; discriminate.
    + apply rooted_endswith; [discriminate | assumption].
Qed.

(** The answer of [should_ignore] of [code2testt.py] below a directory
    of which no component matches. *)
Lemma ignore_t_clean root_dir ns d :
  Forall (fun c => proper c = true) ns -> proper d = true ->
  existsb pm (stem root_dir ++ ns) = false ->
  should_ignore_t fnmatch (under root_dir (ns ++ [d])) patterns = pm d.
Proof.
  intros Hns Hd Hc. rewrite ignored_t_under by assumption.
  rewrite app_assoc, existsb_app, Hc. cbn [existsb orb]. apply orb_false_r.
Qed.

Lemma ignore_clean isdir root_dir ns d :
  Forall (fun c => proper c = true) ns -> proper d = true ->
  existsb pm (stem root_dir ++ ns) = false ->
  should_ignore fnmatch isdir (under root_dir (ns ++ [d])) patterns = Returns (pm d).
Proof.
  intros Hns Hd Hc. rewrite should_ignore_cases, ignore_t_clean by assumption.
  rewrite basename_under by assumption. fold (pm d).
  destruct (pm d), (isdir (under root_dir (ns ++ [d]))); reflexivity.
Qed.

Lemma ignore_t_below root_dir ns d :
  Forall (fun c => proper c = true) ns -> proper d = true ->
  existsb pm (stem root_dir) = true ->
  should_ignore_t fnmatch (under root_dir (ns ++ [d])) patterns = true.
Proof.
  intros Hns Hd Hc. rewrite ignored_t_under by assumption.
  now rewrite existsb_app, Hc.
Qed.

End Listed.

End TraversalTree.
(** ** [fnmatch] on patterns without a set *)

Module FnmatchFacts.
Import Fnmatch PyStrFacts.

(** A character that [translate] takes as it is. *)
Definition plain_char (c : ascii) : bool :=
  negb (Ascii.eqb c "*"%char) && negb (Ascii.eqb c "?"%char) && negb (Ascii.eqb c "["%char).

Definition plain (p : str) : bool := forallb plain_char p.

Lemma items_from_plain p : forall fuel res,
  List.length p <= fuel -> plain p = true ->
  items_from fuel p res = res ++ map Lit p.
Proof.
  induction p as [|c p IH]; intros fuel res Hf Hp.
  - destruct fuel; cbn; now rewrite app_nil_r.
  - destruct fuel as [|fuel]; [cbn in Hf; lia|].
    cbn [plain forallb] in Hp. apply andb_true_iff in Hp as [Hc Hp].
    unfold plain_char in Hc. apply andb_true_iff in Hc as [Hc H3].
    apply andb_true_iff in Hc as [H1 H2]. apply negb_true_iff in H1, H2, H3.
    cbn [items_from]. rewrite H1, H2, H3.
    rewrite IH by (cbn in Hf; lia || assumption). cbn [map].
    now rewrite <- app_assoc.
Qed.

Lemma items_from_app s t : forall fuel res,
  List.length (s ++ t) <= fuel -> plain s = true ->
  items_from fuel (s ++ t) res = items_from (fuel - List.length s) t (res ++ map Lit s).
Proof.
  induction s as [|c s IH]; intros fuel res Hf Hp.
  - cbn. now rewrite Nat.sub_0_r, app_nil_r.
  - destruct fuel as [|fuel]; [cbn in Hf; lia|].
    cbn [plain forallb] in Hp. apply andb_true_iff in Hp as [Hc Hp].
    unfold plain_char in Hc. apply andb_true_iff in Hc as [Hc H3].
    apply andb_true_iff in Hc as [H1 H2]. apply negb_true_iff in H1, H2, H3.
    cbn [app items_from]. rewrite H1, H2, H3.
    rewrite IH by (cbn in Hf; lia || assumption). cbn [map List.length Nat.sub].
    now rewrite <- app_assoc.
Qed.

Lemma translate_plain p : plain p = true -> translate p = map Lit p.
Proof. intros H. unfold translate. now rewrite items_from_plain. Qed.

Lemma translate_star_plain s :
  plain s = true -> translate ("*"%char :: s) = STAR :: map Lit s.
Proof.
  intros H. unfold translate. cbn [List.length items_from Ascii.eqb].
  change (Ascii.eqb "*" "*") with true. cbn [rev app].
  now rewrite items_from_plain.
Qed.

Lemma translate_plain_star s :
  plain s = true -> translate (s ++ ["*"%char]) = map Lit s ++ [STAR].
Proof.
  intros H. unfold translate. rewrite items_from_app by (auto).
  rewrite length_app. cbn [List.length]. replace (_ + 1 - _) with 1 by lia.
  cbn [items_from app]. change (Ascii.eqb "*" "*") with true.
  destruct (rev (map Lit s)) as [|[| | | |] r] eqn:E; try reflexivity.
  exfalso. assert (Hin : In STAR (map Lit s)).
  { apply in_rev. rewrite E. now left. }
  apply in_map_iff in Hin as (x & Hx & _). discriminate.
Qed.

Lemma matches_literal_iff s : forall name, matches (map Lit s) name = true <-> name = s.
Proof.
  induction s as [|c s IH]; intros [|x name]; cbn [map matches item_matches];
    try (split; [discriminate | congruence]); [tauto|].
  rewrite andb_true_iff, Ascii.eqb_eq, IH. split; [intros [-> ->]; reflexivity|].
  intros E. injection E as -> ->. auto.
Qed.

Lemma matches_literal s name : matches (map Lit s) name = str_eqb name s.
Proof.
  apply eq_iff_eq_true. rewrite str_eqb_eq. apply matches_literal_iff.
Qed.

Lemma matches_star : forall name, matches [STAR] name = true.
Proof. induction name as [|x name IH]; [reflexivity|]. cbn. cbn in IH. exact IH. Qed.

Lemma matches_prefix s : forall name, matches (map Lit s ++ [STAR]) name = startswith s name.
Proof.
  induction s as [|c s IH]; intros name.
  - apply matches_star.
  - destruct name as [|x name]; [reflexivity|].
    cbn [map app matches item_matches startswith]. rewrite IH.
    now rewrite Ascii.eqb_sym.
Qed.

(** A text ends with [s]: it is [s], or its tail ends with [s]. *)
Lemma startswith_snoc p : forall q c,
  startswith p (q ++ [c]) = startswith p q || str_eqb p (q ++ [c]).
Proof.
  induction p as [|a p IH]; intros q c.
  - reflexivity.
  - destruct q as [|b q].
    + cbn [app startswith]. destruct p as [|a' p].
      * cbn [startswith orb]. rewrite andb_true_r. apply eq_iff_eq_true.
        rewrite Ascii.eqb_eq, str_eqb_eq. split; congruence.
      * cbn [startswith orb]. rewrite andb_false_r. symmetry.
        apply str_eqb_neq. discriminate.
    + cbn [app startswith]. rewrite IH. destruct (Ascii.eqb a b) eqn:E.
      * apply Ascii.eqb_eq in E. subst b. cbn [andb]. f_equal.
        apply eq_iff_eq_true. rewrite !str_eqb_eq. split; congruence.
      * cbn [andb]. symmetry. apply str_eqb_neq. intros H. injection H as -> _.
        now rewrite Ascii.eqb_refl in E.
Qed.

Lemma endswith_cons s x name :
  endswith s (x :: name) = str_eqb (x :: name) s || endswith s name.
Proof.
  unfold endswith. cbn [rev]. rewrite startswith_snoc, orb_comm. f_equal.
  apply eq_iff_eq_true. rewrite !str_eqb_eq. split.
  - intros H. apply (f_equal (@rev ascii)) in H.
    rewrite rev_involutive, rev_app_distr, rev_involutive in H. cbn in H. congruence.
  - intros <-. reflexivity.
Qed.

Lemma matches_suffix s : forall name, matches (STAR :: map Lit s) name = endswith s name.
Proof.
  induction name as [|x name IH].
  - cbn [matches]. rewrite matches_literal, orb_false_r.
    destruct s as [|c s]; [reflexivity|].
    unfold endswith. cbn [rev]. destruct (rev s ++ [c]) eqn:E.
    + now apply app_eq_nil in E as [_ E].
    + cbn [startswith]. apply str_eqb_neq. discriminate.
  - rewrite endswith_cons, <- IH. cbn [matches]. now rewrite matches_literal.
Qed.

Lemma fnmatch_literal p name : plain p = true -> fnmatch name p = str_eqb name p.
Proof. intros H. unfold fnmatch. rewrite translate_plain by assumption. apply matches_literal. Qed.

Lemma fnmatch_suffix s name :
  plain s = true -> fnmatch name ("*"%char :: s) = endswith s name.
Proof.
  intros H. unfold fnmatch. rewrite translate_star_plain by assumption.
  apply matches_suffix.
Qed.

Lemma fnmatch_prefix s name :
  plain s = true -> fnmatch name (s ++ ["*"%char]) = startswith s name.
Proof.
  intros H. unfold fnmatch. rewrite translate_plain_star by assumption.
  apply matches_prefix.
Qed.

End FnmatchFacts.

(** ** The parsers: the scan for any marker, the report block, the keys *)

Module ScanFacts.
Import Re PyStrFacts Parser ParserSpec ParserFacts.

(** *** The scan of the lines, for any pattern of the marker *)

Section Delimiter.
Variable delimiter : regex.

(** The path that a line announces, for the pattern at hand. *)
Definition marker_of (line : str) : option str :=
  option_map (fun m => strip (group1 line m)) (re_match delimiter line).

Definition well_formed (b : block) : Prop :=
  match b with
  | (marker, path, body) =>
      marker_of marker = Some path /\ Forall (fun l => marker_of l = None) body
  end.

Local Notation "'scan'" := (scan_line delimiter).

Lemma scan_idle st line :
  marker_of line = None -> current_path st = None -> scan st line = st.
Proof.
  unfold marker_of, scan_line. intros H Hp.
  destruct (re_match delimiter line); [discriminate|]. now rewrite Hp.
Qed.

Lemma scan_buffer st line p :
  marker_of line = None -> current_path st = Some p ->
  files (scan st line) = files st
  /\ current_path (scan st line) = Some p
  /\ current_content (scan st line) = current_content st ++ [line].
Proof.
  unfold marker_of, scan_line. intros H Hp.
  destruct (re_match delimiter line); [discriminate|]. rewrite Hp.
  destruct (re_match code_block_pattern (strip line)); cbn; auto.
Qed.

Lemma scan_at_marker st line p :
  marker_of line = Some p ->
  files (scan st line) = save_current st
  /\ current_path (scan st line) = Some p
  /\ current_content (scan st line) = [].
Proof.
  unfold marker_of, scan_line. intros H.
  destruct (re_match delimiter line); [|discriminate].
  injection H as <-. cbn. auto.
Qed.

Lemma scan_before pre st :
  Forall (fun l => marker_of l = None) pre -> current_path st = None ->
  fold_left scan pre st = st.
Proof.
  intros H. revert st. induction H as [|l pre Hl _ IH]; intros st Hp; simpl; [reflexivity|].
  rewrite scan_idle by assumption. now apply IH.
Qed.

Lemma scan_lines body st p :
  Forall (fun l => marker_of l = None) body -> current_path st = Some p ->
  files (fold_left scan body st) = files st
  /\ current_path (fold_left scan body st) = Some p
  /\ current_content (fold_left scan body st) = current_content st ++ body.
Proof.
  intros H. revert st. induction H as [|l body Hl _ IH]; intros st Hp; simpl.
  - now rewrite app_nil_r.
  - destruct (@scan_buffer st l p Hl Hp) as (H1 & H2 & H3).
    destruct (IH _ H2) as (G1 & G2 & G3).
    rewrite G1, G2, G3, H1, H3, <- app_assoc. auto.
Qed.

Lemma scan_all blocks st :
  Forall well_formed blocks ->
  save_current (fold_left scan (flat_map block_lines blocks) st)
  = fold_left (fun d e => PyDict.set (fst e) (snd e) d) (map block_entry blocks)
      (save_current st).
Proof.
  intros H. revert st. induction H as [|[[m p] body] blocks [Hm Hb] _ IH]; intros st.
  - reflexivity.
  - cbn [flat_map block_lines map]. rewrite <- app_comm_cons.
    cbn [fold_left]. rewrite fold_left_app, IH. f_equal.
    destruct (@scan_at_marker st m p Hm) as (H1 & H2 & H3).
    destruct (@scan_lines body _ p Hb H2) as (G1 & G2 & G3).
    unfold save_current at 1. rewrite G1, G2, G3, H1, H3. cbn [app block_entry fst snd].
    now rewrite process_content_spec.
Qed.

(** Every list of lines is a preamble and blocks. *)
Lemma lines_blocks lines :
  exists preamble blocks,
    lines = reply_lines preamble blocks
    /\ Forall (fun l => marker_of l = None) preamble
    /\ Forall well_formed blocks.
Proof.
  induction lines as [|l lines (pre & blocks & -> & Hp & Hb)].
  - exists [], []. repeat split; constructor.
  - destruct (marker_of l) as [p|] eqn:E.
    + exists [], ((l, p, pre) :: blocks). repeat split; auto.
      constructor; [split; assumption | assumption].
    + exists (l :: pre), blocks. repeat split; auto.
Qed.

(** The files of a text: the entries of its blocks, assigned one after
    the other. *)
Lemma scan_files_blocks text preamble blocks :
  split nl (strip text) = reply_lines preamble blocks ->
  Forall (fun l => marker_of l = None) preamble ->
  Forall well_formed blocks ->
  scan_files delimiter text = PyDict.update [] (map block_entry blocks).
Proof.
  intros Hl Hp Hb. unfold scan_files. rewrite Hl. unfold reply_lines.
  rewrite fold_left_app.
  rewrite (@scan_before preamble (Scanning [] None [] false None) Hp eq_refl).
  now rewrite scan_all.
Qed.

End Delimiter.

(** *** The scan of [code2testt.py] *)

(** The entry of a block in [parse_ai_response]: its slash-normalized
    path, and its lines without a fence at the head and at the end,
    joined and trimmed. *)
Definition block_entry_t (b : block) : str * str :=
  match b with
  | (_, path, body) =>
      (normalized_path path, strip (join [nl] (without_outer_fences body)))
  end.

Local Notation "'mark'" := (marker_of Code2testt.file_delimiter_pattern).

Lemma scan_t_idle st line :
  mark line = None -> Code2testt.current_path st = None -> Code2testt.scan_line st line = st.
Proof.
  unfold marker_of, Code2testt.scan_line. intros H Hp.
  destruct (re_match Code2testt.file_delimiter_pattern line); [discriminate|].
  now rewrite Hp.
Qed.

Lemma scan_t_buffer st line p :
  mark line = None -> Code2testt.current_path st = Some p ->
  Code2testt.files (Code2testt.scan_line st line) = Code2testt.files st
  /\ Code2testt.current_path (Code2testt.scan_line st line) = Some p
  /\ Code2testt.current_content (Code2testt.scan_line st line)
     = Code2testt.current_content st ++ [line].
Proof.
  unfold marker_of, Code2testt.scan_line. intros H Hp.
  destruct (re_match Code2testt.file_delimiter_pattern line); [discriminate|]. rewrite Hp.
  cbn. auto.
Qed.

Lemma scan_t_at_marker st line p :
  mark line = Some p ->
  Code2testt.files (Code2testt.scan_line st line) = Code2testt.save_current st
  /\ Code2testt.current_path (Code2testt.scan_line st line) = Some p
  /\ Code2testt.current_content (Code2testt.scan_line st line) = [].
Proof.
  unfold marker_of, Code2testt.scan_line. intros H.
  destruct (re_match Code2testt.file_delimiter_pattern line); [|discriminate].
  injection H as <-. cbn. auto.
Qed.

Lemma scan_t_before pre st :
  Forall (fun l => mark l = None) pre -> Code2testt.current_path st = None ->
  fold_left Code2testt.scan_line pre st = st.
Proof.
  intros H. revert st. induction H as [|l pre Hl _ IH]; intros st Hp; simpl; [reflexivity|].
  rewrite scan_t_idle by assumption. now apply IH.
Qed.

Lemma scan_t_lines body st p :
  Forall (fun l => mark l = None) body -> Code2testt.current_path st = Some p ->
  Code2testt.files (fold_left Code2testt.scan_line body st) = Code2testt.files st
  /\ Code2testt.current_path (fold_left Code2testt.scan_line body st) = Some p
  /\ Code2testt.current_content (fold_left Code2testt.scan_line body st)
     = Code2testt.current_content st ++ body.
Proof.
  intros H. revert st. induction H as [|l body Hl _ IH]; intros st Hp; simpl.
  - now rewrite app_nil_r.
  - destruct (@scan_t_buffer st l p Hl Hp) as (H1 & H2 & H3).
    destruct (IH _ H2) as (G1 & G2 & G3).
    rewrite G1, G2, G3, H1, H3, <- app_assoc. auto.
Qed.

Lemma scan_t_all blocks st :
  Forall (well_formed Code2testt.file_delimiter_pattern) blocks ->
  Code2testt.save_current (fold_left Code2testt.scan_line (flat_map block_lines blocks) st)
  = fold_left (fun d e => PyDict.set (fst e) (snd e) d) (map block_entry_t blocks)
      (Code2testt.save_current st).
Proof.
  intros H. revert st. induction H as [|[[m p] body] blocks [Hm Hb] _ IH]; intros st.
  - reflexivity.
  - cbn [flat_map block_lines map]. rewrite <- app_comm_cons.
    cbn [fold_left]. rewrite fold_left_app, IH. f_equal.
    destruct (@scan_t_at_marker st m p Hm) as (H1 & H2 & H3).
    destruct (@scan_t_lines body _ p Hb H2) as (G1 & G2 & G3).
    unfold Code2testt.save_current at 1. rewrite G1, G2, G3, H1, H3.
    cbn [app block_entry_t fst snd]. now rewrite clean_content_spec.
Qed.

Lemma parse_ai_response_blocks response preamble blocks :
  split nl (strip response) = reply_lines preamble blocks ->
  Forall (fun l => mark l = None) preamble ->
  Forall (well_formed Code2testt.file_delimiter_pattern) blocks ->
  Code2testt.parse_ai_response response = PyDict.update [] (map block_entry_t blocks).
Proof.
  intros Hl Hp Hb. unfold Code2testt.parse_ai_response. rewrite Hl. unfold reply_lines.
  rewrite fold_left_app.
  rewrite (@scan_t_before preamble (Code2testt.Scanning [] None []) Hp eq_refl).
  now rewrite scan_t_all.
Qed.

End ScanFacts.

(** ** The validation parser by string search *)

Module ValidationSpec.
Import ExtractorSpec Parser.

(** A fence interior without its [json] tag. *)
Definition untagged (s : str) : str := if startswith (L "json") s then skipn 4 s else s.

(** The first fenced block of a text: from the first fence token to the
    next one.  Its interior, without tag and trimmed, and the position
    after its closing token. *)
Definition first_block (text : str) : option (str * nat) :=
  match find (L "```") text with
  | Some i =>
      let after := skipn (i + 3) text in
      match find (L "```") after with
      | Some j => Some (strip (untagged (firstn j after)), i + 3 + j + 3)
      | None => None
      end
  | None => None
  end.

(** The text after the first fenced block; the whole text when it has no
    block, and when nothing follows the block. *)
Definition section_after (text : str) : str :=
  match first_block text with
  | Some (_, stop) => if stop <? List.length text then skipn stop text else text
  | None => text
  end.

(** The report and the files of a response, by string search: the report
    is decoded from the interior of the first fenced block and, when that
    does not decode, from the first opening brace to the last closing one;
    the files are read from the text after the block. *)
Definition report_and_files (json_loads : str -> loads_result) (response : str)
  : validation_result :=
  let files := scan_files file_delimiter_pattern_validation (section_after response) in
  let header := Stdout (L "--- Parsing Validation Response ---") in
  match first_block response with
  | Some (interior, _) =>
      match json_loads interior with
      | LoadsOk report =>
          Validated report files
            [header; Stdout (L "Successfully parsed validation report (JSON).")]
      | LoadsRaised msg => ValidationRaised msg [header]
      | JSONDecodeError e =>
          let err := Stderr (L "Error: Failed to decode JSON validation report: " ++ e) in
          match option_map json_loads (brace_span response) with
          | Some (LoadsOk report) =>
              Validated report files
                [header; err;
                 Stdout (L "Successfully parsed validation report using fallback method.")]
          | Some _ =>
              Validated JNull files
                [header; err; Stdout (L "All validation report parsing methods failed.")]
          | None => Validated JNull files [header; err]
          end
      end
  | None =>
      Validated JNull files
        [header;
         Stdout (L "Warning: No JSON validation report found in Agent 3's response.")]
  end.

End ValidationSpec.

Module ValidationFacts.
Import Re ReFacts PyStrFacts ExtractorSpec ExtractorFacts Parser ValidationSpec.

(** What follows the opening of a block in the patterns: whitespace, the
    interior, whitespace and the closing fence. *)
Definition block_tail : regex :=
  (Star true cls_space +++ Group (Star false cls_any)
   +++ Star true cls_space +++ Lit (L "```"))%re.

Definition tail_match (start q : nat) (after : str) : option match_obj :=
  let n := run_len isspace_char after in
  let r := skipn n after in
  match find_first closes r with
  | Some e =>
      Some (MatchObj start (q + n + e + (run_len isspace_char (skipn e r) + 3))
              (Some (q + n, q + n + e)))
  | None => None
  end.

Lemma block_tail_run start q after g :
  run block_tail (MState q after g) (accept start) = tail_match start q after.
Proof.
  unfold block_tail, tail_match. cbn [run m_pos m_rest m_grp].
  set (n := run_len isspace_char after).
  set (K1 := fun st : mstate => star_lazy _ _ _ _ _).
  assert (HK : forall p r g',
    K1 (MState p r g') =
    match find_first closes r with
    | Some e => Some (MatchObj start (p + e + (run_len isspace_char (skipn e r) + 3))
                        (Some (p, p + e)))
    | None => None
    end).
  { intros p r g'. unfold K1. cbn [m_pos m_rest m_grp].
    destruct (find_first closes r) as [e|] eqn:F.
    - destruct (find_first_some _ _ F) as (H1 & H2 & H3).
      apply star_lazy_first with (n := e).
      + now rewrite run_len_any.
      + cbn [adv m_pos m_rest m_grp]. rewrite close_run, H1. reflexivity.
      + intros j Hj. cbn [adv m_pos m_rest m_grp]. now rewrite close_run, H3.
    - apply star_lazy_none. intros j _. cbn [adv m_pos m_rest m_grp].
      now rewrite close_run, (find_first_none _ _ F). }
  destruct (find_first closes (skipn n after)) as [e|] eqn:F.
  - apply star_greedy_last with (n := n); [unfold cls_space; fold n; lia | |].
    + unfold adv. rewrite HK, F. reflexivity.
    + intros j H1 H2. unfold cls_space in H2. fold n in H2. lia.
  - apply star_greedy_none. intros j Hj. unfold adv. rewrite HK.
    destruct (@run_len_split isspace_char after j Hj) as (w & Hw & Hp).
    fold n in Hw. rewrite Hw. now rewrite find_closes_spaces.
Qed.

Lemma run_len_to_fence e j (r : str) :
  e <= j ->
  forallb isspace_char (firstn (j - e) (skipn e r)) = true ->
  startswith (L "```") (skipn j r) = true ->
  e + run_len isspace_char (skipn e r) = j.
Proof.
  intros Hle Hsp Hf.
  assert (Hs : skipn e r = firstn (j - e) (skipn e r) ++ skipn j r).
  { rewrite <- (firstn_skipn (j - e) (skipn e r)) at 1. f_equal.
    rewrite skipn_skipn_add. f_equal. lia. }
  destruct (skipn j r) as [|c t] eqn:Ej; [discriminate|].
  change (L "```") with (backtick :: L "``") in Hf.
  apply startswith_cons_inv in Hf as [<- _].
  assert (Hlen : List.length (firstn (j - e) (skipn e r)) = j - e).
  { apply firstn_length_le. rewrite length_skipn.
    assert (List.length (skipn j r) = List.length r - j) by apply length_skipn.
    rewrite Ej in H. simpl in H. lia. }
  rewrite Hs, run_len_app_stop by (auto using backtick_not_space). lia.
Qed.

(** The tail matches up to the first fence token of [after]. *)
Lemma tail_match_find text start q :
  match find (L "```") (skipn q text) with
  | Some j =>
      exists m, tail_match start q (skipn q text) = Some m
                /\ mo_end m = q + j + 3
                /\ strip (group1 text m) = strip (firstn j (skipn q text))
  | None => tail_match start q (skipn q text) = None
  end.
Proof.
  set (after := skipn q text). unfold tail_match.
  set (n := run_len isspace_char after). set (r := skipn n after).
  destruct (@run_len_split isspace_char after 0) as (w & Hw & Hp); [lia|].
  simpl skipn at 1 in Hw. fold n r in Hw.
  assert (Hf : find (L "```") after
               = option_map (fun j => List.length w + j) (find (L "```") r)).
  { etransitivity; [apply f_equal; exact Hw | apply find_fence_spaces; exact Hp]. }
  rewrite Hf. clear Hf.
  assert (Hn : List.length w = n).
  { assert (H : List.length after = List.length w + List.length r)
      by (rewrite Hw at 1; apply length_app).
    unfold r in H. rewrite length_skipn in H.
    pose proof (run_len_le isspace_char after). fold n in H0. lia. }
  destruct (find (L "```") r) as [j'|] eqn:G; cbn [option_map].
  - destruct (find_fence_some_closes _ G) as (e & He & Hs). rewrite He.
    eexists. split; [reflexivity|]. cbn [mo_end]. split.
    + pose proof (closes_vs_find r) as R. rewrite He, G in R. destruct R as [R1 R2].
      unfold find in G. destruct (find_first_some _ _ G) as (G1 & _).
      pose proof (run_len_to_fence _ R1 R2 G1). lia.
    + unfold group1. cbn [mo_grp]. rewrite slice_firstn.
      rewrite <- skipn_skipn_add. fold after. fold r. rewrite Hs.
      assert (Hfn : firstn (List.length w + j') after = w ++ firstn j' r).
      { etransitivity; [apply f_equal; exact Hw|]. rewrite firstn_app.
        rewrite (@firstn_all2 _ (List.length w + j') w) by lia.
        f_equal. f_equal. lia. }
      rewrite Hfn. now rewrite strip_spaces_app_l.
  - now rewrite (find_fence_none_closes _ G).
Qed.

(** The match of the pattern of the report block that starts at [i]. *)
Definition fence_block_match (text : str) (i : nat) : option match_obj :=
  if startswith (L "```") (skipn i text) then
    if startswith (L "json") (skipn (i + 3) text)
    then tail_match i (i + 7) (skipn (i + 7) text)
    else tail_match i (i + 3) (skipn (i + 3) text)
  else None.

Lemma find_fence_json s :
  find (L "```") (L "json" ++ s) = option_map (fun j => 4 + j) (find (L "```") s).
Proof.
  unfold find. cbn [L list_ascii_of_string app find_first startswith Ascii.eqb Bool.eqb andb].
  destruct (find_first _ s); reflexivity.
Qed.

Lemma tagged_split (s : str) :
  startswith (L "json") s = true -> s = L "json" ++ skipn 4 s.
Proof. intros H. exact (startswith_true _ _ H). Qed.

Lemma find_fence_tagged text i :
  startswith (L "json") (skipn (i + 3) text) = true ->
  find (L "```") (skipn (i + 3) text)
  = option_map (fun j => 4 + j) (find (L "```") (skipn (i + 7) text)).
Proof.
  intros J. etransitivity; [apply f_equal; exact (tagged_split _ J)|].
  rewrite find_fence_json, skipn_skipn_add. now replace (i + 3 + 4) with (i + 7) by lia.
Qed.

Lemma json_pattern_run_fence text i :
  run json_pattern (adv 0 text None i) (accept (0 + i)) = fence_block_match text i.
Proof.
  unfold json_pattern, fence_block_match. cbn [run adv m_pos m_rest m_grp].
  rewrite lit_k_spec. destruct (startswith (L "```") (skipn i text)); [|reflexivity].
  cbn [adv m_pos m_rest m_grp]. change (List.length (L "```")) with 3.
  rewrite skipn_skipn_add, !Nat.add_0_l.
  rewrite lit_k_spec. cbn [m_pos m_rest m_grp].
  pose proof (@block_tail_run i (i + 3) (skipn (i + 3) text) None) as T3.
  unfold block_tail in T3. cbn [run m_pos m_rest m_grp] in T3.
  destruct (startswith (L "json") (skipn (i + 3) text)) eqn:J.
  - cbn [adv m_pos m_rest m_grp]. change (List.length (L "json")) with 4.
    rewrite skipn_skipn_add. replace (i + 3 + 4) with (i + 7) by lia.
    pose proof (@block_tail_run i (i + 7) (skipn (i + 7) text) None) as T7.
    unfold block_tail in T7. cbn [run m_pos m_rest m_grp] in T7.
    rewrite T7, T3.
    destruct (tail_match i (i + 7) (skipn (i + 7) text)) as [m|] eqn:E; [reflexivity|].
    pose proof (tail_match_find text i (i + 7)) as F7. rewrite E in F7.
    destruct (find (L "```") (skipn (i + 7) text)) as [j|] eqn:G7;
      [destruct F7 as (m & Hm & _); discriminate|].
    pose proof (tail_match_find text i (i + 3)) as F3.
    rewrite (find_fence_tagged _ _ J), G7 in F3. exact F3.
  - exact T3.
Qed.

Lemma startswith_firstn p (s : str) j :
  startswith p (firstn j s) = true -> startswith p s = true.
Proof.
  revert s j. induction p as [|a p IH]; intros s j; [reflexivity|].
  destruct j as [|j], s as [|x s]; simpl; try discriminate.
  intros H. apply andb_true_iff in H as [H1 H2]. rewrite H1. simpl. eauto.
Qed.

(** The block that starts at [i] ends at the next fence token. *)
Lemma fence_block_find text i :
  startswith (L "```") (skipn i text) = true ->
  match find (L "```") (skipn (i + 3) text) with
  | Some j =>
      exists m, fence_block_match text i = Some m
                /\ mo_end m = i + 3 + j + 3
                /\ strip (group1 text m) = strip (untagged (firstn j (skipn (i + 3) text)))
  | None => fence_block_match text i = None
  end.
Proof.
  intros H. unfold fence_block_match. rewrite H.
  destruct (startswith (L "json") (skipn (i + 3) text)) eqn:J.
  - pose proof (tail_match_find text i (i + 7)) as F7.
    rewrite (find_fence_tagged _ _ J).
    destruct (find (L "```") (skipn (i + 7) text)) as [j|]; cbn [option_map]; [|exact F7].
    destruct F7 as (m & Hm & He & Hg). exists m. split; [exact Hm|]. split; [lia|].
    rewrite Hg. f_equal. rewrite (tagged_split _ J).
    rewrite skipn_skipn_add. replace (i + 3 + 4) with (i + 7) by lia.
    change (firstn (4 + j) (L "json" ++ skipn (i + 7) text))
      with (L "json" ++ firstn j (skipn (i + 7) text)).
    reflexivity.
  - pose proof (tail_match_find text i (i + 3)) as F3.
    destruct (find (L "```") (skipn (i + 3) text)) as [j|]; [|exact F3].
    destruct F3 as (m & Hm & He & Hg). exists m. split; [exact Hm|]. split; [exact He|].
    rewrite Hg. unfold untagged.
    destruct (startswith (L "json") (firstn j (skipn (i + 3) text))) eqn:E; [|reflexivity].
    apply startswith_firstn in E. congruence.
Qed.

Lemma find_skipn_none (needle s : str) k :
  find needle s = None -> find needle (skipn k s) = None.
Proof.
  unfold find. intros H.
  destruct (find_first (startswith needle) (skipn k s)) as [j|] eqn:F; [|reflexivity].
  destruct (find_first_some _ _ F) as (Hj & _).
  rewrite skipn_skipn_add in Hj. now rewrite (find_first_none _ _ H) in Hj.
Qed.

(** The search of the pattern of the report block finds the first fenced
    block. *)
Lemma first_block_search text :
  option_map (fun m => (strip (group1 text m), mo_end m)) (re_search json_pattern text)
  = first_block text.
Proof.
  unfold re_search, first_block.
  destruct (find (L "```") text) as [i|] eqn:F; unfold find in F.
  - destruct (find_first_some _ _ F) as (H1 & H2 & H3).
    pose proof (fence_block_find text i H1) as B.
    destruct (find (L "```") (skipn (i + 3) text)) as [j|] eqn:G.
    + destruct B as (m & Hm & He & Hg).
      rewrite (@search_from_first json_pattern 0 text i m); auto.
      * cbn [option_map]. now rewrite Hg, He.
      * now rewrite json_pattern_run_fence.
      * intros k Hk. rewrite json_pattern_run_fence. unfold fence_block_match.
        now rewrite H3.
    + rewrite search_from_none; [reflexivity|].
      intros k _. rewrite json_pattern_run_fence.
      destruct (startswith (L "```") (skipn k text)) eqn:E;
        [|unfold fence_block_match; now rewrite E].
      destruct (Nat.lt_ge_cases k i) as [Hlt|Hge]; [rewrite H3 in E; auto; discriminate|].
      pose proof (fence_block_find text k E) as Bk.
      replace (k + 3) with (i + 3 + (k - i)) in Bk by lia.
      rewrite <- skipn_skipn_add in Bk. rewrite (@find_skipn_none _ _ (k - i) G) in Bk.
      exact Bk.
  - rewrite search_from_none; [reflexivity|].
    intros k _. rewrite json_pattern_run_fence. unfold fence_block_match.
    now rewrite (find_first_none _ _ F).
Qed.

Lemma file_section_search response :
  file_section response (re_search Parser.json_pattern response) = section_after response.
Proof.
  pose proof (first_block_search response) as B. unfold section_after.
  destruct (re_search Parser.json_pattern response) as [m|]; cbn [option_map] in B;
    rewrite <- B; reflexivity.
Qed.

Lemma parse_validation_response_search json_loads response :
  parse_validation_response json_loads response = report_and_files json_loads response.
Proof.
  unfold parse_validation_response, report_and_files. cbv zeta.
  rewrite file_section_search.
  pose proof (first_block_search response) as B.
  pose proof (ExtractorFacts.json_pattern_search response) as J.
  destruct (re_search Parser.json_pattern response) as [m|]; cbn [option_map] in B;
    rewrite <- B; [|reflexivity].
  destruct (json_loads (strip (group1 response m))); try reflexivity.
  rewrite <- J.
  destruct (re_search Extractor.json_pattern response); cbn [option_map]; [|reflexivity].
  destruct (json_loads _); reflexivity.
Qed.

Lemma parse_validation_response_files json_loads response :
  match parse_validation_response json_loads response with
  | Validated _ files _ =>
      files = scan_files file_delimiter_pattern_validation (section_after response)
  | ValidationRaised _ _ => True
  end.
Proof.
  rewrite parse_validation_response_search. unfold report_and_files.
  destruct (first_block response) as [[interior stop]|]; [|reflexivity].
  destruct (json_loads interior); [reflexivity | | exact I].
  destruct (option_map json_loads (brace_span response)) as [[]|]; reflexivity.
Qed.

End ValidationFacts.

(** ** The keys of the parsers *)

Module KeySpec.

(** A key as the parsers store it: trimmed, on one line, without
    backslash. *)
Definition clean_key (k : str) : Prop :=
  strip k = k /\ ~ In "\"%char k /\ ~ In nl k.

Definition clean_keys (d : PyDict.dict str) : Prop :=
  NoDup (PyDict.keys d) /\ Forall clean_key (PyDict.keys d).

End KeySpec.

Module KeyFacts.
Import Re PyStrFacts Parser KeySpec.

Lemma lstrip_map (f : ascii -> ascii) s :
  (forall c, isspace_char (f c) = isspace_char c) -> lstrip (map f s) = map f (lstrip s).
Proof.
  intros H. induction s as [|c s IH]; simpl; [reflexivity|].
  rewrite H. destruct (isspace_char c); [exact IH | reflexivity].
Qed.

Lemma strip_map (f : ascii -> ascii) s :
  (forall c, isspace_char (f c) = isspace_char c) -> strip (map f s) = map f (strip s).
Proof.
  intros H. unfold strip, rstrip.
  now rewrite lstrip_map, <- map_rev, lstrip_map, map_rev by exact H.
Qed.

Lemma in_lstrip x s : In x (lstrip s) -> In x s.
Proof.
  induction s as [|c s IH]; simpl; [auto|].
  destruct (isspace_char c); [auto | intros H; exact H].
Qed.

Lemma in_strip x s : In x (strip s) -> In x s.
Proof.
  unfold strip, rstrip. intros H. apply in_lstrip.
  apply in_rev in H. apply in_lstrip in H. now apply in_rev.
Qed.

Lemma in_slice x (s : str) a b : In x (slice s a b) -> In x s.
Proof.
  unfold slice. intros H.
  rewrite <- (firstn_skipn a s). apply in_or_app. right.
  rewrite <- (firstn_skipn (b - a) (skipn a s)). apply in_or_app. now left.
Qed.

Lemma in_group1 x line m : In x (group1 line m) -> In x line.
Proof.
  unfold group1. destruct (mo_grp m) as [[a b]|]; [apply in_slice | intros []].
Qed.

Lemma normalized_path_map p :
  normalized_path p
  = map (fun c => if Ascii.eqb c "\" then os_sep else if Ascii.eqb c "/" then os_sep else c) p.
Proof.
  unfold normalized_path, replace. rewrite map_map. apply map_ext. intros c.
  destruct (Ascii.eqb c "/") eqn:E; [|reflexivity].
  apply Ascii.eqb_eq in E. subst c. reflexivity.
Qed.

(** The key of a path read from a line. *)
Lemma normalized_path_clean line m :
  ~ In nl line -> clean_key (normalized_path (strip (group1 line m))).
Proof.
  intros Hl. rewrite normalized_path_map. repeat split.
  - rewrite strip_map, strip_idem; [reflexivity|].
    intros c. destruct (Ascii.eqb c "\") eqn:E.
    + apply Ascii.eqb_eq in E. now subst c.
    + destruct (Ascii.eqb c "/") eqn:E'; [|reflexivity].
      apply Ascii.eqb_eq in E'. now subst c.
  - intros H. apply in_map_iff in H as (c & Hc & _).
    destruct (Ascii.eqb c "\") eqn:E; [discriminate|].
    destruct (Ascii.eqb c "/") eqn:E'; [discriminate|].
    apply Ascii.eqb_neq in E. congruence.
  - intros H. apply in_map_iff in H as (c & Hc & Hin).
    destruct (Ascii.eqb c "\") eqn:E; [discriminate|].
    destruct (Ascii.eqb c "/") eqn:E'; [discriminate|].
    subst c. apply Hl. apply in_group1 with (m := m). now apply in_strip.
Qed.

Lemma split_lines_single c s : Forall (fun w => ~ In c w) (split c s).
Proof.
  induction s as [|x s IH]; simpl.
  - constructor; [intros [] | constructor].
  - destruct (Ascii.eqb x c) eqn:E.
    + constructor; [intros [] | exact IH].
    + apply Ascii.eqb_neq in E. inversion IH as [|w ws Hw Hws Heq]; subst.
      * repeat constructor. intros [G|[]]. congruence.
      * constructor; [|exact Hws]. intros [G|G]; [congruence | auto].
Qed.

Section Dict.
Variable V : Type.
Implicit Types d : PyDict.dict V.

Lemma keys_set k (v : V) d :
  PyDict.keys (PyDict.set k v d)
  = if existsb (fun k' => str_eqb k' k) (PyDict.keys d) then PyDict.keys d
    else PyDict.keys d ++ [k].
Proof.
  induction d as [|[k' v'] d IH]; simpl; [reflexivity|].
  destruct (str_eqb k' k) eqn:E; simpl.
  - apply str_eqb_eq in E. now subst.
  - rewrite IH. destruct (existsb _ (PyDict.keys d)); reflexivity.
Qed.

Lemma keys_set_nodup k (v : V) d :
  NoDup (PyDict.keys d) -> NoDup (PyDict.keys (PyDict.set k v d)).
Proof.
  intros H. rewrite keys_set.
  destruct (existsb _ (PyDict.keys d)) eqn:E; [exact H|].
  apply NoDup_app; [exact H | repeat constructor; intros [] |].
  intros x Hx [->|[]].
  assert (existsb (fun k' => str_eqb k' x) (PyDict.keys d) = true); [|congruence].
  apply existsb_exists. exists x. split; [exact Hx | apply str_eqb_refl].
Qed.

Lemma keys_set_forall (P : str -> Prop) k (v : V) d :
  P k -> Forall P (PyDict.keys d) -> Forall P (PyDict.keys (PyDict.set k v d)).
Proof.
  intros Hk H. rewrite keys_set. destruct (existsb _ (PyDict.keys d)); [exact H|].
  apply Forall_app. split; [exact H | now constructor].
Qed.

End Dict.

Lemma set_clean k v d : clean_key k -> clean_keys d -> clean_keys (PyDict.set k v d).
Proof.
  intros Hk [H1 H2]. split; [now apply keys_set_nodup | now apply keys_set_forall].
Qed.

Lemma empty_clean : clean_keys [].
Proof. split; constructor. Qed.

(** A path at hand in the scan: read from a line. *)
Definition from_line (p : option str) : Prop :=
  match p with
  | Some path => clean_key (normalized_path path)
  | None => True
  end.

Section Delimiter.
Variable delimiter : regex.

Lemma save_current_clean st :
  clean_keys (files st) -> from_line (current_path st) -> clean_keys (save_current st).
Proof.
  unfold save_current, from_line. destruct (current_path st); [|auto].
  intros H1 H2. now apply set_clean.
Qed.

Lemma scan_line_clean st line :
  ~ In nl line ->
  clean_keys (files st) /\ from_line (current_path st) ->
  clean_keys (files (scan_line delimiter st line))
  /\ from_line (current_path (scan_line delimiter st line)).
Proof.
  intros Hl [H1 H2]. unfold scan_line.
  destruct (re_match delimiter line) as [m|].
  - cbn [files current_path]. split; [now apply save_current_clean|].
    now apply normalized_path_clean.
  - destruct (current_path st) eqn:E; [|rewrite ?E; auto].
    destruct (re_match code_block_pattern (strip line)); cbn [files current_path]; auto.
Qed.

Lemma scan_files_clean text : clean_keys (scan_files delimiter text).
Proof.
  unfold scan_files.
  assert (G : forall lines st,
             Forall (fun w => ~ In nl w) lines ->
             clean_keys (files st) /\ from_line (current_path st) ->
             clean_keys (save_current (fold_left (scan_line delimiter) lines st))).
  { induction lines as [|l lines IH]; intros st Hl Hs; simpl.
    - destruct Hs. now apply save_current_clean.
    - inversion Hl; subst. apply IH; [assumption|]. now apply scan_line_clean. }
  apply G; [apply split_lines_single|]. split; [apply empty_clean | exact I].
Qed.

End Delimiter.

Lemma save_current_t_clean st :
  clean_keys (Code2testt.files st) -> from_line (Code2testt.current_path st) ->
  clean_keys (Code2testt.save_current st).
Proof.
  unfold Code2testt.save_current, from_line. destruct (Code2testt.current_path st); [|auto].
  intros H1 H2. now apply set_clean.
Qed.

Lemma scan_line_t_clean st line :
  ~ In nl line ->
  clean_keys (Code2testt.files st) /\ from_line (Code2testt.current_path st) ->
  clean_keys (Code2testt.files (Code2testt.scan_line st line))
  /\ from_line (Code2testt.current_path (Code2testt.scan_line st line)).
Proof.
  intros Hl [H1 H2]. unfold Code2testt.scan_line.
  destruct (re_match Code2testt.file_delimiter_pattern line) as [m|].
  - cbn [Code2testt.files Code2testt.current_path].
    split; [now apply save_current_t_clean|]. now apply normalized_path_clean.
  - destruct (Code2testt.current_path st) eqn:E; [|rewrite ?E; auto].
    cbn [Code2testt.files Code2testt.current_path]. auto.
Qed.

Lemma parse_ai_response_clean response : clean_keys (Code2testt.parse_ai_response response).
Proof.
  unfold Code2testt.parse_ai_response.
  assert (G : forall lines st,
             Forall (fun w => ~ In nl w) lines ->
             clean_keys (Code2testt.files st) /\ from_line (Code2testt.current_path st) ->
             clean_keys (Code2testt.save_current (fold_left Code2testt.scan_line lines st))).
  { induction lines as [|l lines IH]; intros st Hl Hs; simpl.
    - destruct Hs. now apply save_current_t_clean.
    - inversion Hl; subst. apply IH; [assumption|]. now apply scan_line_t_clean. }
  apply G; [apply split_lines_single|]. split; [apply empty_clean | exact I].
Qed.

End KeyFacts.
(** ** The Extractor: the claims *)

Module ExtractorClaims.
Import Re ReFacts PyStrFacts ExtractorSpec Extractor ExtractorFacts WrapFacts.

Section AnyDecoder.
Variable json_loads : str -> loads_result.

Lemma second_attempt_spec text :
  second_attempt json_loads text =
  match tagged_fence_interior text with
  | Some c => try_loads json_loads c
                (L "Successfully parsed analysis plan from markdown code block.") (fun _ => [])
  | None => Pass []
  end.
Proof.
  unfold second_attempt. rewrite <- json_block_search.
  destruct (re_search json_block_pattern text); reflexivity.
Qed.

Lemma third_attempt_spec text :
  third_attempt json_loads text =
  match brace_span text with
  | Some c => try_loads json_loads c
                (L "Successfully parsed analysis plan from extracted JSON object.")
                (fun _ => [])
  | None => Pass []
  end.
Proof.
  unfold third_attempt. rewrite <- json_pattern_search.
  destruct (re_search json_pattern text); reflexivity.
Qed.

Lemma final_attempt_spec text :
  final_attempt json_loads text =
  match unfenced_text text with
  | Some c => try_loads json_loads c
                (L "Successfully parsed analysis plan after removing outer markdown markers.")
                (fun e => [Stdout (L "All JSON parsing attempts failed: " ++ e)])
  | None => Pass []
  end.
Proof.
  unfold final_attempt, unfenced_text.
  destruct (startswith (L "```") (strip text)) eqn:Hs; [|reflexivity].
  destruct (endswith (L "```") (strip text)) eqn:He; [|reflexivity].
  cbn [andb]. now rewrite outer_fence_sub.
Qed.

Lemma cascade_value text :
  returned (parse_analysis_response json_loads text)
  = Some (cascade json_loads (strategies text)).
Proof.
  unfold parse_analysis_response, attempts, strategies, whole_text, first_attempt.
  rewrite second_attempt_spec, third_attempt_spec, final_attempt_spec.
  unfold try_loads. cbn [cascade].
  destruct (json_loads (strip text)); [reflexivity | | reflexivity].
  destruct (tagged_fence_interior text) as [c2|];
    [destruct (json_loads c2); [reflexivity | | reflexivity] |];
    (destruct (brace_span text) as [c3|];
     [destruct (json_loads c3); [reflexivity | | reflexivity] |];
     (destruct (unfenced_text text) as [c4|];
      [destruct (json_loads c4); reflexivity | reflexivity])).
Qed.

End AnyDecoder.








(** A candidate that gives no value: it is absent, or it does not
    decode. *)
Definition undecodable (json_loads : str -> loads_result) (c : option str) : Prop :=
  match c with
  | None => True
  | Some t => exists e, json_loads t = JSONDecodeError e
  end.









(** A reply with two blocks tagged json: the first does not decode, the
    second does. *)
Definition two_blocks : str :=
  join [nl] [L "```json"; L "{bad"; L "```"; L "and"; L "```json"; Lq "{'a':1}"; L "```"].

(** C10.  When the trimmed text does not decode and the interior of the
    first block tagged json does not decode either, the Extractor's value is
    that of the cascade over the two candidates left, the brace span and
    the unfenced text: no later block is tried.  On [two_blocks] the
    candidate of strategy 2 is the interior of the first block although the
    second block's interior decodes, the brace span runs from the first
    block into the second, and the Extractor returns None. *)
Theorem first_json_block_only :
  (forall json_loads text c e1 e2,
     json_loads (strip text) = JSONDecodeError e1 ->
     tagged_fence_interior text = Some c ->
     json_loads c = JSONDecodeError e2 ->
     returned (parse_analysis_response json_loads text)
     = Some (cascade json_loads [brace_span text; unfenced_text text]))
  /\ (tagged_fence_interior two_blocks = Some (L "{bad")
      /\ json_loads_py (Lq "{'a':1}") = LoadsOk (JObj [(jkey "a", JInt 1)])
      /\ brace_span two_blocks
         = Some (join [nl] [L "{bad"; L "```"; L "and"; L "```json"; Lq "{'a':1}"])
      /\ returned (parse_analysis_response json_loads_py two_blocks) = Some JNull).
Proof.
  split.
  - intros json_loads text c e1 e2 H1 H2 H3.
    rewrite cascade_value. unfold strategies, whole_text. cbn [cascade].
    now rewrite H1, H2, H3.
  - repeat split; vm_compute; reflexivity.
Qed.

Lemma first_json_block_only_witness :
  json_loads_py (strip two_blocks) = JSONDecodeError (L "Expecting value")
  /\ tagged_fence_interior two_blocks = Some (L "{bad")
  /\ json_loads_py (L "{bad")
     = JSONDecodeError (L "Expecting property name enclosed in double quotes")
  /\ returned (parse_analysis_response json_loads_py two_blocks)
     = Some (cascade json_loads_py [brace_span two_blocks; unfenced_text two_blocks]).
Proof.
  assert (H1 : json_loads_py (strip two_blocks) = JSONDecodeError (L "Expecting value"))
    by (vm_compute; reflexivity).
  assert (H2 : tagged_fence_interior two_blocks = Some (L "{bad"))
    by (vm_compute; reflexivity).
  assert (H3 : json_loads_py (L "{bad")
               = JSONDecodeError (L "Expecting property name enclosed in double quotes"))
    by (vm_compute; reflexivity).
  exact (conj H1 (conj H2 (conj H3
           (proj1 first_json_block_only json_loads_py two_blocks _ _ _ H1 H2 H3)))).
Defined.

(** An array that holds one object. *)
Definition array_of_object : str := Lq "[{'a':1}]".

(** C8 as stated fails: the array [array_of_object] decodes to itself when
    given bare or in a fence tagged json, and to the object inside it when
    given in a fence without tag (strategy 3 finds the span of the braces). *)
Lemma fence_invariance_counterexample :
  json_loads_py array_of_object = LoadsOk (JArr [JObj [(jkey "a", JInt 1)]])
  /\ returned (parse_analysis_response json_loads_py array_of_object)
     = Some (JArr [JObj [(jkey "a", JInt 1)]])
  /\ returned (parse_analysis_response json_loads_py (wrap_tagged array_of_object))
     = Some (JArr [JObj [(jkey "a", JInt 1)]])
  /\ returned (parse_analysis_response json_loads_py (wrap_untagged array_of_object))
     = Some (JObj [(jkey "a", JInt 1)])
  /\ returned (parse_analysis_response json_loads_py (wrap_untagged array_of_object))
     <> returned (parse_analysis_response json_loads_py array_of_object).
Proof.
  repeat split; try (vm_compute; reflexivity).
  vm_compute. discriminate.
Qed.

Lemma json_loads_py_rejects_backtick t :
  startswith [backtick] t = true -> exists e, json_loads_py t = JSONDecodeError e.
Proof.
  destruct t as [|c t]; [discriminate|]. intros H.
  apply startswith_cons_inv in H as [<- _].
  exists (L "Expecting value"). unfold json_loads_py.
  replace (2 * List.length (backtick :: t) + 2) with (S (2 * List.length t + 3))
    by (simpl; lia).
  reflexivity.
Qed.

Section Fenced.
Variable json_loads : str -> loads_result.
Hypothesis rejects_backtick :
  forall t, startswith [backtick] t = true -> exists e, json_loads t = JSONDecodeError e.

(** The value for a text in a fence tagged json: the first candidate is
    refused, the second is the text up to its first fence token. *)
Lemma tagged_value s :
  returned (parse_analysis_response json_loads (wrap_tagged s))
  = Some (cascade json_loads
            [Some (strip (before_fence s)); brace_span s; Some (lstrip (s ++ [nl]))]).
Proof.
  rewrite cascade_value. unfold strategies, whole_text. cbn [cascade].
  rewrite strip_wrap_tagged.
  destruct (rejects_backtick (wrap_tagged s) eq_refl) as (e & ->).
  now rewrite tagged_interior_wrap_tagged, brace_span_wrap_tagged, unfenced_wrap_tagged.
Qed.

(** The value for a text in a fence without tag: the first candidate is
    refused. *)
Lemma untagged_value s :
  returned (parse_analysis_response json_loads (wrap_untagged s))
  = Some (cascade json_loads
            [tagged_fence_interior (s ++ nl :: L "```"); brace_span s;
             Some (lstrip (s ++ [nl]))]).
Proof.
  rewrite cascade_value. unfold strategies, whole_text. cbn [cascade].
  rewrite strip_wrap_untagged.
  destruct (rejects_backtick (wrap_untagged s) eq_refl) as (e & ->).
  now rewrite tagged_interior_wrap_untagged_any, brace_span_wrap_untagged,
    unfenced_wrap_untagged.
Qed.

End Fenced.

Lemma brace_span_object s :
  startswith (L "{") (strip s) = true -> endswith (L "}") (strip s) = true ->
  brace_span s = Some (strip s).
Proof.
  intros Hs He. rewrite <- brace_span_wrap_untagged. now apply brace_span_of_wrap.
Qed.

Lemma brace_span_no_brace s : find (L "{") s = None -> brace_span s = None.
Proof. intros F. unfold brace_span. now rewrite F. Qed.

(** The interior of the first block tagged json that opens inside a text
    given in a fence: the fence that closes the wrapper closes the block
    when the text has no fence token after the tag.  There is none when the
    text holds no tag. *)
Definition inner_block (s : str) : option str :=
  tagged_fence_interior (s ++ nl :: L "```").

(** The value that strategies 3 and 4 give for a text in a fence: the value
    of its brace span when that decodes; the value of the text followed by
    a newline when the text has no brace span or its brace span does not
    decode. *)
Definition later_value (json_loads : str -> loads_result) (s : str) (u : json) : Prop :=
  (exists b, brace_span s = Some b /\ json_loads b = LoadsOk u)
  \/ (undecodable json_loads (brace_span s) /\ json_loads (lstrip (s ++ [nl])) = LoadsOk u).

Lemma later_value_cascade json_loads s u :
  later_value json_loads s u ->
  cascade json_loads [brace_span s; Some (lstrip (s ++ [nl]))] = u.
Proof.
  intros [(b & -> & Hb) | (Hu & Hn)]; cbn [cascade].
  - now rewrite Hb.
  - destruct (brace_span s) as [b|]; [destruct Hu as (e & ->) |]; now rewrite Hn.
Qed.

Lemma first_undecodable json_loads c rest :
  undecodable json_loads c -> cascade json_loads (c :: rest) = cascade json_loads rest.
Proof.
  destruct c as [t|]; [intros (e & H); cbn [cascade]; now rewrite H | reflexivity].
Qed.

(** C8, amended.  A text whose trimmed form decodes to [v] gives [v] when
    it is given bare.  Let the decoder refuse every text that starts with a
    backtick, as [json.loads] does.  Given in a fence, the text gives the
    value of the first candidate that decodes among three: the trimmed
    text up to its first fence token (in a fence tagged json) or the
    interior of the first block tagged json that opens inside the text (in
    a fence without tag); then the brace span of the text; then the text
    followed by a newline.  So a text without fence token gives [v] in a
    fence tagged json, whatever it is.  When the first candidate is absent
    or does not decode, the text gives, in either fence, the value of its
    brace span if that decodes, and otherwise the value of the text
    followed by a newline: that is [v] for every object, and for every text
    without opening brace that decodes to [v] when followed by a newline.
    An earlier candidate that decodes to another value gives that value,
    as does the brace span of an array that holds one object. *)
Theorem fence_invariance_by_candidates :
  forall (json_loads : str -> loads_result) (s : str) (v : json),
    json_loads (strip s) = LoadsOk v ->
    returned (parse_analysis_response json_loads s) = Some v
    /\ ((forall t, startswith [backtick] t = true ->
                   exists e, json_loads t = JSONDecodeError e) ->
        returned (parse_analysis_response json_loads (wrap_tagged s))
        = Some (cascade json_loads
                  [Some (strip (before_fence s)); brace_span s; Some (lstrip (s ++ [nl]))])
        /\ returned (parse_analysis_response json_loads (wrap_untagged s))
           = Some (cascade json_loads
                     [inner_block s; brace_span s; Some (lstrip (s ++ [nl]))])
        /\ (find (L "```") s = None ->
            returned (parse_analysis_response json_loads (wrap_tagged s)) = Some v)
        /\ (forall u,
              undecodable json_loads (Some (strip (before_fence s))) ->
              later_value json_loads s u ->
              returned (parse_analysis_response json_loads (wrap_tagged s)) = Some u)
        /\ (forall u,
              undecodable json_loads (inner_block s) ->
              later_value json_loads s u ->
              returned (parse_analysis_response json_loads (wrap_untagged s)) = Some u)
        /\ (find (L "```json") s = None -> inner_block s = None)
        /\ (startswith (L "{") (strip s) = true -> endswith (L "}") (strip s) = true ->
            later_value json_loads s v)
        /\ (find (L "{") s = None -> json_loads (lstrip (s ++ [nl])) = LoadsOk v ->
            later_value json_loads s v)).
Proof.
  intros json_loads s v Hv. split.
  - rewrite cascade_value. unfold strategies, whole_text. cbn [cascade]. now rewrite Hv.
  - intros Hrej. repeat apply conj.
    + now apply tagged_value.
    + now apply untagged_value.
    + intros F. rewrite tagged_value by exact Hrej. unfold before_fence. rewrite F.
      cbn [cascade]. now rewrite Hv.
    + intros u Hb Hl. rewrite tagged_value by exact Hrej.
      rewrite first_undecodable by exact Hb. now rewrite (later_value_cascade Hl).
    + intros u Hb Hl. rewrite untagged_value by exact Hrej.
      rewrite first_undecodable by exact Hb. now rewrite (later_value_cascade Hl).
    + apply tagged_interior_closed_none.
    + intros Hs He. left. exists (strip s). split; [now apply brace_span_object | exact Hv].
    + intros Fb Hn. right. rewrite (brace_span_no_brace _ Fb). split; [exact I | exact Hn].
Qed.

(** An object with members, an array of numbers, a number, and objects
    that hold the fence token, and the fence token with the tag, in a
    string. *)
Definition object_text : str := Lq " {'a': [1, 'x']} ".
Definition array_text : str := L "[1, 2]".
Definition number_text : str := L "42".
Definition fence_in_string : str := Lq "{'a': '```'}".
Definition tag_in_string : str := Lq "{'a': '```json'}".

Lemma fence_invariance_by_candidates_witness :
  (returned (parse_analysis_response json_loads_py object_text)
   = Some (JObj [(jkey "a", JArr [JInt 1; jstr "x"])])
   /\ returned (parse_analysis_response json_loads_py (wrap_tagged object_text))
      = Some (JObj [(jkey "a", JArr [JInt 1; jstr "x"])])
   /\ returned (parse_analysis_response json_loads_py (wrap_untagged object_text))
      = Some (JObj [(jkey "a", JArr [JInt 1; jstr "x"])]))
  /\ (returned (parse_analysis_response json_loads_py array_text)
      = Some (JArr [JInt 1; JInt 2])
      /\ returned (parse_analysis_response json_loads_py (wrap_tagged array_text))
         = Some (JArr [JInt 1; JInt 2])
      /\ returned (parse_analysis_response json_loads_py (wrap_untagged array_text))
         = Some (JArr [JInt 1; JInt 2]))
  /\ (returned (parse_analysis_response json_loads_py number_text) = Some (JInt 42)
      /\ returned (parse_analysis_response json_loads_py (wrap_tagged number_text))
         = Some (JInt 42)
      /\ returned (parse_analysis_response json_loads_py (wrap_untagged number_text))
         = Some (JInt 42))
  /\ (returned (parse_analysis_response json_loads_py (wrap_tagged fence_in_string))
      = Some (JObj [(jkey "a", jstr "```")])
      /\ returned (parse_analysis_response json_loads_py (wrap_untagged fence_in_string))
         = Some (JObj [(jkey "a", jstr "```")]))
  /\ (returned (parse_analysis_response json_loads_py (wrap_tagged tag_in_string))
      = Some (JObj [(jkey "a", jstr "```json")])
      /\ returned (parse_analysis_response json_loads_py (wrap_untagged tag_in_string))
         = Some (JObj [(jkey "a", jstr "```json")])).
Proof.
  assert (Ho : json_loads_py (strip object_text)
               = LoadsOk (JObj [(jkey "a", JArr [JInt 1; jstr "x"])]))
    by (vm_compute; reflexivity).
  assert (Ha : json_loads_py (strip array_text) = LoadsOk (JArr [JInt 1; JInt 2]))
    by (vm_compute; reflexivity).
  assert (Hn : json_loads_py (strip number_text) = LoadsOk (JInt 42))
    by (vm_compute; reflexivity).
  assert (Hf : json_loads_py (strip fence_in_string) = LoadsOk (JObj [(jkey "a", jstr "```")]))
    by (vm_compute; reflexivity).
  assert (Ht : json_loads_py (strip tag_in_string)
               = LoadsOk (JObj [(jkey "a", jstr "```json")]))
    by (vm_compute; reflexivity).
  destruct (fence_invariance_by_candidates json_loads_py object_text Ho) as (O1 & O).
  destruct (O json_loads_py_rejects_backtick) as (_ & _ & O2 & _ & O3 & O4 & O5 & _).
  destruct (fence_invariance_by_candidates json_loads_py array_text Ha) as (A1 & A).
  destruct (A json_loads_py_rejects_backtick) as (_ & _ & A2 & _ & A3 & A4 & _ & A5).
  destruct (fence_invariance_by_candidates json_loads_py number_text Hn) as (N1 & N).
  destruct (N json_loads_py_rejects_backtick) as (_ & _ & N2 & _ & N3 & N4 & _ & N5).
  destruct (fence_invariance_by_candidates json_loads_py fence_in_string Hf) as (_ & F).
  destruct (F json_loads_py_rejects_backtick) as (_ & _ & _ & F2 & F3 & F4 & F5 & _).
  destruct (fence_invariance_by_candidates json_loads_py tag_in_string Ht) as (_ & T).
  destruct (T json_loads_py_rejects_backtick) as (_ & _ & _ & T2 & T3 & _ & T5 & _).
  repeat apply conj.
  - exact O1.
  - apply O2. vm_compute. reflexivity.
  - apply O3; [rewrite O4 by (vm_compute; reflexivity); exact I
              | apply O5; vm_compute; reflexivity].
  - exact A1.
  - apply A2. vm_compute. reflexivity.
  - apply A3; [rewrite A4 by (vm_compute; reflexivity); exact I
              | apply A5; vm_compute; reflexivity].
  - exact N1.
  - apply N2. vm_compute. reflexivity.
  - apply N3; [rewrite N4 by (vm_compute; reflexivity); exact I
              | apply N5; vm_compute; reflexivity].
  - apply F2; [exists (L "Unterminated string starting at"); vm_compute; reflexivity
              | apply F5; vm_compute; reflexivity].
  - apply F3; [rewrite F4 by (vm_compute; reflexivity); exact I
              | apply F5; vm_compute; reflexivity].
  - apply T2; [exists (L "Unterminated string starting at"); vm_compute; reflexivity
              | apply T5; vm_compute; reflexivity].
  - apply T3; [exists (L "Unterminated string starting at"); vm_compute; reflexivity
              | apply T5; vm_compute; reflexivity].
Defined.

End ExtractorClaims.
(** ** The Parser: the claims *)

Module ParserClaims.
Import Re PyStrFacts Parser ParserSpec ParserFacts.

(** The reply of the scenario of section 8. *)
Definition login_reply : str :=
  join [nl] [L "--- File: pages/LoginPage.robot ---"; L "```"; L "LOGIN = id=login"; L "```";
             L "--- File: tests/LoginTests.robot ---"; L "Suite Setup  Open Browser"; L ""].

Definition login_blocks : list block :=
  [(L "--- File: pages/LoginPage.robot ---", L "pages/LoginPage.robot",
    [L "```"; L "LOGIN = id=login"; L "```"]);
   (L "--- File: tests/LoginTests.robot ---", L "tests/LoginTests.robot",
    [L "Suite Setup  Open Browser"])].

(** A file whose body holds fence lines, and two markers whose paths differ
    by the kind of slash only. *)
Definition fenced_reply : str := join [nl] [L "--- File: a.py"; L "```"; L "x = 1"; L "```"].
Definition slashes_reply : str :=
  join [nl] [L "--- File: a\b"; L "one"; L "--- File: a/b"; L "two"].

(** C4 as stated fails.  The lines buffered for [a.py] in [fenced_reply]
    are the fence, the assignment and the fence, and the body stored is the
    assignment alone, not the join of the three.  The two markers of
    [slashes_reply] announce two distinct paths, and the result has one
    entry. *)
Lemma parser_body_counterexample :
  split nl (strip fenced_reply)
  = reply_lines [] [(L "--- File: a.py", L "a.py", [L "```"; L "x = 1"; L "```"])]
  /\ fst (parse_generation_response fenced_reply) = [(L "a.py", L "x = 1")]
  /\ L "x = 1" <> join [nl] [L "```"; L "x = 1"; L "```"]
  /\ map marker_path [L "--- File: a\b"; L "--- File: a/b"] = [Some (L "a\b"); Some (L "a/b")]
  /\ L "a\b" <> L "a/b"
  /\ fst (parse_generation_response slashes_reply) = [(L "a/b", L "two")].
Proof.
  repeat split; try (vm_compute; reflexivity); vm_compute; discriminate.
Qed.

(** C4, amended.  Every reply is a preamble without marker line followed by
    blocks, each a marker line and the lines without marker buffered for it.
    The parser returns the dictionary obtained by assigning, block after
    block, the post-processed body (the buffered lines, without the fence
    lines unless the path is a prose path, joined by newlines) to the
    slash-normalized path; the last block is stored like the others.  When
    the normalized paths are pairwise distinct the result has one entry per
    block, in the order of the markers.  Without any marker the result is
    empty and a warning is printed. *)
Theorem parser_entries :
  (forall response, exists preamble blocks,
      split nl (strip response) = reply_lines preamble blocks
      /\ Forall (fun l => marker_path l = None) preamble
      /\ Forall well_formed_block blocks)
  /\
  (forall response preamble blocks,
      split nl (strip response) = reply_lines preamble blocks ->
      Forall (fun l => marker_path l = None) preamble ->
      Forall well_formed_block blocks ->
      fst (parse_generation_response response) = PyDict.update [] (map block_entry blocks)
      /\ (NoDup (map block_key blocks) ->
          fst (parse_generation_response response) = map block_entry blocks
          /\ List.length (fst (parse_generation_response response)) = List.length blocks)
      /\ (blocks = [] ->
          parse_generation_response response
          = ([], [Stdout (L "--- Parsing Generation Response ---");
                  Stdout (L "Warning: No files extracted from response.")]))).
Proof.
  split.
  - intros response. apply lines_decompose.
  - intros response preamble blocks Hl Hp Hb.
    assert (Hf : scan_files file_delimiter_pattern response
                 = PyDict.update [] (map block_entry blocks)).
    { unfold scan_files. rewrite Hl. unfold reply_lines. rewrite fold_left_app.
      rewrite (@scan_preamble preamble (Scanning [] None [] false None) Hp eq_refl).
      now rewrite scan_blocks. }
    unfold parse_generation_response. cbn [fst]. rewrite Hf.
    split; [reflexivity|]. split.
    + intros Hn. unfold PyDict.update. rewrite assign_distinct.
      * cbn [app]. split; [reflexivity|]. now rewrite length_map.
      * cbn [app PyDict.keys]. unfold PyDict.keys. now rewrite block_entry_key.
    + intros ->. reflexivity.
Qed.

Lemma parser_entries_witness :
  split nl (strip login_reply) = reply_lines [] login_blocks
  /\ fst (parse_generation_response login_reply)
     = [(L "pages/LoginPage.robot", L "LOGIN = id=login");
        (L "tests/LoginTests.robot", L "Suite Setup  Open Browser")].
Proof.
  assert (Hl : split nl (strip login_reply) = reply_lines [] login_blocks)
    by (vm_compute; reflexivity).
  assert (Hb : Forall well_formed_block login_blocks).
  { repeat constructor; vm_compute; reflexivity. }
  assert (Hn : NoDup (map block_key login_blocks)).
  { repeat constructor; vm_compute; intuition discriminate. }
  split; [exact Hl|].
  exact (proj1 (proj1 (proj2 (proj2 parser_entries login_reply [] login_blocks
                                Hl (Forall_nil _) Hb)) Hn)).
Defined.

(** C5 as stated fails in [code2testt.py]: [clean_content] keeps a fence
    line inside the body of a file that is not prose, and removes the fence
    lines at the head and at the end of a prose file. *)
Lemma clean_content_counterexample :
  Code2testt.parse_ai_response (join [nl] [L "--- File: a.py"; L "x"; L "```"; L "y"])
  = [(L "a.py", join [nl] [L "x"; L "```"; L "y"])]
  /\ Code2testt.parse_ai_response
       (join [nl] [L "--- File: README.md"; L "```"; L "pip install"; L "```"])
     = [(L "README.md", L "pip install")].
Proof. split; vm_compute; reflexivity. Qed.

(** C5, amended.  In [code2test.py] the body stored for a path and a buffer
    is the join of the buffer as it is when the path, in lower case, ends
    with .md or .markdown, and otherwise the join of its lines that are not
    fence-marker lines (after trimming: the fence token, optionally followed
    by word characters); a blank line and a line with backticks amid other
    text are not fence-marker lines.  In [code2testt.py] the body stored
    for a buffer, whatever the path, is the trimmed join of the buffer
    without a fence-marker line at its head and then without one at its
    end. *)
Theorem fence_stripping :
  (forall path buffer,
     process_content buffer (is_markdown_file path)
     = join [nl] (if is_markdown_file path then buffer
                  else filter (fun l => negb (is_fence_line l)) buffer))
  /\ (is_markdown_file (L "README.md") = true
      /\ is_markdown_file (L "docs/Guide.MARKDOWN") = true
      /\ is_markdown_file (L "pages/LoginPage.robot") = false)
  /\ (is_fence_line (L "```") = true
      /\ is_fence_line (L "```python") = true
      /\ is_fence_line (L "  ```  ") = true
      /\ is_fence_line (L "") = false
      /\ is_fence_line (L "run ``` here") = false
      /\ is_fence_line (L "```python x") = false)
  /\ (forall buffer,
        Code2testt.clean_content buffer = strip (join [nl] (without_outer_fences buffer))).
Proof.
  split; [|split; [|split]].
  - intros path buffer. apply process_content_spec.
  - repeat split; vm_compute; reflexivity.
  - repeat split; vm_compute; reflexivity.
  - apply clean_content_spec.
Qed.

(** The marker the validation prompt asks for when a file is new. *)
Definition new_file_reply : str :=
  join [nl] [L "--- File: pages/NewPage.robot (NEW) ---"; L "*** Settings ***"].

Definition validation_path (line : str) : option str :=
  option_map (fun m => strip (group1 line m)) (re_match file_delimiter_pattern_validation line).

(** C6: the code at the failing input.  Whatever the decoder, the
    validation parser stores the file of [new_file_reply] under a path that
    ends with the annotation.  Of the marker forms, the pattern of the
    validation parser reads the path alone from the bare path, the path with
    closing sentinel, the path with annotation, and the path with closing
    sentinel and then annotation; it keeps the annotation when the closing
    sentinel follows it.  The pattern of the generation parser reads the
    path alone from the first two and keeps the annotation otherwise. *)
Theorem new_annotation_kept_in_path :
  (forall json_loads,
     parse_validation_response json_loads new_file_reply
     = Validated JNull [(L "pages/NewPage.robot (NEW)", L "*** Settings ***")]
         [Stdout (L "--- Parsing Validation Response ---");
          Stdout (L "Warning: No JSON validation report found in Agent 3's response.")])
  /\ map validation_path
       [L "--- File: p.robot"; L "--- File: p.robot ---"; L "--- File: p.robot (NEW)";
        L "--- File: p.robot --- (NEW)"; L "--- File: p.robot (NEW) ---"]
     = [Some (L "p.robot"); Some (L "p.robot"); Some (L "p.robot");
        Some (L "p.robot"); Some (L "p.robot (NEW)")]
  /\ map marker_path
       [L "--- File: p.robot"; L "--- File: p.robot ---"; L "--- File: p.robot (NEW)";
        L "--- File: p.robot --- (NEW)"; L "--- File: p.robot (NEW) ---"]
     = [Some (L "p.robot"); Some (L "p.robot"); Some (L "p.robot (NEW)");
        Some (L "p.robot --- (NEW)"); Some (L "p.robot (NEW)")].
Proof.
  split; [|split].
  - intros json_loads. vm_compute. reflexivity.
  - vm_compute. reflexivity.
  - vm_compute. reflexivity.
Qed.

End ParserClaims.
(** ** The Materializer: the claims *)

Module MaterializerClaims.
Import PosixPath Os Materializer MaterializerSpec MaterializerFacts MaterializerShapes.

(** A file system with the working directory and nothing else. *)
Definition empty_work : PosixFS.world :=
  PosixFS.World (L "/work") [(L "/work", PosixFS.Dir)].

(** A file system where the output directory holds a symbolic link to a
    directory outside it. *)
Definition linked_root : PosixFS.world :=
  PosixFS.World (L "/work")
    [(L "/work", PosixFS.Dir);
     (L "/etc", PosixFS.Dir);
     (L "/work/out", PosixFS.Dir);
     (L "/work/out/link", PosixFS.Link (L "/etc"))].

(** A file system whose working directory is gone. *)
Definition gone_work : PosixFS.world := PosixFS.World (L "/work") [].

Definition link_entry : PyDict.dict str := [(L "link/passwd", L "pwned")].

(** An entry below the link, in a directory that is not there yet. *)
Definition deep_link_entry : PyDict.dict str := [(L "link/sub/passwd", L "pwned")].

(** C1: the code at the failing input.  With a symbolic link [link] to
    [/etc] inside the output directory [/work/out], the entry
    [link/sub/passwd] passes every check, for the path checked,
    [/work/out/link/sub/passwd], begins with the root and a separator.
    The run creates the directory [/etc/sub] and writes the file
    [/etc/sub/passwd]: the file written resolves to a path that is not
    inside the root, and nothing is added below the root.  So do
    [store_test_files] of [code2test.py] and of [code2testt.py]. *)
Theorem written_file_resolves_outside_root :
  let checked := L "/work/out/link/sub/passwd" in
  let r := run (store_test_files PosixFS.posix deep_link_entry (L "out") false) linked_root in
  let rt := run (store_test_files_t PosixFS.posix deep_link_entry (L "out") false)
              linked_root in
  inside (L "/work/out") checked = true
  /\ inside (L "/work/out") (L "/etc/sub/passwd") = false
  /\ (end_of r = Returns tt
      /\ written (trace r) = [checked]
      /\ filter is_verdict (printed (trace r)) = [wrote_line checked]
      /\ PosixFS.realpath (final_world r) checked = inl (L "/etc/sub/passwd")
      /\ PosixFS.nodes (final_world r)
         = PosixFS.nodes linked_root
           ++ [(L "/etc/sub", PosixFS.Dir);
               (L "/etc/sub/passwd", PosixFS.File (L "pwned"))])
  /\ (end_of rt = Returns tt
      /\ written (trace rt) = [checked]
      /\ filter is_verdict (printed (trace rt)) = [wrote_line checked]
      /\ PosixFS.realpath (final_world rt) checked = inl (L "/etc/sub/passwd")
      /\ PosixFS.nodes (final_world rt)
         = PosixFS.nodes linked_root
           ++ [(L "/etc/sub", PosixFS.Dir);
               (L "/etc/sub/passwd", PosixFS.File (L "pwned"))]).
Proof. vm_compute. repeat split. Qed.

(** C2: the check is made on the string that [os.path.abspath] gives, and
    [abspath] does not read the file system.  With a symbolic link [link]
    to [/etc] inside the output directory [/work/out], the entry
    [link/passwd] passes the check, for [/work/out/link/passwd] begins with
    the root and a separator; the file system resolves that path to
    [/etc/passwd], which is not inside the root, and the file is written
    there, by [store_test_files] of [code2test.py] and of
    [code2testt.py]. *)
Theorem check_does_not_resolve_links :
  let checked := abspath (L "/work") (join (L "/work/out") (normpath (L "link/passwd"))) in
  let r := run (store_test_files PosixFS.posix link_entry (L "out") false) linked_root in
  let rt := run (store_test_files_t PosixFS.posix link_entry (L "out") false) linked_root in
  checked = L "/work/out/link/passwd"
  /\ inside (L "/work/out") checked = true
  /\ PosixFS.realpath linked_root checked = inl (L "/etc/passwd")
  /\ inside (L "/work/out") (L "/etc/passwd") = false
  /\ PosixFS.lookup linked_root (L "/etc/passwd") = None
  /\ (end_of r = Returns tt
      /\ written (trace r) = [checked]
      /\ PosixFS.lookup (final_world r) (L "/etc/passwd") = Some (PosixFS.File (L "pwned"))
      /\ PosixFS.lookup (final_world r) checked = None)
  /\ (end_of rt = Returns tt
      /\ written (trace rt) = [checked]
      /\ PosixFS.lookup (final_world rt) (L "/etc/passwd") = Some (PosixFS.File (L "pwned"))
      /\ PosixFS.lookup (final_world rt) checked = None).
Proof. vm_compute. repeat split. Qed.

(** C3, as worded: the call result is not the outcome.  Two runs, one that
    writes a file and one that refuses its only entry, give the same
    result, the [None] of a function without [return]. *)
Lemma outcome_not_returned_counterexample :
  let r1 := run (store_test_files PosixFS.posix [(L "a.txt", L "x")] (L "out") false)
                empty_work in
  let r2 := run (store_test_files PosixFS.posix [(L "../a.txt", L "x")] (L "out") false)
                empty_work in
  end_of r1 = Returns tt /\ end_of r2 = Returns tt
  /\ written (trace r1) = [L "/work/out/a.txt"] /\ written (trace r2) = []
  /\ filter is_verdict (printed (trace r2))
     = [Stderr (L "Warning: Skipping potentially unsafe file path provided by AI: '../a.txt'")].
Proof. vm_compute. repeat split. Qed.

(** An exception that the scripts do not catch: it came out of
    [os.getcwd], or it is not an [OSError] and came out of [os.makedirs]
    or [shutil.rmtree]. *)
Definition uncaught (msg : str) (tr : list event) : Prop :=
  In (Getcwd (CwdError msg)) tr
  \/ exists p, In (Makedirs p (OtherError msg)) tr \/ In (Rmtree p (OtherError msg)) tr.

Lemma uncaught_app_l msg a b : uncaught msg a -> uncaught msg (a ++ b).
Proof.
  intros [H | (p & [H|H])]; [left | right; exists p; left | right; exists p; right];
    apply in_or_app; now left.
Qed.

Lemma uncaught_app_r msg a b : uncaught msg b -> uncaught msg (a ++ b).
Proof.
  intros [H | (p & [H|H])]; [left | right; exists p; left | right; exists p; right];
    apply in_or_app; now right.
Qed.

Lemma entry_uncaught root rel content ev msg :
  entry_shape root rel content ev (Raises msg) -> uncaught msg ev.
Proof.
  intros H. remember (Raises msg) as e eqn:E.
  entry_cases H; try discriminate; injection E as <-;
    try (left; now left);
    try (right; eexists; left; now left);
    try (right; eexists; left; right; now left).
Qed.

Lemma loop_uncaught root files ev msg :
  loop_shape root files ev (Raises msg) -> uncaught msg ev.
Proof.
  intros H. remember (Raises msg) as e eqn:E. revert msg E.
  induction H; intros m E; try discriminate.
  - apply uncaught_app_r. now apply IHloop_shape.
  - injection E as <-. eapply entry_uncaught; eauto.
Qed.

Section AnyOS.
Variable World : Type.
Variable os : OS World.

(** How a run of [store_test_files] of [code2test.py] ends, and what has
    been printed and written then. *)
Definition run_summary (files : PyDict.dict str) (output_dir : str) (w : World)
           (tr : list event) (e : ending unit) : Prop :=
  match e with
  | Returns _ =>
      exists root,
        abspath_at os w output_dir = Returns root
        /\ Forall2 (settles root) files (filter is_verdict (printed tr))
        /\ last (printed tr) (Stdout []) = footer (List.length (written tr))
  | Exits code =>
      code = 1
      /\ (exists root err,
            abspath_at os w output_dir = Returns root
            /\ In (Makedirs root (OSError err)) tr)
      /\ (forall p c o, ~ In (OpenWrite p c o) tr)
      /\ filter is_verdict (printed tr) = []
  | Raises msg => uncaught msg tr
  end.

Lemma start_plain (w : World) output_dir :
  let start := Printed (header output_dir) :: cwd_events os w output_dir in
  filter is_verdict (printed start) = []
  /\ written start = []
  /\ (forall p c o, ~ In (OpenWrite p c o) start).
Proof.
  destruct (cwd_events_plain os w output_dir) as (Hp & Hw & Hn).
  cbn zeta. cbn [printed written]. rewrite Hp, Hw. repeat split.
  intros p c o [H|H]; [discriminate | now apply Hn in H].
Qed.

Lemma run_shape_summary files output_dir clear w tr e :
  run_shape os files output_dir clear w tr e -> run_summary files output_dir w tr e.
Proof.
  unfold run_shape, run_summary.
  destruct (start_plain w output_dir) as (Sv & Sw & Sn).
  set (start := Printed (header output_dir) :: cwd_events os w output_dir) in *.
  destruct (abspath_at os w output_dir) as [root|code|msg] eqn:Ha; [| contradiction |].
  - intros (ev1 & e1 & H1 & H).
    pose proof (prepare_exit H1) as Hx.
    pose proof (prepare_opens_nothing H1) as Hn1.
    pose proof (prepare_settles_nothing H1) as Hv1.
    destruct e1 as [[]|code|msg].
    + destruct H as (ev2 & e2 & H2 & H). destruct e2 as [flags|code|msg]; [| contradiction |].
      * destruct H as (-> & ->). destruct (loop_verdicts H2) as (Hf & Hc).
        exists root. split; [reflexivity|]. split.
        -- rewrite !printed_app, !filter_app, Sv, Hv1. cbn [printed filter app is_verdict].
           replace (is_verdict (footer (count_true flags))) with false by reflexivity.
           now rewrite app_nil_r.
        -- rewrite !app_assoc, printed_app. cbn [printed]. rewrite last_last.
           rewrite <- !app_assoc, !written_app, Sw, (@written_none ev1 Hn1). cbn [written app].
           now rewrite app_nil_r, Hc.
      * destruct H as (-> & ->). rewrite app_assoc. apply uncaught_app_r.
        eapply loop_uncaught; eauto.
    + destruct H as (-> & ->). destruct Hx as (-> & err & Herr).
      split; [reflexivity|]. split; [|split].
      * exists root, err. split; [reflexivity|]. apply in_or_app. now right.
      * intros p c o Hin. apply in_app_or in Hin as [Hin|Hin];
          [now apply Sn in Hin | now apply Hn1 in Hin].
      * now rewrite printed_app, filter_app, Sv, Hv1.
    + destruct H as (-> & ->). apply uncaught_app_r. right. exists root. tauto.
  - intros (-> & ->). left. unfold start, cwd_events.
    unfold abspath_at in Ha. destruct (isabs output_dir); [discriminate|].
    destruct (getcwd os w); [discriminate|]. injection Ha as ->. right. now left.
Qed.

Lemma run_wrote_as_written files output_dir clear w tr e :
  run_shape os files output_dir clear w tr e -> wrote_as_written tr.
Proof.
  unfold run_shape.
  assert (S : wrote_as_written (Printed (header output_dir) :: cwd_events os w output_dir)).
  { unfold wrote_as_written, cwd_events. destruct (isabs output_dir); reflexivity. }
  set (start := Printed (header output_dir) :: cwd_events os w output_dir) in *.
  destruct wrote_as_written_additive as [Q0 Qapp].
  destruct (abspath_at os w output_dir) as [root|code|msg]; [| contradiction |].
  - intros (ev1 & e1 & H1 & H). pose proof (prepare_wrote_as_written H1) as P1.
    destruct e1 as [[]|code|msg].
    + destruct H as (ev2 & e2 & H2 & H).
      assert (P2 : wrote_as_written ev2).
      { eapply loop_additive; [split; eauto | | exact H2].
        intros rel content ev e0 _ He. eapply entry_wrote_as_written; eauto. }
      destruct e2 as [flags|code|msg]; [| contradiction |]; destruct H as (-> & _);
        repeat apply Qapp; auto; reflexivity.
    + destruct H as (-> & _). now apply Qapp.
    + destruct H as (-> & _). now apply Qapp.
  - intros (-> & _). exact S.
Qed.

End AnyOS.

(** C3, amended: [store_test_files] of [code2test.py] gives no value back;
    what happened is printed.  A run is made of the header, the call of
    [os.getcwd] when the output directory is not absolute, the preparation
    of the output directory, the events of the entries in their order, and
    the footer; it ends in one of four ways.  It returns [None]: then
    every entry is settled by one line, in the order of the entries, and
    the line is decided by the path of the entry (the warning of the first
    check that refuses it: empty or whitespace, parent reference, absolute,
    outside the output directory; past the checks, for the final path of
    the entry, the line of the file written, of the subdirectory not
    created, or of the file not written), and the last line printed gives
    the number of files written.  Or it exits with status 1: then the
    creation of the output directory failed with [OSError], no file was
    opened and no entry was settled.  Or [os.getcwd] raised, the working
    directory being gone: the exception is not caught.  Or an exception
    that is no [OSError] came out of [shutil.rmtree] or [os.makedirs]: it
    is not caught either.  However the run ends, the lines that say a file
    was written are those of the files written, in their order.  On a file
    system whose working directory is gone, a run with the output
    directory [out] raises after the header, and a run with the output
    directory [/out] writes its file. *)
Theorem outcome_is_printed :
  (forall (World : Type) (os : OS World) (w : World) files output_dir clear,
      let r := run (store_test_files os files output_dir clear) w in
      run_shape os files output_dir clear w (trace r) (end_of r)
      /\ match end_of r with
         | Returns _ =>
             exists root,
               abspath_at os w output_dir = Returns root
               /\ Forall2 (settles root) files (filter is_verdict (printed (trace r)))
               /\ last (printed (trace r)) (Stdout [])
                  = footer (List.length (written (trace r)))
         | Exits code =>
             code = 1
             /\ (exists root err,
                   abspath_at os w output_dir = Returns root
                   /\ In (Makedirs root (OSError err)) (trace r))
             /\ (forall p c o, ~ In (OpenWrite p c o) (trace r))
             /\ filter is_verdict (printed (trace r)) = []
         | Raises msg =>
             In (Getcwd (CwdError msg)) (trace r)
             \/ exists p, In (Makedirs p (OtherError msg)) (trace r)
                          \/ In (Rmtree p (OtherError msg)) (trace r)
         end
      /\ filter is_wrote (printed (trace r)) = map wrote_line (written (trace r)))
  /\ (let r := run (store_test_files PosixFS.posix [(L "a.txt", L "x")] (L "out") false)
                 gone_work in
      trace r = [Printed (header (L "out"));
                 Getcwd (CwdError (L "[Errno 2] No such file or directory"))]
      /\ end_of r = Raises (L "[Errno 2] No such file or directory"))
  /\ (let r := run (store_test_files PosixFS.posix [(L "a.txt", L "x")] (L "/out") false)
                 gone_work in
      end_of r = Returns tt /\ written (trace r) = [L "/out/a.txt"]).
Proof.
  split; [|split; vm_compute; repeat split].
  intros World os w files output_dir clear r.
  pose proof (store_test_files_shape os files output_dir clear w) as H. fold r in H.
  split; [exact H | split].
  - change (run_summary os files output_dir w (trace r) (end_of r)).
    eapply run_shape_summary; exact H.
  - change (wrote_as_written (trace r)). eapply run_wrote_as_written; exact H.
Qed.

End MaterializerClaims.
(** ** The Materializer: more of what a run does and never does *)

Module MaterializerExtras.
Import PosixPath Os Materializer MaterializerSpec MaterializerFacts PyStrFacts.
Import PathFacts MaterializerShapes.

(** The directories a run has called [shutil.rmtree] on. *)
Fixpoint removed (tr : list event) : list str :=
  match tr with
  | [] => []
  | Rmtree p _ :: tr' => p :: removed tr'
  | _ :: tr' => removed tr'
  end.

(** The warning of the check of the final path. *)
Definition is_outside_warning (l : line) : bool :=
  match l with
  | Stderr s =>
      startswith (L "Warning: Skipping file path attempting to write outside output directory")
        s
  | Stdout _ => false
  end.

(** A file system with a working directory, and files to store. *)
Definition work_only : PosixFS.world :=
  PosixFS.World (L "/work") [(L "/work", PosixFS.Dir)].

Definition some_files : PyDict.dict str :=
  [(L "tests/login.robot", L "*** Test Cases ***"); (L "../up.txt", L "x");
   (L ".", L "y"); (L "README.md", L "z")].

Lemma removed_app a b : removed (a ++ b) = removed a ++ removed b.
Proof.
  induction a as [|[l|p r|p r|p c r|r] a IH]; simpl; auto. now rewrite IH.
Qed.

(** The final path of an entry, with the working directory at hand. *)
Definition full_path (cwd root rel : str) : str := abspath cwd (join root (normpath rel)).

(** *** The check of the final path *)

(** Past the checks of the relative path, the final path is inside the
    output directory, unless that directory is the root of the file
    system. *)
Lemma checks_imply_inside cwd output_dir rel :
  isabs cwd = true ->
  abspath cwd output_dir <> L "/" -> abspath cwd output_dir <> L "//" ->
  climbs rel = false -> isabs (normpath rel) = false ->
  inside (abspath cwd output_dir) (full_path cwd (abspath cwd output_dir) rel) = true.
Proof.
  intros Hcwd H1 H2 Hc Ha.
  destruct (@abspath_rooted cwd output_dir Hcwd) as (i & cs & Hi & Pcs & E). rewrite E in *.
  assert (Hne : cs <> []).
  { intros ->. destruct Hi as [-> | ->]; [now apply H1 | now apply H2]. }
  destruct (@rooted_cons i cs Hi) as (t & Et).
  assert (Ej : forall n, startswith [sep] n = false ->
                         abspath cwd (join (rooted i cs) n)
                         = normpath (rooted i cs ++ sep :: n)).
  { intros n Hn. rewrite join_below; auto using rooted_endswith.
    - unfold abspath.
      replace (isabs (rooted i cs ++ sep :: n)) with true by (rewrite Et; reflexivity).
      reflexivity.
    - rewrite Et. discriminate. }
  unfold full_path. rewrite (Ej _ Ha).
  destruct (@normpath_rel rel Ha Hc) as [-> | (ds & Hds & Pds & ->)].
  - rewrite (@normpath_below_dot i cs Hi Hne Pcs). unfold inside. now rewrite str_eqb_refl.
  - rewrite (@normpath_below i cs ds Hi Hne Pcs Hds Pds). unfold inside.
    change (rooted i cs ++ sep :: PyStr.join [sep] ds)
      with (rooted i cs ++ [sep] ++ PyStr.join [sep] ds).
    rewrite app_assoc, startswith_app. apply orb_true_r.
Qed.

(** The output directory is the root of the file system. *)
Definition bare (root : str) : bool := str_eqb root (L "/") || str_eqb root (L "//").

Lemma bare_rooted root : bare root = true -> exists i, (i = 1 \/ i = 2) /\ root = rooted i [].
Proof.
  unfold bare. intros H. apply orb_true_iff in H as [H | H]; apply str_eqb_eq in H; subst.
  - exists 1. auto.
  - exists 2. auto.
Qed.

(** When it is, no path below it passes the check: the final path begins
    with one separator, or two, and never with [root + os.sep]. *)
Lemma bare_inside cwd root rel :
  bare root = true -> climbs rel = false -> isabs (normpath rel) = false ->
  inside root (full_path cwd root rel) = true -> full_path cwd root rel = root.
Proof.
  intros Hb Hc Ha. destruct (bare_rooted root Hb) as (i & Hi & ->).
  unfold full_path.
  destruct (@normpath_rel rel Ha Hc) as [-> | (ds & Hds & Pds & ->)].
  - intros _. destruct Hi as [-> | ->]; reflexivity.
  - assert (Hh : startswith [sep] (PyStr.join [sep] ds) = false).
    { rewrite <- (app_nil_r (PyStr.join [sep] ds)). now apply head_not_sep. }
    assert (Ej : abspath cwd (join (rooted i []) (PyStr.join [sep] ds)) = rooted i ds).
    { rewrite join_slash by (assumption || (destruct Hi as [-> | ->]; reflexivity)).
      replace (rooted i [] ++ PyStr.join [sep] ds) with (rooted i ds)
        by (destruct Hi as [-> | ->]; reflexivity).
      unfold abspath.
      replace (isabs (rooted i ds)) with true by (destruct Hi as [-> | ->]; reflexivity).
      now apply normpath_rooted. }
    rewrite Ej. unfold inside. intros H. exfalso.
    apply orb_true_iff in H as [H | H].
    + apply str_eqb_eq in H. unfold rooted in H. apply app_inv_head in H.
      cbn [PyStr.join] in H. destruct ds as [|d ds]; [congruence|].
      inversion Pds; subst. apply proper_nonempty in H2.
      destruct d; [congruence|]. destruct ds; discriminate.
    + unfold rooted in H. cbn [PyStr.join] in H. rewrite app_nil_r in H.
      assert (E : startswith (repeat sep i ++ [sep]) (repeat sep i ++ PyStr.join [sep] ds)
                  = startswith [sep] (PyStr.join [sep] ds))
        by (destruct Hi as [-> | ->]; cbn; rewrite ?Ascii.eqb_refl; reflexivity).
      congruence.
Qed.

Definition never_warns_outside (tr : list event) : Prop :=
  Forall (fun l => is_outside_warning l = false) (printed tr).

Definition opens_only (root : str) (tr : list event) : Prop :=
  forall p c r, In (OpenWrite p c r) tr -> p = root.

Lemma never_warns_additive : additive never_warns_outside.
Proof.
  split; [constructor|]. unfold never_warns_outside. intros a b Ha Hb.
  rewrite printed_app. apply Forall_app. now split.
Qed.

Lemma opens_only_additive root : additive (opens_only root).
Proof.
  split; [intros p c r []|]. intros a b Ha Hb p c r Hin.
  apply in_app_or in Hin as [Hin | Hin]; eauto.
Qed.

(** Below an absolute root the final path does not depend on the working
    directory. *)
Lemma full_path_absolute cwd root rel :
  isabs root = true -> full_path cwd root rel = normpath (join root (normpath rel)).
Proof.
  intros H. unfold full_path, abspath. now rewrite (@join_isabs root (normpath rel) H).
Qed.

Lemma entry_removes_nothing root rel content ev e :
  entry_shape root rel content ev e -> removed ev = [].
Proof. intros H. entry_cases H; reflexivity. Qed.

Lemma entry_never_warns cwd output_dir rel content ev e :
  isabs cwd = true -> bare (abspath cwd output_dir) = false ->
  entry_shape (abspath cwd output_dir) rel content ev e ->
  never_warns_outside ev.
Proof.
  intros Hcwd Hb H.
  assert (Habs : isabs (abspath cwd output_dir) = true).
  { destruct (@abspath_rooted cwd output_dir Hcwd) as (i & cs & Hi & _ & ->).
    destruct (@rooted_cons i cs Hi) as (t & ->). reflexivity. }
  unfold bare in Hb. apply orb_false_iff in Hb as [Hb1 Hb2].
  apply str_eqb_neq in Hb1, Hb2.
  entry_cases H; try (repeat constructor);
    try (match goal with
         | Hj : isabs (join _ _) = false |- _ =>
             rewrite (@join_isabs _ _ Habs) in Hj; discriminate Hj
         end).
  exfalso.
  match goal with Hi : inside _ _ = false |- _ =>
    rewrite <- (@full_path_absolute cwd _ rel Habs) in Hi;
    rewrite checks_imply_inside in Hi by assumption; discriminate
  end.
Qed.

Lemma entry_opens_only root rel content ev e :
  bare root = true -> entry_shape root rel content ev e -> opens_only root ev.
Proof.
  intros Hb H.
  assert (Habs : isabs root = true).
  { destruct (bare_rooted root Hb) as (i & Hi & ->).
    destruct (@rooted_cons i [] Hi) as (t & ->). reflexivity. }
  entry_cases H; intros p c r Hin; split_in Hin;
    try (match goal with
         | Hj : isabs (join _ _) = false |- _ =>
             rewrite (@join_isabs _ _ Habs) in Hj; discriminate Hj
         end);
    inversion Hin; subst;
    rewrite <- (@full_path_absolute root root rel Habs) in *;
    now apply bare_inside.
Qed.

Section AnyOS.
Variable World : Type.
Variable os : OS World.

Lemma prepare_removed out clear w ev e :
  prepare_shape os out clear w ev e ->
  removed ev = if clear && path_exists os w out then [out] else [].
Proof.
  intros H. prepare_cases H;
    match goal with E : _ && _ = _ |- _ => rewrite E end; reflexivity.
Qed.

Lemma prepare_never_warns out clear w ev e :
  prepare_shape os out clear w ev e -> never_warns_outside ev.
Proof. intros H. prepare_cases H; repeat constructor. Qed.

Lemma prepare_opens_only root out clear w ev e :
  prepare_shape os out clear w ev e -> opens_only root ev.
Proof. intros H p c r Hin. exfalso. eapply prepare_opens_nothing; eauto. Qed.

(** The absolute output directory, from a working directory that is
    absolute. *)
Lemma abspath_at_value w path root :
  (forall cwd, getcwd os w = Cwd cwd -> isabs cwd = true) ->
  abspath_at os w path = Returns root ->
  exists cwd, isabs cwd = true /\ root = abspath cwd path.
Proof.
  intros Hc. unfold abspath_at, abspath. destruct (isabs path) eqn:Hp.
  - intros [= <-]. exists [sep]. split; reflexivity.
  - destruct (getcwd os w) as [cwd|msg] eqn:G; [|discriminate].
    intros [= <-]. exists cwd. split; [now apply Hc | reflexivity].
Qed.

(** A property of the events that holds of the lines and calls around
    the entries holds of a run when it holds of the preparation and of
    every entry. *)
Lemma run_additive (Q : list event -> Prop) files output_dir clear w tr e :
  additive Q ->
  (forall l, is_verdict l = false -> Q [Printed l]) ->
  (forall c, Q [Getcwd c]) ->
  (forall root ev1 e1,
      abspath_at os w output_dir = Returns root ->
      prepare_shape os root clear w ev1 e1 -> Q ev1) ->
  (forall root rel content ev e,
      abspath_at os w output_dir = Returns root ->
      entry_shape root rel content ev e -> Q ev) ->
  run_shape os files output_dir clear w tr e -> Q tr.
Proof.
  intros [Q0 Qapp] Qline Qcwd Qprep Qentry. unfold run_shape.
  assert (S : Q (Printed (header output_dir) :: cwd_events os w output_dir)).
  { change (Q ([Printed (header output_dir)] ++ cwd_events os w output_dir)).
    apply Qapp; [now apply Qline|]. unfold cwd_events.
    destruct (isabs output_dir); [exact Q0 | apply Qcwd]. }
  destruct (abspath_at os w output_dir) as [root|code|msg]; [| contradiction |].
  - intros (ev1 & e1 & H1 & H). pose proof (Qprep root ev1 e1 eq_refl H1) as P1.
    destruct e1 as [[]|code|msg].
    + destruct H as (ev2 & e2 & H2 & H).
      assert (P2 : Q ev2).
      { eapply loop_additive; [split; eauto | | exact H2].
        intros rel content ev e0 _ He. eapply Qentry; eauto. }
      destruct e2 as [flags|code|msg]; [| contradiction |]; destruct H as (-> & _);
        repeat apply Qapp; auto.
    + destruct H as (-> & _). now apply Qapp.
    + destruct H as (-> & _). now apply Qapp.
  - intros (-> & _). exact S.
Qed.

Lemma run_additive_t (Q : list event -> Prop) files output_dir clear w tr e :
  let w1 := final_world (run (prepare_directory os output_dir clear) w) in
  additive Q ->
  (forall c, Q [Getcwd c]) ->
  (forall ev1 e1, prepare_shape os output_dir clear w ev1 e1 -> Q ev1) ->
  (forall root rel content ev e,
      abspath_at os w1 output_dir = Returns root ->
      entry_shape root rel content ev e -> Q ev) ->
  run_shape_t os files output_dir clear w tr e -> Q tr.
Proof.
  intros w1 [Q0 Qapp] Qcwd Qprep Qentry. unfold run_shape_t. fold w1.
  assert (S : Q (cwd_events os w1 output_dir)).
  { unfold cwd_events. destruct (isabs output_dir); [exact Q0 | apply Qcwd]. }
  intros (ev1 & e1 & H1 & H). pose proof (Qprep ev1 e1 H1) as P1.
  destruct e1 as [[]|code|msg].
  - destruct (abspath_at os w1 output_dir) as [root|code|msg]; [| contradiction |].
    + destruct H as (ev2 & e2 & H2 & -> & _).
      assert (P2 : Q ev2).
      { eapply loop_additive; [split; eauto | | exact H2].
        intros rel content ev e0 _ He. eapply Qentry; eauto. }
      repeat apply Qapp; auto.
    + destruct H as (-> & _). now apply Qapp.
  - destruct H as (-> & _). exact P1.
  - destruct H as (-> & _). exact P1.
Qed.

End AnyOS.


Section Runs.
Variable World : Type.
Variable os : OS World.

Lemma start_removes_nothing (w : World) output_dir :
  removed (Printed (header output_dir) :: cwd_events os w output_dir) = [].
Proof. unfold cwd_events. destruct (isabs output_dir); reflexivity. Qed.

Lemma loop_removes_nothing root files ev e : loop_shape root files ev e -> removed ev = [].
Proof.
  apply (@loop_additive (fun ev => removed ev = [])).
  - split; [reflexivity|]. intros a b Ha Hb. now rewrite removed_app, Ha, Hb.
  - intros rel content ev0 e0 _ H. eapply entry_removes_nothing; eauto.
Qed.

Lemma run_removed files output_dir clear w tr e :
  run_shape os files output_dir clear w tr e ->
  removed tr
  = match abspath_at os w output_dir with
    | Returns root => if clear && path_exists os w root then [root] else []
    | _ => []
    end.
Proof.
  unfold run_shape. pose proof (start_removes_nothing w output_dir) as S.
  set (start := Printed (header output_dir) :: cwd_events os w output_dir) in *.
  destruct (abspath_at os w output_dir) as [root|code|msg]; [| contradiction |].
  - intros (ev1 & e1 & H1 & H). rewrite <- (prepare_removed H1).
    destruct e1 as [[]|code|msg].
    + destruct H as (ev2 & e2 & H2 & H). pose proof (loop_removes_nothing H2) as L2.
      destruct e2 as [flags|code|msg]; [| contradiction |]; destruct H as (-> & _);
        rewrite !removed_app, S, L2; cbn [removed app]; now rewrite ?app_nil_r.
    + destruct H as (-> & _). now rewrite removed_app, S.
    + destruct H as (-> & _). now rewrite removed_app, S.
  - intros (-> & _). exact S.
Qed.

Lemma run_removed_t files output_dir clear w tr e :
  run_shape_t os files output_dir clear w tr e ->
  removed tr = if clear && path_exists os w output_dir then [output_dir] else [].
Proof.
  unfold run_shape_t.
  set (w1 := final_world (run (prepare_directory os output_dir clear) w)).
  assert (S : removed (cwd_events os w1 output_dir) = [])
    by (unfold cwd_events; destruct (isabs output_dir); reflexivity).
  intros (ev1 & e1 & H1 & H). rewrite <- (prepare_removed H1).
  destruct e1 as [[]|code|msg].
  - destruct (abspath_at os w1 output_dir) as [root|code|msg]; [| contradiction |].
    + destruct H as (ev2 & e2 & H2 & -> & _).
      now rewrite !removed_app, S, (loop_removes_nothing H2), app_nil_r.
    + destruct H as (-> & _). now rewrite removed_app, S, app_nil_r.
  - now destruct H as (-> & _).
  - now destruct H as (-> & _).
Qed.

End Runs.

(** [shutil.rmtree] is called on the output directory when the flag is
    set and the directory is there, once, and on nothing else; without
    the flag nothing is removed, and nothing is removed when the output
    directory cannot be made absolute. *)
Theorem rmtree_only_output_directory :
  forall (World : Type) (os : OS World) (w : World) files output_dir clear,
    removed (trace (run (store_test_files os files output_dir clear) w))
    = match abspath_at os w output_dir with
      | Returns root => if clear && path_exists os w root then [root] else []
      | _ => []
      end
    /\ removed (trace (run (store_test_files_t os files output_dir clear) w))
       = (if clear && path_exists os w output_dir then [output_dir] else []).
Proof.
  intros World os w files output_dir clear. split.
  - eapply run_removed. apply store_test_files_shape.
  - eapply run_removed_t. apply store_test_files_t_shape.
Qed.

(** Past the three checks of the relative path (blank, parent reference,
    absolute) the check of the final path cannot fail: when the working
    directory is absolute and the output directory is not the root of the
    file system, the warning of that check is never printed, whatever the
    entries. *)
Theorem outside_check_never_fires :
  forall (World : Type) (os : OS World) (w : World) files output_dir clear,
    let w1 := final_world (run (prepare_directory os output_dir clear) w) in
    (forall cwd, getcwd os w = Cwd cwd -> isabs cwd = true) ->
    (forall cwd, getcwd os w1 = Cwd cwd -> isabs cwd = true) ->
    (forall root, abspath_at os w output_dir = Returns root -> bare root = false) ->
    (forall root, abspath_at os w1 output_dir = Returns root -> bare root = false) ->
    never_warns_outside (trace (run (store_test_files os files output_dir clear) w))
    /\ never_warns_outside (trace (run (store_test_files_t os files output_dir clear) w)).
Proof.
  intros World os w files output_dir clear w1 Hw Hw1 Hb Hb1. split.
  - eapply run_additive; [apply never_warns_additive | | | | | apply store_test_files_shape].
    + intros l Hl. repeat constructor. destruct l as [s|s]; [reflexivity|].
      cbn [is_verdict] in Hl. apply orb_false_iff in Hl as [Hl _].
      apply orb_false_iff in Hl as [Hl _]. cbn [is_outside_warning].
      destruct (startswith
                  (L "Warning: Skipping file path attempting to write outside output directory")
                  s) eqn:E; [|reflexivity].
      apply (@ExtractorFacts.startswith_prefix (L "Warning: Skipping ")
               (L "file path attempting to write outside output directory") s) in E.
      congruence.
    + intros c. constructor.
    + intros root ev1 e1 _ H. eapply prepare_never_warns; eauto.
    + intros root rel content ev e Ha H.
      destruct (abspath_at_value os w output_dir Hw Ha) as (cwd & Hc & ->).
      eapply entry_never_warns; eauto.
  - eapply run_additive_t; [apply never_warns_additive | | | | apply store_test_files_t_shape].
    + intros c. constructor.
    + intros ev1 e1 H. eapply prepare_never_warns; eauto.
    + intros root rel content ev e Ha H.
      destruct (abspath_at_value os w1 output_dir Hw1 Ha) as (cwd & Hc & ->).
      eapply entry_never_warns; eauto.
Qed.

Lemma outside_check_never_fires_witness :
  never_warns_outside
    (trace (run (store_test_files PosixFS.posix some_files (L "robot_tests") true) work_only))
  /\ never_warns_outside
       (trace (run (store_test_files_t PosixFS.posix some_files (L "robot_tests") true)
                 work_only)).
Proof.
  apply (@outside_check_never_fires _ PosixFS.posix work_only some_files (L "robot_tests")
           true).
  - intros cwd H. vm_compute in H. injection H as <-. reflexivity.
  - intros cwd H. vm_compute in H. injection H as <-. reflexivity.
  - intros root H. vm_compute in H. injection H as <-. reflexivity.
  - intros root H. vm_compute in H. injection H as <-. reflexivity.
Defined.

(** When the output directory is the root of the file system, no entry
    is written below it: the only path a run can open is the root
    itself. *)
Theorem nothing_written_below_filesystem_root :
  forall (World : Type) (os : OS World) (w : World) files output_dir clear root,
    abspath_at os w output_dir = Returns root ->
    bare root = true ->
    opens_only root (trace (run (store_test_files os files output_dir clear) w)).
Proof.
  intros World os w files output_dir clear root Ha Hb.
  eapply run_additive; [apply opens_only_additive | | | | | apply store_test_files_shape].
  - intros l _ p c r Hin. split_in Hin.
  - intros c0 p c r Hin. split_in Hin.
  - intros root' ev1 e1 _ H. eapply prepare_opens_only; eauto.
  - intros root' rel content ev e Ha' H. rewrite Ha in Ha'. injection Ha' as <-.
    eapply entry_opens_only; eauto.
Qed.

Lemma nothing_written_below_filesystem_root_witness :
  opens_only (L "/")
    (trace (run (store_test_files PosixFS.posix some_files (L "/") false) work_only)).
Proof.
  apply (@nothing_written_below_filesystem_root _ PosixFS.posix work_only some_files
           (L "/") false (L "/")); reflexivity.
Defined.

(** *** The paths opened, as strings *)

(** The three entries that are refused, with any contents. *)
Definition rejected_batch (c1 c2 c3 : str) : PyDict.dict str :=
  [(L "../secret", c1); (L "/etc/passwd", c2); (L "a/../../b", c3)].

Definition rejected_lines : list line :=
  [unsafe_warning (L "../secret"); absolute_warning (L "/etc/passwd");
   unsafe_warning (L "a/../../b")].

Definition sample_batch : PyDict.dict str :=
  rejected_batch (L "x") (L "y") (L "z") ++ [(L "a/b/c.txt", L "hello")].

Definition sample_tree : list (str * PosixFS.node) :=
  [(L "/work", PosixFS.Dir);
   (L "/work/robot_tests", PosixFS.Dir);
   (L "/work/robot_tests/a", PosixFS.Dir);
   (L "/work/robot_tests/a/b", PosixFS.Dir);
   (L "/work/robot_tests/a/b/c.txt", PosixFS.File (L "hello"))].

Definition opens_nothing (tr : list event) : Prop := forall p c o, ~ In (OpenWrite p c o) tr.

Lemma opens_nothing_additive : additive opens_nothing.
Proof.
  split; [intros p c o []|]. intros a b Ha Hb p c o Hin.
  apply in_app_or in Hin as [Hin|Hin]; [eapply Ha | eapply Hb]; eauto.
Qed.

Section Refused.
Variable World : Type.
Variable os : OS World.

(** The three refused entries go through the loop without a call of the
    operating system: three warnings, the world as it was. *)
Lemma rejected_loop (A : Type) (g : bool -> A -> A) (root c1 c2 c3 : str) (acc : A)
      (s : World * list event) :
  for_each (rejected_batch c1 c2 c3)
    (fun entry acc => bind (store_entry os root entry) (fun wrote => ret (g wrote acc)))
    acc s
  = ((fst s, snd s ++ map Printed rejected_lines), Returns (g false (g false (g false acc)))).
Proof.
  destruct s as [w tr].
  change (snd (w, tr) ++ map Printed rejected_lines)
    with (tr ++ [Printed (nth 0 rejected_lines (Stdout []))]
             ++ [Printed (nth 1 rejected_lines (Stdout []))]
             ++ [Printed (nth 2 rejected_lines (Stdout []))]).
  rewrite !app_assoc. reflexivity.
Qed.

Lemma start_settles_nothing (w : World) output_dir :
  filter is_verdict (printed ([Printed (header output_dir)] ++ cwd_events os w output_dir)) = []
  /\ opens_nothing ([Printed (header output_dir)] ++ cwd_events os w output_dir).
Proof.
  unfold cwd_events. destruct (isabs output_dir); (split; [reflexivity|]);
    intros p c o Hin; split_in Hin.
Qed.

Lemma rejected_run (w : World) output_dir clear c1 c2 c3 :
  let r := run (store_test_files os (rejected_batch c1 c2 c3) output_dir clear) w in
  opens_nothing (trace r)
  /\ filter is_verdict (printed (trace r))
     = match end_of r with Returns _ => rejected_lines | _ => [] end.
Proof.
  unfold run, store_test_files.
  rewrite (@bind_returns _ _ _ _ _ (w, []) (w, [Printed (header output_dir)]) tt)
    by reflexivity.
  rewrite bind_abspath.
  destruct (start_settles_nothing w output_dir) as (Sv & Sn).
  set (start := [Printed (header output_dir)] ++ cwd_events os w output_dir) in *.
  destruct (abspath_at os w output_dir) as [root|code|msg].
  - destruct (prepare_directory_shape os root clear w start) as (w1 & ev1 & e1 & Hp & H1).
    pose proof (prepare_opens_nothing H1) as Hn1.
    pose proof (prepare_settles_nothing H1) as Hv1.
    destruct e1 as [[]|code|msg].
    + rewrite (@bind_returns _ _ _ _ _ _ _ _ Hp).
      rewrite (@bind_returns _ _ _ _ _ _ _ _
                 (rejected_loop (fun (wrote : bool) n => if wrote then S n else n)
                    root c1 c2 c3 0 (w1, start ++ ev1))).
      unfold print, trace, end_of. cbn [fst snd]. split.
      * apply (proj2 opens_nothing_additive);
          [apply (proj2 opens_nothing_additive);
             [apply (proj2 opens_nothing_additive); [exact Sn | exact Hn1]|]|];
          intros p c o Hin; unfold rejected_lines in Hin; cbn [map] in Hin; split_in Hin.
      * rewrite !printed_app, !filter_app, Sv, Hv1. reflexivity.
    + rewrite (@bind_exits _ _ _ _ _ _ _ _ Hp). unfold trace, end_of. cbn [fst snd]. split.
      * apply (proj2 opens_nothing_additive); assumption.
      * now rewrite printed_app, filter_app, Sv, Hv1.
    + rewrite (@bind_raises _ _ _ _ _ _ _ _ Hp). unfold trace, end_of. cbn [fst snd]. split.
      * apply (proj2 opens_nothing_additive); assumption.
      * now rewrite printed_app, filter_app, Sv, Hv1.
  - unfold trace, end_of. cbn [fst snd]. auto.
  - unfold trace, end_of. cbn [fst snd]. auto.
Qed.

Lemma rejected_run_t (w : World) output_dir clear c1 c2 c3 :
  let r := run (store_test_files_t os (rejected_batch c1 c2 c3) output_dir clear) w in
  opens_nothing (trace r)
  /\ filter is_verdict (printed (trace r))
     = match end_of r with Returns _ => rejected_lines | _ => [] end.
Proof.
  unfold run, store_test_files_t.
  destruct (prepare_directory_shape os output_dir clear w []) as (w1 & ev1 & e1 & Hp & H1).
  cbn [app] in Hp.
  pose proof (prepare_opens_nothing H1) as Hn1.
  pose proof (prepare_settles_nothing H1) as Hv1.
  destruct e1 as [[]|code|msg].
  - rewrite (@bind_returns _ _ _ _ _ _ _ _ Hp). rewrite bind_abspath.
    assert (Sc : filter is_verdict (printed (cwd_events os w1 output_dir)) = []
                 /\ opens_nothing (cwd_events os w1 output_dir)).
    { unfold cwd_events. destruct (isabs output_dir); (split; [reflexivity|]);
        intros p c o Hin; split_in Hin. }
    destruct Sc as (Sv & Sn).
    destruct (abspath_at os w1 output_dir) as [root|code|msg].
    + rewrite (rejected_loop (fun (_ : bool) (_ : unit) => tt)).
      unfold trace, end_of. cbn [fst snd]. split.
      * apply (proj2 opens_nothing_additive);
          [apply (proj2 opens_nothing_additive); [exact Hn1 | exact Sn]|].
        intros p c o Hin; unfold rejected_lines in Hin; cbn [map] in Hin; split_in Hin.
      * rewrite !printed_app, !filter_app, Sv, Hv1. reflexivity.
    + unfold trace, end_of. cbn [fst snd]. split.
      * apply (proj2 opens_nothing_additive); assumption.
      * now rewrite printed_app, filter_app, Sv, Hv1.
    + unfold trace, end_of. cbn [fst snd]. split.
      * apply (proj2 opens_nothing_additive); assumption.
      * now rewrite printed_app, filter_app, Sv, Hv1.
  - rewrite (@bind_exits _ _ _ _ _ _ _ _ Hp). unfold trace, end_of. cbn [fst snd].
    split; [exact Hn1 | exact Hv1].
  - rewrite (@bind_raises _ _ _ _ _ _ _ _ Hp). unfold trace, end_of. cbn [fst snd].
    split; [exact Hn1 | exact Hv1].
Qed.

Lemma run_writes_inside files output_dir clear w tr e :
  run_shape os files output_dir clear w tr e ->
  match abspath_at os w output_dir with
  | Returns root => writes_inside root tr
  | _ => opens_nothing tr
  end.
Proof.
  intros H. destruct (abspath_at os w output_dir) as [root|code|msg] eqn:Ha.
  - eapply run_additive; [apply writes_inside_additive | | | | | exact H].
    + intros l _ p c r Hin. split_in Hin.
    + intros c0 p c r Hin. split_in Hin.
    + intros root' ev1 e1 _ H1. apply no_write_inside. eapply prepare_opens_nothing; eauto.
    + intros root' rel content ev e0 Ha' He. rewrite Ha in Ha'. injection Ha' as <-.
      eapply entry_writes_inside; eauto.
  - unfold run_shape in H. now rewrite Ha in H.
  - unfold run_shape in H. rewrite Ha in H. destruct H as (-> & _).
    unfold cwd_events. destruct (isabs output_dir); intros p c o Hin; split_in Hin.
Qed.

Lemma run_writes_inside_t files output_dir clear w tr e :
  run_shape_t os files output_dir clear w tr e ->
  match abspath_at os (final_world (run (prepare_directory os output_dir clear) w))
          output_dir with
  | Returns root => writes_inside root tr
  | _ => opens_nothing tr
  end.
Proof.
  intros H.
  set (w1 := final_world (run (prepare_directory os output_dir clear) w)).
  destruct (abspath_at os w1 output_dir) as [root|code|msg] eqn:Ha.
  - eapply run_additive_t; [apply writes_inside_additive | | | | exact H].
    + intros c0 p c r Hin. split_in Hin.
    + intros ev1 e1 H1. apply no_write_inside. eapply prepare_opens_nothing; eauto.
    + intros root' rel content ev e0 Ha' He. fold w1 in Ha'. rewrite Ha in Ha'.
      injection Ha' as <-. eapply entry_writes_inside; eauto.
  - eapply run_additive_t; [apply opens_nothing_additive | | | | exact H].
    + intros c0 p c r Hin. split_in Hin.
    + intros ev1 e1 H1. exact (prepare_opens_nothing H1).
    + intros root' rel content ev e0 Ha' He. fold w1 in Ha'. rewrite Ha in Ha'. discriminate.
  - eapply run_additive_t; [apply opens_nothing_additive | | | | exact H].
    + intros c0 p c r Hin. split_in Hin.
    + intros ev1 e1 H1. exact (prepare_opens_nothing H1).
    + intros root' rel content ev e0 Ha' He. fold w1 in Ha'. rewrite Ha in Ha'. discriminate.
Qed.

End Refused.

(** Whatever the operating system, the files, the output directory and
    the clearing flag, every path that [store_test_files] hands to [open]
    is, as a string, the absolute output directory or begins with it
    followed by a separator, in [code2test.py] and in [code2testt.py]
    (where the directory is made absolute after its preparation); when the
    directory cannot be made absolute no file is opened.  With the entries
    [../secret], [/etc/passwd] and [a/../../b] no file is opened and the
    lines that settle entries are the three warnings, one for each; and on
    a file system that holds the working directory only, the batch of
    these three and [a/b/c.txt] leaves the directories [a] and [a/b] and
    the file [a/b/c.txt] under the output directory, and nothing else.
    The paths are compared as strings: no symbolic link is resolved. *)
Theorem opened_paths_inside_root_as_strings :
  (forall (World : Type) (os : OS World) (w : World) files output_dir clear,
      match abspath_at os w output_dir with
      | Returns root =>
          writes_inside root (trace (run (store_test_files os files output_dir clear) w))
      | _ => opens_nothing (trace (run (store_test_files os files output_dir clear) w))
      end)
  /\ (forall (World : Type) (os : OS World) (w : World) files output_dir clear,
      match abspath_at os (final_world (run (prepare_directory os output_dir clear) w))
              output_dir with
      | Returns root =>
          writes_inside root (trace (run (store_test_files_t os files output_dir clear) w))
      | _ => opens_nothing (trace (run (store_test_files_t os files output_dir clear) w))
      end)
  /\ (forall (World : Type) (os : OS World) (w : World) output_dir clear c1 c2 c3,
      let r := run (store_test_files os (rejected_batch c1 c2 c3) output_dir clear) w in
      opens_nothing (trace r)
      /\ filter is_verdict (printed (trace r))
         = match end_of r with Returns _ => rejected_lines | _ => [] end)
  /\ (forall (World : Type) (os : OS World) (w : World) output_dir clear c1 c2 c3,
      let r := run (store_test_files_t os (rejected_batch c1 c2 c3) output_dir clear) w in
      opens_nothing (trace r)
      /\ filter is_verdict (printed (trace r))
         = match end_of r with Returns _ => rejected_lines | _ => [] end)
  /\ (let r := run (store_test_files PosixFS.posix sample_batch (L "robot_tests") false)
                 work_only in
      end_of r = Returns tt
      /\ PosixFS.nodes (final_world r) = sample_tree
      /\ written (trace r) = [L "/work/robot_tests/a/b/c.txt"]
      /\ filter is_verdict (printed (trace r))
         = rejected_lines ++ [wrote_line (L "/work/robot_tests/a/b/c.txt")])
  /\ (let r := run (store_test_files_t PosixFS.posix sample_batch (L "robot_tests") false)
                 work_only in
      end_of r = Returns tt
      /\ PosixFS.nodes (final_world r) = sample_tree
      /\ written (trace r) = [L "/work/robot_tests/a/b/c.txt"]
      /\ filter is_verdict (printed (trace r))
         = rejected_lines ++ [wrote_line (L "/work/robot_tests/a/b/c.txt")]).
Proof.
  split; [|split; [|split; [|split; [|split]]]].
  - intros World os w files output_dir clear.
    eapply run_writes_inside. apply store_test_files_shape.
  - intros World os w files output_dir clear.
    eapply run_writes_inside_t. apply store_test_files_t_shape.
  - intros. apply rejected_run.
  - intros. apply rejected_run_t.
  - vm_compute. repeat split.
  - vm_compute. repeat split.
Qed.

End MaterializerExtras.
(** ** The traversal: what is listed, and when it fails *)

Module TraversalExtras.
Import PosixPath Os Traversal PyStrFacts PathFacts TraversalFacts TraversalSpec TraversalTree.

(** The names of the files of a listing. *)
Fixpoint top_files (entries : list (str * node)) : list str :=
  match entries with
  | [] => []
  | (f, File _) :: entries' => f :: top_files entries'
  | (_, Folder _) :: entries' => top_files entries'
  end.

(** What [traverse_directory] of [code2test.py] prints before the
    walk, and when it has nothing to return. *)
Definition start_lines (repr : list str -> str) (cwd root_dir : str) (patterns : list str)
  : list line :=
  [Stdout (L "Starting traversal from: " ++ abspath cwd root_dir);
   Stdout (L "Ignoring patterns: " ++ repr patterns)].

Definition nothing_found : line :=
  Stdout (L "Warning: No files found or read after applying ignore patterns.").

(** An application with a file, a directory of sources and a directory
    that the patterns ignore. *)
Definition sample_tree : node :=
  Folder (Some [(L "app.js", File (inl (L "let x = 1;")));
                (L "node_modules", Folder (Some [(L "dep.js", File (inl (L "dep")))]));
                (L "src", Folder (Some [(L "index.js", File (inl (L "main")));
                                        (L "debug.log", File (inl (L "log")));
                                        (L "broken.js", File (inr (L "permission denied")))]));
                (L "README.md", File (inl (L "# readme")))]).

Definition sample_isdir (path : str) : bool :=
  mem path [L "/home/me/test/shop/node_modules"; L "/home/me/test/shop/src";
            L "/home/me/shop/node_modules"; L "/home/me/shop/src"].

(** A path is ignored, in [code2testt.py], when one of its components
    matches one of the patterns: the test of the base name adds nothing,
    the base name being the last component. *)
Theorem should_ignore_t_any_component :
  forall (fnmatch : str -> str -> bool) path patterns,
    should_ignore_t fnmatch path patterns
    = existsb (matches_pattern fnmatch patterns) (split sep path).
Proof. intros. apply should_ignore_t_parts. Qed.

(** [should_ignore] of [code2test.py] gives the answer of the one of
    [code2testt.py], or raises [NameError]: it raises when the path is
    not a directory, its base name matches no pattern, and a component
    above it matches one. *)
Theorem should_ignore_agrees_or_raises :
  forall (fnmatch : str -> str -> bool) (isdir : str -> bool) path patterns,
    should_ignore fnmatch isdir path patterns
    = if negb (isdir path)
         && negb (matches_pattern fnmatch patterns (basename path))
         && should_ignore_t fnmatch path patterns
      then Raises name_error
      else Returns (should_ignore_t fnmatch path patterns).
Proof. intros. apply should_ignore_cases. Qed.

Lemma prefixed_nil (files : list (list str * (str + str))) : map (prefixed []) files = files.
Proof.
  rewrite <- (map_id files) at 2. apply map_ext. intros [ns c]. reflexivity.
Qed.

(** [traverse_directory] of [code2testt.py] returns, for a directory
    whose names are names of files, the blocks of the files of which no
    component of the path matches a pattern, in the order of the walk;
    the header of a block has the names below the directory walked,
    joined.  The pruning of the directories changes nothing in that: a
    file below a directory that is pruned has a component that
    matches. *)
Theorem traverse_directory_t_lists_unignored :
  forall (fnmatch : str -> str -> bool) cwd root_dir patterns tree,
    isabs cwd = true -> well_named tree = true ->
    traverse_directory_t fnmatch cwd root_dir patterns tree
    = Returns
        (List.concat
           (map (block read_text_t)
              (filter (fun file =>
                         negb (should_ignore_t fnmatch (under root_dir (fst file)) patterns))
                 (listed tree)))).
Proof.
  intros fnmatch cwd root_dir patterns tree Hcwd Hn.
  transitivity (walk (fun path => Returns (should_ignore_t fnmatch path patterns))
                  read_text_t cwd root_dir (under root_dir []) tree []); [reflexivity|].
  pose proof (listed_names tree Hn) as Hl. rewrite Forall_forall in Hl.
  destruct (existsb (matches_pattern fnmatch patterns) (stem root_dir)) eqn:Hs.
  - rewrite (@walk_all_ignored _ read_text_t cwd root_dir Hcwd); auto.
    + rewrite filter_none; [reflexivity|].
      intros file Hin. destruct (Hl file Hin) as (ns & d & -> & Hns & Hd).
      now rewrite ignore_t_below.
    + intros ns d Hns Hd. now rewrite ignore_t_below.
  - rewrite (@walk_clean fnmatch patterns _ read_text_t cwd root_dir Hcwd); auto.
    + cbn [app]. rewrite prefixed_nil. do 3 f_equal.
      apply filter_ext_in. intros file Hin.
      destruct (Hl file Hin) as (ns & d & E & Hns & Hd). unfold unmatched. rewrite E.
      rewrite ignored_t_under by assumption.
      now rewrite (existsb_app (matches_pattern fnmatch patterns) (stem root_dir)), Hs.
    + intros ns d Hns Hd Hc. now rewrite ignore_t_clean.
    + now rewrite app_nil_r.
Qed.

Lemma traverse_directory_t_lists_unignored_witness :
  traverse_directory_t Fnmatch.fnmatch (L "/home/me") (L "shop") IGNORE_PATTERNS sample_tree
  = Returns
      (L "--- File: app.js ---" ++ [nl] ++ L "let x = 1;" ++ [nl; nl]
       ++ L "--- File: src/index.js ---" ++ [nl] ++ L "main" ++ [nl; nl]
       ++ L "--- File: src/broken.js ---" ++ [nl]
       ++ L "[Error reading file: permission denied]" ++ [nl; nl]).
Proof.
  rewrite (@traverse_directory_t_lists_unignored Fnmatch.fnmatch (L "/home/me") (L "shop")
             IGNORE_PATTERNS sample_tree eq_refl eq_refl).
  reflexivity.
Defined.

(** [traverse_directory] of [code2test.py], when no component of the
    absolute path of the directory matches a pattern: it never raises;
    it returns the blocks of the files of which no name below the
    directory matches, in the order of the walk, and warns when there is
    none. *)
Theorem traverse_directory_lists_unmatched :
  forall (fnmatch : str -> str -> bool) repr isdir cwd root_dir patterns tree,
    isabs cwd = true -> well_named tree = true ->
    should_ignore_t fnmatch (abspath cwd root_dir) patterns = false ->
    let formatted_output :=
      List.concat (map (block read_text) (filter (unmatched fnmatch patterns) (listed tree))) in
    traverse_directory fnmatch repr isdir cwd root_dir patterns tree
    = (start_lines repr cwd root_dir patterns
       ++ match formatted_output with [] => [nothing_found] | _ => [] end,
       Returns formatted_output).
Proof.
  intros fnmatch repr isdir cwd root_dir patterns tree Hcwd Hn Hclean out.
  unfold traverse_directory. cbv zeta. fold (start_lines repr cwd root_dir patterns).
  fold nothing_found.
  set (R := abspath cwd root_dir) in *.
  assert (Hw : walk (fun path => should_ignore fnmatch isdir path patterns)
                 read_text cwd R R tree [] = Returns out).
  { change R with (under R []) at 2.
    rewrite (@walk_clean fnmatch patterns _ read_text cwd R Hcwd); auto.
    - cbn [app]. now rewrite prefixed_nil.
    - intros ns d Hns Hd Hc. now apply ignore_clean.
    - rewrite app_nil_r. now apply stem_clean. }
  match goal with
  | |- context [walk ?f ?g cwd R R tree []] =>
      change (walk f g cwd R R tree []) with (walk f read_text cwd R R tree [])
  end.
  rewrite Hw. destruct out; [reflexivity | now rewrite app_nil_r].
Qed.

Lemma traverse_directory_lists_unmatched_witness :
  traverse_directory Fnmatch.fnmatch (fun _ => L "[...]") sample_isdir (L "/home/me")
    (L "shop") IGNORE_PATTERNS sample_tree
  = (start_lines (fun _ => L "[...]") (L "/home/me") (L "shop") IGNORE_PATTERNS,
     Returns
       (L "--- File: app.js ---" ++ [nl] ++ L "let x = 1;" ++ [nl; nl]
        ++ L "--- File: src/index.js ---" ++ [nl] ++ L "main" ++ [nl; nl]
        ++ L "--- File: src/broken.js ---" ++ [nl]
        ++ L "[Error reading file src/broken.js: permission denied]" ++ [nl; nl])).
Proof.
  rewrite (@traverse_directory_lists_unmatched Fnmatch.fnmatch (fun _ => L "[...]")
             sample_isdir (L "/home/me") (L "shop") IGNORE_PATTERNS sample_tree
             eq_refl eq_refl eq_refl).
  reflexivity.
Defined.

(** [traverse_directory] of [code2testt.py] returns the empty text,
    whatever the directory holds, when a component of the directory as it
    is given matches a pattern. *)
Theorem traverse_directory_t_empty_below_match :
  forall (fnmatch : str -> str -> bool) cwd root_dir patterns tree,
    isabs cwd = true -> well_named tree = true ->
    existsb (matches_pattern fnmatch patterns) (stem root_dir) = true ->
    traverse_directory_t fnmatch cwd root_dir patterns tree = Returns [].
Proof.
  intros fnmatch cwd root_dir patterns tree Hcwd Hn Hs.
  transitivity (walk (fun path => Returns (should_ignore_t fnmatch path patterns))
                  read_text_t cwd root_dir (under root_dir []) tree []); [reflexivity|].
  apply (@walk_all_ignored _ read_text_t cwd root_dir Hcwd); auto.
  intros ns d Hns Hd. now rewrite ignore_t_below.
Qed.

Lemma traverse_directory_t_empty_below_match_witness :
  traverse_directory_t Fnmatch.fnmatch (L "/home/me") (L "test/shop") IGNORE_PATTERNS
    sample_tree
  = Returns [].
Proof.
  apply (@traverse_directory_t_empty_below_match Fnmatch.fnmatch (L "/home/me")
           (L "test/shop") IGNORE_PATTERNS sample_tree); reflexivity.
Defined.

Section Below.
Variable fnmatch : str -> str -> bool.
Variable isdir : str -> bool.
Variable patterns : list str.
Variables cwd R : str.
Hypothesis Hcwd : isabs cwd = true.
Hypothesis Hmatch : existsb (matches_pattern fnmatch patterns) (stem R) = true.

Local Notation "'ignore'" := (fun path => should_ignore fnmatch isdir path patterns).

Lemma ignore_below name :
  proper name = true ->
  should_ignore fnmatch isdir (join R name) patterns
  = if negb (isdir (join R name)) && negb (matches_pattern fnmatch patterns name)
    then Raises name_error else Returns true.
Proof.
  intros Hn. change (join R name) with (under R ([] ++ [name])).
  rewrite should_ignore_cases, basename_under, ignore_t_below by auto.
  fold (matches_pattern fnmatch patterns name). now rewrite andb_true_r.
Qed.

Lemma answers_cons name sub entries :
  answers isdir R ((name, sub) :: entries) = true ->
  isdir (join R name) = match sub with Folder _ => true | File _ => false end
  /\ answers isdir R entries = true.
Proof.
  unfold answers. cbn [forallb fst snd]. intros H. apply andb_true_iff in H as [H1 H2].
  apply eqb_prop in H1. auto.
Qed.

Lemma prune_below entries :
  named well_named entries = true -> answers isdir R entries = true ->
  prune ignore R entries = Returns tt.
Proof.
  induction entries as [|[name sub] entries IH]; intros Hn Ha; [reflexivity|].
  apply named_cons in Hn as (H1 & H2 & H3). apply answers_cons in Ha as (Ha1 & Ha2).
  cbn [prune]. destruct sub as [c|l]; [auto|].
  rewrite ignore_below, Ha1 by assumption. cbn [negb andb]. auto.
Qed.

Lemma walk_dirs_below walk entries out :
  named well_named entries = true -> answers isdir R entries = true ->
  walk_dirs ignore walk R entries out = Returns out.
Proof.
  induction entries as [|[name sub] entries IH]; intros Hn Ha; [reflexivity|].
  apply named_cons in Hn as (H1 & H2 & H3). apply answers_cons in Ha as (Ha1 & Ha2).
  cbn [walk_dirs]. destruct sub as [c|l]; [auto|].
  rewrite ignore_below, Ha1 by assumption. cbn [negb andb]. auto.
Qed.

Lemma read_files_below text_of entries out :
  named well_named entries = true -> answers isdir R entries = true ->
  read_files ignore text_of cwd R R entries out
  = if forallb (matches_pattern fnmatch patterns) (top_files entries)
    then Returns out else Raises name_error.
Proof.
  induction entries as [|[name sub] entries IH]; intros Hn Ha; [reflexivity|].
  apply named_cons in Hn as (H1 & H2 & H3). apply answers_cons in Ha as (Ha1 & Ha2).
  cbn [read_files top_files]. destruct sub as [c|l]; [|auto].
  change (join R name) with (under R [name]) at 1.
  rewrite relpath_under by (auto || discriminate).
  rewrite ignore_below, Ha1 by assumption. cbn [negb andb forallb].
  destruct (matches_pattern fnmatch patterns name); cbn [negb andb]; auto.
Qed.

End Below.

(** [traverse_directory] of [code2test.py], when a component of the
    absolute path of the directory matches a pattern: every directory is
    pruned, and the first file of the directory whose name matches no
    pattern makes [should_ignore] raise [NameError]; without such a file
    the text returned is empty. *)
Theorem traverse_directory_raises_below_match :
  forall (fnmatch : str -> str -> bool) repr isdir cwd root_dir patterns entries,
    isabs cwd = true -> well_named (Folder (Some entries)) = true ->
    should_ignore_t fnmatch (abspath cwd root_dir) patterns = true ->
    answers isdir (abspath cwd root_dir) entries = true ->
    traverse_directory fnmatch repr isdir cwd root_dir patterns (Folder (Some entries))
    = if forallb (matches_pattern fnmatch patterns) (top_files entries)
      then (start_lines repr cwd root_dir patterns ++ [nothing_found], Returns [])
      else (start_lines repr cwd root_dir patterns, Raises name_error).
Proof.
  intros fnmatch repr isdir cwd root_dir patterns entries Hcwd Hn Hm Ha.
  unfold traverse_directory. cbv zeta. fold (start_lines repr cwd root_dir patterns).
  fold nothing_found. cbn [well_named] in Hn.
  rewrite <- stem_abspath in Hm by assumption.
  cbn [walk]. rewrite prune_below by assumption.
  rewrite (@read_files_below fnmatch isdir patterns cwd _ Hcwd Hm) by assumption.
  destruct (forallb (matches_pattern fnmatch patterns) (top_files entries));
    [|reflexivity].
  now rewrite walk_dirs_below by assumption.
Qed.

Lemma traverse_directory_raises_below_match_witness :
  traverse_directory Fnmatch.fnmatch (fun _ => L "[...]") sample_isdir (L "/home/me/test")
    (L "shop") IGNORE_PATTERNS sample_tree
  = (start_lines (fun _ => L "[...]") (L "/home/me/test") (L "shop") IGNORE_PATTERNS,
     Raises name_error).
Proof.
  apply (@traverse_directory_raises_below_match Fnmatch.fnmatch (fun _ => L "[...]")
           sample_isdir (L "/home/me/test") (L "shop") IGNORE_PATTERNS); reflexivity.
Defined.

End TraversalExtras.
(** ** The patterns that the scripts ignore *)

Module DefaultPatterns.
Import Fnmatch PyStrFacts FnmatchFacts Traversal TraversalSpec.

(** The names, the endings and the beginnings that [IGNORE_PATTERNS]
    names. *)
Definition ignored_names : list str :=
  [L "node_modules"; L "package-lock.json"; L ".env"; L ".DS_Store"; L ".git"; L "public";
   L "__pycache__"; L "generate_tests.py"; L "output.txt"; L "postman.json";
   L "seedDatabase.ts"; L ".next"; L "dist"; L "scripts"; L "venv"; L "robot_tests";
   L ".sauce"; L ".storybook"; L "test"; L ".backtracejsrc"; L ".dockerignore";
   L ".dockerfile"; L "Dockerfile"; L "docker-compose.yml"; L "docker-compose.override.yml";
   L "docker-compose.override.yaml"; L ".github"; L "README.md"; L "Jenkinsfile";
   L "Makefile"; L "__tests__"; L "__mocks__"].

Definition ignored_endings : list str :=
  [L ".log"; L ".xml"; L ".png"; L ".zip"; L ".svg"; L ".jpg"].

Definition ignored_beginnings : list str := [L "LICENSE."; L "Makefile."].

Definition ignored_by_default (name : str) : bool :=
  mem name ignored_names
  || existsb (fun ending => endswith ending name) ignored_endings
  || existsb (fun beginning => startswith beginning name) ignored_beginnings.

(** The patterns of the scripts, read as names: a name matches one of
    them when it is one of thirty-two names, or ends with one of six
    endings, or begins with [LICENSE.] or [Makefile.]; the case of the
    letters counts, and a name that is [LICENSE] alone matches none. *)
Theorem default_patterns_by_name :
  forall name,
    matches_pattern fnmatch IGNORE_PATTERNS name = ignored_by_default name.
Proof.
  intros name. unfold matches_pattern, IGNORE_PATTERNS. cbn [existsb].
  change (L "*.log") with ("*"%char :: L ".log").
  change (L "*.xml") with ("*"%char :: L ".xml").
  change (L "*.png") with ("*"%char :: L ".png").
  change (L "*.zip") with ("*"%char :: L ".zip").
  change (L "*.svg") with ("*"%char :: L ".svg").
  change (L "*.jpg") with ("*"%char :: L ".jpg").
  change (L "LICENSE.*") with (L "LICENSE." ++ ["*"%char]).
  change (L "Makefile.*") with (L "Makefile." ++ ["*"%char]).
  rewrite !fnmatch_suffix by reflexivity.
  rewrite !fnmatch_prefix by reflexivity.
  rewrite !fnmatch_literal by reflexivity.
  unfold ignored_by_default, mem, ignored_names, ignored_endings, ignored_beginnings.
  cbn [existsb].
  apply eq_iff_eq_true.
  split; intros H;
    repeat (apply orb_prop in H; destruct H as [H | H]);
    rewrite H; repeat (rewrite orb_true_r || cbn [orb]); reflexivity.
Qed.

End DefaultPatterns.
(** ** The parsers: further properties *)

Module ParserExtras.
Import Re PyStrFacts ExtractorSpec Parser ParserSpec ParserFacts.
Import ScanFacts ValidationSpec ValidationFacts KeySpec KeyFacts.

(** A reply to [code2testt.py]: a sentence, a file in a fence at a path
    written with a backslash, and a prose file. *)
Definition fenced_files_reply : str :=
  join [nl] [L "Here are the files:";
             L "--- File: tests\login.robot ---"; L "```robotframework";
             L "*** Test Cases ***"; L "```";
             L "--- File: README.md"; L "  usage  "].

Definition fenced_files_blocks : list block :=
  [(L "--- File: tests\login.robot ---", L "tests\login.robot",
    [L "```robotframework"; L "*** Test Cases ***"; L "```"]);
   (L "--- File: README.md", L "README.md", [L "  usage"])].

(** A reply of the validation agent: the report in a fence, and one file. *)
Definition report_reply : str :=
  join [nl] [L "```json"; Lq "{'issues_found': true}"; L "```";
             L "--- File: pages/Login.robot (NEW)"; L "*** Settings ***"].

Definition report_blocks : list block :=
  [(L "--- File: pages/Login.robot (NEW)", L "pages/Login.robot", [L "*** Settings ***"])].

Lemma block_entry_t_key blocks : map fst (map block_entry_t blocks) = map block_key blocks.
Proof.
  induction blocks as [|[[m p] body] blocks IH]; simpl; [reflexivity|]. now rewrite IH.
Qed.

(** [parse_ai_response] of [code2testt.py].  Every reply is a preamble
    without marker line followed by blocks, each a marker line and the lines
    without marker after it.  The function returns the dictionary obtained
    by assigning, block after block, to the slash-normalized path of the
    marker the lines of the block without a fence line at their head and
    then without one at their end, joined by newlines and trimmed; the
    preamble is dropped and the last block is stored like the others.  When
    the normalized paths are pairwise distinct there is one entry per block,
    in the order of the markers. *)
Theorem parse_ai_response_entries :
  (forall response, exists preamble blocks,
      split nl (strip response) = reply_lines preamble blocks
      /\ Forall (fun l => marker_path l = None) preamble
      /\ Forall well_formed_block blocks)
  /\
  (forall response preamble blocks,
      split nl (strip response) = reply_lines preamble blocks ->
      Forall (fun l => marker_path l = None) preamble ->
      Forall well_formed_block blocks ->
      Code2testt.parse_ai_response response = PyDict.update [] (map block_entry_t blocks)
      /\ (NoDup (map block_key blocks) ->
          Code2testt.parse_ai_response response = map block_entry_t blocks)).
Proof.
  split.
  - intros response. apply lines_decompose.
  - intros response preamble blocks Hl Hp Hb.
    assert (Hf : Code2testt.parse_ai_response response
                 = PyDict.update [] (map block_entry_t blocks))
      by exact (@parse_ai_response_blocks response preamble blocks Hl Hp Hb).
    split; [exact Hf|].
    intros Hn. rewrite Hf. unfold PyDict.update. rewrite assign_distinct; [reflexivity|].
    cbn [app PyDict.keys]. unfold PyDict.keys. now rewrite block_entry_t_key.
Qed.

Lemma parse_ai_response_entries_witness :
  split nl (strip fenced_files_reply)
  = reply_lines [L "Here are the files:"] fenced_files_blocks
  /\ Code2testt.parse_ai_response fenced_files_reply
     = [(L "tests/login.robot", L "*** Test Cases ***"); (L "README.md", L "usage")].
Proof.
  assert (Hl : split nl (strip fenced_files_reply)
               = reply_lines [L "Here are the files:"] fenced_files_blocks)
    by (vm_compute; reflexivity).
  assert (Hp : Forall (fun l => marker_path l = None) [L "Here are the files:"]).
  { repeat constructor. }
  assert (Hb : Forall well_formed_block fenced_files_blocks).
  { repeat constructor; vm_compute; reflexivity. }
  assert (Hn : NoDup (map block_key fenced_files_blocks)).
  { repeat constructor; vm_compute; intuition discriminate. }
  split; [exact Hl|].
  exact (proj2 (proj2 parse_ai_response_entries fenced_files_reply _ fenced_files_blocks
                  Hl Hp Hb) Hn).
Defined.

(** [parse_validation_response], without patterns.  The report is decoded
    from the first fenced block of the response: the text between the first
    fence token and the next one, without a [json] tag at its head, trimmed.
    When there is no such block the report is [None] and a warning is
    printed; when the decoder raises anything but a decoding error, the call
    raises.  When the block does not decode, the text from the first opening
    brace to the last closing brace of the response is decoded instead, and
    the report is [None] when there is no such text or the decoder fails on
    it in any way.  The files are scanned from the text after the closing
    fence of the first block, whatever the block holds; they are scanned
    from the whole response when it has no block, and when nothing follows
    the block. *)
Theorem validation_report_and_section (json_loads : str -> loads_result) (response : str) :
  parse_validation_response json_loads response
  = (let files := scan_files file_delimiter_pattern_validation (section_after response) in
     let header := Stdout (L "--- Parsing Validation Response ---") in
     match first_block response with
     | Some (interior, _) =>
         match json_loads interior with
         | LoadsOk report =>
             Validated report files
               [header; Stdout (L "Successfully parsed validation report (JSON).")]
         | LoadsRaised msg => ValidationRaised msg [header]
         | JSONDecodeError e =>
             let err :=
               Stderr (L "Error: Failed to decode JSON validation report: " ++ e) in
             match option_map json_loads (brace_span response) with
             | Some (LoadsOk report) =>
                 Validated report files
                   [header; err;
                    Stdout (L "Successfully parsed validation report using fallback method.")]
             | Some _ =>
                 Validated JNull files
                   [header; err;
                    Stdout (L "All validation report parsing methods failed.")]
             | None => Validated JNull files [header; err]
             end
         end
     | None =>
         Validated JNull files
           [header;
            Stdout (L "Warning: No JSON validation report found in Agent 3's response.")]
     end).
Proof. exact (parse_validation_response_search json_loads response). Qed.

(** The files of [parse_validation_response].  The text after the first
    fenced block of the response (the whole response when there is none, or
    when nothing follows it) is a preamble without marker line followed by
    blocks, each a marker line of the validation form and the lines without
    marker after it.  Unless the call raises, the files returned are the
    dictionary obtained by assigning, block after block, the post-processed
    body to the slash-normalized path; when the normalized paths are
    pairwise distinct there is one entry per block, in the order of the
    markers. *)
Theorem validation_files_entries :
  (forall text, exists preamble blocks,
      split nl (strip text) = reply_lines preamble blocks
      /\ Forall (fun l => marker_of file_delimiter_pattern_validation l = None) preamble
      /\ Forall (well_formed file_delimiter_pattern_validation) blocks)
  /\
  (forall json_loads response preamble blocks,
      split nl (strip (section_after response)) = reply_lines preamble blocks ->
      Forall (fun l => marker_of file_delimiter_pattern_validation l = None) preamble ->
      Forall (well_formed file_delimiter_pattern_validation) blocks ->
      match parse_validation_response json_loads response with
      | Validated _ files _ =>
          files = PyDict.update [] (map block_entry blocks)
          /\ (NoDup (map block_key blocks) -> files = map block_entry blocks)
      | ValidationRaised _ _ => True
      end).
Proof.
  split.
  - intros text. apply lines_blocks.
  - intros json_loads response preamble blocks Hl Hp Hb.
    pose proof (parse_validation_response_files json_loads response) as Hf.
    destruct (parse_validation_response json_loads response) as [report files out|];
      [|exact I].
    rewrite (@scan_files_blocks _ _ preamble blocks Hl Hp Hb) in Hf.
    split; [exact Hf|].
    intros Hn. rewrite Hf. unfold PyDict.update. rewrite assign_distinct; [reflexivity|].
    cbn [app PyDict.keys]. unfold PyDict.keys. now rewrite block_entry_key.
Qed.

Lemma validation_files_entries_witness :
  split nl (strip (section_after report_reply)) = reply_lines [] report_blocks
  /\ match parse_validation_response json_loads_py report_reply with
     | Validated _ files _ =>
         files = PyDict.update [] (map block_entry report_blocks)
         /\ (NoDup (map block_key report_blocks) -> files = map block_entry report_blocks)
     | ValidationRaised _ _ => True
     end.
Proof.
  assert (Hl : split nl (strip (section_after report_reply)) = reply_lines [] report_blocks)
    by (vm_compute; reflexivity).
  assert (Hb : Forall (well_formed file_delimiter_pattern_validation) report_blocks).
  { repeat constructor; vm_compute; reflexivity. }
  split; [exact Hl|].
  exact (proj2 validation_files_entries json_loads_py report_reply [] report_blocks
           Hl (Forall_nil _) Hb).
Defined.

(** The keys of the dictionaries the three parsers return are pairwise
    distinct, and each is trimmed, holds no newline and holds no backslash:
    the path read from a marker is trimmed and its backslashes are turned
    into slashes, and a second marker with the same normalized path
    overwrites the entry of the first. *)
Theorem parser_keys_clean :
  (forall response, clean_keys (fst (parse_generation_response response)))
  /\ (forall response, clean_keys (Code2testt.parse_ai_response response))
  /\ (forall json_loads response,
        match parse_validation_response json_loads response with
        | Validated _ files _ => clean_keys files
        | ValidationRaised _ _ => True
        end).
Proof.
  split; [|split].
  - intros response. unfold parse_generation_response. cbn [fst]. apply scan_files_clean.
  - apply parse_ai_response_clean.
  - intros json_loads response.
    pose proof (parse_validation_response_files json_loads response) as Hf.
    destruct (parse_validation_response json_loads response) as [report files out|];
      [|exact I].
    rewrite Hf. apply scan_files_clean.
Qed.

End ParserExtras.
